(** * BayesML meta-tree learner: a shallow embedding of [bayesml/metatree/_metatree.py]

    The development follows the posterior-inference core of [LearnModel]:
    the marginal-likelihood recursion, the ensemble compactor, the
    Metropolis-Hastings driver with its proposal-ceiling tuner, the
    replica-exchange driver and the [update_posterior] entry point.

    Conventions.
    - A Python [float] (and a numpy float64) is a real number of [R]: rounding,
      infinities and NaN are left out.  [np.log], [np.exp] are [ln], [exp].
    - A Python [int] used as a counter or an index is a [Z] or a [nat].
    - A Python exception is a value of [exception]; a function that can raise
      returns a [result].
    - [self] is threaded explicitly: a method that mutates the learner takes
      the state and returns the new one.
    - The random generator, the leaf sub-model and the random-forest trainer
      are interfaces (type classes): their code is not part of this module.
      The drivers take the proposal kernel through an interface too, so that
      what is proved of them holds for every kernel; the kernel of the code,
      [_generate_truncated_and_update], is [Kernel.kernel]. *)

From Stdlib Require Import Reals Lra Lia ZArith String Bool Arith List.
Import ListNotations.

Set Implicit Arguments.

(* ================================================================== *)
(** * Python values, exceptions and indexing *)
(* ================================================================== *)

Module Py.

(** The exceptions the modelled code can raise.  The two [bayesml] error
    classes carry a tag naming the check that raised them. *)
Inductive exception : Type :=
| ParameterFormatError (what : string)
| DataFormatError (what : string)
| IndexError
| TypeError
| ValueError
| ZeroDivisionError
| AttributeError
| RecursionError.

Inductive result (A : Type) : Type :=
| Ok (a : A)
| Raise (e : exception).

Arguments Ok {A} a.
Arguments Raise {A} e.

Definition bind {A B : Type} (m : result A) (f : A -> result B) : result B :=
  match m with
  | Ok a => f a
  | Raise e => Raise e
  end.

Definition is_ok {A : Type} (m : result A) : bool :=
  match m with Ok _ => true | Raise _ => false end.

(** [seq[i]] for an index that is known to be non-negative. *)
Definition getitem {A : Type} (l : list A) (i : nat) : result A :=
  match nth_error l i with
  | Some a => Ok a
  | None => Raise IndexError
  end.

(** [seq[i] = v]: numpy arrays and Python lists raise out of range. *)
Fixpoint setitem {A : Type} (l : list A) (i : nat) (v : A) : result (list A) :=
  match l, i with
  | [], _ => Raise IndexError
  | _ :: tl, O => Ok (v :: tl)
  | hd :: tl, S i' =>
      match setitem tl i' v with
      | Ok tl' => Ok (hd :: tl')
      | Raise e => Raise e
      end
  end.

(** [seq[-1]] *)
Definition getlast {A : Type} (l : list A) : result A :=
  match rev l with
  | a :: _ => Ok a
  | [] => Raise IndexError
  end.

(** [seq[-2]] *)
Definition getlast2 {A : Type} (l : list A) : result A :=
  match rev l with
  | _ :: a :: _ => Ok a
  | _ => Raise IndexError
  end.

(** [seq[-1] = v] *)
Definition setlast {A : Type} (l : list A) (v : A) : result (list A) :=
  match rev l with
  | _ :: tl => Ok (rev tl ++ [v])
  | [] => Raise IndexError
  end.

(** [seq.append(v)] *)
Definition append {A : Type} (l : list A) (v : A) : list A := l ++ [v].

(** [for x in xs: s = body(s, x)], stopping at the first exception. *)
Fixpoint for_each {S X : Type} (body : S -> X -> result S) (xs : list X) (s : S)
  : result S :=
  match xs with
  | [] => Ok s
  | x :: xs' =>
      match body s x with
      | Ok s' => for_each body xs' s'
      | Raise e => Raise e
      end
  end.

(** [range(a, b)] *)
Definition range2 (a b : nat) : list nat := seq a (b - a).
Definition range (n : nat) : list nat := seq 0 n.

(** [n] runs of [body], stopping at the first exception. *)
Fixpoint repeatM {S : Type} (n : nat) (body : S -> result S) (s : S) : result S :=
  match n with
  | O => Ok s
  | S n' =>
      match body s with
      | Ok s' => repeatM n' body s'
      | Raise e => Raise e
      end
  end.

(** [while cond(s): s = body(s)].  The loop is given a bound on its
    iterations; a loop that needs more raises nothing in Python, so running
    out of the bound is kept apart from every Python outcome. *)
Inductive loop_result (S : Type) : Type :=
| Finished (r : result S)
| OutOfFuel.

Arguments Finished {S} r.
Arguments OutOfFuel {S}.

Fixpoint while {S : Type} (fuel : nat) (cond : S -> bool) (body : S -> result S)
  (s : S) : loop_result S :=
  if cond s then
    match fuel with
    | O => OutOfFuel
    | Datatypes.S fuel' =>
        match body s with
        | Ok s' => while fuel' cond body s'
        | Raise e => Finished (Raise e)
        end
    end
  else Finished (Ok s).

End Py.

Import Py.

Declare Scope py_scope.
Delimit Scope py_scope with py.
Notation "x <- m ;; k" := (Py.bind m (fun x => k))
  (at level 61, m at next level, right associativity) : py_scope.
Notation "' pat <- m ;; k" := (Py.bind m (fun x => match x with pat => k end))
  (at level 61, pat pattern, m at next level, right associativity) : py_scope.
Open Scope py_scope.

(* ================================================================== *)
(** * The numpy functions the module calls *)
(* ================================================================== *)

Module Np.

Open Scope R_scope.

Definition ltb (x y : R) : bool := if Rlt_dec x y then true else false.
Definition leb (x y : R) : bool := if Rle_dec x y then true else false.

(** [np.log], [np.exp], [np.logaddexp] *)
Definition log (x : R) : R := ln x.
Definition logaddexp (a b : R) : R := ln (exp a + exp b).

(** [a.sum()] *)
Definition sum (a : list R) : R := fold_right Rplus 0 a.

(** A float that may be an infinity or nan.  [np.log(0.0)] is [-inf] and
    [np.log] of a negative number is nan (numpy warns and goes on); sums,
    [np.exp] and [np.logaddexp] take them as IEEE 754 does. *)
Inductive xreal : Type :=
| Finite (x : R)
| NegInf
| PosInf
| NaN.

Definition xlog (x : R) : xreal :=
  if Rlt_dec 0 x then Finite (ln x)
  else if Req_dec_T x 0 then NegInf else NaN.

Definition xadd (a b : xreal) : xreal :=
  match a, b with
  | NaN, _ | _, NaN => NaN
  | Finite x, Finite y => Finite (x + y)
  | NegInf, PosInf | PosInf, NegInf => NaN
  | NegInf, _ | _, NegInf => NegInf
  | PosInf, _ | _, PosInf => PosInf
  end.

Definition xneg (a : xreal) : xreal :=
  match a with
  | Finite x => Finite (- x)
  | NegInf => PosInf
  | PosInf => NegInf
  | NaN => NaN
  end.

Definition xsub (a b : xreal) : xreal := xadd a (xneg b).

Definition xexp (a : xreal) : xreal :=
  match a with
  | Finite x => Finite (exp x)
  | NegInf => Finite 0
  | PosInf => PosInf
  | NaN => NaN
  end.

Definition xlogaddexp (a b : xreal) : xreal :=
  match a, b with
  | NaN, _ | _, NaN => NaN
  | PosInf, _ | _, PosInf => PosInf
  | NegInf, _ => b
  | _, NegInf => a
  | Finite x, Finite y => Finite (logaddexp x y)
  end.

(** The float as a real.  An infinity or nan has none: the value [0] stands
    for them, and what is proved of a stored value is proved where they do
    not arise. *)
Definition real_of (a : xreal) : R :=
  match a with
  | Finite x => x
  | _ => 0
  end.

(** [np.allclose(a, b)] with the default [rtol=1e-05], [atol=1e-08], on two
    one-dimensional arrays.  Shapes that differ cannot be broadcast here
    (threshold arrays have at least two entries): numpy raises [ValueError]. *)
Definition rtol : R := 1 / 100000.
Definition atol : R := 1 / 100000000.

Definition isclose (a b : R) : bool := leb (Rabs (a - b)) (atol + rtol * Rabs b).

Fixpoint allclose (a b : list R) : result bool :=
  match a, b with
  | [], [] => Ok true
  | x :: a', y :: b' =>
      match allclose a' b' with
      | Ok r => Ok (isclose x y && r)
      | Raise e => Raise e
      end
  | _, _ => Raise ValueError
  end.

(** [np.any(v != v[0])] on an integer vector *)
Definition any_differs_from_first (v : list Z) : result bool :=
  v0 <- getitem v 0 ;;
  Ok (existsb (fun x => negb (Z.eqb x v0)) v).

End Np.

Import Np.

(* ================================================================== *)
(** * Interfaces of the collaborators *)
(* ================================================================== *)

(** The leaf sub-model ([SubModel.LearnModel]): the methods the learner
    calls.  [_update_posterior] mutates the sub-model, so it returns the new
    one; the linear-regression sub-model takes the covariates too.
    [_check_sample] raises on a sample the family does not accept. *)
Class SubModel (M : Type) : Type := {
  sm_update_posterior : M -> list R -> M;
  sm_update_posterior_lr : M -> list (list R) -> list R -> M;
  sm_calc_log_marginal_likelihood : M -> R;
  sm_check_sample : list (list R) -> list R -> result unit;
  sm_is_linearregression : bool
}.

(** [numpy.random.Generator]: the two draws the samplers make.  [random]
    returns a float of the half-open interval [0,1); [choice] returns an
    element of a non-empty sequence and raises [ValueError] on an empty one. *)
Class Generator (G : Type) : Type := {
  rng_random : G -> R * G;
  rng_choice : G -> list nat -> result (nat * G);
  rng_random_range : forall g, (0 <= fst (rng_random g) < 1)%R;
  rng_choice_empty : forall g, rng_choice g [] = Raise ValueError;
  rng_choice_in : forall g x xs, exists y g',
      rng_choice g (x :: xs) = Ok (y, g') /\ In y (x :: xs)
}.

(* ================================================================== *)
(** * Nodes and the constants of the learner *)
(* ================================================================== *)

(** [_Node].  [k_candidates], [ranges] and [map_leaf] are read by none of the
    functions below and are left out.  [children=None] is the empty list
    (indexing either raises).  [division_flag] is an attribute the generator
    adds: [None] is a node that does not have it. *)
#[warnings="-register-all"]
Inductive node (M : Type) : Type :=
  Node {
    depth : nat;
    k : option nat;
    h_g : R;
    thresholds : option (list R);
    leaf : bool;
    division_flag : option bool;
    sub_model : M;
    log_marginal_likelihood : option R;
    log_children_marginal_likelihood : list R;
    children : list (node M)
  }.

Arguments Node {M}.

(** Induction on a node with the hypothesis on every child. *)
Section NodeInduction.

Context {M : Type} (P : node M -> Prop).
Hypothesis step : forall d k h th lf df sm lml lcml cs,
    Forall P cs -> P (Node d k h th lf df sm lml lcml cs).

Fixpoint node_induction (n : node M) : P n :=
  match n with
  | Node d k h th lf df sm lml lcml cs =>
      step d k h th lf df sm lml lcml
        ((fix all (l : list (node M)) : Forall P l :=
            match l with
            | [] => Forall_nil P
            | x :: l' => Forall_cons x (node_induction x) (all l')
            end) cs)
  end.

End NodeInduction.

(** The constants [c_*] of a learner. *)
Record constants : Type := {
  c_dim_continuous : nat;
  c_dim_categorical : nat;
  c_num_children_vec : list nat;
  c_max_depth : nat;
  c_num_assignment_vec : list Z
}.

Definition c_dim_features (c : constants) : nat :=
  (c_dim_continuous c + c_dim_categorical c)%nat.

(** One row of the training arrays: [x_continuous[n]], [x_categorical[n]],
    [y[n]].  The three arrays have the same first dimension
    ([_check_sample]), so a data set is a list of rows and a boolean mask
    [a[indices]] keeps the rows the mask selects. *)
Record row : Type := {
  x_continuous : list R;
  x_categorical : list nat;
  y : R
}.

Definition dataset : Type := list row.

(* ================================================================== *)
(** * The ensemble compactor *)
(* ================================================================== *)

Module Compactor.

Section WithConstants.

Context {M : Type}.
Variable c : constants.

(** The loop [for i in range(n): if not compare(children1[i], children2[i]):
    return False] followed by [return True], on the two children lists. *)
Fixpoint compare_children (compare : node M -> node M -> result bool)
  (cs1 cs2 : list (node M)) (n : nat) {struct cs1} : result bool :=
  match n with
  | O => Ok true
  | S n' =>
      match cs1, cs2 with
      | c1 :: cs1', c2 :: cs2' =>
          match compare c1 c2 with
          | Ok true => compare_children compare cs1' cs2' n'
          | Ok false => Ok false
          | Raise e => Raise e
          end
      | _, _ => Raise IndexError
      end
  end.

(** [node1.k != node2.k], where [node2.k] may be [None] *)
Definition k_differs (k1 : nat) (k2 : option nat) : bool :=
  negb (match k2 with
        | Some k2 => (k1 =? k2)%nat
        | None => false
        end).

(** [_compare_metatree_recursion] *)
Fixpoint _compare_metatree_recursion (node1 node2 : node M) {struct node1}
  : result bool :=
  match node1 with
  | Node _ k1 _ th1 leaf1 _ _ _ _ children1 =>
    if leaf1 then
      if leaf node2 then Ok true else Ok false
    else
      if leaf node2 then Ok false
      else
        match k1 with
        | None => Raise TypeError
        | Some k1 =>
          if (k1 <? c_dim_continuous c)%nat then
            if k_differs k1 (k node2) then Ok false
            else
              match th1, thresholds node2 with
              | Some t1, Some t2 =>
                  close <- allclose t1 t2 ;;
                  if negb close then Ok false
                  else
                    n <- getitem (c_num_children_vec c) k1 ;;
                    compare_children _compare_metatree_recursion
                      children1 (children node2) n
              | _, _ => Raise TypeError
              end
          else
            if k_differs k1 (k node2) then Ok false
            else
              n <- getitem (c_num_children_vec c) k1 ;;
              compare_children _compare_metatree_recursion
                children1 (children node2) n
        end
  end.

(** The inner loop of [_marge_metatrees]: [for j in range(i+1,num_metatrees)],
    on the list and the weight vector as they stand.  A slot of the list that
    was set to [None] is [None] here; comparing it raises [AttributeError]. *)
Fixpoint marge_inner (metatree_list : list (option (node M)))
  (metatree_prob_vec : list R) (i : nat) (js : list nat)
  : result (list (option (node M)) * list R) :=
  match js with
  | [] => Ok (metatree_list, metatree_prob_vec)
  | j :: js' =>
      ti <- getitem metatree_list i ;;
      tj <- getitem metatree_list j ;;
      match ti, tj with
      | Some ni, Some nj =>
          same <- _compare_metatree_recursion ni nj ;;
          if same then
            metatree_list' <- setitem metatree_list i None ;;
            pi <- getitem metatree_prob_vec i ;;
            pj <- getitem metatree_prob_vec j ;;
            prob1 <- setitem metatree_prob_vec j (pj + pi)%R ;;
            prob2 <- setitem prob1 i (-1)%R ;;
            Ok (metatree_list', prob2)
          else marge_inner metatree_list metatree_prob_vec i js'
      | _, _ => Raise AttributeError
      end
  end.

Definition marge_outer (num_metatrees : nat)
  (st : list (option (node M)) * list R) (i : nat)
  : result (list (option (node M)) * list R) :=
  marge_inner (fst st) (snd st) i (range2 (i + 1) num_metatrees).

(** [[tmp for tmp in metatree_list if tmp != None]] *)
Fixpoint drop_none (l : list (option (node M))) : list (node M) :=
  match l with
  | [] => []
  | Some n :: l' => n :: drop_none l'
  | None :: l' => drop_none l'
  end.

(** [_marge_metatrees] *)
Definition _marge_metatrees (metatree_list : list (node M))
  (metatree_prob_vec : list R) : result (list (node M) * list R) :=
  let num_metatrees := List.length metatree_list in
  '(l, p) <- for_each (marge_outer num_metatrees) (range num_metatrees)
               (map Some metatree_list, metatree_prob_vec) ;;
  Ok (drop_none l, filter (fun x => ltb (-0.5)%R x) p).

(** ** What the compactor computes, as a recursion on the list

    The head of the list is compared with the trees after it, in order.  When
    one of them is equal, the head is dropped and its weight is added to the
    first equal tree; otherwise the head is kept with its weight. *)

(** The position, in [ts], of the first tree the comparison finds equal to
    [t]. *)
Fixpoint first_equal (t : node M) (ts : list (node M)) : result (option nat) :=
  match ts with
  | [] => Ok None
  | t' :: ts' =>
      same <- _compare_metatree_recursion t t' ;;
      if same then Ok (Some O)
      else
        r <- first_equal t ts' ;;
        Ok (option_map S r)
  end.

Fixpoint add_at (j : nat) (w : R) (ps : list R) : list R :=
  match ps, j with
  | [], _ => []
  | p :: ps', O => (p + w)%R :: ps'
  | p :: ps', S j' => p :: add_at j' w ps'
  end.

Fixpoint merge_into_later (ts : list (node M)) (ps : list R)
  : result (list (node M) * list R) :=
  match ts, ps with
  | [], _ => Ok ([], [])
  | t :: ts', p :: ps' =>
      r <- first_equal t ts' ;;
      match r with
      | Some j => merge_into_later ts' (add_at j p ps')
      | None =>
          '(ots, ops) <- merge_into_later ts' ps' ;;
          Ok (t :: ots, p :: ops)
      end
  | _ :: _, [] => Raise IndexError
  end.

(** The same recursion, keeping the slots of the dropped trees as the code
    marks them ([None] in the list, [-1] in the vector). *)
Fixpoint merge_marked (ts : list (node M)) (ps : list R)
  : result (list (option (node M)) * list R) :=
  match ts, ps with
  | [], _ => Ok ([], ps)
  | t :: ts', p :: ps' =>
      r <- first_equal t ts' ;;
      match r with
      | Some j =>
          '(l, q) <- merge_marked ts' (add_at j p ps') ;;
          Ok (None :: l, (-1)%R :: q)
      | None =>
          '(l, q) <- merge_marked ts' ps' ;;
          Ok (Some t :: l, p :: q)
      end
  | _ :: _, [] => Raise IndexError
  end.

(** ** The compactor of the specification's section 4.6, in its words

    "Merge by retaining the first of any equal pair and summing
    multiplicities into it; normalize multiplicities into probabilities by
    dividing by their sum." *)
Definition structurally_equal (a b : node M) : bool :=
  match _compare_metatree_recursion a b with
  | Ok true => true
  | _ => false
  end.

(** The weight of the trees of [ts] equal to [t], and the trees and weights
    that are left. *)
Fixpoint absorb_equal (t : node M) (ts : list (node M)) (ps : list R)
  : R * (list (node M) * list R) :=
  match ts, ps with
  | t' :: ts', p' :: ps' =>
      let '(w, (rt, rp)) := absorb_equal t ts' ps' in
      if structurally_equal t t' then ((p' + w)%R, (rt, rp))
      else (w, (t' :: rt, p' :: rp))
  | _, _ => (0%R, ([], []))
  end.

Fixpoint spec_merge_retaining_first (fuel : nat) (ts : list (node M))
  (ps : list R) : list (node M) * list R :=
  match fuel, ts, ps with
  | S fuel', t :: ts', p :: ps' =>
      let '(w, (rt, rp)) := absorb_equal t ts' ps' in
      let '(ots, ops) := spec_merge_retaining_first fuel' rt rp in
      (t :: ots, (p + w)%R :: ops)
  | _, _, _ => ([], [])
  end.

Definition spec_normalise (ms : list R) : list R :=
  map (fun m => (m / Np.sum ms)%R) ms.

Definition spec_compact (ts : list (node M)) (ms : list R)
  : list (node M) * list R :=
  let '(ots, oms) := spec_merge_retaining_first (List.length ts) ts ms in
  (ots, spec_normalise oms).

(** ** Trees on which the comparison raises nothing

    An inner node has a feature [k] in the range of [c_num_children_vec], a
    threshold array of [num_children + 1] entries when [k] is continuous, and
    at least [num_children] children. *)
Fixpoint well_formed (n : node M) : bool :=
  match n with
  | Node _ k _ th lf _ _ _ _ cs =>
      lf ||
      match k with
      | None => false
      | Some kk =>
          match nth_error (c_num_children_vec c) kk with
          | None => false
          | Some nc =>
              (if (kk <? c_dim_continuous c)%nat
               then match th with
                    | Some t => (List.length t =? nc + 1)%nat
                    | None => false
                    end
               else true)
              && (nc <=? List.length cs)%nat
              && forallb well_formed cs
          end
      end
  end.

Definition no_two_structurally_equal (ts : list (node M)) : Prop :=
  ForallOrdPairs (fun a b => _compare_metatree_recursion a b = Ok false) ts.

(** ** Structural equality, in the words of the specification

    Modelled on the specification's section 4.6: "Two trees are structurally
    equal if, recursively, both are leaves, or both split on the same
    feature with (for continuous features) numerically close thresholds and
    all corresponding children are recursively equal".  Numerically close is
    the closeness of numpy, of the first array to the second:
    [|x - y| <= atol + rtol * |y|] entry by entry. *)
Definition numerically_close (t1 t2 : list R) : Prop :=
  Forall2 (fun x y => (Rabs (x - y) <= atol + rtol * Rabs y)%R) t1 t2.

#[warnings="-register-all"]
Inductive spec_structurally_equal : node M -> node M -> Prop :=
| equal_leaves (a b : node M) :
    leaf a = true -> leaf b = true -> spec_structurally_equal a b
| equal_splits (a b : node M) (kk nc : nat) :
    leaf a = false -> leaf b = false ->
    k a = Some kk -> k b = Some kk ->
    ((kk < c_dim_continuous c)%nat ->
     exists t1 t2, thresholds a = Some t1 /\ thresholds b = Some t2 /\
                   numerically_close t1 t2) ->
    nth_error (c_num_children_vec c) kk = Some nc ->
    Forall2 spec_structurally_equal
      (firstn nc (children a)) (firstn nc (children b)) ->
    spec_structurally_equal a b.

End WithConstants.

End Compactor.

(* ================================================================== *)
(** * The marginal-likelihood recursion *)
(* ================================================================== *)

Module Recursion.

Section WithSubModel.

Context {M : Type} `{SubModel M}.
Variable c : constants.

(** The column [y] of a data set. *)
Definition targets (data : dataset) : list R := map y data.

(** [a[indices]] for the mask [indices = [test(r) for r in rows]]; the test
    reads a column and raises when a row has no such column. *)
Fixpoint select (test : row -> result bool) (data : dataset) : result dataset :=
  match data with
  | [] => Ok []
  | r :: data' =>
      b <- test r ;;
      rest <- select test data' ;;
      Ok (if b then r :: rest else rest)
  end.

(** The mask of child [i] of a node that splits the continuous feature [k]:
    [x < thresholds[1]] for the first child, [thresholds[i] <= x] for the
    last, [thresholds[i] <= x < thresholds[i+1]] in between. *)
Definition select_continuous (th : option (list R)) (nc k i : nat)
  (data : dataset) : result dataset :=
  match th with
  | None => Raise TypeError
  | Some t =>
      if (i =? 0)%nat then
        hi <- getitem t (i + 1) ;;
        select (fun r => x <- getitem (x_continuous r) k ;; Ok (ltb x hi)) data
      else if (i =? nc - 1)%nat then
        lo <- getitem t i ;;
        select (fun r => x <- getitem (x_continuous r) k ;; Ok (leb lo x)) data
      else
        lo <- getitem t i ;;
        hi <- getitem t (i + 1) ;;
        select (fun r => x <- getitem (x_continuous r) k ;;
                         Ok (leb lo x && ltb x hi)) data
  end.

(** The mask of child [i] of a node that splits the categorical feature of
    column [col]: [x_categorical[:,col] == i]. *)
Definition select_categorical (col i : nat) (data : dataset) : result dataset :=
  select (fun r => x <- getitem (x_categorical r) col ;; Ok (x =? i)%nat) data.

(** The rows routed to child [i] of a node with feature [k]. *)
Definition route (th : option (list R)) (nc k i : nat) (data : dataset)
  : result dataset :=
  if (k <? c_dim_continuous c)%nat then select_continuous th nc k i data
  else select_categorical (k - c_dim_continuous c) i data.

(** The loop over the children of an inner node, from child [i] on with
    [todo] children left; [cs] are the children from [i] on.  A child with
    rows is updated and its value stored in
    [log_children_marginal_likelihood[i]]; a child without rows is not
    looked at and [0.0] is stored. *)
Fixpoint update_children_without (routed : nat -> result dataset)
  (i todo : nat) (lcml : list R) : result (list R) :=
  match todo with
  | O => Ok lcml
  | S todo' =>
      rows <- routed i ;;
      match rows with
      | [] =>
          lcml' <- setitem lcml i 0%R ;;
          update_children_without routed (S i) todo' lcml'
      | _ :: _ => Raise IndexError
      end
  end.

Fixpoint update_children
  (update : node M -> dataset -> result (R * node M))
  (routed : nat -> result dataset)
  (cs : list (node M)) (i todo : nat) (lcml : list R) {struct cs}
  : result (list (node M) * list R) :=
  match cs with
  | [] =>
      lcml' <- update_children_without routed i todo lcml ;;
      Ok ([], lcml')
  | child :: cs' =>
      match todo with
      | O => Ok (cs, lcml)
      | S todo' =>
          rows <- routed i ;;
          match rows with
          | [] =>
              lcml' <- setitem lcml i 0%R ;;
              '(cs'', lcml'') <- update_children update routed cs' (S i) todo' lcml' ;;
              Ok (child :: cs'', lcml'')
          | _ :: _ =>
              '(v, child') <- update child rows ;;
              lcml' <- setitem lcml i v ;;
              '(cs'', lcml'') <- update_children update routed cs' (S i) todo' lcml' ;;
              Ok (child' :: cs'', lcml'')
          end
      end
  end.

(** [_update_posterior_leaf_batch]: the sub-model absorbs [y] and gives its
    log marginal likelihood. *)
Definition _update_posterior_leaf_batch (sm : M) (data : dataset) : M * R :=
  let sm' := sm_update_posterior sm (targets data) in
  (sm', sm_calc_log_marginal_likelihood sm').

(** [_update_posterior_leaf_lr_batch]: the same with the covariates. *)
Definition _update_posterior_leaf_lr_batch (sm : M) (data : dataset) : M * R :=
  let sm' := sm_update_posterior_lr sm (map x_continuous data) (targets data) in
  (sm', sm_calc_log_marginal_likelihood sm').

(** The body [_update_posterior_recursion_batch] and
    [_update_posterior_recursion_lr_batch] share line for line, for the leaf
    update [leaf_batch] that tells them apart: the value returned and the
    node as the call leaves it. *)
Fixpoint update_posterior_recursion (leaf_batch : M -> dataset -> M * R)
  (n : node M) (data : dataset) {struct n} : result (R * node M) :=
  match n with
  | Node d k h th lf df sm lml lcml cs =>
      if lf then
        let '(sm', v) := leaf_batch sm data in
        Ok (v, Node d k h th lf df sm' (Some v) lcml cs)
      else
        match k with
        | None => Raise TypeError
        | Some kk =>
            nc <- getitem (c_num_children_vec c) kk ;;
            '(cs', lcml') <-
              update_children (update_posterior_recursion leaf_batch)
                (fun i => route th nc kk i data) cs 0 nc lcml ;;
            let tmp1 := xadd (xlog h) (Finite (Np.sum lcml')) in
            let '(sm', v) := leaf_batch sm data in
            let tmp2 := xlogaddexp (xadd (xlog (1 - h)) (Finite v)) tmp1 in
            Ok (real_of tmp2,
                Node d k (real_of (xexp (xsub tmp1 tmp2))) th lf df sm'
                  (Some v) lcml' cs')
        end
  end.

(** [_update_posterior_recursion_batch] *)
Definition _update_posterior_recursion_batch
  : node M -> dataset -> result (R * node M) :=
  update_posterior_recursion _update_posterior_leaf_batch.

(** [_update_posterior_recursion_lr_batch] *)
Definition _update_posterior_recursion_lr_batch
  : node M -> dataset -> result (R * node M) :=
  update_posterior_recursion _update_posterior_leaf_lr_batch.

(** Trees and data on which the recursion raises nothing. *)
Fixpoint well_formed (n : node M) : bool :=
  match n with
  | Node _ k _ th lf _ _ _ lcml cs =>
      lf ||
      match k with
      | None => false
      | Some kk =>
          match nth_error (c_num_children_vec c) kk with
          | None => false
          | Some nc =>
              (kk <? c_dim_features c)%nat
              && (if (kk <? c_dim_continuous c)%nat
                  then match th with
                       | Some t => (List.length t =? nc + 1)%nat
                       | None => false
                       end
                  else true)
              && (nc <=? List.length cs)%nat
              && (List.length lcml =? nc)%nat
              && forallb well_formed cs
          end
      end
  end.

(** The contribution of child [i] of an inner node to the sum of the
    children's log marginal likelihoods: what the recursion returns on the
    child with the rows routed to it, and exactly [0] when no row is. *)
Definition child_contribution (n : node M) (data : dataset) (i : nat) : R :=
  match k n with
  | None => 0%R
  | Some kk =>
      match getitem (c_num_children_vec c) kk with
      | Raise _ => 0%R
      | Ok nc =>
          match route (thresholds n) nc kk i data with
          | Ok (r :: rows) =>
              match nth_error (children n) i with
              | Some child =>
                  match _update_posterior_recursion_batch child (r :: rows) with
                  | Ok (v, _) => v
                  | Raise _ => 0%R
                  end
              | None => 0%R
              end
          | _ => 0%R
          end
      end
  end.

(** The number of children the loop visits. *)
Definition num_children (n : node M) : nat :=
  match k n with
  | None => O
  | Some kk =>
      match getitem (c_num_children_vec c) kk with
      | Ok nc => nc
      | Raise _ => O
      end
  end.

(** The rows the loop routes to child [i]. *)
Definition routed_to (n : node M) (data : dataset) (i : nat) : result dataset :=
  match k n with
  | None => Raise TypeError
  | Some kk => route (thresholds n) (num_children n) kk i data
  end.

(** What the loop over the children leaves for its child [i0 + j]: [0] when
    no row is routed to it, the value of the updated child otherwise. *)
Definition entry_of_child (upd : node M -> dataset -> result (R * node M))
  (routed : nat -> result dataset) (cs cs' : list (node M)) (lcml' : list R)
  (i0 j : nat) : Prop :=
  exists rows, routed (i0 + j)%nat = Ok rows /\
    match rows with
    | [] => getitem lcml' (i0 + j) = Ok 0%R
    | _ :: _ =>
        exists child v child',
          nth_error cs j = Some child /\
          upd child rows = Ok (v, child') /\
          nth_error cs' j = Some child' /\
          getitem lcml' (i0 + j) = Ok v
    end.

Definition well_formed_row (r : row) : bool :=
  (List.length (x_continuous r) =? c_dim_continuous c)%nat
  && (List.length (x_categorical r) =? c_dim_categorical c)%nat.

End WithSubModel.

End Recursion.

(* ================================================================== *)
(** * The learner and the generator of candidate trees *)
(* ================================================================== *)

(** The attributes of [LearnModel] that outlive a call: the constants, the
    hyperparameters the samplers read, the sub-model every new node starts
    from (a [SubModel.LearnModel] built from [sub_constants] and
    [sub_h0_params] and set to [sub_hn_params]) and the posterior ensemble. *)
Record learner (M : Type) : Type := {
  consts : constants;
  h0_k_weight_vec : list R;
  hn_g : R;
  _root_k_candidates : list nat;
  new_sub_model : M;
  hn_metatree_list : list (node M);
  hn_metatree_prob_vec : option (list R)
}.

(** [_generate_truncated_and_update] (and its [_lr] twin, chosen by
    [SubModel is linearregression]): the proposal kernel.  It is given the
    node [last] of the current tree ([None] when regenerating), the fresh
    root [new] and the flag, draws from the generator, fills [new] in place
    and sets [division_flag] on the nodes of [last] and [new] it walks.  It
    returns the log marginal likelihood of [new].  Here it returns also the
    two trees as it leaves them and the generator. *)
Class Proposal (M G : Type) : Type := {
  _generate_truncated_and_update :
    constants -> R (* self._g_max *) -> string (* self._threshold_type *) ->
    M (* self._hn_node_sub_model *) -> nat (* self._num_children *) ->
    G -> option (node M) -> node M -> bool -> dataset ->
    result (R * option (node M) * node M * G)
}.

(** [numpy.random.default_rng(seed)] *)
Class Seeding (G : Type) : Type := {
  default_rng : option Z -> G
}.

(** [a / b] on Python floats *)
Definition py_div (a b : R) : result R :=
  if Req_dec_T b 0 then Raise ZeroDivisionError else Ok (a / b)%R.

(* ================================================================== *)
(** * What the two samplers share *)
(* ================================================================== *)

Module Chain.

Section WithInterfaces.

Context {M G : Type} `{Generator G}.

Variable self : learner M.

(** [tmp = 0; for i in range(self._num_children): tmp += f(children[i])] *)
Fixpoint sum_children (f : node M -> result R) (cs : list (node M)) (n : nat)
  (tmp : R) {struct cs} : result R :=
  match n with
  | O => Ok tmp
  | S n' =>
      match cs with
      | [] => Raise IndexError
      | child :: cs' =>
          v <- f child ;;
          sum_children f cs' n' (tmp + v)%R
      end
  end.

(** [_calc_truncated_posterior_lean], for the ceiling [g_max] and the
    branching factor [num_children] of the sampler. *)
Fixpoint _calc_truncated_posterior_lean (g_max : R) (num_children : nat)
  (n : node M) {struct n} : result R :=
  match n with
  | Node _ k h _ _ df _ _ _ cs =>
      match k with
      | None => Ok 0%R
      | Some _ =>
          match df with
          | None => Raise AttributeError
          | Some true =>
              tmp <- sum_children
                       (_calc_truncated_posterior_lean g_max num_children)
                       cs num_children 0%R ;;
              Ok (log (Rmin h g_max) + tmp)%R
          | Some false => Ok (log (1 - Rmin h g_max))%R
          end
      end
  end.

(** The fresh root every proposal starts from:
    [_Node(0, self._root_k_candidates, self.hn_g,
           self.rng.choice(self._root_k_candidates),
           sub_model=copy.deepcopy(self._hn_node_sub_model), ...,
           log_children_marginal_likelihood=np.zeros(self._num_children))] *)
Definition fresh_root (g : G) (sm : M) (num_children : nat)
  : result (node M * G) :=
  '(kk, g') <- rng_choice g (_root_k_candidates self) ;;
  Ok (Node 0 (Some kk) (hn_g self) None false None sm None
        (repeat 0%R num_children) [], g').

(** The checks at the entry of [_MTMCMC] and [_REMTMCMC], in the order of
    the code. *)
Definition all_same (v : list nat) : result bool :=
  v0 <- getitem v 0 ;;
  Ok (negb (existsb (fun x => negb (x =? v0)%nat) v)).

Definition any_positive (v : list Z) : bool := existsb (fun x => (0 <? x)%Z) v.

(** [np.allclose(v, v[0])] *)
Definition allclose_first (v : list R) : result bool :=
  v0 <- getitem v 0 ;;
  Ok (forallb (fun a => isclose a v0) v).

Definition check_uniform_configuration : result nat :=
  same <- all_same (c_num_children_vec (consts self)) ;;
  if negb same then Raise (ParameterFormatError "c_num_children_vec") else
  num_children <- getitem (c_num_children_vec (consts self)) 0 ;;
  if any_positive (c_num_assignment_vec (consts self))
  then Raise (ParameterFormatError "c_num_assignment_vec") else
  close <- allclose_first (h0_k_weight_vec self) ;;
  if negb close then Raise (ParameterFormatError "h0_k_weight_vec") else
  Ok num_children.

Definition supported_threshold_type (t : string) : bool :=
  (t =? "1d_kmeans")%string || (t =? "sample_midpoint")%string.

(** [np.array(counts, dtype=float)] divided by its sum *)
Definition normalised_counts (counts : list Z) : list R :=
  let v := map IZR counts in
  map (fun x => (x / Np.sum v)%R) v.

End WithInterfaces.

End Chain.

(* ================================================================== *)
(** * The Metropolis-Hastings driver ([alg_type='MTMCMC']) *)
(* ================================================================== *)

Module MTMCMC.

Import Chain.

Section WithInterfaces.

Context {M G : Type} `{Generator G} `{Seeding G} `{Proposal M G}.

(** The keyword arguments of [_MTMCMC], with the defaults
    [burn_in=100, num_metatrees=500, g_max=0.0, rho=0.99, phi=0.999,
    p_obj=0.3, threshold_type='1d_kmeans', seed=None]. *)
Record kwargs : Type := {
  burn_in : Z;
  num_metatrees : Z;
  g_max : R;
  rho : R;
  phi : R;
  p_obj : R;
  threshold_type : string;
  seed : option Z
}.

(** The attributes [_MTMCMC] adds to [self]. *)
Record state : Type := {
  rng : G;
  _num_children : nat;
  _hn_node_sub_model : M;
  _threshold_type : string;
  _tmp_root : node M;
  _tmp_metatree_list : list (node M);
  _tmp_metatree_count_list : list Z;
  _l_last : R;
  _num_proposed : Z;
  _num_accepted : Z;
  _rho : R;
  _phi : R;
  _g_max : R;
  _denominator : R;
  _p_obj : R;
  _numerator : R;
  _g_list : list R;
  _l_list : list R;
  _g_max_denominator : R;
  _g_max_accumulated : R
}.

Variable self : learner M.

(** The first half of [_mh_step_truncated], down to the two truncated
    log-probabilities.  The generator marks the nodes of the current tree,
    which is the last entry of [_tmp_metatree_list]: the entry is the tree as
    the generator leaves it. *)
Record candidate : Type := {
  cand_rng : G;
  cand_list : list (node M);      (* [_tmp_metatree_list], its last tree marked *)
  cand_root : node M;             (* [self._tmp_root] *)
  cand_l_new : R;                 (* [_l_new] *)
  cand_t_new : R;                 (* [_t_posteror_new] *)
  cand_t_last : R                 (* [_t_posteror_last] *)
}.

Definition propose (s : state) (data : dataset) : result candidate :=
  '(root, g1) <- fresh_root self (rng s) (_hn_node_sub_model s) (_num_children s) ;;
  last <- getlast (_tmp_metatree_list s) ;;
  '(_l_new, last', new, g2) <-
    _generate_truncated_and_update (consts self) (_g_max s) (_threshold_type s)
      (_hn_node_sub_model s) (_num_children s) g1 (Some last) root false data ;;
  list1 <- setlast (_tmp_metatree_list s)
             (match last' with Some t => t | None => last end) ;;
  _t_posteror_new <-
    _calc_truncated_posterior_lean (_g_max s) (_num_children s) new ;;
  last1 <- getlast list1 ;;
  _t_posteror_last <-
    _calc_truncated_posterior_lean (_g_max s) (_num_children s) last1 ;;
  Ok {| cand_rng := g2; cand_list := list1; cand_root := new;
        cand_l_new := _l_new; cand_t_new := _t_posteror_new;
        cand_t_last := _t_posteror_last |}.

(** The branch [# accept] *)
Definition accept (s : state) (p : candidate) (g : G) : state :=
  {| rng := g;
     _num_children := _num_children s;
     _hn_node_sub_model := _hn_node_sub_model s;
     _threshold_type := _threshold_type s;
     _tmp_root := cand_root p;
     _tmp_metatree_list := append (cand_list p) (cand_root p);
     _tmp_metatree_count_list := append (_tmp_metatree_count_list s) 1%Z;
     _l_last := cand_l_new p;
     _num_proposed := (_num_proposed s + 1)%Z;
     _num_accepted := (_num_accepted s + 1)%Z;
     _rho := _rho s;
     _phi := _phi s;
     _g_max := _g_max s;
     _denominator := (_denominator s * _rho s + 1)%R;
     _p_obj := _p_obj s;
     _numerator := (_numerator s * _rho s + 1)%R;
     _g_list := _g_list s;
     _l_list := append (_l_list s) (cand_l_new p);
     _g_max_denominator := _g_max_denominator s;
     _g_max_accumulated := _g_max_accumulated s |}.

(** The branch [# reject] *)
Definition reject (s : state) (p : candidate) (g : G) : result state :=
  count <- getlast (_tmp_metatree_count_list s) ;;
  counts <- setlast (_tmp_metatree_count_list s) (count + 1)%Z ;;
  Ok {| rng := g;
        _num_children := _num_children s;
        _hn_node_sub_model := _hn_node_sub_model s;
        _threshold_type := _threshold_type s;
        _tmp_root := cand_root p;
        _tmp_metatree_list := cand_list p;
        _tmp_metatree_count_list := counts;
        _l_last := _l_last s;
        _num_proposed := (_num_proposed s + 1)%Z;
        _num_accepted := _num_accepted s;
        _rho := _rho s;
        _phi := _phi s;
        _g_max := _g_max s;
        _denominator := (_denominator s * _rho s + 1)%R;
        _p_obj := _p_obj s;
        _numerator := (_numerator s * _rho s)%R;
        _g_list := _g_list s;
        _l_list := append (_l_list s) (_l_last s);
        _g_max_denominator := _g_max_denominator s;
        _g_max_accumulated := _g_max_accumulated s |}.

(** [_mh_step_truncated] *)
Definition _mh_step_truncated (s : state) (data : dataset) : result state :=
  p <- propose s data ;;
  let '(u, g3) := rng_random (cand_rng p) in
  if ltb u (exp (cand_l_new p - cand_t_last p - _l_last s + cand_t_new p))
  then Ok (accept s p g3)
  else reject s p g3.

(** The truncated proposal log-probabilities of a step.  The generator
    reuses a node of the current tree with the probability
    [min(h_g, g_max)] of that node and marks where it stopped: the
    log-probability of proposing the candidate from the current tree (old to
    new) is what [_calc_truncated_posterior_lean] gives on the current tree
    as the generator marked it, [_t_posteror_last].  The log-probability of
    the way back (new to old) is what it gives on the candidate,
    [_t_posteror_new]. *)
Definition log_q_old_to_new (p : candidate) : R := cand_t_last p.
Definition log_q_new_to_old (p : candidate) : R := cand_t_new p.

(** The acceptance probability [min(1, exp((L_new - T_new) - (L_last -
    T_last)))]: [T_new] is the log-probability of proposing the new tree,
    [T_last] that of proposing the current one. *)
Definition spec_acceptance_probability (l_new t_new l_last t_last : R) : R :=
  Rmin 1 (exp ((l_new - t_new) - (l_last - t_last))).

(** [_update_g_max] *)
Definition _update_g_max (s : state) : result state :=
  p_hat <- py_div (_numerator s) (_denominator s) ;;
  g_max_new <-
    (if ltb (_p_obj s) p_hat then
       py_div (_g_max s * _p_obj s) p_hat
     else
       q <- py_div ((1 - _g_max s) * (1 - _p_obj s)) (1 - p_hat) ;;
       Ok (1 - q)%R) ;;
  let accumulated := (_g_max_accumulated s * _phi s + g_max_new)%R in
  let denominator := (_g_max_denominator s * _phi s + 1)%R in
  g <- py_div accumulated denominator ;;
  Ok {| rng := rng s;
        _num_children := _num_children s;
        _hn_node_sub_model := _hn_node_sub_model s;
        _threshold_type := _threshold_type s;
        _tmp_root := _tmp_root s;
        _tmp_metatree_list := _tmp_metatree_list s;
        _tmp_metatree_count_list := _tmp_metatree_count_list s;
        _l_last := _l_last s;
        _num_proposed := _num_proposed s;
        _num_accepted := _num_accepted s;
        _rho := _rho s;
        _phi := _phi s;
        _g_max := g;
        _denominator := _denominator s;
        _p_obj := _p_obj s;
        _numerator := _numerator s;
        _g_list := append (_g_list s) g;
        _l_list := _l_list s;
        _g_max_denominator := denominator;
        _g_max_accumulated := accumulated |}.

(** What the tuner relies on between two steps of the burn-in: decay
    factors that are not negative, a target strictly between 0 and 1, a
    ceiling in [0,1], and the two decayed averages in order. *)
Definition tuner_invariant (s : state) : Prop :=
  (0 <= _rho s)%R /\ (0 <= _phi s)%R /\ (0 < _p_obj s < 1)%R /\
  (0 <= _g_max s <= 1)%R /\
  (0 <= _numerator s <= _denominator s)%R /\
  (0 <= _g_max_accumulated s <= _g_max_denominator s)%R /\
  Forall (fun g => (0 <= g <= 1)%R) (_g_list s).

(** What keeps the ceiling in [0,1] between two steps of the burn-in: a
    decay [phi] that is not negative, a target strictly between 0 and 1, a
    ceiling in [0,1] and the second average in order.  The decayed count of
    the steps is not negative when the decay [rho] is not. *)
Definition ceiling_invariant (s : state) : Prop :=
  (0 <= _phi s)%R /\ (0 < _p_obj s < 1)%R /\
  (0 <= _g_max s <= 1)%R /\
  (0 <= _g_max_accumulated s <= _g_max_denominator s)%R /\
  Forall (fun g => (0 <= g <= 1)%R) (_g_list s) /\
  ((0 <= _rho s)%R -> (0 <= _denominator s)%R).

(** The first part of [_MTMCMC], down to the initial tree: the checks, the
    generator, the root and its forced generation ([last=None], [flag=True],
    which does not read [self._g_max]). *)
Definition start (data : dataset) (kw : kwargs)
  : result (G * nat * node M * R) :=
  num_children <- check_uniform_configuration self ;;
  let g0 := default_rng (seed kw) in
  if negb (supported_threshold_type (threshold_type kw))
  then Raise (ParameterFormatError "threshold_type") else
  '(root, g1) <- fresh_root self g0 (new_sub_model self) num_children ;;
  '(l_last, _, root', g2) <-
    _generate_truncated_and_update (consts self) (g_max kw) (threshold_type kw)
      (new_sub_model self) num_children g1 None root true data ;;
  Ok (g2, num_children, root', l_last).

(** The attributes as [_MTMCMC] sets them before its first loop. *)
Definition initial_state (kw : kwargs) (g : G) (num_children : nat)
  (root : node M) (l_last : R) : state :=
  {| rng := g;
     _num_children := num_children;
     _hn_node_sub_model := new_sub_model self;
     _threshold_type := threshold_type kw;
     _tmp_root := root;
     _tmp_metatree_list := [root];
     _tmp_metatree_count_list := [1%Z];
     _l_last := l_last;
     _num_proposed := 1;
     _num_accepted := 1;
     _rho := rho kw;
     _phi := phi kw;
     _g_max := g_max kw;
     _denominator := 0;
     _p_obj := p_obj kw;
     _numerator := 0 * p_obj kw;
     _g_list := [];
     _l_list := [];
     _g_max_denominator := 0;
     _g_max_accumulated := g_max kw * 0 |}.

Definition set_last_count (s : state) (v : Z) : result state :=
  counts <- setlast (_tmp_metatree_count_list s) v ;;
  Ok {| rng := rng s;
        _num_children := _num_children s;
        _hn_node_sub_model := _hn_node_sub_model s;
        _threshold_type := _threshold_type s;
        _tmp_root := _tmp_root s;
        _tmp_metatree_list := _tmp_metatree_list s;
        _tmp_metatree_count_list := counts;
        _l_last := _l_last s;
        _num_proposed := _num_proposed s;
        _num_accepted := _num_accepted s;
        _rho := _rho s;
        _phi := _phi s;
        _g_max := _g_max s;
        _denominator := _denominator s;
        _p_obj := _p_obj s;
        _numerator := _numerator s;
        _g_list := _g_list s;
        _l_list := _l_list s;
        _g_max_denominator := _g_max_denominator s;
        _g_max_accumulated := _g_max_accumulated s |}.

(** The body of the burn-in loop: a step, then the tuner. *)
Definition burn_in_step (data : dataset) (s : state) : result state :=
  s1 <- _mh_step_truncated s data ;;
  _update_g_max s1.

(** The output of [_MTMCMC]: the trees accepted from the last burn-in tree
    on, with their normalised counts, through the compactor. *)
Definition output (s : state) (tmp : Z) : result (list (node M) * list R) :=
  Compactor._marge_metatrees (consts self)
    (skipn (Z.to_nat tmp) (_tmp_metatree_list s))
    (normalised_counts (skipn (Z.to_nat tmp) (_tmp_metatree_count_list s))).

(** [_MTMCMC].  The value is the pair the method returns, with the sampler
    attributes as the run leaves them ([None] when the method returns before
    it sets them).  [fuel] bounds each of the two [while] loops. *)
Definition _MTMCMC (fuel : nat) (data : dataset) (kw : kwargs)
  : loop_result (option state * (list (node M) * list R)) :=
  match start data kw with
  | Raise e => Finished (Raise e)
  | Ok (g, num_children, root, l_last) =>
      if (c_dim_features (consts self) =? 1)%nat then
        Finished (Ok (None, ([root], [1%R])))
      else
        let s0 := initial_state kw g num_children root l_last in
        match while fuel (fun s => (_num_proposed s <? burn_in kw)%Z)
                (burn_in_step data) s0 with
        | OutOfFuel => OutOfFuel
        | Finished (Raise e) => Finished (Raise e)
        | Finished (Ok s1) =>
            let tmp := (_num_accepted s1 - 1)%Z in
            match set_last_count s1 1 with
            | Raise e => Finished (Raise e)
            | Ok s2 =>
                match while fuel
                        (fun s => (_num_proposed s
                                   <? burn_in kw + num_metatrees kw)%Z)
                        (fun s => _mh_step_truncated s data) s2 with
                | OutOfFuel => OutOfFuel
                | Finished (Raise e) => Finished (Raise e)
                | Finished (Ok s3) =>
                    Finished (r <- output s3 tmp ;; Ok (Some s3, r))
                end
            end
        end
  end.

(** The run of [_MTMCMC] on more than one feature, loop by loop:
    [burn_in - 1] passes of the first loop, [num_metatrees] passes of the
    second, and the output. *)
Definition run_of_steps (data : dataset) (kw : kwargs) (s0 : state)
  : result (option state * (list (node M) * list R)) :=
  s1 <- repeatM (Z.to_nat (burn_in kw - 1)) (burn_in_step data) s0 ;;
  s2 <- set_last_count s1 1 ;;
  s3 <- repeatM (Z.to_nat (num_metatrees kw))
          (fun s => _mh_step_truncated s data) s2 ;;
  r <- output s3 (_num_accepted s1 - 1) ;;
  Ok (Some s3, r).

End WithInterfaces.

End MTMCMC.

(* ================================================================== *)
(** * The replica-exchange driver ([alg_type='REMTMCMC']) *)
(* ================================================================== *)

Module REMTMCMC.

Import Chain.

Section WithInterfaces.

Context {M G : Type} `{Generator G} `{Seeding G} `{Proposal M G}.

(** The keyword arguments of [_REMTMCMC], with the defaults
    [burn_in=100, num_metatrees=500, num_chains=8, g_max=0.9, beta_vec=None,
    num_interval=10, num_exchange=4, threshold_type='1d_kmeans', seed=None]. *)
Record kwargs : Type := {
  burn_in : Z;
  num_metatrees : Z;
  num_chains : Z;
  g_max : R;
  beta_vec : option (list R);
  num_interval : Z;
  num_exchange : Z;
  threshold_type : string;
  seed : option Z
}.

(** Modelled from the spec: [_check.pos_int] is a function of
    [bayesml/_check.py], which is not among the sources at hand.  Section 7
    of the specification files an out-of-range hyperparameter under the
    parameter format errors: the value is returned when it is a positive
    integer and the error class given is raised otherwise. *)
Definition pos_int (v : Z) (name : string) : result nat :=
  if (0 <? v)%Z then Ok (Z.to_nat v) else Raise (ParameterFormatError name).

(** The attributes [_REMTMCMC] adds to [self]. *)
Record state : Type := {
  rng : G;
  _num_children : nat;
  _hn_node_sub_model : M;
  _num_chains : nat;
  _threshold_type : string;
  _tmp_roots : list (node M);
  _tmp_metatree_lists : list (list (node M));
  _tmp_metatree_count_lists : list (list Z);
  _l_lasts : list R;
  _g_max : R;
  _l_list : list R;
  _beta_vec : list R;
  _num_interval : nat;
  _num_exchange : nat;
  _exchange_list : list Z
}.

Variable self : learner M.

(** The state with new chains: generator, roots, tree lists, count lists,
    log-likelihoods.  Nothing else changes in a local step. *)
Definition with_chains (s : state) (g : G) (roots : list (node M))
  (lists : list (list (node M))) (counts : list (list Z)) (l_lasts : list R)
  : state :=
  {| rng := g;
     _num_children := _num_children s;
     _hn_node_sub_model := _hn_node_sub_model s;
     _num_chains := _num_chains s;
     _threshold_type := _threshold_type s;
     _tmp_roots := roots;
     _tmp_metatree_lists := lists;
     _tmp_metatree_count_lists := counts;
     _l_lasts := l_lasts;
     _g_max := _g_max s;
     _l_list := _l_list s;
     _beta_vec := _beta_vec s;
     _num_interval := _num_interval s;
     _num_exchange := _num_exchange s;
     _exchange_list := _exchange_list s |}.

Definition with_l_list (s : state) (l_list : list R) : state :=
  {| rng := rng s;
     _num_children := _num_children s;
     _hn_node_sub_model := _hn_node_sub_model s;
     _num_chains := _num_chains s;
     _threshold_type := _threshold_type s;
     _tmp_roots := _tmp_roots s;
     _tmp_metatree_lists := _tmp_metatree_lists s;
     _tmp_metatree_count_lists := _tmp_metatree_count_lists s;
     _l_lasts := _l_lasts s;
     _g_max := _g_max s;
     _l_list := l_list;
     _beta_vec := _beta_vec s;
     _num_interval := _num_interval s;
     _num_exchange := _num_exchange s;
     _exchange_list := _exchange_list s |}.

Definition with_exchange_list (s : state) (l : list Z) : state :=
  {| rng := rng s;
     _num_children := _num_children s;
     _hn_node_sub_model := _hn_node_sub_model s;
     _num_chains := _num_chains s;
     _threshold_type := _threshold_type s;
     _tmp_roots := _tmp_roots s;
     _tmp_metatree_lists := _tmp_metatree_lists s;
     _tmp_metatree_count_lists := _tmp_metatree_count_lists s;
     _l_lasts := _l_lasts s;
     _g_max := _g_max s;
     _l_list := _l_list s;
     _beta_vec := _beta_vec s;
     _num_interval := _num_interval s;
     _num_exchange := _num_exchange s;
     _exchange_list := l |}.

(** One pass of the loop [for i in range(self._num_chains-1)] of
    [_remh_step_truncated_memory_efficient]: the local step of the tempered
    chain [i], which keeps one tree. *)
Definition tempered_step (data : dataset) (s : state) (i : nat) : result state :=
  '(root, g1) <- fresh_root self (rng s) (_hn_node_sub_model s) (_num_children s) ;;
  _ <- setitem (_tmp_roots s) i root ;;
  list_i <- getitem (_tmp_metatree_lists s) i ;;
  last <- getlast list_i ;;
  '(_l_new, last', new, g2) <-
    _generate_truncated_and_update (consts self) (_g_max s) (_threshold_type s)
      (_hn_node_sub_model s) (_num_children s) g1 (Some last) root false data ;;
  roots <- setitem (_tmp_roots s) i new ;;
  let last1 := match last' with Some t => t | None => last end in
  list_i1 <- setlast list_i last1 ;;
  _t_posteror_new <-
    _calc_truncated_posterior_lean (_g_max s) (_num_children s) new ;;
  _t_posteror_last <-
    _calc_truncated_posterior_lean (_g_max s) (_num_children s) last1 ;;
  let '(u, g3) := rng_random g2 in
  l_last <- getitem (_l_lasts s) i ;;
  beta <- getitem (_beta_vec s) i ;;
  counts_i <- getitem (_tmp_metatree_count_lists s) i ;;
  if ltb u (exp ((_l_new - l_last) * beta - _t_posteror_last + _t_posteror_new))
  then
    list_i2 <- setlast list_i1 new ;;
    lists <- setitem (_tmp_metatree_lists s) i list_i2 ;;
    counts_i' <- setlast counts_i 1%Z ;;
    counts <- setitem (_tmp_metatree_count_lists s) i counts_i' ;;
    l_lasts <- setitem (_l_lasts s) i _l_new ;;
    Ok (with_chains s g3 roots lists counts l_lasts)
  else
    lists <- setitem (_tmp_metatree_lists s) i list_i1 ;;
    count <- getlast counts_i ;;
    counts_i' <- setlast counts_i (count + 1)%Z ;;
    counts <- setitem (_tmp_metatree_count_lists s) i counts_i' ;;
    Ok (with_chains s g3 roots lists counts (_l_lasts s)).

(** The second half of [_remh_step_truncated_memory_efficient]: the local
    step of the last chain ([beta_vec[-1]]), which keeps every accepted
    tree, and the record of its log-likelihood. *)
Definition last_chain_step (data : dataset) (s : state) : result state :=
  '(root, g1) <- fresh_root self (rng s) (_hn_node_sub_model s) (_num_children s) ;;
  _ <- setlast (_tmp_roots s) root ;;
  list_n <- getlast (_tmp_metatree_lists s) ;;
  last <- getlast list_n ;;
  '(_l_new, last', new, g2) <-
    _generate_truncated_and_update (consts self) (_g_max s) (_threshold_type s)
      (_hn_node_sub_model s) (_num_children s) g1 (Some last) root false data ;;
  roots <- setlast (_tmp_roots s) new ;;
  let last1 := match last' with Some t => t | None => last end in
  list_n1 <- setlast list_n last1 ;;
  _t_posteror_new <-
    _calc_truncated_posterior_lean (_g_max s) (_num_children s) new ;;
  _t_posteror_last <-
    _calc_truncated_posterior_lean (_g_max s) (_num_children s) last1 ;;
  let '(u, g3) := rng_random g2 in
  l_last <- getlast (_l_lasts s) ;;
  beta <- getlast (_beta_vec s) ;;
  counts_n <- getlast (_tmp_metatree_count_lists s) ;;
  s1 <-
    (if ltb u (exp ((_l_new - l_last) * beta - _t_posteror_last + _t_posteror_new))
     then
       lists <- setlast (_tmp_metatree_lists s) (append list_n1 new) ;;
       counts <- setlast (_tmp_metatree_count_lists s) (append counts_n 1%Z) ;;
       l_lasts <- setlast (_l_lasts s) _l_new ;;
       Ok (with_chains s g3 roots lists counts l_lasts)
     else
       lists <- setlast (_tmp_metatree_lists s) list_n1 ;;
       count <- getlast counts_n ;;
       counts_n' <- setlast counts_n (count + 1)%Z ;;
       counts <- setlast (_tmp_metatree_count_lists s) counts_n' ;;
       Ok (with_chains s g3 roots lists counts (_l_lasts s))) ;;
  l <- getlast (_l_lasts s1) ;;
  Ok (with_l_list s1 (append (_l_list s1) l)).

(** [_remh_step_truncated_memory_efficient] *)
Definition _remh_step_truncated_memory_efficient (data : dataset) (s : state)
  : result state :=
  s1 <- for_each (tempered_step data) (range (_num_chains s - 1)) s ;;
  last_chain_step data s1.

(** The swap of the chains [j] and [j+1] when [j == self._num_chains-2]: the
    upper chain is the last one and appends the tree it receives. *)
Definition swap_with_last_chain (s : state) (g : G) (j : nat) : result state :=
  let exchange_list := append (_exchange_list s) (Z.of_nat j) in
  list_j <- getitem (_tmp_metatree_lists s) j ;;
  list_j1 <- getitem (_tmp_metatree_lists s) (j + 1) ;;
  tree_j <- getlast list_j ;;
  let list_j1' := append list_j1 tree_j in
  tree_j1 <- getlast2 list_j1' ;;
  list_j' <- setlast list_j tree_j1 ;;
  lists1 <- setitem (_tmp_metatree_lists s) (j + 1) list_j1' ;;
  lists2 <- setitem lists1 j list_j' ;;
  counts_j <- getitem (_tmp_metatree_count_lists s) j ;;
  counts_j' <- setlast counts_j 1%Z ;;
  counts_j1 <- getitem (_tmp_metatree_count_lists s) (j + 1) ;;
  count <- getlast counts_j1 ;;
  counts_j1' <- setlast counts_j1 (count - 1)%Z ;;
  counts1 <- setitem (_tmp_metatree_count_lists s) j counts_j' ;;
  counts2 <- setitem counts1 (j + 1) (append counts_j1' 1%Z) ;;
  tmp <- getitem (_l_lasts s) j ;;
  l_j1 <- getitem (_l_lasts s) (j + 1) ;;
  l_lasts1 <- setitem (_l_lasts s) j l_j1 ;;
  l_lasts2 <- setitem l_lasts1 (j + 1) tmp ;;
  let s1 := with_chains s g (_tmp_roots s) lists2 counts2 l_lasts2 in
  Ok (with_l_list (with_exchange_list s1 exchange_list)
        (append (_l_list s) tmp)).

(** The swap of two tempered chains: both keep one tree. *)
Definition swap_tempered_chains (s : state) (g : G) (j : nat) : result state :=
  let exchange_list := append (_exchange_list s) (Z.of_nat j) in
  list_j <- getitem (_tmp_metatree_lists s) j ;;
  list_j1 <- getitem (_tmp_metatree_lists s) (j + 1) ;;
  tmp <- getlast list_j1 ;;
  tree_j <- getlast list_j ;;
  list_j1' <- setlast list_j1 tree_j ;;
  list_j' <- setlast list_j tmp ;;
  lists1 <- setitem (_tmp_metatree_lists s) (j + 1) list_j1' ;;
  lists2 <- setitem lists1 j list_j' ;;
  counts_j <- getitem (_tmp_metatree_count_lists s) j ;;
  counts_j' <- setlast counts_j 1%Z ;;
  counts_j1 <- getitem (_tmp_metatree_count_lists s) (j + 1) ;;
  counts_j1' <- setlast counts_j1 1%Z ;;
  counts1 <- setitem (_tmp_metatree_count_lists s) j counts_j' ;;
  counts2 <- setitem counts1 (j + 1) counts_j1' ;;
  tmp_l <- getitem (_l_lasts s) j ;;
  l_j1 <- getitem (_l_lasts s) (j + 1) ;;
  l_lasts1 <- setitem (_l_lasts s) j l_j1 ;;
  l_lasts2 <- setitem l_lasts1 (j + 1) tmp_l ;;
  let s1 := with_chains s g (_tmp_roots s) lists2 counts2 l_lasts2 in
  Ok (with_exchange_list s1 exchange_list).

(** The exponent of the swap test of the chains [j] and [j+1] *)
Definition swap_exponent (l_j l_j1 beta_j beta_j1 : R) : R :=
  (l_j * beta_j1 + l_j1 * beta_j - l_j * beta_j - l_j1 * beta_j1)%R.

(** One pass of the loop [for i in range(self._num_exchange)] of
    [_replica_exchange_memory_efficient] *)
Definition exchange_attempt (s : state) : result state :=
  '(j, g1) <- rng_choice (rng s) (range (_num_chains s - 1)) ;;
  let '(u, g2) := rng_random g1 in
  l_j <- getitem (_l_lasts s) j ;;
  beta_j1 <- getitem (_beta_vec s) (j + 1) ;;
  l_j1 <- getitem (_l_lasts s) (j + 1) ;;
  beta_j <- getitem (_beta_vec s) j ;;
  if ltb u (exp (swap_exponent l_j l_j1 beta_j beta_j1)) then
    if (j =? _num_chains s - 2)%nat then swap_with_last_chain s g2 j
    else swap_tempered_chains s g2 j
  else
    Ok (with_chains s g2 (_tmp_roots s) (_tmp_metatree_lists s)
          (_tmp_metatree_count_lists s) (_l_lasts s)).

(** [_replica_exchange_memory_efficient] *)
Definition _replica_exchange_memory_efficient (s : state) : result state :=
  let s0 := with_exchange_list s (append (_exchange_list s) (-1)%Z) in
  repeatM (_num_exchange s0) exchange_attempt s0.

(** The roots of the chains: [num_chains] draws of [rng.choice]. *)
Fixpoint make_roots (g : G) (sm : M) (num_children n : nat)
  : result (list (node M) * G) :=
  match n with
  | O => Ok ([], g)
  | S n' =>
      '(root, g1) <- fresh_root self g sm num_children ;;
      '(roots, g2) <- make_roots g1 sm num_children n' ;;
      Ok (root :: roots, g2)
  end.

(** The forced generation of the initial tree of every chain.  The root is
    the one entry of the chain's list: both see what the generator did. *)
Fixpoint generate_initial (kw : kwargs) (num_children : nat) (data : dataset)
  (g : G) (roots : list (node M)) : result (list (node M) * list R * G) :=
  match roots with
  | [] => Ok ([], [], g)
  | root :: roots' =>
      '(l, _, root', g1) <-
        _generate_truncated_and_update (consts self) (g_max kw)
          (threshold_type kw) (new_sub_model self) num_children g None root
          true data ;;
      '(rs, ls, g2) <- generate_initial kw num_children data g1 roots' ;;
      Ok (root' :: rs, l :: ls, g2)
  end.

(** [(np.arange(self._num_chains)+1) / self._num_chains] *)
Definition default_beta_vec (n : nat) : list R :=
  map (fun i => ((INR i + 1) / INR n)%R) (range n).

(** [self._beta_vec[:] = beta_vec]: the values are copied when there are as
    many as chains, one value is broadcast, any other length raises. *)
Definition assign_beta_vec (current given : list R) : result (list R) :=
  if (List.length given =? List.length current)%nat then Ok given
  else
    match given with
    | [b] => Ok (map (fun _ => b) current)
    | _ => Raise ValueError
    end.

(** [np.any(self._beta_vec < 0) or np.any(self._beta_vec > 1)] *)
Definition beta_out_of_range (v : list R) : bool :=
  existsb (fun b => ltb b 0) v || existsb (fun b => ltb 1 b) v.

(** The lines that set [self._beta_vec] in [_REMTMCMC]. *)
Definition set_beta_vec (num_chains : nat) (given : option (list R))
  : result (list R) :=
  let default := default_beta_vec num_chains in
  match given with
  | None => Ok default
  | Some b =>
      v <- assign_beta_vec default b ;;
      if beta_out_of_range v
      then Raise (ParameterFormatError "beta_vec")
      else Ok v
  end.

(** The first part of [_REMTMCMC], down to the initial trees. *)
Definition start (data : dataset) (kw : kwargs)
  : result (G * nat * nat * list (node M) * list R) :=
  num_children <- check_uniform_configuration self ;;
  let g0 := default_rng (seed kw) in
  n <- pos_int (num_chains kw) "num_chains" ;;
  if negb (supported_threshold_type (threshold_type kw))
  then Raise (ParameterFormatError "threshold_type") else
  '(roots, g1) <- make_roots g0 (new_sub_model self) num_children n ;;
  '(roots', l_lasts, g2) <- generate_initial kw num_children data g1 roots ;;
  Ok (g2, num_children, n, roots', l_lasts).

(** One pass of the two sampling loops: a local step of every chain, and a
    round of exchanges every [num_interval] passes. *)
Definition sweep (data : dataset) (s : state) (i : nat) : result state :=
  s1 <- _remh_step_truncated_memory_efficient data s ;;
  if (1 <? _num_chains s1)%nat && (i mod _num_interval s1 =? 0)%nat
  then _replica_exchange_memory_efficient s1
  else Ok s1.

(** [for i in range(self._num_chains): counts[i][-1] = 1] *)
Fixpoint reset_last_counts (counts : list (list Z)) : result (list (list Z)) :=
  match counts with
  | [] => Ok []
  | cs :: counts' =>
      cs' <- setlast cs 1%Z ;;
      rest <- reset_last_counts counts' ;;
      Ok (cs' :: rest)
  end.

(** The lines of [_REMTMCMC] between the early return and the first loop:
    they set the remaining attributes and check [beta_vec], [num_interval]
    and [num_exchange]. *)
Definition configure (kw : kwargs) (g : G) (num_children n : nat)
  (roots : list (node M)) (l_lasts : list R) : result state :=
  beta <- set_beta_vec n (beta_vec kw) ;;
  interval <- pos_int (num_interval kw) "num_interval" ;;
  exchange <- pos_int (num_exchange kw) "num_exchange" ;;
  Ok {| rng := g;
        _num_children := num_children;
        _hn_node_sub_model := new_sub_model self;
        _num_chains := n;
        _threshold_type := threshold_type kw;
        _tmp_roots := roots;
        _tmp_metatree_lists := map (fun r => [r]) roots;
        _tmp_metatree_count_lists := map (fun _ => [1%Z]) roots;
        _l_lasts := l_lasts;
        _g_max := g_max kw;
        _l_list := [];
        _beta_vec := beta;
        _num_interval := interval;
        _num_exchange := exchange;
        _exchange_list := [] |}.

(** The two loops of [_REMTMCMC] and its output. *)
Definition sample (data : dataset) (kw : kwargs) (s0 : state)
  : result (option state * (list (node M) * list R)) :=
  let n := _num_chains s0 in
  s1 <- for_each (sweep data) (range (Z.to_nat (burn_in kw))) s0 ;;
  top_counts <- getitem (_tmp_metatree_count_lists s1) (n - 1) ;;
  let tmp := (List.length top_counts - 1)%nat in
  counts <- reset_last_counts (_tmp_metatree_count_lists s1) ;;
  let s2 := with_chains s1 (rng s1) (_tmp_roots s1) (_tmp_metatree_lists s1)
              counts (_l_lasts s1) in
  s3 <- for_each (sweep data) (range (Z.to_nat (num_metatrees kw))) s2 ;;
  top_list <- getitem (_tmp_metatree_lists s3) (n - 1) ;;
  top_counts3 <- getitem (_tmp_metatree_count_lists s3) (n - 1) ;;
  r <- Compactor._marge_metatrees (consts self) (skipn tmp top_list)
         (normalised_counts (skipn tmp top_counts3)) ;;
  Ok (Some s3, r).

(** [_REMTMCMC] *)
Definition _REMTMCMC (data : dataset) (kw : kwargs)
  : result (option state * (list (node M) * list R)) :=
  '(g, num_children, n, roots, l_lasts) <- start data kw ;;
  if (c_dim_features (consts self) =? 1)%nat then
    top <- getitem (map (fun r => [r]) roots) (n - 1) ;;
    Ok (None, (top, [1%R]))
  else
    s0 <- configure kw g num_children n roots l_lasts ;;
    sample data kw s0.

(** The current tree of chain [j]: [self._tmp_metatree_lists[j][-1]] *)
Definition current_tree (s : state) (j : nat) : result (node M) :=
  list_j <- getitem (_tmp_metatree_lists s) j ;;
  getlast list_j.

(** Chains as the driver keeps them: a list of trees, a list of counters, a
    log-likelihood and a temperature for each of at least two chains, and no
    list empty. *)
Definition well_shaped (s : state) : Prop :=
  (2 <= _num_chains s)%nat /\
  List.length (_tmp_metatree_lists s) = _num_chains s /\
  List.length (_tmp_metatree_count_lists s) = _num_chains s /\
  List.length (_l_lasts s) = _num_chains s /\
  List.length (_beta_vec s) = _num_chains s /\
  Forall (fun l => l <> []) (_tmp_metatree_lists s) /\
  Forall (fun l => l <> []) (_tmp_metatree_count_lists s).

(** The probability of section 4.5 for the swap of the chains [j], [j+1] *)
Definition swap_probability (l_j l_j1 beta_j beta_j1 : R) : R :=
  Rmin 1 (exp ((l_j * beta_j1 + l_j1 * beta_j)
               - (l_j * beta_j + l_j1 * beta_j1))).

(** What an accepted swap of the chains [j], [j+1] leaves: the two current
    trees and the two log-likelihoods exchanged, the trees and
    log-likelihoods of the other chains as they were, the temperatures
    untouched. *)
Definition swapped (s s' : state) (j : nat) : Prop :=
  (exists t_j t_j1 l_j l_j1,
     current_tree s j = Ok t_j /\ current_tree s (j + 1) = Ok t_j1 /\
     getitem (_l_lasts s) j = Ok l_j /\ getitem (_l_lasts s) (j + 1) = Ok l_j1 /\
     current_tree s' j = Ok t_j1 /\ current_tree s' (j + 1) = Ok t_j /\
     getitem (_l_lasts s') j = Ok l_j1 /\
     getitem (_l_lasts s') (j + 1) = Ok l_j) /\
  (forall m, m <> j -> m <> (j + 1)%nat ->
     getitem (_tmp_metatree_lists s') m = getitem (_tmp_metatree_lists s) m /\
     getitem (_l_lasts s') m = getitem (_l_lasts s) m) /\
  _beta_vec s' = _beta_vec s /\
  _num_chains s' = _num_chains s /\
  _num_exchange s' = _num_exchange s /\
  well_shaped s'.

(** What a refused swap leaves: the chains and the temperatures as they
    were. *)
Definition not_swapped (s s' : state) : Prop :=
  _tmp_metatree_lists s' = _tmp_metatree_lists s /\
  _tmp_metatree_count_lists s' = _tmp_metatree_count_lists s /\
  _l_lasts s' = _l_lasts s /\
  _beta_vec s' = _beta_vec s /\
  _num_chains s' = _num_chains s /\
  _num_exchange s' = _num_exchange s.

End WithInterfaces.

End REMTMCMC.

(* ================================================================== *)
(** * The entry point [update_posterior] *)
(* ================================================================== *)

(** [RandomForestClassifier]/[RandomForestRegressor] of scikit-learn, fitted
    on the sample, and [_copy_tree_from_sklearn_tree] on each of its
    [n_estimators] trees: the list [tmp_metatree_list] of [_MTRF]. *)
Class Forest (M : Type) : Type := {
  forest_metatrees : learner M -> dataset -> nat -> result (list (node M))
}.

Module Learner.

Section WithInterfaces.

Context {M G : Type} `{SubModel M} `{Generator G} `{Seeding G}
  `{Proposal M G} `{Forest M}.

(** The keyword arguments [**kwargs], by algorithm. *)
Record kwargs : Type := {
  n_estimators : nat;
  mtmcmc : MTMCMC.kwargs;
  remtmcmc : REMTMCMC.kwargs
}.

Definition with_posterior (self : learner M) (l : list (node M))
  (p : option (list R)) : learner M :=
  {| consts := consts self;
     h0_k_weight_vec := h0_k_weight_vec self;
     hn_g := hn_g self;
     _root_k_candidates := _root_k_candidates self;
     new_sub_model := new_sub_model self;
     hn_metatree_list := l;
     hn_metatree_prob_vec := p |}.

(** [x_categorical[:,i].max() >= self.c_num_children_vec[self.c_dim_continuous+i]]
    for some column [i]; the maximum of an empty column raises. *)
Fixpoint categorical_out_of_range (c : constants) (data : dataset) (i todo : nat)
  : result bool :=
  match todo with
  | O => Ok false
  | S todo' =>
      match data with
      | [] => Raise ValueError
      | _ :: _ =>
          bound <- getitem (c_num_children_vec c) (c_dim_continuous c + i) ;;
          if existsb (fun r => (bound <=? nth i (x_categorical r) 0)%nat) data
          then Ok true
          else categorical_out_of_range c data (S i) todo'
      end
  end.

(** [_check_sample]: the shapes of the two feature arrays, the range of the
    categorical values and the sub-model's own check of the targets.  The
    type checks of [_check.float_vecs] and [_check.nonneg_int_vecs] are the
    types of a [row]; an array of a dimension the learner does not have is
    replaced by an empty one. *)
Definition _check_sample (self : learner M) (data : dataset) : result dataset :=
  let c := consts self in
  let continuous_ok :=
    forallb (fun r => (List.length (x_continuous r) =? c_dim_continuous c)%nat)
      data in
  let categorical_ok :=
    forallb (fun r => (List.length (x_categorical r) =? c_dim_categorical c)%nat)
      data in
  data' <-
    (if (0 <? c_dim_continuous c)%nat && (0 <? c_dim_categorical c)%nat then
       if negb continuous_ok
       then Raise (ParameterFormatError "x_continuous.shape[-1]") else
       if negb categorical_ok
       then Raise (ParameterFormatError "x_categorical.shape[-1]") else
       bad <- categorical_out_of_range c data 0 (c_dim_categorical c) ;;
       if bad then Raise (DataFormatError "x_categorical") else Ok data
     else if (0 <? c_dim_continuous c)%nat then
       if negb continuous_ok
       then Raise (ParameterFormatError "x_continuous.shape[-1]") else
       Ok (map (fun r => {| x_continuous := x_continuous r;
                            x_categorical := [];
                            y := y r |}) data)
     else if (0 <? c_dim_categorical c)%nat then
       if negb categorical_ok
       then Raise (ParameterFormatError "x_categorical.shape[-1]") else
       bad <- categorical_out_of_range c data 0 (c_dim_categorical c) ;;
       if bad then Raise (DataFormatError "x_categorical") else
       Ok (map (fun r => {| x_continuous := [];
                            x_categorical := x_categorical r;
                            y := y r |}) data)
     else Ok data) ;;
  _ <- sm_check_sample (map x_continuous data') (Recursion.targets data') ;;
  Ok data'.

(** [_MTRF] *)
Definition _MTRF (self : learner M) (data : dataset) (n : nat)
  : result (list (node M) * list R) :=
  if existsb (fun x => negb (x =? 2)%nat) (c_num_children_vec (consts self))
  then Raise (ParameterFormatError "c_num_children_vec") else
  tmp_metatree_list <- forest_metatrees self data n ;;
  let tmp_metatree_prob_vec := repeat (1 / INR n)%R n in
  Compactor._marge_metatrees (consts self) tmp_metatree_list
    tmp_metatree_prob_vec.

(** The loop of [_given_MT]:
    [log_metatree_posteriors[i] += self._update_posterior_recursion_batch(...)] *)
Fixpoint given_MT_loop (c : constants) (trees : list (node M)) (data : dataset)
  (i : nat) (log_metatree_posteriors : list R)
  : result (list (node M) * list R) :=
  match trees with
  | [] => Ok ([], log_metatree_posteriors)
  | metatree :: trees' =>
      '(v, metatree') <-
        (if sm_is_linearregression
         then Recursion._update_posterior_recursion_lr_batch c metatree data
         else Recursion._update_posterior_recursion_batch c metatree data) ;;
      old <- getitem log_metatree_posteriors i ;;
      lp <- setitem log_metatree_posteriors i (old + v)%R ;;
      '(rest, lp') <- given_MT_loop c trees' data (S i) lp ;;
      Ok (metatree' :: rest, lp')
  end.

(** [a.max()] of a non-empty array *)
Definition np_max (a : list R) : result R :=
  match a with
  | [] => Raise ValueError
  | x :: a' => Ok (fold_left Rmax a' x)
  end.

(** [_given_MT] *)
Definition _given_MT (self : learner M) (data : dataset) : result (learner M) :=
  match hn_metatree_list self with
  | [] => Raise (ParameterFormatError "given_MT")
  | _ :: _ =>
      match hn_metatree_prob_vec self with
      | None => Raise TypeError
      | Some prob_vec =>
          let log_metatree_posteriors := map log prob_vec in
          '(trees, lp) <- given_MT_loop (consts self) (hn_metatree_list self)
                            data 0 log_metatree_posteriors ;;
          m <- np_max lp ;;
          let unnormalised := map (fun l => exp (l - m)) lp in
          Ok (with_posterior self trees
                (Some (map (fun p => (p / Np.sum unnormalised)%R) unnormalised)))
      end
  end.

(** [update_posterior].  [fuel] bounds the [while] loops of [_MTMCMC]. *)
Definition update_posterior (fuel : nat) (self : learner M) (data : dataset)
  (alg_type : string) (kw : kwargs) : loop_result (learner M) :=
  match _check_sample self data with
  | Raise e => Finished (Raise e)
  | Ok data' =>
      if (alg_type =? "MTRF")%string then
        Finished ('(l, p) <- _MTRF self data' (n_estimators kw) ;;
                  _given_MT (with_posterior self l (Some p)) data')
      else if (alg_type =? "given_MT")%string then
        Finished (_given_MT self data')
      else if (alg_type =? "MTMCMC")%string then
        match MTMCMC._MTMCMC self fuel data' (mtmcmc kw) with
        | OutOfFuel => OutOfFuel
        | Finished (Raise e) => Finished (Raise e)
        | Finished (Ok (_, (l, p))) => Finished (Ok (with_posterior self l (Some p)))
        end
      else if (alg_type =? "REMTMCMC")%string then
        match REMTMCMC._REMTMCMC self data' (remtmcmc kw) with
        | Raise e => Finished (Raise e)
        | Ok (_, (l, p)) => Finished (Ok (with_posterior self l (Some p)))
        end
      else Finished (Ok self)
  end.

(** The values of [alg_type] the docstring lists. *)
Definition supported_alg_type (alg_type : string) : bool :=
  (alg_type =? "MTRF")%string || (alg_type =? "given_MT")%string
  || (alg_type =? "MTMCMC")%string || (alg_type =? "REMTMCMC")%string.

End WithInterfaces.

End Learner.

(* ================================================================== *)
(** * A small learner to run the definitions on *)
(* ================================================================== *)

Module Example.

(** A sub-model that keeps the sum of the targets it absorbed; its log
    marginal likelihood is minus that sum. *)
#[export] Instance sum_model : SubModel R := {|
  sm_update_posterior := fun m ys => (m + Np.sum ys)%R;
  sm_update_posterior_lr := fun m _ ys => (m + Np.sum ys)%R;
  sm_calc_log_marginal_likelihood := fun m => (- m)%R;
  sm_check_sample := fun _ _ => Ok tt;
  sm_is_linearregression := false
|}.

(** A generator whose [random()] is always [1/2] and whose [choice] takes
    the first element. *)
Definition first_choice (g : unit) (l : list nat) : result (nat * unit) :=
  match l with
  | [] => Raise ValueError
  | x :: _ => Ok (x, g)
  end.

#[export] Instance half_generator : Generator unit.
Proof.
  refine {| rng_random := fun g => ((1 / 2)%R, g);
            rng_choice := first_choice |}.
  - intros g. simpl. lra.
  - reflexivity.
  - intros g x xs. exists x, g. split; [reflexivity|now left].
Defined.

#[export] Instance unit_seeding : Seeding unit := {|
  default_rng := fun _ => tt
|}.

Definition mark (n : node R) (h : R) (flag : option bool) : node R :=
  Node (depth n) (k n) h (thresholds n) (leaf n) flag (sub_model n)
    (log_marginal_likelihood n) (log_children_marginal_likelihood n)
    (children n).

(** A proposal kernel that stops reusing at the root.  The forced pass
    leaves the root with [h_g = 1/2] and returns [0]; a proposal marks both
    roots with [division_flag = False], gives the new root the split
    probability [h_new] and returns [l_new]. *)
Definition diverge_at_root (h_new l_new : R) : Proposal R unit := {|
  _generate_truncated_and_update :=
    fun _ _ _ _ _ g last new flag _ =>
      match last with
      | None => Ok (0%R, None, mark new (1 / 2) None, g)
      | Some t =>
          Ok (l_new, Some (mark t (h_g t) (Some false)),
              mark new h_new (Some false), g)
      end
|}.

(** A forest of [n] stumps on the first feature. *)
#[export] Instance stump_forest : Forest R := {|
  forest_metatrees := fun self _ n =>
    Ok (repeat (Node 0 None (hn_g self) None true None (new_sub_model self)
                  None [0; 0]%R []) n)
|}.

(** Two features, one continuous and one categorical, two children each. *)
Definition two_features : constants := {|
  c_dim_continuous := 1;
  c_dim_categorical := 1;
  c_num_children_vec := [2; 2]%nat;
  c_max_depth := 2;
  c_num_assignment_vec := [-1; -1]%Z
|}.

(** One continuous feature. *)
Definition one_feature : constants := {|
  c_dim_continuous := 1;
  c_dim_categorical := 0;
  c_num_children_vec := [2]%nat;
  c_max_depth := 2;
  c_num_assignment_vec := [-1]%Z
|}.

Definition learner_two_features : learner R := {|
  consts := two_features;
  h0_k_weight_vec := [1 / 2; 1 / 2]%R;
  hn_g := (1 / 2)%R;
  _root_k_candidates := [0; 1]%nat;
  new_sub_model := 0%R;
  hn_metatree_list := [];
  hn_metatree_prob_vec := None
|}.

Definition learner_one_feature : learner R := {|
  consts := one_feature;
  h0_k_weight_vec := [1]%R;
  hn_g := (1 / 2)%R;
  _root_k_candidates := [0]%nat;
  new_sub_model := 0%R;
  hn_metatree_list := [];
  hn_metatree_prob_vec := None
|}.

(** Two rows. *)
Definition two_rows : dataset :=
  [ {| x_continuous := [0%R]; x_categorical := [0%nat]; y := 1%R |};
    {| x_continuous := [1%R]; x_categorical := [1%nat]; y := 2%R |} ].

Definition two_rows_one_feature : dataset :=
  [ {| x_continuous := [0%R]; x_categorical := []; y := 1%R |};
    {| x_continuous := [1%R]; x_categorical := []; y := 2%R |} ].

(** Leaves that differ in [h_g] only, and a stump on the continuous feature. *)
Definition leaf_a : node R :=
  Node 0 None (1 / 2) None true None 0%R None [] [].

Definition leaf_b : node R :=
  Node 0 None (1 / 4) None true None 0%R None [] [].

Definition stump : node R :=
  Node 0 (Some 0%nat) (1 / 2) (Some [0; 1 / 2; 1]%R) false None 0%R None
    [0; 0]%R
    [ Node 1 None 0 None true None 0%R None [] [];
      Node 1 None 0 None true None 0%R None [] [] ].

(** Two stumps whose middle thresholds are close one way only:
    [|hi - lo| = 1.0010005e-5] is above [atol + rtol * lo = 1.001e-5] and
    below [atol + rtol * hi]. *)
Definition stump_hi : node R :=
  Node 0 (Some 0%nat) (1 / 2)
    (Some [0; 1 + 10010005 / 1000000000000; 2]%R) false None 0%R None
    [0; 0]%R
    [ Node 1 None 0 None true None 0%R None [] [];
      Node 1 None 0 None true None 0%R None [] [] ].

Definition stump_lo : node R :=
  Node 0 (Some 0%nat) (1 / 2) (Some [0; 1; 2]%R) false None 0%R None
    [0; 0]%R
    [ Node 1 None 0 None true None 0%R None [] [];
      Node 1 None 0 None true None 0%R None [] [] ].

(** The keyword arguments of the two samplers at their defaults. *)
Definition mtmcmc_defaults : MTMCMC.kwargs :=
  {| MTMCMC.burn_in := 100; MTMCMC.num_metatrees := 500;
     MTMCMC.g_max := 0; MTMCMC.rho := 99 / 100; MTMCMC.phi := 999 / 1000;
     MTMCMC.p_obj := 3 / 10; MTMCMC.threshold_type := "1d_kmeans";
     MTMCMC.seed := None |}.

Definition remtmcmc_defaults : REMTMCMC.kwargs :=
  {| REMTMCMC.burn_in := 100; REMTMCMC.num_metatrees := 500;
     REMTMCMC.num_chains := 8; REMTMCMC.g_max := 9 / 10;
     REMTMCMC.beta_vec := None; REMTMCMC.num_interval := 10;
     REMTMCMC.num_exchange := 4;
     REMTMCMC.threshold_type := "1d_kmeans"; REMTMCMC.seed := None |}.

Definition no_kwargs : Learner.kwargs :=
  {| Learner.n_estimators := 2;
     Learner.mtmcmc := mtmcmc_defaults;
     Learner.remtmcmc := remtmcmc_defaults |}.

(** [g_max=1.0] *)
Definition ceiling_one : MTMCMC.kwargs :=
  {| MTMCMC.burn_in := 100; MTMCMC.num_metatrees := 500;
     MTMCMC.g_max := 1; MTMCMC.rho := 99 / 100; MTMCMC.phi := 999 / 1000;
     MTMCMC.p_obj := 3 / 10; MTMCMC.threshold_type := "1d_kmeans";
     MTMCMC.seed := None |}.

(** [p_obj=0.9, phi=-0.5] *)
Definition negative_phi : MTMCMC.kwargs :=
  {| MTMCMC.burn_in := 100; MTMCMC.num_metatrees := 500;
     MTMCMC.g_max := 0; MTMCMC.rho := 99 / 100; MTMCMC.phi := - (1 / 2);
     MTMCMC.p_obj := 9 / 10; MTMCMC.threshold_type := "1d_kmeans";
     MTMCMC.seed := None |}.

(** [burn_in=2, num_metatrees=1] *)
Definition short_run : MTMCMC.kwargs :=
  {| MTMCMC.burn_in := 2; MTMCMC.num_metatrees := 1;
     MTMCMC.g_max := 0; MTMCMC.rho := 99 / 100; MTMCMC.phi := 999 / 1000;
     MTMCMC.p_obj := 3 / 10; MTMCMC.threshold_type := "1d_kmeans";
     MTMCMC.seed := None |}.

(** [num_chains=1, beta_vec=[2.0]] *)
Definition beta_two : REMTMCMC.kwargs :=
  {| REMTMCMC.burn_in := 100; REMTMCMC.num_metatrees := 500;
     REMTMCMC.num_chains := 1; REMTMCMC.g_max := 9 / 10;
     REMTMCMC.beta_vec := Some [2%R]; REMTMCMC.num_interval := 10;
     REMTMCMC.num_exchange := 4;
     REMTMCMC.threshold_type := "1d_kmeans"; REMTMCMC.seed := None |}.

(** [num_chains=2, beta_vec=[0.5, 2.0]] *)
Definition beta_half_two : REMTMCMC.kwargs :=
  {| REMTMCMC.burn_in := 100; REMTMCMC.num_metatrees := 500;
     REMTMCMC.num_chains := 2; REMTMCMC.g_max := 9 / 10;
     REMTMCMC.beta_vec := Some [1 / 2; 2]%R; REMTMCMC.num_interval := 10;
     REMTMCMC.num_exchange := 4;
     REMTMCMC.threshold_type := "1d_kmeans"; REMTMCMC.seed := None |}.

(** [num_chains=2, beta_vec=[0.5, 0.7, 2.0]] *)
Definition beta_three : REMTMCMC.kwargs :=
  {| REMTMCMC.burn_in := 100; REMTMCMC.num_metatrees := 500;
     REMTMCMC.num_chains := 2; REMTMCMC.g_max := 9 / 10;
     REMTMCMC.beta_vec := Some [1 / 2; 7 / 10; 2]%R;
     REMTMCMC.num_interval := 10; REMTMCMC.num_exchange := 4;
     REMTMCMC.threshold_type := "1d_kmeans"; REMTMCMC.seed := None |}.

(** The root the forced pass of [diverge_at_root] leaves on
    [learner_two_features], and on [learner_one_feature]. *)
Definition root0 : node R :=
  Node 0 (Some 0%nat) (1 / 2) None false None 0%R None [0; 0]%R [].

(** The candidate of a step of [diverge_at_root h l] from the state [s],
    whose list of trees is [trees ++ [last]]. *)
Definition toy_candidate (h l : R) (s : @MTMCMC.state R unit)
  (trees : list (node R)) (last : node R) : @MTMCMC.candidate R unit :=
  {| MTMCMC.cand_rng := MTMCMC.rng s;
     MTMCMC.cand_list := trees ++ [mark last (h_g last) (Some false)];
     MTMCMC.cand_root :=
       mark (Node 0 (Some 0%nat) (1 / 2) None false None
               (MTMCMC._hn_node_sub_model s) None
               (repeat 0%R (MTMCMC._num_children s)) []) h (Some false);
     MTMCMC.cand_l_new := l;
     MTMCMC.cand_t_new := Np.log (1 - Rmin h (MTMCMC._g_max s));
     MTMCMC.cand_t_last := Np.log (1 - Rmin (h_g last) (MTMCMC._g_max s)) |}.

(** The states of the driver in which [diverge_at_root (1/2) (-1)] is
    rejected: one tree, an inner root with [h_g = 1/2], at log-likelihood
    [0], and no acceptance counted by the tuner. *)
Definition rejecting (s : @MTMCMC.state R unit) : Prop :=
  (exists t, MTMCMC._tmp_metatree_list s = [t] /\ k t = Some 0%nat /\
             h_g t = (1 / 2)%R) /\
  (exists c, MTMCMC._tmp_metatree_count_list s = [c]) /\
  MTMCMC._l_last s = 0%R /\ MTMCMC._numerator s = 0%R /\
  MTMCMC._num_accepted s = 1%Z.

(** Two chains of the replica-exchange driver, the first on [leaf_a] at
    inverse temperature [1/2], the last on [leaf_b] at [1]. *)
Definition two_chains : @REMTMCMC.state R unit :=
  {| REMTMCMC.rng := tt;
     REMTMCMC._num_children := 2;
     REMTMCMC._hn_node_sub_model := 0%R;
     REMTMCMC._num_chains := 2;
     REMTMCMC._threshold_type := "1d_kmeans";
     REMTMCMC._tmp_roots := [leaf_a; leaf_b];
     REMTMCMC._tmp_metatree_lists := [[leaf_a]; [leaf_b]];
     REMTMCMC._tmp_metatree_count_lists := [[1%Z]; [1%Z]];
     REMTMCMC._l_lasts := [0; 1]%R;
     REMTMCMC._g_max := (9 / 10)%R;
     REMTMCMC._l_list := [];
     REMTMCMC._beta_vec := [1 / 2; 1]%R;
     REMTMCMC._num_interval := 10;
     REMTMCMC._num_exchange := 4;
     REMTMCMC._exchange_list := [] |}.

End Example.

(* ================================================================== *)
(** * Observations on lists and trees *)
(* ================================================================== *)

Module Shape.

(** [l1] is [l2] with some entries left out and the others in their order. *)
Inductive subsequence {A : Type} : list A -> list A -> Prop :=
| subsequence_nil : subsequence [] []
| subsequence_keep x l1 l2 :
    subsequence l1 l2 -> subsequence (x :: l1) (x :: l2)
| subsequence_drop x l1 l2 :
    subsequence l1 l2 -> subsequence l1 (x :: l2).

(** The shape of a tree: the attributes that say where a row goes and that
    [_compare_metatree_recursion] reads ([depth], [k], [thresholds], [leaf]
    and the children), without the ones inference writes ([h_g],
    [sub_model], the log marginal likelihoods, [division_flag]). *)
#[warnings="-register-all"]
Inductive shape : Type :=
| Shape (depth : nat) (k : option nat) (thresholds : option (list R))
    (leaf : bool) (children : list shape).

Fixpoint shape_of {M : Type} (n : node M) : shape :=
  match n with
  | Node d k _ th lf _ _ _ _ cs => Shape d k th lf (map shape_of cs)
  end.

(** Every inner node of the tree has [0 <= h_g <= 1]. *)
Fixpoint split_probabilities_within {M : Type} (n : node M) : Prop :=
  match n with
  | Node _ _ h _ lf _ _ _ _ cs =>
      (lf = true \/ (0 <= h <= 1)%R) /\
      fold_right (fun child rest => split_probabilities_within child /\ rest)
        True cs
  end.

End Shape.

(* ================================================================== *)
(** * The rows of the children of an inner node *)
(* ================================================================== *)

From Stdlib Require Import Permutation Sorted.

Module Routing.

(** The row sets the loop [for i in range(self.c_num_children_vec[node.k])]
    computes, child by child: [x[indices]] for the mask [indices] of child
    [i]. *)
Fixpoint route_all (routed : nat -> result dataset) (i todo : nat)
  : result (list dataset) :=
  match todo with
  | O => Ok []
  | S todo' =>
      rows <- routed i ;;
      rest <- route_all routed (S i) todo' ;;
      Ok (rows :: rest)
  end.

(** The thresholds between the children, [thresholds[1]] to
    [thresholds[nc-1]], do not decrease. *)
Definition interior_thresholds_sorted (t : list R) (nc : nat) : Prop :=
  forall i j, (1 <= i)%nat -> (i <= j)%nat -> (j <= nc - 1)%nat ->
    (nth i t 0 <= nth j t 0)%R.

(** The mask of child [j] holds for the row [r]. *)
Definition holds (tests : nat -> row -> result bool) (j : nat) (r : row)
  : bool :=
  match tests j r with
  | Ok true => true
  | _ => false
  end.

(** The test of the mask [x_categorical[:,col] == i] on a row. *)
Definition categorical_test (col i : nat) (r : row) : result bool :=
  x <- getitem (x_categorical r) col ;; Ok (x =? i)%nat.

(** The test of the mask of child [i] of a continuous feature on a row, for
    a threshold array of [nc + 1] entries. *)
Definition continuous_test (t : list R) (nc k i : nat) (r : row)
  : result bool :=
  x <- getitem (x_continuous r) k ;;
  Ok (if (i =? 0)%nat then ltb x (nth (i + 1) t 0%R)
      else if (i =? nc - 1)%nat then leb (nth i t 0%R) x
      else leb (nth i t 0%R) x && ltb x (nth (i + 1) t 0%R)).

(** Every categorical value of the column [col] is a child index. *)
Definition categorical_in_range (col nc : nat) (data : dataset) : Prop :=
  Forall (fun r => exists x, nth_error (x_categorical r) col = Some x /\
                             (x < nc)%nat) data.

End Routing.

(* ================================================================== *)
(** * What the Metropolis-Hastings driver keeps *)
(* ================================================================== *)

Module ChainInvariants.

Import MTMCMC.

(** [sum(counts)] on a list of integers *)
Definition sum_counts (counts : list Z) : Z := fold_right Z.add 0%Z counts.

(** One counter per tree of the list, as many trees as [_num_accepted]
    counts, and no counter below 1. *)
Definition counters_consistent {M G : Type} (s : @state M G) : Prop :=
  List.length (_tmp_metatree_count_list s)
  = List.length (_tmp_metatree_list s) /\
  Z.of_nat (List.length (_tmp_metatree_list s)) = _num_accepted s /\
  Forall (fun count => (1 <= count)%Z) (_tmp_metatree_count_list s).

(** The ceiling is the ratio of the two decayed sums the tuner keeps. *)
Definition smoothed {M G : Type} (s : @state M G) : Prop :=
  _g_max_accumulated s = (_g_max s * _g_max_denominator s)%R.

(** Every node of the tree that has a feature has a positive [h_g]. *)
Fixpoint positive_split_probabilities {M : Type} (n : node M) : Prop :=
  match n with
  | Node _ k h _ _ _ _ _ _ cs =>
      (k = None \/ (0 < h)%R) /\
      fold_right (fun child rest => positive_split_probabilities child /\ rest)
        True cs
  end.

End ChainInvariants.

(* ================================================================== *)
(** * What the replica-exchange driver keeps *)
(* ================================================================== *)

Module ReplicaInvariants.

Import REMTMCMC.

(** The numbers of trees the tempered chains (all but the last) hold. *)
Definition tempered_lengths {M G : Type} (s : @state M G) : list nat :=
  firstn (_num_chains s - 1)
    (map (@List.length (node M)) (_tmp_metatree_lists s)).

(** One list of trees per chain. *)
Definition one_list_per_chain {M G : Type} (s : @state M G) : Prop :=
  List.length (_tmp_metatree_lists s) = _num_chains s.

End ReplicaInvariants.

(* ================================================================== *)
(** * The weights of an ensemble *)
(* ================================================================== *)

Module Ensemble.

Section WithSubModel.
Context {M : Type} `{SubModel M}.

(** The update [_given_MT] runs on each tree of the ensemble. *)
Definition tree_update (c : constants) (t : node M) (data : dataset)
  : result (R * node M) :=
  if sm_is_linearregression
  then Recursion._update_posterior_recursion_lr_batch c t data
  else Recursion._update_posterior_recursion_batch c t data.

End WithSubModel.

(** The weight [p] of a tree times the marginal likelihood [exp v] of the
    data under it, tree by tree. *)
Definition bayes_weights (ps vs : list R) : list R :=
  map (fun pv => (fst pv * exp (snd pv))%R) (combine ps vs).

(** A vector divided by its sum. *)
Definition normalised (ws : list R) : list R :=
  map (fun w => (w / Np.sum ws)%R) ws.

End Ensemble.

(* ================================================================== *)
(** * More small learners and arguments *)
(* ================================================================== *)

Module MoreExamples.

Import Example.

(** The two-feature learner with the one-tree ensemble [[stump]], weight 1. *)
Definition learner_with_stump : learner R := {|
  consts := two_features;
  h0_k_weight_vec := [1 / 2; 1 / 2]%R;
  hn_g := (1 / 2)%R;
  _root_k_candidates := [0; 1]%nat;
  new_sub_model := 0%R;
  hn_metatree_list := [stump];
  hn_metatree_prob_vec := Some [1%R]
|}.

(** [burn_in=1, num_metatrees=0, num_chains=2, num_interval=1,
    num_exchange=2]: one sweep, with a round of two exchange attempts
    after it. *)
Definition one_sweep : REMTMCMC.kwargs :=
  {| REMTMCMC.burn_in := 1; REMTMCMC.num_metatrees := 0;
     REMTMCMC.num_chains := 2; REMTMCMC.g_max := 9 / 10;
     REMTMCMC.beta_vec := None; REMTMCMC.num_interval := 1;
     REMTMCMC.num_exchange := 2;
     REMTMCMC.threshold_type := "1d_kmeans"; REMTMCMC.seed := None |}.

End MoreExamples.

(* ================================================================== *)
(** * The threshold of a binary split ([_make_thresholds]) *)
(* ================================================================== *)

Module Thresholds.

(** [np.unique(x)]: the values of [x], each once, in increasing order. *)
Fixpoint insert_unique (v : R) (l : list R) : list R :=
  match l with
  | [] => [v]
  | w :: l' =>
      if Rlt_dec v w then v :: l
      else if Rlt_dec w v then w :: insert_unique v l'
      else l
  end.

Definition np_unique (x : list R) : list R := fold_right insert_unique [] x.

(** [a.min()] of a non-empty array *)
Definition np_min (a : list R) : result R :=
  match a with
  | [] => Raise ValueError
  | x :: a' => Ok (fold_left Rmin a' x)
  end.

(** The local variables of [_make_thresholds]. *)
Record split_state : Type := {
  n_l : Z;
  sum_l : R;
  sum_sq_l : R;
  n_r : Z;
  sum_r : R;
  sum_sq_r : R;
  tmp_min : R;
  tmp_th : nat
}.

(** [(sum_sq_l - sum_l*sum_l/n_l) + (sum_sq_r - sum_r*sum_r/n_r)] *)
Definition metric_of (nl : Z) (sl sql : R) (nr : Z) (sr sqr : R) : R :=
  ((sql - sl * sl / IZR nl) + (sqr - sr * sr / IZR nr))%R.

(** The body of the loop [for i in range(1,len(tmp_x)-1)]. *)
Definition split_step (tmp_x : list R) (st : split_state) (i : nat)
  : result split_state :=
  x_i <- getitem tmp_x i ;;
  let x_i_sq := (x_i * x_i)%R in
  let nl := (n_l st + 1)%Z in
  let sl := (sum_l st + x_i)%R in
  let sql := (sum_sq_l st + x_i_sq)%R in
  let nr := (n_r st - 1)%Z in
  let sr := (sum_r st - x_i)%R in
  let sqr := (sum_sq_r st - x_i_sq)%R in
  let metric := metric_of nl sl sql nr sr sqr in
  if ltb metric (tmp_min st) then
    Ok {| n_l := nl; sum_l := sl; sum_sq_l := sql;
          n_r := nr; sum_r := sr; sum_sq_r := sqr;
          tmp_min := metric; tmp_th := i |}
  else
    Ok {| n_l := nl; sum_l := sl; sum_sq_l := sql;
          n_r := nr; sum_r := sr; sum_sq_r := sqr;
          tmp_min := tmp_min st; tmp_th := tmp_th st |}.

(** The variables before the loop.  With one distinct value [n_r] is [0]
    and numpy gives [nan] for [tmp_min]; the loop is then empty and the
    return statement raises, so that the value is never used. *)
Definition split_start (tmp_x : list R) : result split_state :=
  x0 <- getitem tmp_x 0 ;;
  let rest := skipn 1 tmp_x in
  let nr := (Z.of_nat (List.length tmp_x) - 1)%Z in
  let sr := Np.sum rest in
  let sqr := Np.sum (map (fun v => (v * v)%R) rest) in
  Ok {| n_l := 1; sum_l := x0; sum_sq_l := (x0 * x0)%R;
        n_r := nr; sum_r := sr; sum_sq_r := sqr;
        tmp_min := metric_of 1 x0 (x0 * x0) nr sr sqr; tmp_th := 0 |}.

(** [_make_thresholds] *)
Definition _make_thresholds (x : list R) : result (list R) :=
  let tmp_x := np_unique x in
  st0 <- split_start tmp_x ;;
  st <- for_each (split_step tmp_x) (range2 1 (List.length tmp_x - 1)) st0 ;;
  lo <- np_min tmp_x ;;
  a <- getitem tmp_x (tmp_th st) ;;
  b <- getitem tmp_x (tmp_th st + 1) ;;
  hi <- Learner.np_max tmp_x ;;
  Ok [lo; ((a + b) / 2)%R; hi].

(** ** The criterion the loop minimises

    The sum of the squared deviations of [l] from its mean, and the cost of
    cutting the sorted values [xs] after the position [j]: the sum for the
    values up to [j] plus the sum for the values after [j]. *)
Definition squared_deviations (l : list R) : R :=
  (Np.sum (map (fun v => (v * v)%R) l)
   - Np.sum l * Np.sum l / INR (List.length l))%R.

Definition cut_cost (xs : list R) (j : nat) : R :=
  (squared_deviations (firstn (j + 1) xs)
   + squared_deviations (skipn (j + 1) xs))%R.

(** What the loop has after the pass of [i = m]: the two running sums are
    those of the values up to [m] and after [m], and [tmp_th] is a cut of
    least cost among the cuts up to [m]. *)
Definition after_pass (xs : list R) (m : nat) (st : split_state) : Prop :=
  n_l st = Z.of_nat (m + 1) /\
  sum_l st = Np.sum (firstn (m + 1) xs) /\
  sum_sq_l st = Np.sum (map (fun v => (v * v)%R) (firstn (m + 1) xs)) /\
  n_r st = (Z.of_nat (List.length xs) - Z.of_nat (m + 1))%Z /\
  sum_r st = Np.sum (skipn (m + 1) xs) /\
  sum_sq_r st = Np.sum (map (fun v => (v * v)%R) (skipn (m + 1) xs)) /\
  (tmp_th st <= m)%nat /\
  tmp_min st = cut_cost xs (tmp_th st) /\
  forall j, (j <= m)%nat -> (tmp_min st <= cut_cost xs j)%R.

End Thresholds.

(* ================================================================== *)
(** * The generator of candidate trees ([_generate_truncated_and_update]) *)
(* ================================================================== *)

Module Kernel.

Import Recursion.

Section WithInterfaces.

Context {M G : Type} `{SubModel M} `{Generator G}.

Variable c : constants.
Variable h0_g : R.                  (* [self.h0_g] *)
Variable g_max : R.                 (* [self._g_max] *)
Variable threshold_type : string.   (* [self._threshold_type] *)
Variable hn_node_sub_model : M.     (* [self._hn_node_sub_model] *)
Variable num_children : nat.        (* [self._num_children] *)

(** The sub-model update that tells [_generate_truncated_and_update] from
    its [_lr] twin, as in the marginal-likelihood recursion. *)
Variable leaf_batch : M -> dataset -> M * R.

(** [x[:,k]] on [x_continuous] *)
Fixpoint column (kk : nat) (data : dataset) : result (list R) :=
  match data with
  | [] => Ok []
  | r :: data' =>
      x <- getitem (x_continuous r) kk ;;
      rest <- column kk data' ;;
      Ok (x :: rest)
  end.

(** [np.allclose(a, a[0])] on a two-dimensional array, row by row against
    the first row [r0]. *)
Fixpoint all_rows_close (r0 : list R) (rows : list (list R)) : result bool :=
  match rows with
  | [] => Ok true
  | r :: rows' =>
      b <- Np.allclose r r0 ;;
      rest <- all_rows_close r0 rows' ;;
      Ok (b && rest)
  end.

(** The test under [# leaf node]:
    [new.depth == self.c_max_depth
     or (np.allclose(x_continuous,x_continuous[0])
         and np.allclose(x_categorical,x_categorical[0]))],
    with the short cuts of [or] and [and]. *)
Definition is_leaf (d : nat) (data : dataset) : result bool :=
  if (d =? c_max_depth c)%nat then Ok true else
  r0 <- getitem data 0 ;;
  close <- all_rows_close (x_continuous r0) (map x_continuous data) ;;
  if negb close then Ok false else
  all_rows_close (map INR (x_categorical r0))
    (map (fun r => map INR (x_categorical r)) data).

(** [list.remove(x)]: the first occurrence goes, [ValueError] without one. *)
Fixpoint list_remove (x : nat) (l : list nat) : result (list nat) :=
  match l with
  | [] => Raise ValueError
  | v :: l' =>
      if (v =? x)%nat then Ok l'
      else l'' <- list_remove x l' ;; Ok (v :: l'')
  end.

(** [np.arange(lo, hi+(hi-lo)/n/2, (hi-lo)/n)]: the [n+1] points from [lo]
    to [hi] in steps of [(hi-lo)/n]. *)
Definition np_arange (lo hi : R) (n : nat) : list R :=
  map (fun i => (lo + INR i * ((hi - lo) / INR n))%R) (seq 0 (n + 1)).

(** [_make_children_for_mcmc], for a node that splits the feature [kk] and
    has the candidates [k_candidates]: the candidates of its children and
    its thresholds.  [node.ranges[kk]] holds the least and the largest value
    of the column [kk] of the rows at the node: the caller has just written
    them.  The children themselves are [fresh_child] below. *)
Definition _make_children_for_mcmc (k_candidates : list nat)
  (kk : nat) (data : dataset) : result (list nat * option (list R)) :=
  assigned <- getitem (c_num_assignment_vec c) kk ;;
  child_k_candidates <-
    (if (0 <? assigned)%Z then list_remove kk k_candidates
     else Ok k_candidates) ;;
  if (kk <? c_dim_continuous c)%nat then
    col <- column kk data ;;
    lo <- Thresholds.np_min col ;;
    hi <- Learner.np_max col ;;
    if Req_dec_T lo hi then
      Ok (child_k_candidates, Some (repeat lo (num_children + 1)))
    else if ((threshold_type =? "1d_kmeans")%string
             && (num_children =? 2)%nat)%bool then
      th <- Thresholds._make_thresholds col ;;
      Ok (child_k_candidates, Some th)
    else
      Ok (child_k_candidates, Some (np_arange lo hi num_children))
  else Ok (child_k_candidates, None).

(** A child as [_make_children_for_mcmc] creates it:
    [_Node(node.depth+1, child_k_candidates, h_g=self.h0_g, ...,
           log_children_marginal_likelihood=np.zeros(self._num_children))].
    Its [sub_model] is [None] until the loop over the children sets it,
    which it does in both of its branches; it is written here as the
    sub-model the branch without rows gives it. *)
Definition fresh_child (d : nat) : node M :=
  Node (S d) None h0_g None false None hn_node_sub_model None
    (repeat 0%R num_children) [].

(** The child of the [else] branch of the loop, which got no row:
    [leaf = True], [log_marginal_likelihood = 0.0],
    [sub_model = copy.deepcopy(self._hn_node_sub_model)]. *)
Definition child_without_rows (d : nat) : node M :=
  Node (S d) None h0_g None true None hn_node_sub_model (Some 0%R)
    (repeat 0%R num_children) [].

(** The loop [for i in range(self._num_children)], from child [i] on with
    [todo] children left.  [gen] is the recursive call on a child; [flag] is
    the flag as the node leaves it.  [last_cs] are the children of [last],
    which the calls mark; the result has the generator, these children, the
    children of [new] from [i] on and
    [new.log_children_marginal_likelihood]. *)
Fixpoint generate_children
  (gen : G -> option (node M) -> node M -> dataset
         -> result (R * option (node M) * node M * G))
  (routed : nat -> result dataset) (flag : bool) (d : nat)
  (i todo : nat) (g : G) (last_cs : list (node M)) (lcml : list R)
  {struct todo} : result (G * list (node M) * list (node M) * list R) :=
  match todo with
  | O => Ok (g, last_cs, [], lcml)
  | S todo' =>
      rows <- routed i ;;
      match rows with
      | [] =>
          lcml' <- setitem lcml i 0%R ;;
          '(g', last_cs', cs, lcml'') <-
            generate_children gen routed flag d (S i) todo' g last_cs lcml' ;;
          Ok (g', last_cs', child_without_rows d :: cs, lcml'')
      | _ :: _ =>
          last_i <- (if flag then Ok None
                     else l <- getitem last_cs i ;; Ok (Some l)) ;;
          '(v, last_i', child, g1) <- gen g last_i (fresh_child d) rows ;;
          last_cs1 <- match last_i' with
                      | None => Ok last_cs
                      | Some l => setitem last_cs i l
                      end ;;
          lcml' <- setitem lcml i v ;;
          '(g', last_cs', cs, lcml'') <-
            generate_children gen routed flag d (S i) todo' g1 last_cs1 lcml' ;;
          Ok (g', last_cs', child :: cs, lcml'')
      end
  end.

Definition set_division_flag (n : node M) (b : bool) : node M :=
  Node (depth n) (k n) (h_g n) (thresholds n) (leaf n) (Some b)
    (sub_model n) (log_marginal_likelihood n)
    (log_children_marginal_likelihood n) (children n).

Definition set_children (n : node M) (cs : list (node M)) : node M :=
  Node (depth n) (k n) (h_g n) (thresholds n) (leaf n) (division_flag n)
    (sub_model n) (log_marginal_likelihood n)
    (log_children_marginal_likelihood n) cs.

(** The lines under [# inner node] that give [new.k]: the feature, the
    flag, [last] and [new.division_flag] as they leave them, and the
    generator.  On a forced pass the feature is drawn from the candidates
    and nothing else is touched.  Otherwise one draw of [random()] decides:
    above [min(last.h_g, self._g_max)] the pass is forced from here on, both
    nodes are marked [False] and the feature is drawn from the candidates
    other than [last.k]; else both are marked [True] and the feature is
    [last.k].  A [last.k] that is [None] cannot index
    [c_num_assignment_vec] in [_make_children_for_mcmc]: numpy then tests
    an array (ambiguous with more than one entry), and [None < int] fails
    after it. *)
Definition choose_feature (k_candidates : list nat) (g : G)
  (last : option (node M)) (new_flag : option bool) (flag : bool)
  : result (nat * bool * option (node M) * option bool * G) :=
  if flag then
    '(kk, g1) <- rng_choice g k_candidates ;;
    Ok (kk, true, last, new_flag, g1)
  else
    match last with
    | None => Raise AttributeError
    | Some l =>
        let '(u, g1) := rng_random g in
        if ltb (Rmin (h_g l) g_max) u then
          '(kk, g2) <-
            rng_choice g1
              (filter (fun x => match k l with
                                | Some lk => negb (x =? lk)%nat
                                | None => true
                                end) k_candidates) ;;
          Ok (kk, true, Some (set_division_flag l false), Some false, g2)
        else
          match k l with
          | Some lk =>
              Ok (lk, false, Some (set_division_flag l true), Some true, g1)
          | None =>
              if (List.length (c_num_assignment_vec c) <=? 1)%nat
              then Raise TypeError else Raise ValueError
          end
    end.

(** [_generate_truncated_and_update] on the node [new], whose candidates
    are [k_candidates]: the value returned, [last] and [new] as the call
    leaves them, and the generator.

    [levels] bounds the depth of the recursion, which Python bounds by its
    recursion limit; a call on a node of depth [d <= c_max_depth] needs
    [c_max_depth - d + 1] levels and no more, the node at [c_max_depth]
    being a leaf.

    [new.log_marginal_likelihood] is a float on a forced pass; otherwise it
    is that of [last], a float on every node a pass has left and [None] on a
    node no pass has visited: the float arithmetic on it then raises, in this
    call or in its caller. *)
Fixpoint generate (levels : nat) (k_candidates : list nat) (g : G)
  (last : option (node M)) (new : node M) (flag : bool) (data : dataset)
  {struct levels} : result (R * option (node M) * node M * G) :=
  match levels with
  | O => Raise RecursionError
  | S levels' =>
      (* always *)
      '(sm, lml) <-
        (if flag then
           let '(sm', v) := leaf_batch hn_node_sub_model data in
           Ok (sm', Some v)
         else
           match last with
           | None => Raise AttributeError
           | Some l => Ok (sub_model l, log_marginal_likelihood l)
           end) ;;
      (* leaf node *)
      lf <- is_leaf (depth new) data ;;
      if lf then
        match lml with
        | None => Raise TypeError
        | Some v =>
            Ok (v, last,
                Node (depth new) (k new) 0 (thresholds new) true
                  (division_flag new) sm (Some v)
                  (log_children_marginal_likelihood new) (children new), g)
        end
      else
        (* inner node *)
        '(kk, flag', last1, df, g1) <-
          choose_feature k_candidates g last (division_flag new) flag ;;
        '(child_k_candidates, th) <-
          _make_children_for_mcmc k_candidates kk data ;;
        '(g2, last_cs, cs, lcml) <-
          generate_children
            (fun g0 l n rows =>
               generate levels' child_k_candidates g0 l n flag' rows)
            (fun i => route c th num_children kk i data) flag' (depth new)
            0 num_children g1
            (match last1 with Some l => children l | None => [] end)
            (log_children_marginal_likelihood new) ;;
        match lml with
        | None => Raise TypeError
        | Some v =>
            let tmp1 := xadd (xlog (h_g new)) (Finite (Np.sum lcml)) in
            let tmp2 := xlogaddexp (xadd (xlog (1 - h_g new)) (Finite v)) tmp1 in
            Ok (real_of tmp2,
                match last1 with
                | Some l => Some (set_children l last_cs)
                | None => None
                end,
                Node (depth new) (Some kk) (real_of (xexp (xsub tmp1 tmp2)))
                  th (leaf new) df sm (Some v) lcml cs,
                g2)
        end
  end.

End WithInterfaces.

(** The kernel of a learner with the prior split probability [h0_g]: the
    proposal the two drivers call, on a root of depth [0] whose candidates
    are [self._root_k_candidates]. *)
Definition kernel {M G : Type} `{SubModel M} `{Generator G}
  (self : learner M) (h0_g : R) : Proposal M G := {|
  _generate_truncated_and_update :=
    fun c g_max threshold_type hn_node_sub_model num_children
        g last new flag data =>
      generate c h0_g g_max threshold_type hn_node_sub_model num_children
        (if sm_is_linearregression
         then _update_posterior_leaf_lr_batch
         else _update_posterior_leaf_batch)
        (S (c_max_depth c - depth new)) (_root_k_candidates self)
        g last new flag data
|}.

(** Two results of the generator that differ in the generator only. *)
Definition same_but_generator {M G : Type}
  (a b : result (R * option (node M) * node M * G)) : Prop :=
  match a, b with
  | Ok (v, l, n, _), Ok (v', l', n', _) => v = v' /\ l = l' /\ n = n'
  | Raise e, Raise e' => e = e'
  | _, _ => False
  end.

(** Two runs of the loop over the children that differ in the generator
    only. *)
Definition same_children {M G : Type}
  (a b : result (G * list (node M) * list (node M) * list R)) : Prop :=
  match a, b with
  | Ok (_, l, cs, lc), Ok (_, l', cs', lc') => l = l' /\ cs = cs' /\ lc = lc'
  | Raise e, Raise e' => e = e'
  | _, _ => False
  end.

(** Two results of the lines of [_MTMCMC] before its loops that differ in
    the generator only. *)
Definition same_start {M G : Type} (a b : result (G * nat * node M * R))
  : Prop :=
  match a, b with
  | Ok (_, n, t, l), Ok (_, n', t', l') => n = n' /\ t = t' /\ l = l'
  | Raise e, Raise e' => e = e'
  | _, _ => False
  end.

End Kernel.

(** ** A run of the kernel on two rows *)

Module KernelExamples.

Import Example.

(** A generator that counts its draws: [random()] is always [1/2] and
    [choice] takes the element at the count, modulo the length.  The seed
    is the first count. *)
Definition counted_choice (g : nat) (l : list nat) : result (nat * nat) :=
  match l with
  | [] => Raise ValueError
  | x :: xs => Ok (nth (g mod List.length l) l x, S g)
  end.

#[export] Instance counting_generator : Generator nat.
Proof.
  refine {| rng_random := fun g => ((1 / 2)%R, S g);
            rng_choice := counted_choice |}.
  - intros g. simpl. lra.
  - reflexivity.
  - intros g x xs. exists (nth (g mod List.length (x :: xs)) (x :: xs) x), (S g).
    split; [reflexivity|]. apply nth_In. apply Nat.mod_upper_bound.
    discriminate.
Defined.

#[export] Instance seed_is_count : Seeding nat := {|
  default_rng := fun s => match s with Some z => Z.to_nat z | None => 0%nat end
|}.

(** [burn_in=3, num_metatrees=2, g_max=0.5, threshold_type='1d_kmeans',
    seed=7] *)
Definition seeded : MTMCMC.kwargs :=
  {| MTMCMC.burn_in := 3; MTMCMC.num_metatrees := 2;
     MTMCMC.g_max := 1 / 2; MTMCMC.rho := 9 / 10; MTMCMC.phi := 1 / 2;
     MTMCMC.p_obj := 1 / 2; MTMCMC.threshold_type := "1d_kmeans";
     MTMCMC.seed := Some 7%Z |}.

(** The tree of the forced pass on [two_rows_one_feature]: the root splits
    the feature at [1/2], between the two values, and each child is a leaf
    that holds one row. *)
Definition two_rows_tree : node R :=
  Node 0 (Some 0%nat) (1 / 2) (Some [0; 1 / 2; 1]%R) false None 3%R
    (Some (-3)%R) [-1; -2]%R
    [ Node 1 None 0 None true None 1%R (Some (-1)%R) [0; 0]%R [];
      Node 1 None 0 None true None 2%R (Some (-2)%R) [0; 0]%R [] ].

End KernelExamples.

(* ================================================================== *)
(** * The prediction pass *)
(* ================================================================== *)

Module Prediction.

(** [node.sub_model.make_prediction(loss='squared')], once
    [node.sub_model.calc_pred_dist()] ran, for the sub-models other than
    linear regression: a float that does not depend on the query rows. *)
Class Predictive (M : Type) : Type := {
  sm_make_prediction_squared : M -> R;
  (** [node.sub_model.calc_pred_var()] *)
  sm_calc_pred_var : M -> R
}.

(** The attribute [_p_indices] of the nodes of a tree, node by node: [None]
    on a node that does not have it, the number of query rows and one mask
    of the rows for each child ([_p_indices[:,i]]) on a node that has. *)
#[warnings="-register-all"]
Inductive indices : Type :=
| Indices (p_indices : option (nat * list (list bool)))
    (ichildren : list indices).

Definition no_indices : indices := Indices None [].

Definition ichildren_of (ix : indices) : list indices :=
  match ix with Indices _ l => l end.

(** What [make_prediction] of a node returns: a float or an array. *)
Inductive value : Type :=
| Scalar (v : R)
| Vector (vs : list R).

(** An entry of an array that [np.empty] made: [None] until it is
    assigned, and what is computed from an entry that is not assigned is
    [None] as well (its value is whatever the memory held). *)
Definition cell : Type := option R.

(** A float or an array of such entries. *)
Inductive cells : Type :=
| CScalar (v : R)
| CVector (vs : list cell).

(** [np.any(mask)] and the number of [True] in a mask *)
Definition np_any (mask : list bool) : bool := existsb (fun b => b) mask.

Definition count_true (mask : list bool) : nat :=
  List.length (filter (fun b => b) mask).

(** The mask [[test(r) for r in rows]] *)
Fixpoint mask_of (test : row -> result bool) (data : dataset)
  : result (list bool) :=
  match data with
  | [] => Ok []
  | r :: data' =>
      b <- test r ;;
      rest <- mask_of test data' ;;
      Ok (b :: rest)
  end.

(** [a[mask]] for a mask of the length of [a] *)
Fixpoint compress {A : Type} (mask : list bool) (a : list A) : list A :=
  match mask, a with
  | b :: mask', x :: a' =>
      if b then x :: compress mask' a' else compress mask' a'
  | _, _ => []
  end.

(** [tmp[mask] = (1-h) * tmp[mask] + h * vs], for as many values [vs] as
    the mask has [True]. *)
Fixpoint blend_vector (h : R) (tmp : list R) (mask : list bool) (vs : list R)
  : list R :=
  match tmp, mask with
  | t :: tmp', b :: mask' =>
      if b then
        match vs with
        | v :: vs' => ((1 - h) * t + h * v)%R :: blend_vector h tmp' mask' vs'
        | [] => tmp
        end
      else t :: blend_vector h tmp' mask' vs
  | _, _ => tmp
  end.

(** The same assignment for the value of a child: a float is broadcast, an
    array needs as many values as the mask has [True] (or one value, which
    is broadcast); numpy raises [ValueError] otherwise. *)
Definition blend (h : R) (tmp : list R) (mask : list bool) (child : value)
  : result (list R) :=
  match child with
  | Scalar v => Ok (blend_vector h tmp mask (repeat v (count_true mask)))
  | Vector vs =>
      if (List.length vs =? count_true mask)%nat
      then Ok (blend_vector h tmp mask vs)
      else
        match vs with
        | [v] => Ok (blend_vector h tmp mask (repeat v (count_true mask)))
        | _ => Raise ValueError
        end
  end.

(** [tmp[mask] = vs], for as many entries [vs] as the mask has [True]. *)
Fixpoint put_vector (tmp : list cell) (mask : list bool) (vs : list cell)
  : list cell :=
  match tmp, mask with
  | t :: tmp', b :: mask' =>
      if b then
        match vs with
        | v :: vs' => v :: put_vector tmp' mask' vs'
        | [] => tmp
        end
      else t :: put_vector tmp' mask' vs
  | _, _ => tmp
  end.

(** The same assignment for what a child returns: a mask of another length
    than [tmp] raises [IndexError]; a float is broadcast, an array needs as
    many entries as the mask has [True] (or one entry, which is broadcast),
    and numpy raises [ValueError] otherwise. *)
Definition put (tmp : list cell) (mask : list bool) (child : cells)
  : result (list cell) :=
  if negb (List.length mask =? List.length tmp)%nat then Raise IndexError
  else
    match child with
    | CScalar v =>
        Ok (put_vector tmp mask (repeat (Some v) (count_true mask)))
    | CVector vs =>
        if (List.length vs =? count_true mask)%nat
        then Ok (put_vector tmp mask vs)
        else
          match vs with
          | [v] => Ok (put_vector tmp mask (repeat v (count_true mask)))
          | _ => Raise ValueError
          end
    end.

(** [mix_means] and [mix_vars] of [_calc_pred_var_recursion_batch] at one
    entry: [m] and [s] are the prediction and the variance of the node's
    sub-model. *)
Definition mix_mean (h m : R) (mean_child : cell) : cell :=
  match mean_child with
  | Some mc => Some ((1 - h) * m + h * mc)%R
  | None => None
  end.

Definition mix_var (h m s : R) (mean_child var_child : cell) : cell :=
  match mean_child, var_child with
  | Some mc, Some vc =>
      let mm := ((1 - h) * m + h * mc)%R in
      Some ((1 - h) * ((mm - m) * (mm - m) + s)
            + h * ((mm - mc) * (mm - mc) + vc))%R
  | _, _ => None
  end.

Section WithSubModel.

Context {M : Type} `{Predictive M}.
Variable c : constants.

(** The column [i] of [_p_indices] at a node with the feature [kk]: the
    masks of the marginal-likelihood recursion. *)
Definition column_mask (th : option (list R)) (nc kk i : nat) (data : dataset)
  : result (list bool) :=
  if (kk <? c_dim_continuous c)%nat then
    match th with
    | None => Raise TypeError
    | Some t =>
        if (i =? 0)%nat then
          hi <- getitem t (i + 1) ;;
          mask_of (fun r => x <- getitem (x_continuous r) kk ;;
                            Ok (ltb x hi)) data
        else if (i =? nc - 1)%nat then
          lo <- getitem t i ;;
          mask_of (fun r => x <- getitem (x_continuous r) kk ;;
                            Ok (leb lo x)) data
        else
          lo <- getitem t i ;;
          hi <- getitem t (i + 1) ;;
          mask_of (fun r => x <- getitem (x_continuous r) kk ;;
                            Ok (leb lo x && ltb x hi)) data
    end
  else
    mask_of (fun r => x <- getitem (x_categorical r) (kk - c_dim_continuous c) ;;
                      Ok (x =? i)%nat) data.

(** The loop of [_calc_pred_dist_recursion_batch] once the children are
    used up: a column with a [True] needs [node.children[i]]. *)
Fixpoint columns_without (column : nat -> result (list bool)) (i todo : nat)
  : result (list (list bool)) :=
  match todo with
  | O => Ok []
  | S todo' =>
      mask <- column i ;;
      if np_any mask then Raise IndexError
      else
        cols <- columns_without column (S i) todo' ;;
        Ok (mask :: cols)
  end.

(** The loop [for i in range(self.c_num_children_vec[node.k])] of
    [_calc_pred_dist_recursion_batch], from child [i] on: the columns it
    writes and the [_p_indices] of the children as it leaves them ([olds]
    are those the children had; a child no row reaches keeps its own). *)
Fixpoint calc_children
  (calc : node M -> dataset -> indices -> result indices)
  (column : nat -> result (list bool)) (data : dataset)
  (cs : list (node M)) (olds : list indices) (i todo : nat) {struct cs}
  : result (list (list bool) * list indices) :=
  match cs with
  | [] =>
      cols <- columns_without column i todo ;;
      Ok (cols, olds)
  | child :: cs' =>
      match todo with
      | O => Ok ([], olds)
      | S todo' =>
          mask <- column i ;;
          let old := hd no_indices olds in
          ix <- (if np_any mask then calc child (compress mask data) old
                 else Ok old) ;;
          '(cols, ixs) <-
            calc_children calc column data cs' (tl olds) (S i) todo' ;;
          Ok (mask :: cols, ix :: ixs)
      end
  end.

(** [_calc_pred_dist_recursion_batch], as a function of the [_p_indices]
    the tree had.  What [node.sub_model.calc_pred_dist()] computes is
    inside the sub-model. *)
Fixpoint _calc_pred_dist_recursion_batch (n : node M) (data : dataset)
  (old : indices) {struct n} : result indices :=
  match n with
  | Node _ k _ th lf _ _ _ _ cs =>
      if lf then Ok old
      else
        match k with
        | None => Raise TypeError
        | Some kk =>
            nc <- getitem (c_num_children_vec c) kk ;;
            '(cols, ixs) <-
              calc_children _calc_pred_dist_recursion_batch
                (fun i => column_mask th nc kk i data) data cs
                (ichildren_of old) 0 nc ;;
            Ok (Indices (Some (List.length data, cols)) ixs)
        end
  end.

(** The loop of [_make_prediction_recursion_squared_batch] once the
    children are used up: a column with a [True] raises [IndexError], on
    a mask of another length than [tmp_pred_values] or on
    [node.children[i]]. *)
Fixpoint predict_without (cols : list (list bool)) (i todo : nat)
  (tmp : list R) : result (list R) :=
  match todo with
  | O => Ok tmp
  | S todo' =>
      col <- getitem cols i ;;
      if np_any col then Raise IndexError
      else predict_without cols (S i) todo' tmp
  end.

(** The loop [for i in range(self.c_num_children_vec[node.k])] of
    [_make_prediction_recursion_squared_batch], from child [i] on.  The
    right-hand side reads [tmp_pred_values[mask]] before it calls the
    child: a mask of another length raises [IndexError] there. *)
Fixpoint predict_children
  (predict : node M -> indices -> result value) (h : R)
  (cols : list (list bool)) (cs : list (node M)) (ixs : list indices)
  (i todo : nat) (tmp : list R) {struct cs} : result (list R) :=
  match cs with
  | [] => predict_without cols i todo tmp
  | child :: cs' =>
      match todo with
      | O => Ok tmp
      | S todo' =>
          col <- getitem cols i ;;
          if np_any col then
            if negb (List.length col =? List.length tmp)%nat
            then Raise IndexError
            else
              v <- predict child (hd no_indices ixs) ;;
              tmp' <- blend h tmp col v ;;
              predict_children predict h cols cs' (tl ixs) (S i) todo' tmp'
          else predict_children predict h cols cs' (tl ixs) (S i) todo' tmp
      end
  end.

(** [_make_prediction_recursion_squared_batch] *)
Fixpoint _make_prediction_recursion_squared_batch (n : node M) (ix : indices)
  {struct n} : result value :=
  match n with
  | Node _ k h _ lf _ sm _ _ cs =>
      if lf then Ok (Scalar (sm_make_prediction_squared sm))
      else
        match ix with
        | Indices None _ => Raise AttributeError
        | Indices (Some (rows, cols)) ixs =>
            let tmp := repeat (sm_make_prediction_squared sm) rows in
            match k with
            | None => Raise TypeError
            | Some kk =>
                nc <- getitem (c_num_children_vec c) kk ;;
                tmp' <-
                  predict_children _make_prediction_recursion_squared_batch
                    h cols cs ixs 0 nc tmp ;;
                Ok (Vector tmp')
            end
        end
  end.

(** ** The prediction of one row

    The test of the mask of child [i] on a row, as a boolean. *)
Definition row_test (th : option (list R)) (nc kk i : nat) (r : row) : bool :=
  if (kk <? c_dim_continuous c)%nat then
    match th with
    | None => false
    | Some t => Routing.holds (Routing.continuous_test t nc kk) i r
    end
  else Routing.holds (Routing.categorical_test (kk - c_dim_continuous c)) i r.

(** The value [v] of a row after the children from [i] on: every child
    whose mask holds for the row replaces [v] by [(1-h)*v + h*(the child's
    prediction of the row)]. *)
Fixpoint row_children (predict_row : node M -> R) (h : R)
  (test : nat -> bool) (cs : list (node M)) (i todo : nat) (v : R)
  {struct cs} : R :=
  match cs with
  | [] => v
  | child :: cs' =>
      match todo with
      | O => v
      | S todo' =>
          row_children predict_row h test cs' (S i) todo'
            (if test i then ((1 - h) * v + h * predict_row child)%R else v)
      end
  end.

Fixpoint predict_row (r : row) (n : node M) {struct n} : R :=
  match n with
  | Node _ k h th lf _ sm _ _ cs =>
      let m := sm_make_prediction_squared sm in
      if lf then m
      else
        match k with
        | None => m
        | Some kk =>
            match nth_error (c_num_children_vec c) kk with
            | None => m
            | Some nc =>
                row_children (predict_row r) h
                  (fun i => row_test th nc kk i r) cs 0 nc m
            end
        end
  end.

(** The value of a node on query rows, row by row: a float on a leaf, one
    value for each row on an inner node. *)
Definition value_rows (n : node M) (data : dataset) : value :=
  if leaf n then Scalar (sm_make_prediction_squared (sub_model n))
  else Vector (map (fun r => predict_row r n) data).

(** Every sub-model of the tree predicts a value of [[a,b]] and every
    [h_g] is in [[0,1]]. *)
Fixpoint predictions_within (a b : R) (n : node M) : Prop :=
  match n with
  | Node _ _ h _ _ _ sm _ _ cs =>
      (a <= sm_make_prediction_squared sm <= b)%R /\ (0 <= h <= 1)%R /\
      fold_right (fun child rest => predictions_within a b child /\ rest)
        True cs
  end.

(** ** The variance of the predictive distribution *)

(** The loop of [_calc_pred_var_recursion_batch] once the children are
    used up: a column with a [True] needs [node.children[i]]. *)
Fixpoint var_without (cols : list (list bool)) (i todo : nat)
  (means vars : list cell) : result (list cell * list cell) :=
  match todo with
  | O => Ok (means, vars)
  | S todo' =>
      col <- getitem cols i ;;
      if np_any col then Raise IndexError
      else var_without cols (S i) todo' means vars
  end.

(** The loop [for i in range(self.c_num_children_vec[node.k])] of
    [_calc_pred_var_recursion_batch], from child [i] on: [means] and [vars]
    are [tmp_means_child] and [tmp_vars_child]. *)
Fixpoint var_children
  (rec : node M -> indices -> result (cells * cells))
  (cols : list (list bool)) (cs : list (node M)) (ixs : list indices)
  (i todo : nat) (means vars : list cell) {struct cs}
  : result (list cell * list cell) :=
  match cs with
  | [] => var_without cols i todo means vars
  | child :: cs' =>
      match todo with
      | O => Ok (means, vars)
      | S todo' =>
          col <- getitem cols i ;;
          if np_any col then
            '(mv, vv) <- rec child (hd no_indices ixs) ;;
            means' <- put means col mv ;;
            vars' <- put vars col vv ;;
            var_children rec cols cs' (tl ixs) (S i) todo' means' vars'
          else var_children rec cols cs' (tl ixs) (S i) todo' means vars
      end
  end.

(** [_calc_pred_var_recursion_batch]: the means and the variances. *)
Fixpoint _calc_pred_var_recursion_batch (n : node M) (ix : indices)
  {struct n} : result (cells * cells) :=
  match n with
  | Node _ k h _ lf _ sm _ _ cs =>
      let m := sm_make_prediction_squared sm in
      let s := sm_calc_pred_var sm in
      if lf then Ok (CScalar m, CScalar s)
      else
        match ix with
        | Indices None _ => Raise AttributeError
        | Indices (Some (rows, cols)) ixs =>
            match k with
            | None => Raise TypeError
            | Some kk =>
                nc <- getitem (c_num_children_vec c) kk ;;
                '(means_child, vars_child) <-
                  var_children _calc_pred_var_recursion_batch cols cs ixs
                    0 nc (repeat None rows) (repeat None rows) ;;
                Ok (CVector (map (mix_mean h m) means_child),
                    CVector (map (fun mv => mix_var h m s (fst mv) (snd mv))
                               (combine means_child vars_child)))
            end
        end
  end.

(** ** The mean and the variance of one row

    The entries of [tmp_means_child] and [tmp_vars_child] for a row after
    the children from [i] on: a child whose mask holds for the row assigns
    its own. *)
Fixpoint row_stats_children (row_stats : node M -> cell * cell)
  (test : nat -> bool) (cs : list (node M)) (i todo : nat)
  (entry : cell * cell) {struct cs} : cell * cell :=
  match cs with
  | [] => entry
  | child :: cs' =>
      match todo with
      | O => entry
      | S todo' =>
          row_stats_children row_stats test cs' (S i) todo'
            (if test i then row_stats child else entry)
      end
  end.

Fixpoint row_stats (r : row) (n : node M) {struct n} : cell * cell :=
  match n with
  | Node _ k h th lf _ sm _ _ cs =>
      let m := sm_make_prediction_squared sm in
      let s := sm_calc_pred_var sm in
      if lf then (Some m, Some s)
      else
        match k with
        | None => (None, None)
        | Some kk =>
            match nth_error (c_num_children_vec c) kk with
            | None => (None, None)
            | Some nc =>
                let entry :=
                  row_stats_children (row_stats r)
                    (fun i => row_test th nc kk i r) cs 0 nc (None, None) in
                (mix_mean h m (fst entry),
                 mix_var h m s (fst entry) (snd entry))
            end
        end
  end.

(** The means and the variances of a node on query rows, row by row: a
    float on a leaf, one entry for each row on an inner node. *)
Definition mean_rows (n : node M) (data : dataset) : cells :=
  if leaf n then CScalar (sm_make_prediction_squared (sub_model n))
  else CVector (map (fun r => fst (row_stats r n)) data).

Definition var_rows (n : node M) (data : dataset) : cells :=
  if leaf n then CScalar (sm_calc_pred_var (sub_model n))
  else CVector (map (fun r => snd (row_stats r n)) data).

(** Every inner node that splits a continuous feature has at least two
    children and interior thresholds that do not decrease. *)
Fixpoint sorted_splits (n : node M) : Prop :=
  match n with
  | Node _ k _ th lf _ _ _ _ cs =>
      (lf = false ->
       forall kk nc, k = Some kk -> (kk < c_dim_continuous c)%nat ->
         nth_error (c_num_children_vec c) kk = Some nc ->
         (2 <= nc)%nat /\
         exists t, th = Some t /\ Routing.interior_thresholds_sorted t nc) /\
      fold_right (fun child rest => sorted_splits child /\ rest) True cs
  end.

(** Every categorical value of the rows is below the number of children of
    its feature. *)
Definition categorical_values_in_range (data : dataset) : Prop :=
  forall col, (col < c_dim_categorical c)%nat ->
    exists bound,
      nth_error (c_num_children_vec c) (c_dim_continuous c + col)
      = Some bound /\
      Routing.categorical_in_range col bound data.

(** No sub-model of the tree has a negative variance and every [h_g] is in
    [[0,1]]. *)
Fixpoint variances_nonnegative (n : node M) : Prop :=
  match n with
  | Node _ _ h _ _ _ sm _ _ cs =>
      (0 <= sm_calc_pred_var sm)%R /\ (0 <= h <= 1)%R /\
      fold_right (fun child rest => variances_nonnegative child /\ rest)
        True cs
  end.

End WithSubModel.

End Prediction.

Module PredictionExamples.

(** The sub-model of [Example] predicts the sum it keeps, with the
    variance 1. *)
#[export] Instance sum_prediction : Prediction.Predictive R := {|
  Prediction.sm_make_prediction_squared := fun m => m;
  Prediction.sm_calc_pred_var := fun _ => 1%R
|}.

End PredictionExamples.

(* ================================================================== *)
(** * Facts on the Python helpers *)
(* ================================================================== *)

Module PyFacts.

Lemma getitem_app_here {A} (pre : list A) x rest :
  getitem (pre ++ x :: rest) (List.length pre) = Ok x.
Proof.
  unfold getitem. rewrite nth_error_app2 by lia. now rewrite Nat.sub_diag.
Qed.

Lemma getitem_app_after {A} (pre : list A) x rest d :
  getitem (pre ++ x :: rest) (List.length pre + 1 + d) = getitem rest d.
Proof.
  unfold getitem. rewrite nth_error_app2 by lia.
  replace (List.length pre + 1 + d - List.length pre)%nat with (S d) by lia.
  reflexivity.
Qed.

Lemma setitem_app_here {A} (pre : list A) x rest v :
  setitem (pre ++ x :: rest) (List.length pre) v = Ok (pre ++ v :: rest).
Proof.
  induction pre as [|a pre IH]; simpl; [reflexivity|]. now rewrite IH.
Qed.

Lemma setitem_app_after {A} (pre : list A) x rest d v :
  setitem (pre ++ x :: rest) (List.length pre + 1 + d) v =
  (r <- setitem rest d v ;; Ok (pre ++ x :: r)).
Proof.
  induction pre as [|a pre IH]; simpl.
  - destruct (setitem rest d v); reflexivity.
  - rewrite IH. destruct (setitem rest d v); reflexivity.
Qed.

Lemma getitem_lt {A} (l : list A) i :
  (i < List.length l)%nat -> exists a, getitem l i = Ok a.
Proof.
  intros H. unfold getitem.
  destruct (nth_error l i) eqn:E; [eauto|].
  apply nth_error_None in E. lia.
Qed.

Lemma getitem_map {A B} (f : A -> B) (l : list A) i a :
  getitem l i = Ok a -> getitem (map f l) i = Ok (f a).
Proof.
  unfold getitem. rewrite nth_error_map.
  destruct (nth_error l i); simpl; congruence.
Qed.

Lemma for_each_app {S X} (body : S -> X -> result S) xs ys s :
  for_each body (xs ++ ys) s = (s' <- for_each body xs s ;; for_each body ys s').
Proof.
  revert s. induction xs as [|x xs IH]; intros s; simpl; [reflexivity|].
  destruct (body s x); simpl; auto.
Qed.

Lemma setitem_ok {A} : forall (l : list A) i v,
  (i < List.length l)%nat ->
  exists l', setitem l i v = Ok l' /\ List.length l' = List.length l.
Proof.
  induction l as [|a l IH]; intros i v Hi; simpl in Hi; [lia|].
  destruct i as [|i]; simpl.
  - eexists; split; [reflexivity|reflexivity].
  - destruct (IH i v) as [l' [E L]]; [lia|]. rewrite E.
    eexists; split; [reflexivity|simpl; lia].
Qed.

Lemma setitem_length {A} : forall (l : list A) i v l',
  setitem l i v = Ok l' -> List.length l' = List.length l.
Proof.
  induction l as [|a l IH]; intros [|i] v l' E; simpl in E; try discriminate.
  - inversion E; subst. reflexivity.
  - destruct (setitem l i v) eqn:E'; [|discriminate].
    inversion E; subst. simpl. f_equal. eauto.
Qed.

Lemma getitem_setitem_same {A} : forall (l : list A) i v l',
  setitem l i v = Ok l' -> getitem l' i = Ok v.
Proof.
  induction l as [|a l IH]; intros [|i] v l' E; simpl in E; try discriminate.
  - inversion E; subst. reflexivity.
  - destruct (setitem l i v) eqn:E'; [|discriminate].
    inversion E; subst. unfold getitem. simpl.
    apply IH in E'. exact E'.
Qed.

Lemma getitem_setitem_other {A} : forall (l : list A) i v l' m,
  setitem l i v = Ok l' -> m <> i -> getitem l' m = getitem l m.
Proof.
  induction l as [|a l IH]; intros [|i] v l' m E Hm; simpl in E;
    try discriminate.
  - inversion E; subst. destruct m; [congruence|reflexivity].
  - destruct (setitem l i v) as [l1|] eqn:E'; [|discriminate].
    inversion E; subst. destruct m as [|m]; [reflexivity|].
    unfold getitem. simpl. apply (IH i v l1 m E'). congruence.
Qed.

Lemma ltb_true_iff x y : ltb x y = true <-> (x < y)%R.
Proof. unfold ltb. destruct (Rlt_dec x y); split; auto; discriminate. Qed.

Lemma ltb_false_iff x y : ltb x y = false <-> ~ (x < y)%R.
Proof. unfold ltb. destruct (Rlt_dec x y); split; auto; try discriminate.
  intros; contradiction. Qed.

Lemma getlast_app {A} (l : list A) a : getlast (l ++ [a]) = Ok a.
Proof. unfold getlast. now rewrite rev_app_distr. Qed.

Lemma setlast_app {A} (l : list A) a v : setlast (l ++ [a]) v = Ok (l ++ [v]).
Proof. unfold setlast. rewrite rev_app_distr. simpl. now rewrite rev_involutive. Qed.

Lemma getlast_ok {A} (l : list A) a :
  getlast l = Ok a -> exists l', l = l' ++ [a].
Proof.
  unfold getlast. destruct (rev l) as [|x tl] eqn:E; [discriminate|].
  intros Hx. inversion Hx; subst. exists (rev tl).
  rewrite <- (rev_involutive l), E. reflexivity.
Qed.

Lemma setlast_ok {A} (l : list A) v l1 :
  setlast l v = Ok l1 -> exists l' a, l = l' ++ [a] /\ l1 = l' ++ [v].
Proof.
  unfold setlast. destruct (rev l) as [|x tl] eqn:E; [discriminate|].
  intros Hx. inversion Hx; subst. exists (rev tl), x. split; [|reflexivity].
  rewrite <- (rev_involutive l), E. reflexivity.
Qed.

Lemma getlast_nonempty {A} (l : list A) :
  l <> [] -> exists a, getlast l = Ok a.
Proof.
  intros Hl. destruct (exists_last Hl) as [l' [a ->]].
  exists a. apply getlast_app.
Qed.

Lemma py_div_ok a b : b <> 0%R -> py_div a b = Ok (a / b)%R.
Proof. intros Hb. unfold py_div. destruct (Req_dec_T b 0); [contradiction|reflexivity]. Qed.

(** The test [rng.random() < exp(a)] with a draw of [0,1) passes exactly when
    the draw is below [min(1, exp(a))]: it passes with that probability. *)
Lemma below_exp_iff_below_min u a :
  (u < 1)%R -> (u < exp a <-> u < Rmin 1 (exp a))%R.
Proof.
  intros Hu. unfold Rmin. destruct (Rle_dec 1 (exp a)); lra.
Qed.

(** A [while] loop on a counter that every pass raises by one runs as many
    passes as the counter is short of the limit. *)
Lemma while_counts {S} (counter : S -> Z) (limit : Z) (body : S -> result S) :
  (forall s s', body s = Ok s' -> counter s' = (counter s + 1)%Z) ->
  forall n fuel s,
    (n <= fuel)%nat -> counter s = (limit - Z.of_nat n)%Z ->
    while fuel (fun s => (counter s <? limit)%Z) body s
    = Finished (repeatM n body s).
Proof.
  intros Hstep. induction n as [|n IH]; intros fuel s Hfuel Hc.
  - assert (Hcond : (counter s <? limit)%Z = false) by (apply Z.ltb_ge; lia).
    destruct fuel; simpl; now rewrite Hcond.
  - destruct fuel as [|fuel]; [lia|].
    assert (Hcond : (counter s <? limit)%Z = true) by (apply Z.ltb_lt; lia).
    cbn [while repeatM]. rewrite Hcond.
    destruct (body s) as [s'|e] eqn:Eb; [|reflexivity].
    apply IH; [lia|]. rewrite (Hstep _ _ Eb). lia.
Qed.

Lemma repeatM_counts {S} (counter : S -> Z) (body : S -> result S) :
  (forall s s', body s = Ok s' -> counter s' = (counter s + 1)%Z) ->
  forall n s s', repeatM n body s = Ok s' ->
    counter s' = (counter s + Z.of_nat n)%Z.
Proof.
  intros Hstep. induction n as [|n IH]; intros s s' E; simpl in E.
  - inversion E; subst. lia.
  - destruct (body s) as [s1|e] eqn:Eb; [|discriminate].
    rewrite (IH _ _ E), (Hstep _ _ Eb). lia.
Qed.

Lemma nonempty_last_elt {A} (l : list A) :
  l <> [] -> exists init a, l = init ++ [a].
Proof. intros Hl. destruct (exists_last Hl) as [init [a ->]]. eauto. Qed.

End PyFacts.

(* ================================================================== *)
(** * The ensemble compactor: what it computes *)
(* ================================================================== *)

Module CompactorFacts.
Import PyFacts Compactor.

Section WithConstants.
Context {M : Type}.
Variable c : constants.

Local Abbreviation compare := (@_compare_metatree_recursion M c).

Lemma setitem_add_at (ps : list R) j pj w :
  getitem ps j = Ok pj -> setitem ps j (pj + w)%R = Ok (add_at j w ps).
Proof.
  revert j. induction ps as [|p ps IH]; intros [|j] H; simpl in *;
    try discriminate.
  - unfold getitem in H. simpl in H. congruence.
  - unfold getitem in H. simpl in H. fold (getitem ps j) in H.
    now rewrite (IH j H).
Qed.

Lemma add_at_length j w (ps : list R) :
  List.length (add_at j w ps) = List.length ps.
Proof.
  revert j. induction ps as [|p ps IH]; intros [|j]; simpl; auto.
Qed.

Lemma first_equal_lt (t : node M) ts j :
  first_equal c t ts = Ok (Some j) -> (j < List.length ts)%nat.
Proof.
  revert j. induction ts as [|t' ts IH]; intros j H; simpl in H.
  - discriminate.
  - destruct (compare t t') as [[|]|e]; simpl in H; try discriminate.
    + inversion H; subst. simpl. lia.
    + destruct (first_equal c t ts) as [[j'|]|e]; simpl in H; try discriminate.
      inversion H; subst. simpl. specialize (IH j' eq_refl). lia.
Qed.

(** The inner loop, started after [skipped] trees that were found different. *)
Lemma marge_inner_spec (t : node M) p pre preP :
  List.length preP = List.length pre ->
  forall suffix skipped ps',
    List.length ps' = List.length (skipped ++ suffix) ->
    marge_inner c (pre ++ Some t :: map Some (skipped ++ suffix))
      (preP ++ p :: ps') (List.length pre)
      (seq (List.length pre + 1 + List.length skipped) (List.length suffix))
    = (r <- first_equal c t suffix ;;
       match r with
       | None => Ok (pre ++ Some t :: map Some (skipped ++ suffix),
                     preP ++ p :: ps')
       | Some j => Ok (pre ++ None :: map Some (skipped ++ suffix),
                       preP ++ (-1)%R :: add_at (List.length skipped + j) p ps')
       end).
Proof.
  intros Hpre. induction suffix as [|t' suffix IH]; intros skipped ps' Hlen.
  - reflexivity.
  - cbn [List.length seq marge_inner first_equal].
    rewrite getitem_app_here. cbn [bind].
    rewrite getitem_app_after.
    assert (Hj : getitem (map Some (skipped ++ t' :: suffix)) (List.length skipped)
                 = Ok (Some t')).
    { apply getitem_map. apply getitem_app_here. }
    rewrite Hj. cbn [bind].
    destruct (compare t t') as [[|]|e]; cbn [bind].
    + rewrite setitem_app_here. cbn [bind].
      rewrite <- Hpre. rewrite getitem_app_here. cbn [bind].
      rewrite getitem_app_after.
      destruct (@getitem_lt _ ps' (List.length skipped)) as [pj Hpj].
      { rewrite Hlen, length_app. simpl. lia. }
      rewrite Hpj. cbn [bind].
      rewrite setitem_app_after. rewrite (@setitem_add_at ps' _ pj p Hpj). cbn [bind].
      rewrite setitem_app_here. cbn [bind].
      now rewrite Nat.add_0_r.
    + assert (Hlen' : List.length ps' = List.length ((skipped ++ [t']) ++ suffix)).
      { rewrite <- app_assoc. exact Hlen. }
      pose proof (IH (skipped ++ [t']) ps' Hlen') as IH'.
      rewrite <- app_assoc in IH'. cbn [app] in IH'.
      rewrite length_app in IH'. cbn [List.length] in IH'.
      replace (List.length pre + 1 + (List.length skipped + 1))%nat
        with (S (List.length pre + 1 + List.length skipped)) in IH' by lia.
      rewrite IH'.
      destruct (first_equal c t suffix) as [[j|]|e]; cbn [bind option_map];
        try reflexivity.
      replace (List.length skipped + 1 + j)%nat with (List.length skipped + S j)%nat by lia.
      reflexivity.
    + reflexivity.
Qed.


Lemma marge_outer_spec : forall (ts : list (node M)) ps pre preP,
  List.length preP = List.length pre ->
  List.length ps = List.length ts ->
  for_each (marge_outer c (List.length pre + List.length ts))
    (seq (List.length pre) (List.length ts))
    (pre ++ map Some ts, preP ++ ps)
  = ('(l, q) <- merge_marked c ts ps ;; Ok (pre ++ l, preP ++ q)).
Proof.
  induction ts as [|t ts IH]; intros ps pre preP Hpre Hlen.
  - reflexivity.
  - destruct ps as [|p ps]; [discriminate|].
    cbn [List.length seq for_each merge_marked map].
    unfold marge_outer at 1. cbn [fst snd]. unfold range2.
    replace (List.length pre + S (List.length ts) - (List.length pre + 1))%nat
      with (List.length ts) by lia.
    pose proof (@marge_inner_spec t p pre preP Hpre ts [] ps) as Hin.
    cbn [app List.length Nat.add] in Hin. rewrite Nat.add_0_r in Hin.
    rewrite Hin by (simpl in Hlen; lia). clear Hin.
    destruct (first_equal c t ts) as [[j|]|e]; cbn [bind].
    + pose proof (IH (add_at j p ps) (pre ++ [None]) (preP ++ [(-1)%R])) as IH'.
      rewrite !length_app in IH'. cbn [List.length] in IH'.
      rewrite <- !app_assoc in IH'. cbn [app] in IH'.
      replace (List.length pre + 1 + List.length ts)%nat
        with (List.length pre + S (List.length ts))%nat in IH' by lia.
      replace (List.length pre + 1)%nat with (S (List.length pre)) in IH' by lia.
      cbn [Nat.add] in IH'.
      rewrite IH'; [|lia|rewrite add_at_length; simpl in Hlen; lia].
      destruct (merge_marked c ts (add_at j p ps)) as [[l q]|e]; cbn [bind];
        [|reflexivity].
      now rewrite <- !app_assoc.
    + pose proof (IH ps (pre ++ [Some t]) (preP ++ [p])) as IH'.
      rewrite !length_app in IH'. cbn [List.length] in IH'.
      rewrite <- !app_assoc in IH'. cbn [app] in IH'.
      replace (List.length pre + 1 + List.length ts)%nat
        with (List.length pre + S (List.length ts))%nat in IH' by lia.
      replace (List.length pre + 1)%nat with (S (List.length pre)) in IH' by lia.
      rewrite IH'; [|lia|simpl in Hlen; lia].
      destruct (merge_marked c ts ps) as [[l q]|e]; cbn [bind]; [|reflexivity].
      now rewrite <- !app_assoc.
    + reflexivity.
Qed.

Lemma marge_is_marked (ts : list (node M)) ps :
  List.length ps = List.length ts ->
  _marge_metatrees c ts ps =
  ('(l, q) <- merge_marked c ts ps ;;
   Ok (drop_none l, filter (fun x => ltb (-0.5)%R x) q)).
Proof.
  intros Hlen. unfold _marge_metatrees, range.
  pose proof (@marge_outer_spec ts ps [] [] eq_refl Hlen) as H.
  cbn [List.length app Nat.add] in H. rewrite H.
  destruct (merge_marked c ts ps) as [[l q]|e]; reflexivity.
Qed.

Lemma ltb_sentinel : ltb (-0.5)%R (-1)%R = false.
Proof. unfold ltb. destruct (Rlt_dec (-0.5) (-1)); [lra|reflexivity]. Qed.

Lemma ltb_nonneg p : (0 <= p)%R -> ltb (-0.5)%R p = true.
Proof. intros H. unfold ltb. destruct (Rlt_dec (-0.5) p); [reflexivity|lra]. Qed.

Lemma add_at_nonneg j w (ps : list R) :
  (0 <= w)%R -> Forall (fun p => (0 <= p)%R) ps ->
  Forall (fun p => (0 <= p)%R) (add_at j w ps).
Proof.
  intros Hw. revert j. induction ps as [|p ps IH]; intros j H; simpl.
  - destruct j; constructor.
  - inversion H; subst. destruct j; constructor; auto. lra.
Qed.

Lemma marked_filtered : forall (ts : list (node M)) ps,
  List.length ps = List.length ts ->
  Forall (fun p => (0 <= p)%R) ps ->
  ('(l, q) <- merge_marked c ts ps ;;
   Ok (drop_none l, filter (fun x => ltb (-0.5)%R x) q))
  = merge_into_later c ts ps.
Proof.
  induction ts as [|t ts IH]; intros ps Hlen Hpos.
  - destruct ps; [reflexivity|discriminate].
  - destruct ps as [|p ps]; [discriminate|].
    inversion Hpos as [|? ? Hp Hps]; subst.
    cbn [merge_marked merge_into_later].
    destruct (first_equal c t ts) as [[j|]|e]; cbn [bind]; [| |reflexivity].
    + rewrite <- IH;
        [|rewrite add_at_length; simpl in Hlen; lia|now apply add_at_nonneg].
      destruct (merge_marked c ts (add_at j p ps)) as [[l q]|e]; cbn [bind];
        [|reflexivity].
      cbn [drop_none filter]. now rewrite ltb_sentinel.
    + rewrite <- IH; [|simpl in Hlen; lia|assumption].
      destruct (merge_marked c ts ps) as [[l q]|e]; cbn [bind]; [|reflexivity].
      cbn [drop_none filter]. now rewrite (@ltb_nonneg p Hp).
Qed.

Lemma marge_refines (ts : list (node M)) ps :
  List.length ps = List.length ts ->
  Forall (fun p => (0 <= p)%R) ps ->
  _marge_metatrees c ts ps = merge_into_later c ts ps.
Proof.
  intros Hlen Hpos. rewrite marge_is_marked by assumption.
  now apply marked_filtered.
Qed.

(** *** The comparison raises nothing on well-formed trees *)

Lemma allclose_same_length : forall a b : list R,
  List.length a = List.length b -> exists r, allclose a b = Ok r.
Proof.
  induction a as [|x a IH]; intros [|y b] H; simpl in *; try discriminate.
  - eauto.
  - destruct (IH b) as [r Hr]; [lia|]. rewrite Hr. eauto.
Qed.

Lemma compare_children_total (cs1 : list (node M)) :
  Forall (fun c1 => forall n2, well_formed c c1 = true ->
                    well_formed c n2 = true ->
                    exists b, compare c1 n2 = Ok b) cs1 ->
  forall n cs2,
    forallb (well_formed c) cs1 = true ->
    forallb (well_formed c) cs2 = true ->
    (n <= List.length cs1)%nat -> (n <= List.length cs2)%nat ->
    exists b, compare_children compare cs1 cs2 n = Ok b.
Proof.
  induction 1 as [|c1 cs1 Hc1 _ IH]; intros n cs2 W1 W2 L1 L2.
  - destruct n; simpl in *; [eauto|lia].
  - destruct n as [|n]; [simpl; eauto|].
    destruct cs2 as [|c2 cs2]; [simpl in L2; lia|].
    simpl in W1, W2. apply andb_true_iff in W1, W2.
    destruct W1 as [Wc1 W1], W2 as [Wc2 W2].
    cbn [compare_children].
    destruct (Hc1 c2 Wc1 Wc2) as [[|] Hb]; rewrite Hb; [|eauto].
    apply IH; auto; simpl in *; lia.
Qed.

Lemma compare_total : forall n1 n2 : node M,
  well_formed c n1 = true -> well_formed c n2 = true ->
  exists b, compare n1 n2 = Ok b.
Proof.
  induction n1 as [d1 k1 h1 th1 lf1 df1 sm1 lml1 lcml1 cs1 IH]
    using node_induction.
  intros [d2 k2 h2 th2 lf2 df2 sm2 lml2 lcml2 cs2] W1 W2.
  cbn [_compare_metatree_recursion leaf k thresholds children].
  cbn [well_formed] in W1, W2.
  destruct lf1; [destruct lf2; eauto|].
  destruct lf2; [eauto|].
  cbn [orb] in W1, W2.
  destruct k1 as [kk1|]; [|discriminate].
  destruct k2 as [kk2|]; [|discriminate].
  destruct (nth_error (c_num_children_vec c) kk1) as [nc1|] eqn:E1;
    [|discriminate].
  destruct (nth_error (c_num_children_vec c) kk2) as [nc2|] eqn:E2;
    [|discriminate].
  apply andb_true_iff in W1, W2.
  destruct W1 as [W1 Wcs1], W2 as [W2 Wcs2].
  apply andb_true_iff in W1, W2.
  destruct W1 as [Wth1 Wl1], W2 as [Wth2 Wl2].
  apply Nat.leb_le in Wl1, Wl2.
  unfold k_differs.
  destruct (Nat.eqb_spec kk1 kk2) as [->|Hne];
    [|destruct (kk1 <? c_dim_continuous c)%nat; cbn [negb]; eauto].
  cbn [negb].
  assert (nc1 = nc2) by congruence. subst nc2.
  assert (Hget : getitem (c_num_children_vec c) kk2 = Ok nc1).
  { unfold getitem. now rewrite E1. }
  destruct (kk2 <? c_dim_continuous c)%nat.
  - destruct th1 as [t1|]; [|discriminate].
    destruct th2 as [t2|]; [|discriminate].
    apply Nat.eqb_eq in Wth1, Wth2.
    destruct (@allclose_same_length t1 t2) as [r Hr]; [lia|].
    rewrite Hr. cbn [bind]. destruct r; cbn [negb]; [|eauto].
    rewrite Hget. cbn [bind].
    now apply compare_children_total.
  - rewrite Hget. cbn [bind].
    now apply compare_children_total.
Qed.

Lemma first_equal_total (t : node M) ts :
  well_formed c t = true -> forallb (well_formed c) ts = true ->
  exists r, first_equal c t ts = Ok r.
Proof.
  intros Wt. induction ts as [|t' ts IH]; intros W; simpl in *.
  - eauto.
  - apply andb_true_iff in W. destruct W as [Wt' W].
    destruct (compare_total _ _ Wt Wt') as [[|] Hb]; rewrite Hb; cbn [bind].
    + eauto.
    + destruct (IH W) as [r Hr]. rewrite Hr. cbn [bind]. eauto.
Qed.

Lemma merge_into_later_total : forall (ts : list (node M)) ps,
  forallb (well_formed c) ts = true ->
  List.length ps = List.length ts ->
  exists r, merge_into_later c ts ps = Ok r.
Proof.
  induction ts as [|t ts IH]; intros ps W Hlen.
  - simpl. eauto.
  - destruct ps as [|p ps]; [discriminate|].
    simpl in W. apply andb_true_iff in W. destruct W as [Wt W].
    cbn [merge_into_later].
    destruct (first_equal_total _ _ Wt W) as [[j|] Hr]; rewrite Hr; cbn [bind].
    + apply IH; auto. rewrite add_at_length. simpl in Hlen. lia.
    + destruct (IH ps W) as [[ots ops] Hm]; [simpl in Hlen; lia|].
      rewrite Hm. cbn [bind]. eauto.
Qed.

(** *** Weights and trees of the result *)

Lemma sum_add_at : forall (ps : list R) j w,
  (j < List.length ps)%nat -> Np.sum (add_at j w ps) = (Np.sum ps + w)%R.
Proof.
  induction ps as [|p ps IH]; intros j w H; simpl in H; [lia|].
  destruct j as [|j]; simpl.
  - lra.
  - rewrite IH by lia. lra.
Qed.

Lemma merge_into_later_sum : forall (ts : list (node M)) ps ots ops,
  List.length ps = List.length ts ->
  merge_into_later c ts ps = Ok (ots, ops) ->
  Np.sum ops = Np.sum ps /\ List.length ops = List.length ots.
Proof.
  induction ts as [|t ts IH]; intros ps ots ops Hlen H.
  - destruct ps; [|discriminate]. simpl in H. inversion H; subst. auto.
  - destruct ps as [|p ps]; [discriminate|].
    cbn [merge_into_later] in H.
    destruct (first_equal c t ts) as [[j|]|e] eqn:E; cbn [bind] in H;
      [| |discriminate].
    + apply IH in H; [|rewrite add_at_length; simpl in Hlen; lia].
      destruct H as [Hs Hl]. split; [|exact Hl].
      rewrite Hs, sum_add_at.
      * simpl. lra.
      * apply first_equal_lt in E. simpl in Hlen. lia.
    + destruct (merge_into_later c ts ps) as [[ots' ops']|e] eqn:Em;
        cbn [bind] in H; [|discriminate].
      inversion H; subst.
      destruct (IH ps ots' ops') as [Hs Hl]; [simpl in Hlen; lia|exact Em|].
      simpl. split; [rewrite Hs; reflexivity|now rewrite Hl].
Qed.

Lemma merge_into_later_incl : forall (ts : list (node M)) ps ots ops,
  merge_into_later c ts ps = Ok (ots, ops) -> incl ots ts.
Proof.
  induction ts as [|t ts IH]; intros ps ots ops H.
  - simpl in H. inversion H; subst. apply incl_refl.
  - destruct ps as [|p ps]; [discriminate|].
    cbn [merge_into_later] in H.
    destruct (first_equal c t ts) as [[j|]|e] eqn:E; cbn [bind] in H;
      [| |discriminate].
    + apply IH in H. now apply incl_tl.
    + destruct (merge_into_later c ts ps) as [[ots' ops']|e] eqn:Em;
        cbn [bind] in H; [|discriminate].
      inversion H; subst. apply IH in Em.
      intros x [->|Hx]; [now left|right; now apply Em].
Qed.

Lemma first_equal_none (t : node M) ts :
  first_equal c t ts = Ok None ->
  Forall (fun t' => compare t t' = Ok false) ts.
Proof.
  induction ts as [|t' ts IH]; intros H; [constructor|].
  simpl in H.
  destruct (compare t t') as [[|]|e] eqn:E; cbn [bind] in H; try discriminate.
  destruct (first_equal c t ts) as [[j|]|e]; cbn [bind option_map] in H;
    try discriminate.
  constructor; auto.
Qed.

Lemma merge_into_later_no_equal : forall (ts : list (node M)) ps ots ops,
  merge_into_later c ts ps = Ok (ots, ops) ->
  no_two_structurally_equal c ots.
Proof.
  unfold no_two_structurally_equal.
  induction ts as [|t ts IH]; intros ps ots ops H.
  - simpl in H. inversion H; subst. constructor.
  - destruct ps as [|p ps]; [discriminate|].
    cbn [merge_into_later] in H.
    destruct (first_equal c t ts) as [[j|]|e] eqn:E; cbn [bind] in H;
      [| |discriminate].
    + eapply IH; eauto.
    + destruct (merge_into_later c ts ps) as [[ots' ops']|e] eqn:Em;
        cbn [bind] in H; [|discriminate].
      inversion H; subst. constructor.
      * apply first_equal_none in E. rewrite Forall_forall in *.
        intros x Hx. apply E. eapply merge_into_later_incl; eauto.
      * eapply IH; eauto.
Qed.


(** C1, as the code has it.  On a list of trees with one weight each, none
    negative, [_marge_metatrees] works through the list from the left: a tree
    that has a structurally equal tree after it is dropped and its weight is
    added to the first such later tree, so that of two equal trees the later
    one is retained; a tree without an equal later tree is kept with its
    weight, in its place.  The compactor does not divide by the sum: the
    weights it returns add up to what the given ones add up to (its callers
    pass weights that are already normalised). *)
Theorem marge_retains_later_tree (ts : list (node M)) (ps : list R) :
  List.length ps = List.length ts ->
  Forall (fun p => (0 <= p)%R) ps ->
  _marge_metatrees c ts ps = merge_into_later c ts ps /\
  forall ots ops,
    _marge_metatrees c ts ps = Ok (ots, ops) ->
    Np.sum ops = Np.sum ps /\ List.length ops = List.length ots /\
    incl ots ts.
Proof.
  intros Hlen Hpos. split; [now apply marge_refines|].
  intros ots ops E. rewrite marge_refines in E by assumption.
  destruct (merge_into_later_sum ts ps Hlen E) as [Hs Hl].
  repeat split; auto. eapply merge_into_later_incl; eauto.
Qed.

(** *** The comparison and the structural equality of the specification *)

Lemma allclose_of_close : forall t1 t2 : list R,
  numerically_close t1 t2 -> allclose t1 t2 = Ok true.
Proof.
  induction 1 as [|x y t1 t2 Hxy _ IH]; [reflexivity|].
  cbn [allclose]. rewrite IH. unfold isclose, leb.
  now destruct (Rle_dec (Rabs (x - y)) (atol + rtol * Rabs y)).
Qed.

Lemma compare_children_equal (cs1 : list (node M)) :
  Forall (fun a => forall b, well_formed c a = true ->
            spec_structurally_equal c a b -> compare a b = Ok true) cs1 ->
  forall cs2 n,
    forallb (well_formed c) cs1 = true ->
    (n <= List.length cs1)%nat ->
    Forall2 (spec_structurally_equal c) (firstn n cs1) (firstn n cs2) ->
    compare_children compare cs1 cs2 n = Ok true.
Proof.
  induction 1 as [|a cs1 Ha _ IH]; intros cs2 n W Hn Heq.
  - cbn [List.length] in Hn. assert (n = 0)%nat by lia. subst. reflexivity.
  - destruct n as [|n]; [reflexivity|].
    cbn [firstn] in Heq. destruct cs2 as [|b cs2]; [inversion Heq|].
    cbn [firstn] in Heq. inversion Heq; subst.
    cbn [forallb] in W. apply andb_true_iff in W. destruct W as [Wa W].
    cbn [compare_children]. rewrite (Ha b Wa) by assumption.
    apply IH; [exact W|cbn [List.length] in Hn; lia|assumption].
Qed.

(** Trees the specification calls structurally equal are trees the
    comparison finds equal. *)
Lemma compare_of_equal : forall a b : node M,
  well_formed c a = true ->
  spec_structurally_equal c a b -> compare a b = Ok true.
Proof.
  induction a as [d1 k1 h1 th1 lf1 df1 sm1 lml1 lcml1 cs1 IH]
    using node_induction.
  intros b W Heq.
  inversion Heq as [a' b' La Lb|a' b' kk nc La Lb Ka Kb Hth Hnc Hcs]; subst.
  - cbn [leaf] in La. subst lf1. cbn [_compare_metatree_recursion].
    now rewrite Lb.
  - cbn [leaf k thresholds children] in *. subst lf1 k1.
    cbn [_compare_metatree_recursion]. rewrite Lb.
    cbn [well_formed orb] in W. rewrite Hnc in W.
    apply andb_true_iff in W. destruct W as [W Wcs].
    apply andb_true_iff in W. destruct W as [Wth Wlen].
    apply Nat.leb_le in Wlen.
    assert (Hk : k_differs kk (k b) = false).
    { unfold k_differs. rewrite Kb, Nat.eqb_refl. reflexivity. }
    assert (Hchildren :
      compare_children compare cs1 (children b) nc = Ok true).
    { apply compare_children_equal; assumption. }
    unfold getitem. rewrite Hnc. cbn [bind].
    destruct (kk <? c_dim_continuous c)%nat eqn:Ek.
    + apply Nat.ltb_lt in Ek. destruct (Hth Ek) as (t1 & t2 & E1 & E2 & Hc).
      rewrite Hk. inversion E1; subst th1. rewrite E2.
      rewrite (allclose_of_close Hc). cbn [bind negb]. exact Hchildren.
    + rewrite Hk. exact Hchildren.
Qed.

Lemma ordered_pairs_among (A : Type) (P Q : A -> A -> Prop) (l : list A) :
  (forall a b, In a l -> In b l -> P a b -> Q a b) ->
  ForallOrdPairs P l -> ForallOrdPairs Q l.
Proof.
  intros Himp Hp. induction Hp as [|a l Ha _ IH]; [constructor|].
  constructor.
  - rewrite Forall_forall in *. intros b Hb.
    apply Himp; [now left|now right|now apply Ha].
  - apply IH. intros x y Hx Hy. apply Himp; now right.
Qed.

(** C8, as the code has it.  On well-formed trees with a probability
    vector (one entry per tree, none negative) that sums to 1, the compactor
    returns a list of trees and a vector of as many weights that sums to 1,
    and no tree of the list is structurally equal to a tree after it, in
    the words of the specification: both leaves, or the same split feature
    with (for a continuous feature) thresholds numerically close to those
    of the later tree and recursively equal children. *)
Theorem compactor_sums_to_one_without_duplicates
  (ts : list (node M)) (ps : list R) :
  forallb (well_formed c) ts = true ->
  List.length ps = List.length ts ->
  Forall (fun p => (0 <= p)%R) ps ->
  Np.sum ps = 1%R ->
  exists ots ops,
    _marge_metatrees c ts ps = Ok (ots, ops) /\
    Np.sum ops = 1%R /\
    List.length ops = List.length ots /\
    ForallOrdPairs (fun earlier later =>
                      ~ spec_structurally_equal c earlier later) ots.
Proof.
  intros W Hlen Hpos Hsum.
  destruct (merge_into_later_total ts ps W Hlen) as [[ots ops] E].
  exists ots, ops. rewrite marge_refines by assumption.
  destruct (merge_into_later_sum ts ps Hlen E) as [Hs Hl].
  repeat split; auto.
  - congruence.
  - pose proof (merge_into_later_no_equal _ _ E) as Hno.
    pose proof (merge_into_later_incl _ _ E) as Hincl.
    unfold no_two_structurally_equal in Hno.
    apply (@ordered_pairs_among _
             (fun a b : node M => compare a b = Ok false)
             (fun a b => ~ spec_structurally_equal c a b) ots); [|exact Hno].
    intros a b Ha Hb Hfalse Heq.
    rewrite forallb_forall in W.
    rewrite (compare_of_equal (W a (Hincl a Ha)) Heq) in Hfalse.
    discriminate.
Qed.

End WithConstants.
End CompactorFacts.

(* ================================================================== *)
(** * The marginal-likelihood recursion: the value of an inner node *)
(* ================================================================== *)

Module RecursionFacts.
Import PyFacts Recursion.

(** *** The mixture of the leaf term and the split term

    For a split probability in [0,1] the mixture is a finite number, also
    where [np.log] is [-inf], and the posterior split probability is in
    [0,1] again. *)
Lemma posterior_split_probability_inside (a b : R) :
  (0 < exp (b - logaddexp a b) < 1)%R.
Proof.
  unfold logaddexp. split; [apply exp_pos|].
  pose proof (exp_pos a) as Ha. pose proof (exp_pos b) as Hb.
  rewrite <- exp_0. apply exp_increasing.
  assert (b < ln (exp a + exp b))%R; [|lra].
  rewrite <- (ln_exp b) at 1. apply ln_increasing; lra.
Qed.

Lemma xlog_positive (x : R) : (0 < x)%R -> xlog x = Finite (ln x).
Proof. intros Hx. unfold xlog. now destruct (Rlt_dec 0 x). Qed.

Lemma xlog_zero : xlog 0 = NegInf.
Proof.
  unfold xlog. destruct (Rlt_dec 0 0); [lra|].
  now destruct (Req_dec_T 0 0).
Qed.

Lemma mixture_is_finite (h v s : R) :
  (0 <= h <= 1)%R ->
  let split_term := xadd (xlog h) (Finite s) in
  exists total p,
    xlogaddexp (xadd (xlog (1 - h)) (Finite v)) split_term = Finite total /\
    xexp (xsub split_term (Finite total)) = Finite p /\
    (0 <= p <= 1)%R /\
    ((0 < h < 1)%R ->
     total = logaddexp (log (1 - h) + v) (log h + s) /\
     p = exp (log h + s - total) /\ (0 < p < 1)%R).
Proof.
  intros [H0 H1] split_term. unfold split_term.
  destruct (Req_dec_T h 0) as [E0|N0]; [|destruct (Req_dec_T h 1) as [E1|N1]].
  - subst h. rewrite xlog_zero.
    rewrite xlog_positive by lra. cbn [xadd xlogaddexp xsub xneg xexp].
    do 2 eexists. split; [reflexivity|]. split; [reflexivity|].
    split; [lra|]. intros; lra.
  - subst h. replace (1 - 1)%R with 0%R by lra. rewrite xlog_zero.
    rewrite xlog_positive by lra. cbn [xadd xlogaddexp xsub xneg xexp].
    do 2 eexists. split; [reflexivity|]. split; [reflexivity|].
    split; [|intros; lra].
    replace (ln 1 + s + - (ln 1 + s))%R with 0%R by ring.
    rewrite exp_0. lra.
  - rewrite !xlog_positive by lra. cbn [xadd xlogaddexp xsub xneg xexp].
    do 2 eexists. split; [reflexivity|]. split; [reflexivity|].
    pose proof (posterior_split_probability_inside (ln (1 - h) + v)
                  (ln h + s)) as Hp.
    replace (ln h + s + - logaddexp (ln (1 - h) + v) (ln h + s))%R
      with (ln h + s - logaddexp (ln (1 - h) + v) (ln h + s))%R by ring.
    split; [lra|]. intros _. unfold log. split; [reflexivity|].
    split; [reflexivity|exact Hp].
Qed.

Section WithSubModel.

Context {M : Type} `{SubModel M}.
Variable c : constants.

Variable leaf_batch : M -> dataset -> M * R.

Local Abbreviation update := (update_posterior_recursion c leaf_batch).
Local Abbreviation update_batch := (_update_posterior_recursion_batch c).

Lemma update_children_without_entries (routed : nat -> result dataset) :
  forall todo i0 lcml lcml',
    update_children_without routed i0 todo lcml = Ok lcml' ->
    (forall m, (m < i0)%nat -> getitem lcml' m = getitem lcml m) /\
    (forall j, (j < todo)%nat ->
       routed (i0 + j)%nat = Ok [] /\ getitem lcml' (i0 + j) = Ok 0%R).
Proof.
  induction todo as [|todo IH]; intros i0 lcml lcml' E; simpl in E.
  - inversion E; subst. split; [auto|intros; lia].
  - destruct (routed i0) as [[|r rows]|e] eqn:Er; cbn [bind] in E;
      try discriminate.
    destruct (setitem lcml i0 0%R) as [l1|e] eqn:Es; cbn [bind] in E;
      [|discriminate].
    destruct (IH _ _ _ E) as [Hlow Hj]. split.
    + intros m Hm. rewrite Hlow by lia.
      eapply getitem_setitem_other; eauto. lia.
    + intros [|j] Hlt.
      * rewrite Nat.add_0_r. split; [exact Er|].
        rewrite Hlow by lia. eapply getitem_setitem_same; eauto.
      * replace (i0 + S j)%nat with (S i0 + j)%nat by lia. apply Hj. lia.
Qed.

Lemma update_children_entries
  (upd : node M -> dataset -> result (R * node M))
  (routed : nat -> result dataset) :
  forall cs i0 todo lcml cs' lcml',
    update_children upd routed cs i0 todo lcml = Ok (cs', lcml') ->
    (forall m, (m < i0)%nat -> getitem lcml' m = getitem lcml m) /\
    (forall j, (j < todo)%nat -> entry_of_child upd routed cs cs' lcml' i0 j).
Proof.
  induction cs as [|child cs IH]; intros i0 todo lcml cs' lcml' E.
  - cbn [update_children] in E.
    destruct (update_children_without routed i0 todo lcml) as [l1|e] eqn:Ew;
      cbn [bind] in E; [|discriminate].
    inversion E; subst.
    destruct (update_children_without_entries _ _ _ _ Ew) as [Hlow Hj].
    split; [exact Hlow|].
    intros j Hlt. destruct (Hj j Hlt) as [Hr Hg].
    exists []. auto.
  - cbn [update_children] in E. destruct todo as [|todo].
    { inversion E; subst. split; [auto|intros; lia]. }
    destruct (routed i0) as [[|r rows]|e] eqn:Er; cbn [bind] in E;
      try discriminate.
    + destruct (setitem lcml i0 0%R) as [l1|e] eqn:Es; cbn [bind] in E;
        [|discriminate].
      destruct (update_children upd routed cs (S i0) todo l1)
        as [[cs2 l2]|e] eqn:Eu; cbn [bind] in E; [|discriminate].
      inversion E; subst.
      destruct (IH _ _ _ _ _ Eu) as [Hlow Hj]. split.
      * intros m Hm. rewrite Hlow by lia.
        eapply getitem_setitem_other; eauto. lia.
      * intros [|j] Hlt.
        -- exists []. rewrite Nat.add_0_r. split; [exact Er|].
           rewrite Hlow by lia. eapply getitem_setitem_same; eauto.
        -- destruct (Hj j) as [rows [Hr Hm]]; [lia|].
           exists rows. replace (i0 + S j)%nat with (S i0 + j)%nat by lia.
           split; [exact Hr|]. destruct rows; [exact Hm|]. exact Hm.
    + destruct (upd child (r :: rows)) as [[v child']|e] eqn:Ec;
        cbn [bind] in E; [|discriminate].
      destruct (setitem lcml i0 v) as [l1|e] eqn:Es; cbn [bind] in E;
        [|discriminate].
      destruct (update_children upd routed cs (S i0) todo l1)
        as [[cs2 l2]|e] eqn:Eu; cbn [bind] in E; [|discriminate].
      inversion E; subst.
      destruct (IH _ _ _ _ _ Eu) as [Hlow Hj]. split.
      * intros m Hm. rewrite Hlow by lia.
        eapply getitem_setitem_other; eauto. lia.
      * intros [|j] Hlt.
        -- exists (r :: rows). rewrite Nat.add_0_r. split; [exact Er|].
           exists child, v, child'. repeat split; auto.
           rewrite Hlow by lia. eapply getitem_setitem_same; eauto.
        -- destruct (Hj j) as [rows' [Hr Hm]]; [lia|].
           exists rows'. replace (i0 + S j)%nat with (S i0 + j)%nat by lia.
           split; [exact Hr|]. destruct rows'; exact Hm.
Qed.


(** *** The recursion raises nothing on well-formed trees and rows *)

Lemma select_total (test : row -> result bool) :
  forall data,
    (forall r, well_formed_row c r = true -> exists b, test r = Ok b) ->
    forallb (well_formed_row c) data = true ->
    exists rows, select test data = Ok rows /\
                 forallb (well_formed_row c) rows = true.
Proof.
  intros data Ht. induction data as [|r data IH]; intros W; simpl in *.
  - eauto.
  - apply andb_true_iff in W. destruct W as [Wr W].
    destruct (Ht r Wr) as [b Hb]. rewrite Hb. cbn [bind].
    destruct (IH W) as [rows [Hs Hw]]. rewrite Hs. cbn [bind].
    destruct b; eexists; split; try reflexivity; simpl; auto.
    now rewrite Wr, Hw.
Qed.

Lemma column_continuous r kk :
  well_formed_row c r = true -> (kk < c_dim_continuous c)%nat ->
  exists x, getitem (x_continuous r) kk = Ok x.
Proof.
  intros W Hk. unfold well_formed_row in W. apply andb_true_iff in W.
  destruct W as [W _]. apply Nat.eqb_eq in W.
  apply getitem_lt. lia.
Qed.

Lemma column_categorical r col :
  well_formed_row c r = true -> (col < c_dim_categorical c)%nat ->
  exists x, getitem (x_categorical r) col = Ok x.
Proof.
  intros W Hk. unfold well_formed_row in W. apply andb_true_iff in W.
  destruct W as [_ W]. apply Nat.eqb_eq in W.
  apply getitem_lt. lia.
Qed.

Lemma route_total th nc kk i data :
  (kk < c_dim_features c)%nat ->
  (if (kk <? c_dim_continuous c)%nat
   then match th with
        | Some t => (List.length t =? nc + 1)%nat
        | None => false
        end
   else true) = true ->
  (i < nc)%nat ->
  forallb (well_formed_row c) data = true ->
  exists rows, route c th nc kk i data = Ok rows /\
               forallb (well_formed_row c) rows = true.
Proof.
  intros Hk Hth Hi W. unfold route.
  destruct (Nat.ltb_spec kk (c_dim_continuous c)) as [Hc|Hc].
  - destruct th as [t|]; [|discriminate]. apply Nat.eqb_eq in Hth.
    unfold select_continuous.
    destruct (Nat.eqb_spec i 0) as [->|Hi0].
    + destruct (@getitem_lt _ t (0 + 1)) as [hi Hhi]; [lia|].
      rewrite Hhi. cbn [bind]. apply select_total; auto.
      intros r Wr. destruct (column_continuous _ Wr Hc) as [x Hx].
      rewrite Hx. cbn [bind]. eauto.
    + destruct (Nat.eqb_spec i (nc - 1)) as [Hl|Hl].
      * destruct (@getitem_lt _ t i) as [lo Hlo]; [lia|].
        rewrite Hlo. cbn [bind]. apply select_total; auto.
        intros r Wr. destruct (column_continuous _ Wr Hc) as [x Hx].
        rewrite Hx. cbn [bind]. eauto.
      * destruct (@getitem_lt _ t i) as [lo Hlo]; [lia|].
        destruct (@getitem_lt _ t (i + 1)) as [hi Hhi]; [lia|].
        rewrite Hlo, Hhi. cbn [bind]. apply select_total; auto.
        intros r Wr. destruct (column_continuous _ Wr Hc) as [x Hx].
        rewrite Hx. cbn [bind]. eauto.
  - unfold select_categorical. apply select_total; auto.
    intros r Wr.
    destruct (@column_categorical r (kk - c_dim_continuous c) Wr) as [x Hx].
    { unfold c_dim_features in Hk. lia. }
    rewrite Hx. cbn [bind]. eauto.
Qed.

Lemma update_children_without_total (routed : nat -> result dataset) :
  forall todo i0 lcml,
    (forall i, (i0 <= i < i0 + todo)%nat -> routed i = Ok []) ->
    (i0 + todo <= List.length lcml)%nat ->
    exists lcml', update_children_without routed i0 todo lcml = Ok lcml'.
Proof.
  induction todo as [|todo IH]; intros i0 lcml Hr Hl; simpl.
  - eauto.
  - rewrite Hr by lia. cbn [bind].
    destruct (@setitem_ok _ lcml i0 0%R) as [l1 [Hs Hlen]]; [lia|].
    rewrite Hs. cbn [bind]. apply IH.
    + intros i Hi. apply Hr. lia.
    + rewrite Hlen. lia.
Qed.

Lemma update_children_total
  (upd : node M -> dataset -> result (R * node M))
  (routed : nat -> result dataset) (cs : list (node M)) :
  Forall (fun child => forall rows,
            forallb (well_formed_row c) rows = true ->
            exists r, upd child rows = Ok r) cs ->
  forall i0 todo lcml,
    (todo <= List.length cs)%nat ->
    (i0 + todo <= List.length lcml)%nat ->
    (forall i, (i0 <= i < i0 + todo)%nat ->
       exists rows, routed i = Ok rows /\
                    forallb (well_formed_row c) rows = true) ->
    exists r, update_children upd routed cs i0 todo lcml = Ok r.
Proof.
  induction 1 as [|child cs Hchild _ IH]; intros i0 todo lcml Hcs Hl Hr.
  - simpl in Hcs. assert (todo = O) by lia. subst. simpl. eauto.
  - cbn [update_children]. destruct todo as [|todo]; [eauto|].
    destruct (Hr i0) as [rows [Hrows Wrows]]; [lia|].
    rewrite Hrows. cbn [bind].
    assert (Hnext : forall l1, List.length l1 = List.length lcml ->
              exists r, update_children upd routed cs (S i0) todo l1 = Ok r).
    { intros l1 Hlen. apply IH.
      - simpl in Hcs. lia.
      - rewrite Hlen. lia.
      - intros i Hi. apply Hr. lia. }
    destruct rows as [|r rows].
    + destruct (@setitem_ok _ lcml i0 0%R) as [l1 [Hs Hlen]]; [lia|].
      rewrite Hs. cbn [bind].
      destruct (Hnext l1 Hlen) as [[cs2 l2] Hu]. rewrite Hu. cbn [bind]. eauto.
    + destruct (Hchild (r :: rows) Wrows) as [[v child'] Hc].
      rewrite Hc. cbn [bind].
      destruct (@setitem_ok _ lcml i0 v) as [l1 [Hs Hlen]]; [lia|].
      rewrite Hs. cbn [bind].
      destruct (Hnext l1 Hlen) as [[cs2 l2] Hu]. rewrite Hu. cbn [bind]. eauto.
Qed.

Lemma update_total : forall (n : node M),
  well_formed c n = true ->
  forall data, forallb (well_formed_row c) data = true ->
  exists r, update n data = Ok r.
Proof.
  induction n as [d kn h th lf df sm lml lcml cs IH] using node_induction.
  intros W data Wd.
  cbn [update_posterior_recursion].
  cbn [well_formed] in W.
  destruct lf.
  - destruct (leaf_batch sm data). eauto.
  - cbn [orb] in W.
    destruct kn as [kk|]; [|discriminate].
    unfold getitem at 1.
    destruct (nth_error (c_num_children_vec c) kk) as [nc|]; [|discriminate].
    cbn [bind].
    repeat (apply andb_true_iff in W; destruct W as [W ?]).
    match goal with Hcs : forallb _ cs = true |- _ => rename Hcs into Wcs end.
    match goal with Hl : (List.length lcml =? nc)%nat = true |- _ =>
      apply Nat.eqb_eq in Hl; rename Hl into Wl end.
    match goal with Hl : (nc <=? List.length cs)%nat = true |- _ =>
      apply Nat.leb_le in Hl; rename Hl into Wn end.
    apply Nat.ltb_lt in W.
    destruct (@update_children_total update
                (fun i => route c th nc kk i data) cs) with
      (i0 := O) (todo := nc) (lcml := lcml) as [[cs' lcml'] Hu].
    + rewrite Forall_forall in *. intros child Hin rows Wrows.
      apply IH; auto.
      rewrite forallb_forall in Wcs. now apply Wcs.
    + lia.
    + lia.
    + intros i Hi. apply route_total; auto. lia.
    + rewrite Hu. cbn [bind].
      destruct (leaf_batch sm data). eauto.
Qed.


(** *** The value and the new [h_g] of an inner node *)

Lemma update_children_without_length (routed : nat -> result dataset) :
  forall todo i0 lcml lcml',
    update_children_without routed i0 todo lcml = Ok lcml' ->
    List.length lcml' = List.length lcml.
Proof.
  induction todo as [|todo IH]; intros i0 lcml lcml' E; simpl in E.
  - now inversion E.
  - destruct (routed i0) as [[|r rows]|e]; cbn [bind] in E; try discriminate.
    destruct (setitem lcml i0 0%R) as [l1|e] eqn:Es; cbn [bind] in E;
      [|discriminate].
    apply IH in E. apply setitem_length in Es. lia.
Qed.

Lemma update_children_length
  (upd : node M -> dataset -> result (R * node M))
  (routed : nat -> result dataset) :
  forall cs i0 todo lcml cs' lcml',
    update_children upd routed cs i0 todo lcml = Ok (cs', lcml') ->
    List.length lcml' = List.length lcml.
Proof.
  induction cs as [|child cs IH]; intros i0 todo lcml cs' lcml' E;
    cbn [update_children] in E.
  - destruct (update_children_without routed i0 todo lcml) as [l1|e] eqn:Ew;
      cbn [bind] in E; [|discriminate].
    inversion E; subst. eapply update_children_without_length; eauto.
  - destruct todo as [|todo]; [now inversion E|].
    destruct (routed i0) as [[|r rows]|e]; cbn [bind] in E; try discriminate.
    + destruct (setitem lcml i0 0%R) as [l1|e] eqn:Es; cbn [bind] in E;
        [|discriminate].
      destruct (update_children upd routed cs (S i0) todo l1)
        as [[cs2 l2]|e] eqn:Eu; cbn [bind] in E; [|discriminate].
      inversion E; subst. apply IH in Eu. apply setitem_length in Es. lia.
    + destruct (upd child (r :: rows)) as [[v child']|e];
        cbn [bind] in E; [|discriminate].
      destruct (setitem lcml i0 v) as [l1|e] eqn:Es; cbn [bind] in E;
        [|discriminate].
      destruct (update_children upd routed cs (S i0) todo l1)
        as [[cs2 l2]|e] eqn:Eu; cbn [bind] in E; [|discriminate].
      inversion E; subst. apply IH in Eu. apply setitem_length in Es. lia.
Qed.

(** Whatever the tree, a call on an inner node that returns has combined the
    leaf term and the split term as the code's last four lines say. *)
Lemma inner_node_returns (n : node M) (data : dataset) total n' :
  leaf n = false ->
  update n data = Ok (total, n') ->
  let leaf_ll := snd (leaf_batch (sub_model n) data) in
  let split_term :=
    xadd (xlog (h_g n))
      (Finite (Np.sum (log_children_marginal_likelihood n'))) in
  let mixture :=
    xlogaddexp (xadd (xlog (1 - h_g n)) (Finite leaf_ll)) split_term in
  total = real_of mixture /\
  h_g n' = real_of (xexp (xsub split_term mixture)) /\
  List.length (log_children_marginal_likelihood n')
  = List.length (log_children_marginal_likelihood n) /\
  forall j, (j < num_children c n)%nat ->
    entry_of_child update (routed_to c n data)
      (children n) (children n') (log_children_marginal_likelihood n') 0 j.
Proof.
  destruct n as [d kn h th lf df sm lml lcml cs].
  cbn [leaf h_g sub_model children log_children_marginal_likelihood].
  intros -> E. cbn [update_posterior_recursion] in E.
  destruct kn as [kk|]; [|discriminate].
  unfold routed_to. unfold num_children. cbn [k thresholds].
  destruct (getitem (c_num_children_vec c) kk) as [nc|e]; cbn [bind] in E;
    [|discriminate].
  destruct (update_children update (fun i => route c th nc kk i data)
              cs 0 nc lcml) as [[cs' lcml']|e] eqn:Eu; cbn [bind] in E;
    [|discriminate].
  destruct (leaf_batch sm data) as [sm' v]. cbn [snd].
  inversion E; subst. cbn [h_g log_children_marginal_likelihood children].
  repeat split.
  - eapply update_children_length; eauto.
  - intros j Hj. destruct (update_children_entries _ _ _ _ _ _ Eu) as [_ He].
    apply He. exact Hj.
Qed.

Lemma list_is_map (f : nat -> R) : forall (l : list R) n,
  List.length l = n ->
  (forall i, (i < n)%nat -> getitem l i = Ok (f i)) ->
  l = map f (seq 0 n).
Proof.
  intros l n Hlen Hget. apply nth_error_ext. intros i.
  destruct (Nat.lt_ge_cases i n) as [Hi|Hi].
  - specialize (Hget i Hi). unfold getitem in Hget.
    rewrite nth_error_map, nth_error_seq.
    destruct (Nat.ltb_spec i n); [|lia]. simpl.
    destruct (nth_error l i); congruence.
  - rewrite (proj2 (nth_error_None _ _)) by lia.
    symmetry. apply nth_error_None. rewrite length_map, length_seq. lia.
Qed.

End WithSubModel.

Section BatchRecursion.

Context {M : Type} `{SubModel M}.
Variable c : constants.

Local Abbreviation update := (_update_posterior_recursion_batch c).

Lemma entry_is_contribution (n n' : node M) (data : dataset) j :
  (j < num_children c n)%nat ->
  entry_of_child update (routed_to c n data)
    (children n) (children n') (log_children_marginal_likelihood n') 0 j ->
  getitem (log_children_marginal_likelihood n') j
  = Ok (child_contribution c n data j).
Proof.
  intros Hj [rows [Hr He]]. cbn [Nat.add] in *.
  unfold child_contribution. unfold routed_to in Hr.
  unfold num_children in Hj, Hr.
  destruct (k n) as [kk|]; [|discriminate].
  destruct (getitem (c_num_children_vec c) kk) as [nc|e]; [|lia].
  rewrite Hr. destruct rows as [|r rows]; [exact He|].
  destruct He as [child [v [child' [Hc [Hu [_ Hg]]]]]].
  now rewrite Hc, Hu.
Qed.

(** C7.  On an inner node of a well-formed tree whose split probability
    [h_g] before the call is in [0,1], with well-formed rows, the recursion
    returns [total = logaddexp(log(1-h_g) + leaf_ll, split_term)], a finite
    number, where [leaf_ll] is the log marginal likelihood of the node's own
    sub-model after it absorbed the rows, and
    [split_term = log(h_g) + ] the sum over the children of their
    contributions: the value the recursion returns on the child, or [0] for
    a child no row is routed to.  The call leaves
    [h_g = exp(split_term - total)] in the node, and stores exactly [0] in
    [log_children_marginal_likelihood] for every child without rows.  The
    logarithms are those of numpy: [-inf] at [0], so that at [h_g = 0] the
    value is [leaf_ll] and [h_g] stays [0], and at [h_g = 1] the value is
    the sum of the contributions and [h_g] stays [1]. *)
Theorem inner_node_mixture (n : node M) (data : dataset) :
  leaf n = false ->
  (0 <= h_g n <= 1)%R ->
  well_formed c n = true ->
  forallb (well_formed_row c) data = true ->
  exists total n',
    update n data = Ok (total, n') /\
    let leaf_ll := snd (_update_posterior_leaf_batch (sub_model n) data) in
    let contributions :=
      map (child_contribution c n data) (range (num_children c n)) in
    let split_term := xadd (xlog (h_g n)) (Finite (Np.sum contributions)) in
    Finite total
    = xlogaddexp (xadd (xlog (1 - h_g n)) (Finite leaf_ll)) split_term /\
    Finite (h_g n') = xexp (xsub split_term (Finite total)) /\
    log_children_marginal_likelihood n' = contributions /\
    (forall i, (i < num_children c n)%nat ->
       routed_to c n data i = Ok [] ->
       child_contribution c n data i = 0%R /\
       getitem (log_children_marginal_likelihood n') i = Ok 0%R) /\
    (h_g n = 0%R -> total = leaf_ll /\ h_g n' = 0%R) /\
    (h_g n = 1%R -> total = Np.sum contributions /\ h_g n' = 1%R) /\
    ((0 < h_g n < 1)%R ->
     total = logaddexp (log (1 - h_g n) + leaf_ll)
               (log (h_g n) + Np.sum contributions) /\
     h_g n' = exp (log (h_g n) + Np.sum contributions - total)).
Proof.
  intros Hleaf Hh01 W Wd.
  destruct (update_total c _update_posterior_leaf_batch n W data Wd)
    as [[total n'] E].
  exists total, n'. split; [exact E|].
  destruct (inner_node_returns c _update_posterior_leaf_batch n data Hleaf E)
    as [Ht [Hh [Hlen Hent]]].
  assert (Hn : List.length (log_children_marginal_likelihood n)
               = num_children c n).
  { destruct n as [d kn h th lf df sm lml lcml cs].
    cbn [leaf] in Hleaf. subst lf. cbn [well_formed orb] in W.
    unfold num_children, getitem.
    cbn [k log_children_marginal_likelihood].
    destruct kn as [kk|]; [|discriminate].
    destruct (nth_error (c_num_children_vec c) kk) as [nc|]; [|discriminate].
    repeat (apply andb_true_iff in W; destruct W as [W ?]).
    match goal with Hl : (List.length lcml =? nc)%nat = true |- _ =>
      now apply Nat.eqb_eq in Hl end. }
  assert (Hmap : log_children_marginal_likelihood n'
                 = map (child_contribution c n data)
                     (range (num_children c n))).
  { apply list_is_map; [congruence|].
    intros i Hi. apply entry_is_contribution; auto. }
  cbv zeta. rewrite <- Hmap. cbv zeta in Ht, Hh.
  destruct (@mixture_is_finite (h_g n)
              (snd (_update_posterior_leaf_batch (sub_model n) data))
              (Np.sum (log_children_marginal_likelihood n')) Hh01)
    as (t & p & Et & Ep & Hp & Hin).
  rewrite Et in Ht, Hh. cbn [real_of] in Ht. subst t.
  rewrite Ep in Hh. cbn [real_of] in Hh. subst p.
  split; [now rewrite Et|]. split; [now rewrite Ep|].
  split; [reflexivity|].
  split; [|split; [|split;
    [|intros Hh'; destruct (Hin Hh') as (Q1 & Q2 & _); now split]]].
  2: { intros E0. rewrite E0, xlog_zero in Et, Ep.
       rewrite xlog_positive in Et by lra.
       cbn [xadd xlogaddexp xsub xneg xexp] in Et, Ep.
       inversion Et as [Et']. inversion Ep as [Ep'].
       split; [|reflexivity].
       rewrite Rminus_0_r, ln_1. cbn [_update_posterior_leaf_batch snd].
       ring. }
  2: { intros E1. rewrite E1 in Et, Ep.
       replace (1 - 1)%R with 0%R in Et by lra. rewrite xlog_zero in Et.
       rewrite xlog_positive in Et, Ep by lra.
       cbn [xadd xlogaddexp xsub xneg xexp] in Et, Ep.
       inversion Et as [Et']. inversion Ep as [Ep']. rewrite ln_1.
       split; [ring|].
       rewrite <- Et'. rewrite ln_1.
       replace (0 + Np.sum (log_children_marginal_likelihood n')
                + - (0 + Np.sum (log_children_marginal_likelihood n')))%R
         with 0%R by ring.
       apply exp_0. }
  intros i Hi Hr0. split.
  - intros. unfold child_contribution, routed_to, num_children in *.
    destruct (k n) as [kk|]; [|reflexivity].
    destruct (getitem (c_num_children_vec c) kk); [|reflexivity].
    match goal with Hr : route _ _ _ _ _ _ = Ok [] |- _ => now rewrite Hr end.
  - destruct (Hent i) as [rows [Hr He]]; [assumption|].
    cbn [Nat.add] in *.
    match goal with Hr' : routed_to _ _ _ _ = Ok [] |- _ =>
      rewrite Hr' in Hr; inversion Hr; subst end.
    exact He.
Qed.


End BatchRecursion.
End RecursionFacts.

(* ================================================================== *)
(** * The Metropolis-Hastings driver: acceptance, tuner, iteration count *)
(* ================================================================== *)

Module MTMCMCFacts.
Import PyFacts Chain MTMCMC.

Section WithInterfaces.

Context {M G : Type} `{Generator G} `{Seeding G} `{Proposal M G}.
Variable self : learner M.

Local Abbreviation mh_step := (_mh_step_truncated self).
Local Abbreviation calc := (@_calc_truncated_posterior_lean M).

(** *** What a proposal holds *)

Lemma propose_spec (s : state) (data : dataset) (p : candidate) :
  propose self s data = Ok p ->
  _calc_truncated_posterior_lean (_g_max s) (_num_children s) (cand_root p)
    = Ok (cand_t_new p) /\
  exists trees last last',
    _tmp_metatree_list s = trees ++ [last] /\
    cand_list p = trees ++ [last'] /\
    _calc_truncated_posterior_lean (_g_max s) (_num_children s) last'
      = Ok (cand_t_last p).
Proof.
  unfold propose. intros E.
  destruct (fresh_root self (rng s) (_hn_node_sub_model s) (_num_children s))
    as [[root g1]|e]; cbn [bind] in E; [|discriminate].
  destruct (getlast (_tmp_metatree_list s)) as [last|e] eqn:El;
    cbn [bind] in E; [|discriminate].
  destruct (_generate_truncated_and_update (consts self) (_g_max s)
              (_threshold_type s) (_hn_node_sub_model s) (_num_children s)
              g1 (Some last) root false data)
    as [[[[l_new last'] new] g2]|e]; cbn [bind] in E; [|discriminate].
  destruct (setlast (_tmp_metatree_list s)
              match last' with Some t => t | None => last end)
    as [list1|e] eqn:Es; cbn [bind] in E; [|discriminate].
  destruct (_calc_truncated_posterior_lean (_g_max s) (_num_children s) new)
    as [t_new|e] eqn:Etn; cbn [bind] in E; [|discriminate].
  destruct (getlast list1) as [last1|e] eqn:El1; cbn [bind] in E;
    [|discriminate].
  destruct (_calc_truncated_posterior_lean (_g_max s) (_num_children s) last1)
    as [t_last|e] eqn:Etl; cbn [bind] in E; [|discriminate].
  inversion E; subst. cbn [cand_root cand_t_new cand_list cand_t_last].
  split; [exact Etn|].
  apply setlast_ok in Es. destruct Es as [trees [a [Hl Hl1]]].
  subst list1. rewrite getlast_app in El1. inversion El1; subst.
  rewrite Hl in El. rewrite getlast_app in El. inversion El; subst.
  do 3 eexists. split; [exact Hl|]. split; [reflexivity|exact Etl].
Qed.

Lemma mh_step_accepts (s : state) (data : dataset) (p : candidate) :
  propose self s data = Ok p ->
  (fst (rng_random (cand_rng p))
   < exp (cand_l_new p - cand_t_last p - _l_last s + cand_t_new p))%R ->
  mh_step s data = Ok (accept s p (snd (rng_random (cand_rng p)))).
Proof.
  intros Hp Hu. unfold _mh_step_truncated. rewrite Hp. cbn [bind].
  destruct (rng_random (cand_rng p)) as [u g3]. cbn [fst snd] in *.
  now rewrite (proj2 (ltb_true_iff _ _) Hu).
Qed.

Lemma mh_step_rejects (s : state) (data : dataset) (p : candidate) :
  propose self s data = Ok p ->
  ~ (fst (rng_random (cand_rng p))
     < exp (cand_l_new p - cand_t_last p - _l_last s + cand_t_new p))%R ->
  mh_step s data = reject s p (snd (rng_random (cand_rng p))).
Proof.
  intros Hp Hu. unfold _mh_step_truncated. rewrite Hp. cbn [bind].
  destruct (rng_random (cand_rng p)) as [u g3]. cbn [fst snd] in *.
  now rewrite (proj2 (ltb_false_iff _ _) Hu).
Qed.

Lemma reject_spec (s : @state M G) (p : candidate) (g : G) s' :
  reject s p g = Ok s' ->
  _tmp_metatree_list s' = cand_list p /\
  exists counts count,
    _tmp_metatree_count_list s = counts ++ [count] /\
    _tmp_metatree_count_list s' = counts ++ [(count + 1)%Z].
Proof.
  unfold reject. intros E.
  destruct (getlast (_tmp_metatree_count_list s)) as [count|e] eqn:Eg;
    cbn [bind] in E; [|discriminate].
  destruct (setlast (_tmp_metatree_count_list s) (count + 1)%Z)
    as [counts|e] eqn:Es; cbn [bind] in E; [|discriminate].
  inversion E; subst. cbn [_tmp_metatree_list _tmp_metatree_count_list].
  split; [reflexivity|].
  apply setlast_ok in Es. destruct Es as [l' [a [Hl Hc]]].
  rewrite Hl in Eg. rewrite getlast_app in Eg. inversion Eg; subst.
  eauto.
Qed.

(** The test of the code is the test of the acceptance probability: the
    exponents are the same sum and the draw is below 1. *)
Lemma acceptance_test (p : @candidate M G) (l_last u : R) :
  (0 <= u < 1)%R ->
  (u < spec_acceptance_probability (cand_l_new p) (log_q_old_to_new p)
         l_last (log_q_new_to_old p))%R <->
  (u < exp (cand_l_new p - cand_t_last p - l_last + cand_t_new p))%R.
Proof.
  intros Hu. unfold spec_acceptance_probability, log_q_old_to_new,
    log_q_new_to_old.
  replace (cand_l_new p - cand_t_last p - (l_last - cand_t_new p))%R
    with (cand_l_new p - cand_t_last p - l_last + cand_t_new p)%R by ring.
  split; intros Hlt.
  - apply below_exp_iff_below_min in Hlt; [exact Hlt|lra].
  - apply below_exp_iff_below_min; [lra|exact Hlt].
Qed.



(** *** What a step changes *)

Lemma mh_step_effect (s s' : state) (data : dataset) :
  mh_step s data = Ok s' ->
  _rho s' = _rho s /\ _phi s' = _phi s /\ _p_obj s' = _p_obj s /\
  _g_max s' = _g_max s /\ _g_list s' = _g_list s /\
  _g_max_denominator s' = _g_max_denominator s /\
  _g_max_accumulated s' = _g_max_accumulated s /\
  _denominator s' = (_denominator s * _rho s + 1)%R /\
  (_numerator s' = (_numerator s * _rho s + 1)%R \/
   _numerator s' = (_numerator s * _rho s)%R) /\
  _num_proposed s' = (_num_proposed s + 1)%Z /\
  (exists l, _l_list s' = _l_list s ++ [l]) /\
  _num_children s' = _num_children s.
Proof.
  unfold _mh_step_truncated. intros E.
  destruct (propose self s data) as [p|e]; cbn [bind] in E; [|discriminate].
  destruct (rng_random (cand_rng p)) as [u g3].
  destruct (ltb u _).
  - inversion E; subst. cbn. repeat split; auto. eexists; reflexivity.
  - unfold reject in E.
    destruct (getlast (_tmp_metatree_count_list s)) as [count|e];
      cbn [bind] in E; [|discriminate].
    destruct (setlast (_tmp_metatree_count_list s) (count + 1)%Z)
      as [counts|e]; cbn [bind] in E; [|discriminate].
    inversion E; subst. cbn. repeat split; auto. eexists; reflexivity.
Qed.

(** *** The tuner *)

Lemma ratio_in_unit a b : (0 <= a <= b)%R -> (0 < b)%R -> (0 <= a / b <= 1)%R.
Proof.
  intros [Ha Hab] Hb. split.
  - apply Rmult_le_pos; [exact Ha|]. left. now apply Rinv_0_lt_compat.
  - apply Rmult_le_reg_r with b; [exact Hb|].
    unfold Rdiv. rewrite Rmult_assoc, Rinv_l by lra. lra.
Qed.

Lemma update_g_max_ok (s : @state M G) :
  (0 <= _phi s)%R -> (0 < _p_obj s < 1)%R -> (0 <= _g_max s <= 1)%R ->
  (0 <= _numerator s <= _denominator s)%R -> (1 <= _denominator s)%R ->
  (0 <= _g_max_accumulated s <= _g_max_denominator s)%R ->
  exists s2,
    _update_g_max s = Ok s2 /\
    (0 <= _g_max s2 <= 1)%R /\
    _g_list s2 = _g_list s ++ [_g_max s2] /\
    (0 <= _g_max_accumulated s2 <= _g_max_denominator s2)%R /\
    _rho s2 = _rho s /\ _phi s2 = _phi s /\ _p_obj s2 = _p_obj s /\
    _numerator s2 = _numerator s /\ _denominator s2 = _denominator s /\
    _num_proposed s2 = _num_proposed s /\ _l_list s2 = _l_list s /\
    _tmp_metatree_list s2 = _tmp_metatree_list s /\
    _tmp_metatree_count_list s2 = _tmp_metatree_count_list s /\
    _num_accepted s2 = _num_accepted s.
Proof.
  intros Hphi Hp Hg Hn Hd Ha.
  unfold _update_g_max.
  rewrite py_div_ok by lra. cbn [bind].
  set (p_hat := (_numerator s / _denominator s)%R).
  assert (Hph : (0 <= p_hat <= 1)%R) by (apply ratio_in_unit; lra).
  assert (Hnew : exists g_new,
    (if ltb (_p_obj s) p_hat
     then py_div (_g_max s * _p_obj s) p_hat
     else q <- py_div ((1 - _g_max s) * (1 - _p_obj s)) (1 - p_hat) ;;
          Ok (1 - q)%R) = Ok g_new /\ (0 <= g_new <= 1)%R).
  { destruct (ltb (_p_obj s) p_hat) eqn:El.
    - apply ltb_true_iff in El. rewrite py_div_ok by lra.
      eexists; split; [reflexivity|]. apply ratio_in_unit; [|lra]. nra.
    - apply ltb_false_iff in El. rewrite py_div_ok by lra. cbn [bind].
      eexists; split; [reflexivity|].
      assert (Hq : (0 <= (1 - _g_max s) * (1 - _p_obj s) / (1 - p_hat) <= 1)%R).
      { apply ratio_in_unit; [|lra]. nra. }
      lra. }
  destruct Hnew as [g_new [Eg Hgn]]. rewrite Eg. cbn [bind].
  assert (Hacc : (0 <= _g_max_accumulated s * _phi s + g_new
                  <= _g_max_denominator s * _phi s + 1)%R) by nra.
  assert (Hden : (0 < _g_max_denominator s * _phi s + 1)%R) by nra.
  rewrite py_div_ok by lra. cbn [bind].
  eexists. split; [reflexivity|]. cbn.
  split; [apply ratio_in_unit; assumption|].
  repeat split; auto; lra.
Qed.

Lemma burn_in_step_invariant (s s' : state) (data : dataset) :
  tuner_invariant s ->
  burn_in_step self data s = Ok s' ->
  tuner_invariant s' /\
  _g_list s' = _g_list s ++ [_g_max s'] /\
  _num_proposed s' = (_num_proposed s + 1)%Z /\
  (exists l, _l_list s' = _l_list s ++ [l]).
Proof.
  intros (Hr & Hphi & Hp & Hg & Hn & Ha & Hl) E.
  unfold burn_in_step in E.
  destruct (mh_step s data) as [s1|e] eqn:E1; cbn [bind] in E; [|discriminate].
  destruct (mh_step_effect _ _ E1)
    as (Er & Ephi & Ep & Eg & Egl & Egd & Ega & Ed & En & Enp & Ell & _).
  destruct (@update_g_max_ok s1) as [s2 (E2 & Hg2 & Hgl2 & Ha2 & Er2 & Ephi2
      & Ep2 & En2 & Ed2 & Enp2 & Ell2 & _)].
  - rewrite Ephi. exact Hphi.
  - rewrite Ep. exact Hp.
  - rewrite Eg. exact Hg.
  - rewrite Ed. destruct En as [-> | ->]; nra.
  - rewrite Ed. nra.
  - rewrite Egd, Ega. exact Ha.
  - rewrite E2 in E. inversion E; subst s'. repeat split.
    + rewrite Er2, Er. exact Hr.
    + rewrite Ephi2, Ephi. exact Hphi.
    + rewrite Ep2, Ep. apply Hp.
    + rewrite Ep2, Ep. apply Hp.
    + apply Hg2.
    + apply Hg2.
    + rewrite En2. destruct En as [-> | ->]; nra.
    + rewrite En2, Ed2, Ed. destruct En as [-> | ->]; nra.
    + apply Ha2.
    + apply Ha2.
    + rewrite Hgl2, Egl. apply Forall_app. split; [exact Hl|].
      constructor; [exact Hg2|constructor].
    + rewrite Hgl2, Egl. reflexivity.
    + rewrite Enp2. exact Enp.
    + rewrite Ell2. exact Ell.
Qed.

Lemma initial_state_invariant (kw : kwargs) (g : G) nc (root : node M) l :
  (0 <= g_max kw <= 1)%R -> (0 < p_obj kw < 1)%R ->
  (0 <= rho kw)%R -> (0 <= phi kw)%R ->
  tuner_invariant (initial_state self kw g nc root l).
Proof.
  intros Hg Hp Hr Hphi. unfold tuner_invariant, initial_state. cbn.
  repeat split; try lra. constructor.
Qed.

Lemma burn_in_steps_invariant (data : dataset) : forall n (s s' : state),
  tuner_invariant s ->
  repeatM n (burn_in_step self data) s = Ok s' ->
  tuner_invariant s' /\
  List.length (_g_list s') = (List.length (_g_list s) + n)%nat.
Proof.
  induction n as [|n IH]; intros s s' Hinv E; simpl in E.
  - inversion E; subst. split; [exact Hinv|lia].
  - destruct (burn_in_step self data s) as [s1|e] eqn:E1; [|discriminate].
    destruct (burn_in_step_invariant _ Hinv E1) as (Hinv1 & Hgl & _).
    destruct (IH _ _ Hinv1 E) as [Hinv' Hlen]. split; [exact Hinv'|].
    rewrite Hlen, Hgl, length_app. simpl. lia.
Qed.

(** *** The ceiling, whatever the decay of the acceptance rate *)

(** The tuner raises only on a decayed count of steps that is [0]. *)
Lemma update_g_max_bound (s : @state M G) :
  (0 <= _phi s)%R -> (0 < _p_obj s < 1)%R -> (0 <= _g_max s <= 1)%R ->
  (0 <= _g_max_accumulated s <= _g_max_denominator s)%R ->
  (_denominator s <> 0%R -> exists s2, _update_g_max s = Ok s2) /\
  forall s2, _update_g_max s = Ok s2 ->
    (0 <= _g_max s2 <= 1)%R /\
    _g_list s2 = _g_list s ++ [_g_max s2] /\
    (0 <= _g_max_accumulated s2 <= _g_max_denominator s2)%R /\
    _rho s2 = _rho s /\ _phi s2 = _phi s /\ _p_obj s2 = _p_obj s /\
    _denominator s2 = _denominator s.
Proof.
  intros Hphi Hp Hg Ha.
  assert (Hstep : forall p_hat : R, exists g_new,
    (if ltb (_p_obj s) p_hat
     then py_div (_g_max s * _p_obj s) p_hat
     else q <- py_div ((1 - _g_max s) * (1 - _p_obj s)) (1 - p_hat) ;;
          Ok (1 - q)%R) = Ok g_new /\ (0 <= g_new <= 1)%R).
  { intros p_hat. destruct (ltb (_p_obj s) p_hat) eqn:El.
    - apply ltb_true_iff in El. rewrite py_div_ok by lra.
      eexists; split; [reflexivity|]. apply ratio_in_unit; [|lra]. nra.
    - apply ltb_false_iff in El. rewrite py_div_ok by lra. cbn [bind].
      eexists; split; [reflexivity|].
      assert (Hq : (0 <= (1 - _g_max s) * (1 - _p_obj s) / (1 - p_hat) <= 1)%R).
      { apply ratio_in_unit; [|lra]. nra. }
      lra. }
  assert (Hden : (0 < _g_max_denominator s * _phi s + 1)%R) by nra.
  split.
  - intros Hd. unfold _update_g_max. rewrite py_div_ok by exact Hd.
    cbn [bind].
    destruct (Hstep (_numerator s / _denominator s)%R) as [g_new [Eg _]].
    rewrite Eg. cbn [bind]. rewrite py_div_ok by lra. cbn [bind].
    eexists. reflexivity.
  - intros s2 E. unfold _update_g_max in E.
    destruct (py_div (_numerator s) (_denominator s)) as [p_hat|e];
      cbn [bind] in E; [|discriminate].
    destruct (Hstep p_hat) as [g_new [Eg Hgn]].
    rewrite Eg in E. cbn [bind] in E.
    rewrite py_div_ok in E by lra. cbn [bind] in E.
    inversion E; subst s2. clear E. cbn.
    assert (Hacc : (0 <= _g_max_accumulated s * _phi s + g_new
                    <= _g_max_denominator s * _phi s + 1)%R) by nra.
    split; [apply ratio_in_unit; assumption|].
    repeat split; auto; lra.
Qed.

Lemma burn_in_step_ceiling (s s' : state) (data : dataset) :
  ceiling_invariant s ->
  burn_in_step self data s = Ok s' ->
  ceiling_invariant s' /\
  _g_list s' = _g_list s ++ [_g_max s'].
Proof.
  intros (Hphi & Hp & Hg & Ha & Hl & Hd) E.
  unfold burn_in_step in E.
  destruct (mh_step s data) as [s1|e] eqn:E1; cbn [bind] in E; [|discriminate].
  destruct (mh_step_effect _ _ E1)
    as (Er & Ephi & Ep & Eg & Egl & Egd & Ega & Ed & _).
  destruct (@update_g_max_bound s1) as [_ Hb].
  - rewrite Ephi. exact Hphi.
  - rewrite Ep. exact Hp.
  - rewrite Eg. exact Hg.
  - rewrite Egd, Ega. exact Ha.
  - destruct (Hb s' E) as (Hg2 & Hgl2 & Ha2 & Er2 & Ephi2 & Ep2 & Ed2).
    split; [|now rewrite Hgl2, Egl].
    unfold ceiling_invariant.
    rewrite Ephi2, Ephi, Ep2, Ep, Er2, Er, Ed2, Ed.
    repeat split; try assumption; try apply Hp; try apply Hg2; try apply Ha2.
    + rewrite Hgl2, Egl. apply Forall_app. split; [exact Hl|].
      constructor; [exact Hg2|constructor].
    + intros Hr. specialize (Hd Hr). nra.
Qed.

Lemma initial_state_ceiling (kw : kwargs) (g : G) nc (root : node M) l :
  (0 <= g_max kw <= 1)%R -> (0 < p_obj kw < 1)%R -> (0 <= phi kw)%R ->
  ceiling_invariant (initial_state self kw g nc root l).
Proof.
  intros Hg Hp Hphi. unfold ceiling_invariant, initial_state. cbn.
  repeat split; try lra. constructor.
Qed.

Lemma burn_in_steps_ceiling (data : dataset) : forall n (s s' : state),
  ceiling_invariant s ->
  repeatM n (burn_in_step self data) s = Ok s' ->
  ceiling_invariant s' /\
  List.length (_g_list s') = (List.length (_g_list s) + n)%nat.
Proof.
  induction n as [|n IH]; intros s s' Hinv E; simpl in E.
  - inversion E; subst. split; [exact Hinv|lia].
  - destruct (burn_in_step self data s) as [s1|e] eqn:E1; [|discriminate].
    destruct (burn_in_step_ceiling _ Hinv E1) as (Hinv1 & Hgl).
    destruct (IH _ _ Hinv1 E) as [Hinv' Hlen]. split; [exact Hinv'|].
    rewrite Hlen, Hgl, length_app. simpl. lia.
Qed.

(** C4.  With an initial [g_max] in [0,1], a target [p_obj] strictly
    between 0 and 1 and a decay [phi] of the second average that is not
    negative, after any number of burn-in steps, whatever was accepted or
    rejected and whatever [rho] is, [g_max] and every value the tuner
    recorded in [_g_list] are in [0,1]; and after the next step, accepted
    or rejected, every update of the tuner leaves [g_max] in [0,1] again.
    The update raises nothing when the decay [rho] is not negative (it
    divides by the decayed count of the steps, which is then at least 1). *)
Theorem tuner_keeps_g_max_in_unit_interval
  (kw : kwargs) (g : G) (num_children : nat) (root : node M) (l_last : R)
  (data : dataset) (n : nat) (s : state) :
  (0 <= g_max kw <= 1)%R -> (0 < p_obj kw < 1)%R -> (0 <= phi kw)%R ->
  repeatM n (burn_in_step self data)
    (initial_state self kw g num_children root l_last) = Ok s ->
  (0 <= _g_max s <= 1)%R /\
  Forall (fun g => (0 <= g <= 1)%R) (_g_list s) /\
  List.length (_g_list s) = n /\
  forall s1, mh_step s data = Ok s1 ->
    (forall s2, _update_g_max s1 = Ok s2 -> (0 <= _g_max s2 <= 1)%R) /\
    ((0 <= _rho s)%R -> exists s2, _update_g_max s1 = Ok s2).
Proof.
  intros Hg Hp Hphi E.
  pose proof (initial_state_ceiling kw g num_children root l_last
                Hg Hp Hphi) as Hinv0.
  destruct (burn_in_steps_ceiling data n Hinv0 E) as [Hinv Hlen].
  destruct Hinv as (Hphi' & Hp' & Hg' & Ha' & Hl' & Hd').
  split; [exact Hg'|]. split; [exact Hl'|]. split; [exact Hlen|].
  intros s1 E1.
  destruct (mh_step_effect _ _ E1)
    as (Er & Ephi & Ep & Eg & Egl & Egd & Ega & Ed & _).
  destruct (@update_g_max_bound s1) as [Hret Hb].
  - rewrite Ephi. exact Hphi'.
  - rewrite Ep. exact Hp'.
  - rewrite Eg. exact Hg'.
  - rewrite Egd, Ega. exact Ha'.
  - split.
    + intros s2 E2. exact (proj1 (Hb s2 E2)).
    + intros Hr. apply Hret. rewrite Ed. specialize (Hd' Hr). nra.
Qed.


(** *** The two loops of [_MTMCMC] *)

Lemma update_g_max_effect (s s' : @state M G) :
  _update_g_max s = Ok s' ->
  _num_proposed s' = _num_proposed s /\ _l_list s' = _l_list s /\
  _g_list s' = _g_list s ++ [_g_max s'].
Proof.
  unfold _update_g_max. intros E.
  destruct (py_div (_numerator s) (_denominator s)) as [p_hat|e];
    cbn [bind] in E; [|discriminate].
  match type of E with
  | bind ?m _ = _ => destruct m as [g_new|e]; cbn [bind] in E; [|discriminate]
  end.
  match type of E with
  | bind ?m _ = _ => destruct m as [g|e]; cbn [bind] in E; [|discriminate]
  end.
  inversion E; subst. cbn. auto.
Qed.

Lemma burn_in_step_effect (s s' : state) (data : dataset) :
  burn_in_step self data s = Ok s' ->
  _num_proposed s' = (_num_proposed s + 1)%Z /\
  List.length (_l_list s') = S (List.length (_l_list s)) /\
  List.length (_g_list s') = S (List.length (_g_list s)).
Proof.
  unfold burn_in_step. intros E.
  destruct (mh_step s data) as [s1|e] eqn:E1; cbn [bind] in E; [|discriminate].
  destruct (mh_step_effect _ _ E1)
    as (_ & _ & _ & _ & Egl & _ & _ & _ & _ & Enp & [l Ell] & _).
  destruct (update_g_max_effect _ E) as (Enp2 & Ell2 & Egl2).
  rewrite Enp2, Ell2, Egl2, Enp, Ell, Egl, !length_app. simpl.
  repeat split; lia.
Qed.

Lemma set_last_count_effect (s s' : @state M G) v :
  set_last_count s v = Ok s' ->
  _num_proposed s' = _num_proposed s /\ _l_list s' = _l_list s /\
  _g_list s' = _g_list s /\ _num_accepted s' = _num_accepted s.
Proof.
  unfold set_last_count. intros E.
  destruct (setlast (_tmp_metatree_count_list s) v) as [counts|e];
    cbn [bind] in E; [|discriminate].
  inversion E; subst. cbn. auto.
Qed.

Lemma burn_in_steps_effect (data : dataset) : forall n (s s' : state),
  repeatM n (burn_in_step self data) s = Ok s' ->
  List.length (_l_list s') = (List.length (_l_list s) + n)%nat /\
  List.length (_g_list s') = (List.length (_g_list s) + n)%nat.
Proof.
  induction n as [|n IH]; intros s s' E; simpl in E.
  - inversion E; subst. lia.
  - destruct (burn_in_step self data s) as [s1|e] eqn:E1; [|discriminate].
    destruct (burn_in_step_effect _ _ E1) as (_ & Hl & Hg).
    destruct (IH _ _ E) as [Hl' Hg']. lia.
Qed.

Lemma mh_steps_effect (data : dataset) : forall n (s s' : state),
  repeatM n (fun s => mh_step s data) s = Ok s' ->
  List.length (_l_list s') = (List.length (_l_list s) + n)%nat /\
  _g_list s' = _g_list s.
Proof.
  induction n as [|n IH]; intros s s' E; simpl in E.
  - inversion E; subst. split; [lia|reflexivity].
  - destruct (mh_step s data) as [s1|e] eqn:E1; [|discriminate].
    destruct (mh_step_effect _ _ E1)
      as (_ & _ & _ & _ & Egl & _ & _ & _ & _ & _ & [l Ell] & _).
    destruct (IH _ _ E) as [Hl' Hg']. rewrite Hl', Hg', Ell, Egl, length_app.
    simpl. split; [lia|reflexivity].
Qed.

Lemma mtmcmc_run (fuel : nat) (data : dataset) (kw : kwargs)
  (g : G) (num_children : nat) (root : node M) (l_last : R) :
  start self data kw = Ok (g, num_children, root, l_last) ->
  c_dim_features (consts self) <> 1%nat ->
  (1 <= burn_in kw)%Z -> (0 <= num_metatrees kw)%Z ->
  (burn_in kw + num_metatrees kw <= Z.of_nat fuel)%Z ->
  _MTMCMC self fuel data kw
  = Finished (run_of_steps self data kw
                (initial_state self kw g num_children root l_last)).
Proof.
  intros Hstart Hf Hb Hn Hfuel. unfold _MTMCMC, run_of_steps.
  rewrite Hstart.
  destruct (Nat.eqb_spec (c_dim_features (consts self)) 1) as [|_];
    [contradiction|].
  set (s0 := initial_state self kw g num_children root l_last).
  rewrite (@while_counts _ _num_proposed (burn_in kw) (burn_in_step self data))
    with (n := Z.to_nat (burn_in kw - 1)).
  - destruct (repeatM (Z.to_nat (burn_in kw - 1)) (burn_in_step self data) s0)
      as [s1|e] eqn:E1; cbn [bind]; [|reflexivity].
    destruct (set_last_count s1 1) as [s2|e] eqn:E2; cbn [bind];
      [|reflexivity].
    assert (Hp1 : _num_proposed s1 = burn_in kw).
    { rewrite (@repeatM_counts _ _num_proposed (burn_in_step self data))
        with (n := Z.to_nat (burn_in kw - 1)) (s := s0) (s' := s1).
      - subst s0. unfold initial_state. cbn [_num_proposed]. lia.
      - intros s s' E. now apply burn_in_step_effect in E.
      - exact E1. }
    destruct (set_last_count_effect _ _ E2) as (Hp2 & _).
    rewrite (@while_counts _ _num_proposed (burn_in kw + num_metatrees kw)
               (fun s => mh_step s data))
      with (n := Z.to_nat (num_metatrees kw)).
    + destruct (repeatM (Z.to_nat (num_metatrees kw))
                  (fun s => mh_step s data) s2) as [s3|e]; reflexivity.
    + intros s s' E. now apply mh_step_effect in E.
    + lia.
    + rewrite Hp2, Hp1. lia.
  - intros s s' E. now apply burn_in_step_effect in E.
  - lia.
  - subst s0. unfold initial_state. cbn [_num_proposed]. lia.
Qed.


Lemma mtmcmc_run_effect (data : dataset) (kw : kwargs) (s0 s : state) r :
  _num_proposed s0 = 1%Z -> _l_list s0 = [] -> _g_list s0 = [] ->
  (1 <= burn_in kw)%Z -> (0 <= num_metatrees kw)%Z ->
  run_of_steps self data kw s0 = Ok (Some s, r) ->
  _num_proposed s = (burn_in kw + num_metatrees kw)%Z /\
  Z.of_nat (List.length (_l_list s)) = (burn_in kw + num_metatrees kw - 1)%Z /\
  Z.of_nat (List.length (_g_list s)) = (burn_in kw - 1)%Z.
Proof.
  intros H0p H0l H0g Hb Hn E'.
  unfold run_of_steps in E'.
  destruct (repeatM (Z.to_nat (burn_in kw - 1)) (burn_in_step self data) s0)
    as [s1|e] eqn:E1; cbn [bind] in E'; [|discriminate].
  destruct (set_last_count s1 1) as [s2|e] eqn:E2; cbn [bind] in E';
    [|discriminate].
  destruct (repeatM (Z.to_nat (num_metatrees kw)) (fun s => mh_step s data) s2)
    as [s3|e] eqn:E3; cbn [bind] in E'; [|discriminate].
  destruct (output self s3 (_num_accepted s1 - 1)) as [r'|e];
    cbn [bind] in E'; [|discriminate].
  inversion E'; subst s r'. clear E'.
  assert (Hp1 : _num_proposed s1 = (_num_proposed s0 + Z.of_nat (Z.to_nat (burn_in kw - 1)))%Z).
  { apply (@repeatM_counts _ _num_proposed (burn_in_step self data)); auto.
    intros s s' E. now apply burn_in_step_effect in E. }
  assert (Hp3 : _num_proposed s3 = (_num_proposed s2 + Z.of_nat (Z.to_nat (num_metatrees kw)))%Z).
  { apply (@repeatM_counts _ _num_proposed (fun s => mh_step s data)); auto.
    intros s s' E. now apply mh_step_effect in E. }
  destruct (set_last_count_effect _ _ E2) as (Hp2 & Hl2 & Hg2 & _).
  destruct (burn_in_steps_effect _ _ _ E1) as [Hl1 Hg1].
  destruct (mh_steps_effect _ _ _ E3) as [Hl3 Hg3].
  rewrite Hp3, Hp2, Hp1, H0p, Hl3, Hg3, Hl2, Hg2, Hl1, Hg1, H0l, H0g.
  simpl List.length. repeat split; lia.
Qed.

(** C9, as the code has it.  On more than one feature, with [burn_in >= 1],
    the run is [burn_in - 1] passes of the burn-in loop (a step and the
    tuner) followed by [num_metatrees] passes of the sampling loop (a step):
    the counter [_num_proposed] starts at 1 for the initial tree and the
    loops stop when it reaches [burn_in + num_metatrees], so exactly
    [burn_in + num_metatrees - 1] Metropolis-Hastings steps are executed.
    Nothing else ends the loops: a pass that raises ends the run with its
    exception, and there is no retry. *)
Theorem mtmcmc_iteration_budget (fuel : nat) (data : dataset) (kw : kwargs)
  (g : G) (num_children : nat) (root : node M) (l_last : R) :
  start self data kw = Ok (g, num_children, root, l_last) ->
  c_dim_features (consts self) <> 1%nat ->
  (1 <= burn_in kw)%Z -> (0 <= num_metatrees kw)%Z ->
  (burn_in kw + num_metatrees kw <= Z.of_nat fuel)%Z ->
  _MTMCMC self fuel data kw
  = Finished (run_of_steps self data kw
                (initial_state self kw g num_children root l_last)) /\
  forall s r,
    _MTMCMC self fuel data kw = Finished (Ok (Some s, r)) ->
    _num_proposed s = (burn_in kw + num_metatrees kw)%Z /\
    Z.of_nat (List.length (_l_list s))
    = (burn_in kw + num_metatrees kw - 1)%Z /\
    Z.of_nat (List.length (_g_list s)) = (burn_in kw - 1)%Z.
Proof.
  intros Hstart Hf Hb Hn Hfuel.
  pose proof (mtmcmc_run fuel data kw Hstart Hf Hb Hn Hfuel) as Hrun.
  split; [exact Hrun|].
  intros s r E. rewrite Hrun in E. inversion E as [E']. clear E.
  apply (@mtmcmc_run_effect data kw
           (initial_state self kw g num_children root l_last) s r);
    auto.
Qed.

(** *** A rejected step and the tuner after it, field by field *)

Lemma reject_effect (s s' : @state M G) (p : candidate) (g : G) :
  reject s p g = Ok s' ->
  _tmp_metatree_list s' = cand_list p /\
  _numerator s' = (_numerator s * _rho s)%R /\
  _denominator s' = (_denominator s * _rho s + 1)%R /\
  _l_last s' = _l_last s /\ _num_accepted s' = _num_accepted s /\
  _num_children s' = _num_children s /\
  _hn_node_sub_model s' = _hn_node_sub_model s.
Proof.
  unfold reject. intros E.
  destruct (getlast (_tmp_metatree_count_list s)) as [count|e];
    cbn [bind] in E; [|discriminate].
  destruct (setlast (_tmp_metatree_count_list s) (count + 1)%Z)
    as [counts|e]; cbn [bind] in E; [|discriminate].
  inversion E; subst. cbn. auto 10.
Qed.

Lemma reject_total (s : @state M G) (p : candidate) (g : G) :
  _tmp_metatree_count_list s <> [] -> exists s', reject s p g = Ok s'.
Proof.
  intros Hc. destruct (nonempty_last_elt Hc) as [cs [c Hcs]].
  unfold reject. rewrite Hcs, getlast_app. cbn [bind].
  rewrite setlast_app. cbn [bind]. eauto.
Qed.

(** The tuner when nothing was accepted so far ([_numerator = 0]). *)
Lemma update_g_max_no_acceptance (s : @state M G) :
  _numerator s = 0%R -> _denominator s <> 0%R -> (0 <= _p_obj s)%R ->
  (_g_max_denominator s * _phi s + 1 <> 0)%R ->
  let g_max_new := (1 - (1 - _g_max s) * (1 - _p_obj s))%R in
  exists s2,
    _update_g_max s = Ok s2 /\
    _g_max_accumulated s2 = (_g_max_accumulated s * _phi s + g_max_new)%R /\
    _g_max_denominator s2 = (_g_max_denominator s * _phi s + 1)%R /\
    _g_max s2 = ((_g_max_accumulated s * _phi s + g_max_new)
                 / (_g_max_denominator s * _phi s + 1))%R /\
    _g_list s2 = _g_list s ++ [_g_max s2] /\
    _rho s2 = _rho s /\ _phi s2 = _phi s /\ _p_obj s2 = _p_obj s /\
    _numerator s2 = _numerator s /\ _denominator s2 = _denominator s /\
    _tmp_metatree_list s2 = _tmp_metatree_list s /\
    _tmp_metatree_count_list s2 = _tmp_metatree_count_list s /\
    _l_last s2 = _l_last s /\ _num_accepted s2 = _num_accepted s /\
    _num_children s2 = _num_children s /\
    _hn_node_sub_model s2 = _hn_node_sub_model s.
Proof.
  intros Hn Hd Hp Hg g_max_new. unfold _update_g_max.
  rewrite py_div_ok by exact Hd. cbn [bind].
  assert (Hph : (_numerator s / _denominator s = 0)%R).
  { rewrite Hn. unfold Rdiv. ring. }
  rewrite Hph.
  assert (Hl : ltb (_p_obj s) 0 = false) by (apply ltb_false_iff; lra).
  rewrite Hl. rewrite py_div_ok by lra. cbn [bind].
  assert (Hq : (1 - (1 - _g_max s) * (1 - _p_obj s) / (1 - 0) = g_max_new)%R).
  { unfold g_max_new. field. }
  rewrite Hq. rewrite py_div_ok by exact Hg. cbn [bind].
  eexists. split; [reflexivity|]. cbn. auto 20.
Qed.

End WithInterfaces.
End MTMCMCFacts.

(* ================================================================== *)
(** * The replica-exchange driver: swaps and the check of [beta_vec] *)
(* ================================================================== *)

Module REMTMCMCFacts.
Import PyFacts Chain REMTMCMC.

Lemma getitem_ok_lt {A} (l : list A) i a :
  getitem l i = Ok a -> (i < List.length l)%nat.
Proof.
  unfold getitem. destruct (nth_error l i) eqn:E; [|discriminate].
  intros _. apply nth_error_Some. congruence.
Qed.

Lemma setitem_two {A} (l : list A) i j a b :
  (i < List.length l)%nat -> (j < List.length l)%nat -> i <> j ->
  exists l1 l2,
    setitem l i a = Ok l1 /\ setitem l1 j b = Ok l2 /\
    List.length l2 = List.length l /\
    getitem l2 i = Ok a /\ getitem l2 j = Ok b /\
    forall m, m <> i -> m <> j -> getitem l2 m = getitem l m.
Proof.
  intros Hi Hj Hij.
  destruct (setitem_ok l a Hi) as [l1 [E1 L1]].
  destruct (@setitem_ok _ l1 j b) as [l2 [E2 L2]]; [lia|].
  exists l1, l2. repeat split; auto.
  - lia.
  - rewrite (getitem_setitem_other _ _ E2) by auto.
    eapply getitem_setitem_same; eauto.
  - eapply getitem_setitem_same; eauto.
  - intros m Hmi Hmj.
    rewrite (getitem_setitem_other _ _ E2) by auto.
    eapply getitem_setitem_other; eauto.
Qed.

Lemma Forall_setitem {A} (P : A -> Prop) : forall (l : list A) i v l',
  Forall P l -> P v -> setitem l i v = Ok l' -> Forall P l'.
Proof.
  induction l as [|a l IH]; intros [|i] v l' Hl Hv E; simpl in E;
    try discriminate; inversion Hl; subst.
  - inversion E; subst. constructor; auto.
  - destruct (setitem l i v) as [l1|] eqn:E1; [|discriminate].
    inversion E; subst. constructor; eauto.
Qed.

Lemma Forall_getitem {A} (P : A -> Prop) (l : list A) i a :
  Forall P l -> getitem l i = Ok a -> P a.
Proof.
  intros Hl E. unfold getitem in E.
  destruct (nth_error l i) eqn:En; [|discriminate]. inversion E; subst.
  rewrite Forall_forall in Hl. apply Hl. eapply nth_error_In; eauto.
Qed.

Lemma app_nonempty {A} (l : list A) a : l ++ [a] <> [].
Proof. destruct l; discriminate. Qed.

Lemma getlast2_app {A} (l : list A) a b : getlast2 (l ++ [a] ++ [b]) = Ok a.
Proof.
  unfold getlast2. rewrite app_assoc, rev_app_distr. simpl.
  now rewrite rev_app_distr.
Qed.

Section WithInterfaces.

Context {M G : Type} `{Generator G} `{Seeding G} `{Proposal M G}.
Variable self : learner M.

(** What a well-shaped state holds for a chain. *)
Lemma well_shaped_chain (s : @state M G) j :
  well_shaped s -> (j < _num_chains s)%nat ->
  exists init t cinit cnt l b,
    getitem (_tmp_metatree_lists s) j = Ok (init ++ [t]) /\
    getitem (_tmp_metatree_count_lists s) j = Ok (cinit ++ [cnt]) /\
    getitem (_l_lasts s) j = Ok l /\
    getitem (_beta_vec s) j = Ok b.
Proof.
  intros (Hn & Hl & Hc & Hll & Hb & Fl & Fc) Hj.
  destruct (@getitem_lt _ (_tmp_metatree_lists s) j) as [lj Elj]; [lia|].
  destruct (@getitem_lt _ (_tmp_metatree_count_lists s) j) as [cj Ecj]; [lia|].
  destruct (@getitem_lt _ (_l_lasts s) j) as [l El]; [lia|].
  destruct (@getitem_lt _ (_beta_vec s) j) as [b Eb]; [lia|].
  destruct (nonempty_last_elt (Forall_getitem _ Fl Elj)) as [init [t ->]].
  destruct (nonempty_last_elt (Forall_getitem _ Fc Ecj)) as [cinit [cnt ->]].
  exists init, t, cinit, cnt, l, b. auto.
Qed.

Lemma swap_tempered_chains_spec (s : @state M G) (g : G) j :
  well_shaped s -> (j + 1 < _num_chains s)%nat ->
  exists s', swap_tempered_chains s g j = Ok s' /\ swapped s s' j.
Proof.
  intros W Hj.
  destruct (@well_shaped_chain s j W) as
    (init & t & cinit & cnt & l & b & El & Ec & Ell & Eb); [lia|].
  destruct (@well_shaped_chain s (j + 1) W) as
    (init1 & t1 & cinit1 & cnt1 & l1 & b1 & El1 & Ec1 & Ell1 & Eb1); [lia|].
  destruct W as (Hn & Hl & Hc & Hll & Hb & Fl & Fc).
  unfold swap_tempered_chains.
  rewrite El, El1. cbn [bind]. rewrite !getlast_app. cbn [bind].
  rewrite !setlast_app. cbn [bind].
  destruct (@setitem_two _ (_tmp_metatree_lists s) (j + 1) j
              (init1 ++ [t]) (init ++ [t1]))
    as (lists1 & lists2 & S1 & S2 & L2 & G1 & G2 & Go); [lia|lia|lia|].
  rewrite S1. cbn [bind]. rewrite S2. cbn [bind].
  rewrite Ec. cbn [bind]. rewrite setlast_app. cbn [bind].
  rewrite Ec1. cbn [bind]. rewrite setlast_app. cbn [bind].
  destruct (@setitem_two _ (_tmp_metatree_count_lists s) j (j + 1)
              (cinit ++ [1%Z]) (cinit1 ++ [1%Z]))
    as (counts1 & counts2 & C1 & C2 & LC2 & GC1 & GC2 & GCo); [lia|lia|lia|].
  rewrite C1. cbn [bind]. rewrite C2. cbn [bind].
  rewrite Ell, Ell1. cbn [bind].
  destruct (@setitem_two _ (_l_lasts s) j (j + 1) l1 l)
    as (ll1 & ll2 & LL1 & LL2 & LLen & GL1 & GL2 & GLo); [lia|lia|lia|].
  rewrite LL1. cbn [bind]. rewrite LL2. cbn [bind].
  eexists. split; [reflexivity|].
  unfold swapped, current_tree. cbn.
  split; [|split; [|split; [|split; [|split]]]]; try reflexivity.
  - exists t, t1, l, l1. rewrite El, El1, G1, G2. cbn [bind].
    rewrite !getlast_app. repeat split; auto.
  - intros m Hm Hm1. split; [apply Go|apply GLo]; auto.
  - unfold well_shaped. cbn. repeat split; try lia.
    + eapply Forall_setitem; [|apply app_nonempty|exact S2].
      eapply Forall_setitem; [exact Fl|apply app_nonempty|exact S1].
    + eapply Forall_setitem; [|apply app_nonempty|exact C2].
      eapply Forall_setitem; [exact Fc|apply app_nonempty|exact C1].
Qed.

Lemma swap_with_last_chain_spec (s : @state M G) (g : G) j :
  well_shaped s -> (j + 1 < _num_chains s)%nat ->
  exists s', swap_with_last_chain s g j = Ok s' /\ swapped s s' j.
Proof.
  intros W Hj.
  destruct (@well_shaped_chain s j W) as
    (init & t & cinit & cnt & l & b & El & Ec & Ell & Eb); [lia|].
  destruct (@well_shaped_chain s (j + 1) W) as
    (init1 & t1 & cinit1 & cnt1 & l1 & b1 & El1 & Ec1 & Ell1 & Eb1); [lia|].
  destruct W as (Hn & Hl & Hc & Hll & Hb & Fl & Fc).
  unfold swap_with_last_chain.
  rewrite El, El1. cbn [bind]. rewrite getlast_app. cbn [bind].
  unfold append. rewrite <- app_assoc. rewrite getlast2_app. cbn [bind].
  rewrite setlast_app. cbn [bind].
  destruct (@setitem_two _ (_tmp_metatree_lists s) (j + 1) j
              (init1 ++ [t1] ++ [t]) (init ++ [t1]))
    as (lists1 & lists2 & S1 & S2 & L2 & G1 & G2 & Go); [lia|lia|lia|].
  rewrite S1. cbn [bind]. rewrite S2. cbn [bind].
  rewrite Ec. cbn [bind]. rewrite setlast_app. cbn [bind].
  rewrite Ec1. cbn [bind]. rewrite getlast_app. cbn [bind].
  rewrite setlast_app. cbn [bind].
  destruct (@setitem_two _ (_tmp_metatree_count_lists s) j (j + 1)
              (cinit ++ [1%Z]) ((cinit1 ++ [(cnt1 - 1)%Z]) ++ [1%Z]))
    as (counts1 & counts2 & C1 & C2 & LC2 & GC1 & GC2 & GCo); [lia|lia|lia|].
  rewrite C1. cbn [bind]. rewrite C2. cbn [bind].
  rewrite Ell, Ell1. cbn [bind].
  destruct (@setitem_two _ (_l_lasts s) j (j + 1) l1 l)
    as (ll1 & ll2 & LL1 & LL2 & LLen & GL1 & GL2 & GLo); [lia|lia|lia|].
  rewrite LL1. cbn [bind]. rewrite LL2. cbn [bind].
  eexists. split; [reflexivity|].
  unfold swapped, current_tree. cbn.
  split; [|split; [|split; [|split; [|split]]]]; try reflexivity.
  - exists t, t1, l, l1. rewrite El, El1, G1, G2. cbn [bind].
    rewrite getlast_app. rewrite (app_assoc init1 [t1] [t]).
    rewrite !getlast_app. repeat split; auto.
  - intros m Hm Hm1. split; [apply Go|apply GLo]; auto.
  - unfold well_shaped. cbn. repeat split; try lia.
    + eapply Forall_setitem; [|apply app_nonempty|exact S2].
      eapply Forall_setitem; [exact Fl| |exact S1].
      rewrite app_assoc. apply app_nonempty.
    + eapply Forall_setitem; [|apply app_nonempty|exact C2].
      eapply Forall_setitem; [exact Fc|apply app_nonempty|exact C1].
Qed.


Lemma exchange_draw (s : @state M G) :
  well_shaped s ->
  exists j g1,
    rng_choice (rng s) (range (_num_chains s - 1)) = Ok (j, g1) /\
    (j + 1 < _num_chains s)%nat.
Proof.
  intros W. destruct W as (Hn & _).
  unfold range.
  destruct (_num_chains s - 1)%nat as [|n] eqn:En; [lia|].
  cbn [seq].
  destruct (rng_choice_in (rng s) O (seq 1 n)) as [j [g1 [Ec Hin]]].
  exists j, g1. split; [exact Ec|].
  change (O :: seq 1 n) with (seq 0 (S n)) in Hin.
  apply in_seq in Hin. lia.
Qed.

Lemma exchange_attempt_spec (s : @state M G) j g1 l_j l_j1 beta_j beta_j1 :
  well_shaped s ->
  rng_choice (rng s) (range (_num_chains s - 1)) = Ok (j, g1) ->
  (j + 1 < _num_chains s)%nat ->
  getitem (_l_lasts s) j = Ok l_j ->
  getitem (_l_lasts s) (j + 1) = Ok l_j1 ->
  getitem (_beta_vec s) j = Ok beta_j ->
  getitem (_beta_vec s) (j + 1) = Ok beta_j1 ->
  let u := fst (rng_random g1) in
  ((u < swap_probability l_j l_j1 beta_j beta_j1)%R ->
   exists s', exchange_attempt s = Ok s' /\ swapped s s' j) /\
  (~ (u < swap_probability l_j l_j1 beta_j beta_j1)%R ->
   exists s', exchange_attempt s = Ok s' /\ not_swapped s s').
Proof.
  intros W Ec Hj Elj Elj1 Ebj Ebj1 u.
  pose proof (rng_random_range g1) as Hu. fold u in Hu.
  assert (Hexp : (l_j * beta_j1 + l_j1 * beta_j - (l_j * beta_j + l_j1 * beta_j1)
                  = swap_exponent l_j l_j1 beta_j beta_j1)%R).
  { unfold swap_exponent. ring. }
  unfold swap_probability. rewrite Hexp.
  unfold exchange_attempt. rewrite Ec. cbn [bind].
  destruct (rng_random g1) as [u' g2] eqn:Er. cbn [fst] in u. subst u.
  rewrite Elj, Ebj1, Elj1, Ebj. cbn [bind].
  split.
  - intros Hacc. apply below_exp_iff_below_min in Hacc; [|lra].
    rewrite (proj2 (ltb_true_iff _ _) Hacc).
    destruct (j =? _num_chains s - 2)%nat.
    + now apply swap_with_last_chain_spec.
    + now apply swap_tempered_chains_spec.
  - intros Hrej.
    assert (Hn : ~ (u' < exp (swap_exponent l_j l_j1 beta_j beta_j1))%R).
    { intros Hlt. apply Hrej. apply below_exp_iff_below_min; [lra|exact Hlt]. }
    rewrite (proj2 (ltb_false_iff _ _) Hn).
    eexists. split; [reflexivity|]. unfold not_swapped. cbn. auto 10.
Qed.

Lemma exchange_attempt_total (s : @state M G) :
  well_shaped s ->
  exists s', exchange_attempt s = Ok s' /\ well_shaped s' /\
             _beta_vec s' = _beta_vec s /\ _num_exchange s' = _num_exchange s.
Proof.
  intros W.
  destruct (exchange_draw W) as (j & g1 & Ec & Hj).
  destruct (@well_shaped_chain s j W) as
    (_ & _ & _ & _ & l_j & beta_j & _ & _ & Elj & Ebj); [lia|].
  destruct (@well_shaped_chain s (j + 1) W) as
    (_ & _ & _ & _ & l_j1 & beta_j1 & _ & _ & Elj1 & Ebj1); [lia|].
  destruct (exchange_attempt_spec W Ec Hj Elj Elj1 Ebj Ebj1) as [Hacc Hrej].
  destruct (Rlt_dec (fst (rng_random g1))
              (swap_probability l_j l_j1 beta_j beta_j1)) as [Hlt|Hge].
  - destruct (Hacc Hlt) as [s' [E (_ & _ & Hb & _ & Hx & W')]].
    exists s'. split; [exact E|]. split; [exact W'|]. split; [exact Hb|exact Hx].
  - destruct (Hrej Hge) as [s' [E (Hl & Hc & Hll & Hb & Hn & Hx)]].
    exists s'. split; [exact E|]. split; [|split; [exact Hb|exact Hx]].
    destruct W as (W1 & W2 & W3 & W4 & W5 & W6 & W7).
    unfold well_shaped. rewrite Hl, Hc, Hll, Hb, Hn. repeat split; auto.
Qed.

Lemma exchange_attempts_total : forall n (s : @state M G),
  well_shaped s ->
  exists s', repeatM n exchange_attempt s = Ok s' /\ well_shaped s' /\
             _beta_vec s' = _beta_vec s.
Proof.
  induction n as [|n IH]; intros s W; simpl.
  - exists s. auto.
  - destruct (exchange_attempt_total W) as [s1 (E1 & W1 & Hb1 & _)].
    rewrite E1. destruct (IH s1 W1) as [s' (E & W' & Hb)].
    exists s'. split; [exact E|]. split; [exact W'|]. now rewrite Hb.
Qed.

(** C6.  A round of replica exchange is [num_exchange] swap attempts.  On
    chains kept as the driver keeps them, every attempt draws [j] with
    [rng.choice(num_chains-1)], so that [(j, j+1)] is a pair of adjacent
    chains, and a uniform draw [u] of [0,1).  When [u] is below
    [min(1, exp((L_j*beta_{j+1} + L_{j+1}*beta_j) - (L_j*beta_j + L_{j+1}*beta_{j+1})))]
    the current trees and the stored log-likelihoods of the two chains are
    exchanged and nothing else of the chains' trees and log-likelihoods
    changes; otherwise the chains are left as they were.  Neither the
    attempts nor the round change [_beta_vec]. *)
Theorem replica_exchange_round (s : @state M G) :
  well_shaped s ->
  (* one attempt *)
  (exists j g1,
     rng_choice (rng s) (range (_num_chains s - 1)) = Ok (j, g1) /\
     (j + 1 < _num_chains s)%nat /\
     exists l_j l_j1 beta_j beta_j1,
       getitem (_l_lasts s) j = Ok l_j /\
       getitem (_l_lasts s) (j + 1) = Ok l_j1 /\
       getitem (_beta_vec s) j = Ok beta_j /\
       getitem (_beta_vec s) (j + 1) = Ok beta_j1 /\
       let u := fst (rng_random g1) in
       (0 <= u < 1)%R /\
       ((u < swap_probability l_j l_j1 beta_j beta_j1)%R ->
        exists s', exchange_attempt s = Ok s' /\ swapped s s' j) /\
       (~ (u < swap_probability l_j l_j1 beta_j beta_j1)%R ->
        exists s', exchange_attempt s = Ok s' /\ not_swapped s s')) /\
  (* the round *)
  _replica_exchange_memory_efficient s
  = repeatM (_num_exchange s) exchange_attempt
      (with_exchange_list s (append (_exchange_list s) (-1)%Z)) /\
  exists s', _replica_exchange_memory_efficient s = Ok s' /\
             _beta_vec s' = _beta_vec s /\ well_shaped s'.
Proof.
  intros W. split; [|split].
  - destruct (exchange_draw W) as (j & g1 & Ec & Hj).
    destruct (@well_shaped_chain s j W) as
      (_ & _ & _ & _ & l_j & beta_j & _ & _ & Elj & Ebj); [lia|].
    destruct (@well_shaped_chain s (j + 1) W) as
      (_ & _ & _ & _ & l_j1 & beta_j1 & _ & _ & Elj1 & Ebj1); [lia|].
    exists j, g1. split; [exact Ec|]. split; [exact Hj|].
    exists l_j, l_j1, beta_j, beta_j1.
    repeat (split; [assumption|]).
    split; [apply rng_random_range|].
    now apply exchange_attempt_spec.
  - reflexivity.
  - unfold _replica_exchange_memory_efficient.
    set (s0 := with_exchange_list s (append (_exchange_list s) (-1)%Z)).
    assert (W0 : well_shaped s0) by exact W.
    destruct (exchange_attempts_total (_num_exchange s0) W0)
      as [s' (E & W' & Hb)].
    exists s'. split; [exact E|]. split; [exact Hb|exact W'].
Qed.


(** *** The check of [beta_vec] *)

Lemma beta_out_of_range_iff (v : list R) :
  beta_out_of_range v = true <->
  exists x, In x v /\ (x < 0 \/ 1 < x)%R.
Proof.
  unfold beta_out_of_range. rewrite orb_true_iff, !existsb_exists. split.
  - intros [[x [Hin Hx]]|[x [Hin Hx]]]; apply ltb_true_iff in Hx; eauto.
  - intros [x [Hin [Hx|Hx]]]; [left|right]; exists x;
      (split; [exact Hin|now apply ltb_true_iff]).
Qed.

Lemma pos_int_ok v name n : pos_int v name = Ok n -> (1 <= n)%nat.
Proof.
  unfold pos_int. destruct (Z.ltb_spec 0 v); [|discriminate].
  intros E. inversion E; subst. lia.
Qed.

Lemma start_num_chains (data : dataset) (kw : kwargs) g nc n
  (roots : list (node M)) l_lasts :
  start self data kw = Ok (g, nc, n, roots, l_lasts) -> (1 <= n)%nat.
Proof.
  unfold start. intros E.
  destruct (check_uniform_configuration self) as [nc'|e]; cbn [bind] in E;
    [|discriminate].
  destruct (pos_int (num_chains kw) "num_chains") as [n'|e] eqn:En;
    cbn [bind] in E; [|discriminate].
  destruct (negb (supported_threshold_type (threshold_type kw)));
    [discriminate|].
  destruct (make_roots self (default_rng (seed kw)) (new_sub_model self) nc' n')
    as [[roots0 g1]|e]; cbn [bind] in E; [|discriminate].
  destruct (generate_initial self kw nc' data g1 roots0)
    as [[[roots1 ls] g2]|e]; cbn [bind] in E; [|discriminate].
  inversion E; subst. eapply pos_int_ok; eauto.
Qed.

(** The values [self._beta_vec] holds after the assignment of a vector that
    can be broadcast to the chains. *)
Lemma assign_beta_vec_broadcast n b :
  (1 <= n)%nat ->
  List.length b = n \/ List.length b = 1%nat ->
  exists v, assign_beta_vec (default_beta_vec n) b = Ok v /\
            forall x, In x v <-> In x b.
Proof.
  intros Hn Hlen. unfold assign_beta_vec, default_beta_vec, range.
  rewrite length_map, length_seq.
  destruct (Nat.eqb_spec (List.length b) n) as [He|Hne].
  - exists b. split; [reflexivity|tauto].
  - destruct Hlen as [Hl|Hl]; [contradiction|].
    destruct b as [|b0 [|b1 b]]; try discriminate.
    eexists. split; [reflexivity|]. intros x. rewrite in_map_iff. split.
    + intros [i [<- _]]. now left.
    + intros [<-|[]]. exists ((INR 0 + 1) / INR n)%R. split; [reflexivity|].
      apply in_map_iff. exists O. split; [reflexivity|].
      apply in_seq. lia.
Qed.

(** C10, as the code has it.  On more than one feature, once the entry
    checks before it passed and for a [beta_vec] that can be assigned to the
    chains (as many values as chains, or one value), the lines before the
    first loop raise the parameter format error of [beta_vec] exactly when a
    value lies outside [0,1], and the driver then ends with it.  No other
    property of [beta_vec] is checked: values of [0,1] are taken as given,
    in any order and whatever the last one is. *)
Theorem beta_vec_check (data : dataset) (kw : kwargs) (g : G)
  (num_children n : nat) (roots : list (node M)) (l_lasts b : list R) :
  start self data kw = Ok (g, num_children, n, roots, l_lasts) ->
  c_dim_features (consts self) <> 1%nat ->
  beta_vec kw = Some b ->
  List.length b = n \/ List.length b = 1%nat ->
  let out_of_range := exists x, In x b /\ (x < 0 \/ 1 < x)%R in
  (configure self kw g num_children n roots l_lasts
   = Raise (ParameterFormatError "beta_vec") <-> out_of_range) /\
  (out_of_range ->
   _REMTMCMC self data kw = Raise (ParameterFormatError "beta_vec")) /\
  (~ out_of_range ->
   exists v, set_beta_vec n (Some b) = Ok v /\ forall x, In x v <-> In x b).
Proof.
  intros Hstart Hf Hb Hlen out_of_range.
  pose proof (start_num_chains _ _ Hstart) as Hn.
  destruct (assign_beta_vec_broadcast b Hn Hlen) as [v [Ev Hv]].
  assert (Hout : beta_out_of_range v = true <-> out_of_range).
  { rewrite beta_out_of_range_iff. unfold out_of_range.
    split; intros [x [Hin Hx]]; exists x; (split; [now apply Hv|exact Hx]). }
  assert (Hconf : configure self kw g num_children n roots l_lasts
                  = Raise (ParameterFormatError "beta_vec") <-> out_of_range).
  { unfold configure, set_beta_vec. rewrite Hb, Ev. cbn [bind].
    destruct (beta_out_of_range v) eqn:Eo.
    - split; [intros _; now apply Hout|reflexivity].
    - cbn [bind]. split.
      + intros E.
        destruct (pos_int (num_interval kw) "num_interval") as [i|e] eqn:Ei;
          cbn [bind] in E.
        * destruct (pos_int (num_exchange kw) "num_exchange") as [x|e] eqn:Ex;
            cbn [bind] in E; [discriminate|].
          unfold pos_int in Ex. destruct (0 <? num_exchange kw)%Z;
            [discriminate Ex|]. inversion Ex; subst. discriminate E.
        * unfold pos_int in Ei. destruct (0 <? num_interval kw)%Z;
            [discriminate Ei|]. inversion Ei; subst. discriminate E.
      + intros Ho. apply Hout in Ho. discriminate. }
  split; [exact Hconf|]. split.
  - intros Ho. unfold _REMTMCMC. rewrite Hstart. cbn [bind].
    destruct (Nat.eqb_spec (c_dim_features (consts self)) 1) as [|_];
      [contradiction|].
    rewrite (proj2 Hconf Ho). reflexivity.
  - intros Hno. exists v. split; [|exact Hv].
    unfold set_beta_vec. rewrite Ev. cbn [bind].
    destruct (beta_out_of_range v) eqn:Eo; [|reflexivity].
    exfalso. apply Hno. now apply Hout.
Qed.

End WithInterfaces.
End REMTMCMCFacts.

(* ================================================================== *)
(** * The entry point: an [alg_type] outside the four names *)
(* ================================================================== *)

Module LearnerFacts.
Import PyFacts Learner.

Section WithInterfaces.

Context {M G : Type} `{SubModel M} `{Generator G} `{Seeding G}
  `{Proposal M G} `{Forest M}.

(** C2, what the code does.  [update_posterior] has no branch for an
    [alg_type] outside 'MTRF', 'given_MT', 'MTMCMC', 'REMTMCMC': once the
    sample passed [_check_sample] the call returns the learner as it was,
    having raised nothing and run no algorithm; the posterior ensemble
    ([hn_metatree_list], [hn_metatree_prob_vec]) is unchanged.  The only
    errors such a call can raise are those of [_check_sample]. *)
Theorem update_posterior_unsupported_alg_type (fuel : nat) (self : learner M)
  (data : dataset) (alg_type : string) (kw : kwargs) :
  supported_alg_type alg_type = false ->
  update_posterior fuel self data alg_type kw
  = match _check_sample self data with
    | Raise e => Finished (Raise e)
    | Ok _ => Finished (Ok self)
    end.
Proof.
  unfold supported_alg_type, update_posterior. intros Hs.
  repeat (apply orb_false_iff in Hs; destruct Hs as [Hs ?]).
  destruct (_check_sample self data) as [data'|e]; [|reflexivity].
  now repeat match goal with
             | Hx : (_ =? _)%string = false |- _ => rewrite Hx; clear Hx
             end.
Qed.

End WithInterfaces.
End LearnerFacts.

(* ================================================================== *)
(** * Runs on the small learner *)
(* ================================================================== *)

Module Runs.
Import PyFacts Example.

(** ** The compactor *)

Lemma leaves_differ : leaf_a <> leaf_b.
Proof. unfold leaf_a, leaf_b. intros E. inversion E. lra. Qed.

(** C1 fails as stated.  Two leaves are structurally equal; with the
    multiplicities 1 and 1 the specification's compactor keeps the first
    leaf with the probability 1, the code keeps the second one with the
    weight 2. *)
Lemma marge_keeps_the_later_tree_unnormalised :
  Compactor._marge_metatrees two_features [leaf_a; leaf_b] [1; 1]%R
  = Ok ([leaf_b], [2%R]) /\
  Compactor.spec_compact two_features [leaf_a; leaf_b] [1; 1]%R
  = ([leaf_a], [1%R]) /\
  Compactor._marge_metatrees two_features [leaf_a; leaf_b] [1; 1]%R
  <> Ok (Compactor.spec_compact two_features [leaf_a; leaf_b] [1; 1]%R).
Proof.
  assert (Hcode : Compactor._marge_metatrees two_features [leaf_a; leaf_b]
                    [1; 1]%R = Ok ([leaf_b], [2%R])).
  { rewrite CompactorFacts.marge_refines;
      [|reflexivity|repeat constructor; lra].
    cbn. replace (1 + 1)%R with 2%R by lra. reflexivity. }
  assert (Hspec : Compactor.spec_compact two_features [leaf_a; leaf_b]
                    [1; 1]%R = ([leaf_a], [1%R])).
  { unfold Compactor.spec_compact. cbn. unfold Compactor.spec_normalise.
    cbn. do 2 f_equal. lra. }
  split; [exact Hcode|]. split; [exact Hspec|].
  rewrite Hcode, Hspec. intros E. inversion E. lra.
Qed.

Lemma marge_retains_later_tree_witness :
  List.length [1 / 4; 1 / 2; 1 / 4]%R = List.length [leaf_a; stump; leaf_b] /\
  Forall (fun p => (0 <= p)%R) [1 / 4; 1 / 2; 1 / 4]%R /\
  Compactor._marge_metatrees two_features [leaf_a; stump; leaf_b]
    [1 / 4; 1 / 2; 1 / 4]%R
  = Compactor.merge_into_later two_features [leaf_a; stump; leaf_b]
      [1 / 4; 1 / 2; 1 / 4]%R.
Proof.
  assert (Hpos : Forall (fun p => (0 <= p)%R) [1 / 4; 1 / 2; 1 / 4]%R)
    by (repeat constructor; lra).
  split; [reflexivity|]. split; [exact Hpos|].
  exact (proj1 (@CompactorFacts.marge_retains_later_tree R two_features
                  [leaf_a; stump; leaf_b] [1 / 4; 1 / 2; 1 / 4]%R eq_refl Hpos)).
Defined.

Lemma compactor_sums_to_one_witness :
  exists ots ops,
    Compactor._marge_metatrees two_features [leaf_a; stump; leaf_b]
      [1 / 4; 1 / 2; 1 / 4]%R = Ok (ots, ops) /\
    Np.sum ops = 1%R /\
    List.length ops = List.length ots /\
    ForallOrdPairs (fun earlier later =>
                      ~ Compactor.spec_structurally_equal two_features
                          earlier later) ots.
Proof.
  apply (@CompactorFacts.compactor_sums_to_one_without_duplicates R
           two_features [leaf_a; stump; leaf_b] [1 / 4; 1 / 2; 1 / 4]%R).
  - reflexivity.
  - reflexivity.
  - repeat constructor; lra.
  - cbn. lra.
Defined.

(** *** Two trees of the output that are structurally equal *)

Lemma middle_thresholds_not_close :
  Np.isclose (1 + 10010005 / 1000000000000) 1 = false.
Proof.
  unfold Np.isclose, Np.leb, Np.atol, Np.rtol.
  destruct (Rle_dec _ _) as [Hle|]; [|reflexivity].
  rewrite (Rabs_pos_eq 1) in Hle by lra.
  rewrite Rabs_pos_eq in Hle by lra. lra.
Qed.

Lemma compare_hi_lo :
  Compactor._compare_metatree_recursion two_features stump_hi stump_lo
  = Ok false.
Proof.
  unfold stump_hi, stump_lo.
  cbn [Compactor._compare_metatree_recursion leaf k thresholds children
       Compactor.k_differs two_features c_dim_continuous Nat.ltb Nat.leb
       Nat.eqb negb Np.allclose].
  rewrite middle_thresholds_not_close.
  rewrite Bool.andb_false_l, Bool.andb_false_r. reflexivity.
Qed.

Lemma close_lo_hi :
  Compactor.numerically_close [0; 1; 2]%R
    [0; 1 + 10010005 / 1000000000000; 2]%R.
Proof.
  unfold Compactor.numerically_close, Np.atol, Np.rtol.
  repeat (apply Forall2_cons); try apply Forall2_nil.
  - rewrite Rminus_diag, Rabs_R0. lra.
  - rewrite (Rabs_pos_eq (1 + 10010005 / 1000000000000)) by lra.
    rewrite Rabs_left by lra. lra.
  - rewrite Rminus_diag, Rabs_R0. rewrite Rabs_pos_eq by lra. lra.
Qed.

(** C8 fails as stated.  Of two stumps of the continuous feature whose
    middle thresholds are [1 + 1.0010005e-5] and [1], with the weights
    [1/2] and [1/2], the compactor keeps both: the thresholds of the first
    are not close to those of the second.  Those of the second are close
    to those of the first: the second tree is structurally equal to the
    first, and both are in the output. *)
Lemma compactor_keeps_two_structurally_equal_trees :
  Np.sum [1 / 2; 1 / 2]%R = 1%R /\
  Compactor._marge_metatrees two_features [stump_hi; stump_lo]
    [1 / 2; 1 / 2]%R
  = Ok ([stump_hi; stump_lo], [1 / 2; 1 / 2]%R) /\
  Compactor.spec_structurally_equal two_features stump_lo stump_hi /\
  ~ (forall ots ops,
       Compactor._marge_metatrees two_features [stump_hi; stump_lo]
         [1 / 2; 1 / 2]%R = Ok (ots, ops) ->
       forall a b, In a ots -> In b ots -> a <> b ->
         ~ Compactor.spec_structurally_equal two_features a b).
Proof.
  assert (Hrun : Compactor._marge_metatrees two_features
                   [stump_hi; stump_lo] [1 / 2; 1 / 2]%R
                 = Ok ([stump_hi; stump_lo], [1 / 2; 1 / 2]%R)).
  { rewrite CompactorFacts.marge_refines;
      [|reflexivity|repeat constructor; lra].
    cbn [Compactor.merge_into_later Compactor.first_equal].
    rewrite compare_hi_lo. reflexivity. }
  assert (Heq : Compactor.spec_structurally_equal two_features
                  stump_lo stump_hi).
  { apply Compactor.equal_splits with (kk := 0%nat) (nc := 2%nat);
      try reflexivity.
    - intros _. do 2 eexists. split; [reflexivity|].
      split; [reflexivity|exact close_lo_hi].
    - cbn [firstn children stump_lo stump_hi].
      repeat (apply Forall2_cons; [now apply Compactor.equal_leaves|]).
      apply Forall2_nil. }
  split; [cbn; lra|]. split; [exact Hrun|]. split; [exact Heq|].
  intros Hno.
  apply (Hno _ _ Hrun stump_lo stump_hi).
  - right. left. reflexivity.
  - left. reflexivity.
  - intros E. inversion E. lra.
  - exact Heq.
Qed.

(** ** The recursion *)

Lemma inner_node_mixture_witness :
  leaf stump = false /\
  Recursion.well_formed two_features stump = true /\
  forallb (Recursion.well_formed_row two_features) two_rows = true /\
  exists total n',
    Recursion._update_posterior_recursion_batch two_features stump two_rows
    = Ok (total, n') /\
    h_g n' = exp (log (h_g stump)
                  + Np.sum (map (Recursion.child_contribution two_features
                                   stump two_rows)
                              (range (Recursion.num_children two_features stump)))
                  - total).
Proof.
  split; [reflexivity|]. split; [reflexivity|]. split; [reflexivity|].
  assert (Hh01 : (0 <= h_g stump <= 1)%R) by (cbn; lra).
  destruct (@RecursionFacts.inner_node_mixture R sum_model two_features stump
              two_rows eq_refl Hh01 eq_refl eq_refl)
    as (total & n' & E & _ & _ & _ & _ & _ & _ & Hin).
  exists total, n'. split; [exact E|].
  apply Hin. cbn. lra.
Defined.

(** ** The entry point *)

Lemma update_posterior_unsupported_alg_type_witness :
  Learner.supported_alg_type "MCMC" = false /\
  @Learner.update_posterior R unit sum_model half_generator unit_seeding
    (diverge_at_root (1 / 2) 0) stump_forest 0 learner_two_features two_rows
    "MCMC" no_kwargs
  = Finished (Ok learner_two_features).
Proof.
  split; [reflexivity|].
  rewrite (@LearnerFacts.update_posterior_unsupported_alg_type R unit
             sum_model half_generator unit_seeding (diverge_at_root (1 / 2) 0)
             stump_forest 0 learner_two_features two_rows "MCMC" no_kwargs
             eq_refl).
  reflexivity.
Defined.


(** ** The Metropolis-Hastings driver on two features *)

Import Chain MTMCMC MTMCMCFacts.

Lemma isclose_refl x : isclose x x = true.
Proof.
  unfold isclose, leb.
  destruct (Rle_dec (Rabs (x - x)) (atol + rtol * Rabs x)) as [|Hn];
    [reflexivity|].
  exfalso. apply Hn. replace (x - x)%R with 0%R by ring. rewrite Rabs_R0.
  pose proof (Rabs_pos x). unfold atol, rtol. nra.
Qed.

Lemma check_two_features :
  check_uniform_configuration learner_two_features = Ok 2%nat.
Proof.
  unfold check_uniform_configuration, allclose_first. cbn.
  now rewrite isclose_refl.
Qed.

Lemma check_one_feature :
  check_uniform_configuration learner_one_feature = Ok 2%nat.
Proof.
  unfold check_uniform_configuration, allclose_first. cbn.
  now rewrite isclose_refl.
Qed.

Section Toy.

Variables h l : R.

Local Abbreviation kernel := (diverge_at_root h l).
Local Abbreviation toy_state := (@state R unit).
Local Abbreviation toy_propose :=
  (@propose R unit half_generator kernel learner_two_features).
Local Abbreviation toy_step :=
  (@_mh_step_truncated R unit half_generator kernel learner_two_features).
Local Abbreviation toy_burn_in_step :=
  (@burn_in_step R unit half_generator kernel learner_two_features two_rows).

Lemma start_two_features (kw : kwargs) :
  supported_threshold_type (threshold_type kw) = true ->
  @start R unit half_generator unit_seeding kernel learner_two_features
    two_rows kw
  = Ok (tt, 2%nat, root0, 0%R).
Proof.
  intros Ht. unfold start. rewrite check_two_features. cbn [bind].
  rewrite Ht. reflexivity.
Qed.

Lemma calc_marked (g : R) (nc : nat) (n : node R) kk x :
  k n = Some kk ->
  _calc_truncated_posterior_lean g nc (mark n x (Some false))
  = Ok (log (1 - Rmin x g)).
Proof.
  intros Hk. unfold mark. cbn [_calc_truncated_posterior_lean].
  now rewrite Hk.
Qed.

Lemma toy_propose_spec (s : toy_state) trees last kk :
  _tmp_metatree_list s = trees ++ [last] -> k last = Some kk ->
  toy_propose s two_rows = Ok (toy_candidate h l s trees last).
Proof.
  intros Hl Hk. unfold propose, fresh_root. cbn [_root_k_candidates
    learner_two_features rng_choice half_generator first_choice bind hn_g].
  rewrite Hl, getlast_app. cbn [bind _generate_truncated_and_update
    diverge_at_root].
  rewrite setlast_app. cbn [bind].
  rewrite (@calc_marked _ _ _ 0%nat) by reflexivity. cbn [bind].
  rewrite getlast_app. cbn [bind].
  rewrite (@calc_marked _ _ _ kk) by exact Hk. cbn [bind].
  reflexivity.
Qed.

End Toy.

(** *** The real numbers of the runs *)

Lemma exp_minus_one_below_half : (exp (-1) < 1 / 2)%R.
Proof.
  replace (-1)%R with (Ropp 1) by lra. rewrite exp_Ropp.
  assert (H2 : (2 < exp 1)%R) by (pose proof (exp_ineq1 1); lra).
  pose proof (Rinv_0_lt_compat (exp 1)) as Hi.
  assert (He : (exp 1 * / exp 1 = 1)%R) by (field; lra).
  nra.
Qed.

(** *** A step that accepts *)

Local Abbreviation s_ceiling :=
  (@initial_state R unit learner_two_features ceiling_one tt 2 root0 0).

Lemma propose_at_ceiling :
  @propose R unit half_generator (diverge_at_root (1 / 2) 1)
    learner_two_features s_ceiling two_rows
  = Ok (toy_candidate (1 / 2) 1 s_ceiling [] root0).
Proof. now apply (@toy_propose_spec (1 / 2) 1 s_ceiling [] root0 0%nat). Qed.


(** *** Runs in which every candidate is rejected *)

Local Abbreviation refusing := (diverge_at_root (1 / 2) (-1)).

Lemma rejecting_step (s : @state R unit) :
  rejecting s ->
  exists s',
    @_mh_step_truncated R unit half_generator refusing learner_two_features
      s two_rows = Ok s' /\
    rejecting s'.
Proof.
  intros ([t (Hl & Hk & Hh)] & [c Hc] & Hll & Hn & Ha).
  pose proof (@toy_propose_spec (1 / 2) (-1) s [] t 0%nat Hl Hk) as Hp.
  rewrite (mh_step_rejects _ _ _ Hp).
  - destruct (@reject_total R unit s (toy_candidate (1 / 2) (-1) s [] t)
                (snd (rng_random (cand_rng
                                    (toy_candidate (1 / 2) (-1) s [] t)))))
      as [s' Es']; [rewrite Hc; discriminate|].
    exists s'. split; [exact Es'|].
    pose proof Es' as Ee. apply reject_effect in Ee.
    destruct Ee as (El & En & _ & Ell & Ea & _).
    pose proof Es' as Ee. apply reject_spec in Ee.
    destruct Ee as (_ & counts & count & Hc1 & Hc2).
    split; [|split; [|split; [|split]]].
    + exists (mark t (h_g t) (Some false)). split; [exact El|].
      split; [exact Hk|exact Hh].
    + rewrite Hc in Hc1. destruct counts as [|x [|y counts]].
      * exists (count + 1)%Z. exact Hc2.
      * discriminate Hc1.
      * discriminate Hc1.
    + now rewrite Ell.
    + rewrite En, Hn. ring.
    + now rewrite Ea.
  - cbn [toy_candidate cand_l_new cand_t_new cand_t_last cand_rng].
    rewrite Hh, Hll.
    replace (-1 - log (1 - Rmin (1 / 2) (_g_max s)) - 0
             + log (1 - Rmin (1 / 2) (_g_max s)))%R with (-1)%R by ring.
    pose proof exp_minus_one_below_half. cbn. lra.
Qed.

Lemma rejecting_steps : forall n (s : @state R unit),
  rejecting s ->
  exists s',
    repeatM n (fun s => @_mh_step_truncated R unit half_generator refusing
                          learner_two_features s two_rows) s = Ok s' /\
    rejecting s'.
Proof.
  induction n as [|n IH]; intros s Hs.
  - exists s. split; [reflexivity|exact Hs].
  - destruct (rejecting_step Hs) as (s1 & E1 & Hs1).
    destruct (IH s1 Hs1) as (s' & E' & Hs').
    exists s'. split; [|exact Hs']. cbn [repeatM]. now rewrite E1.
Qed.

(** A pass of the burn-in loop from such a state. *)
Lemma rejecting_burn_in_step (s : @state R unit) :
  rejecting s ->
  (_denominator s * _rho s + 1 <> 0)%R -> (0 <= _p_obj s)%R ->
  (_g_max_denominator s * _phi s + 1 <> 0)%R ->
  exists s',
    @burn_in_step R unit half_generator refusing learner_two_features
      two_rows s = Ok s' /\
    rejecting s' /\
    _denominator s' = (_denominator s * _rho s + 1)%R /\
    _g_max_accumulated s'
    = (_g_max_accumulated s * _phi s
       + (1 - (1 - _g_max s) * (1 - _p_obj s)))%R /\
    _g_max_denominator s' = (_g_max_denominator s * _phi s + 1)%R /\
    _g_max s' = (_g_max_accumulated s' / _g_max_denominator s')%R /\
    _rho s' = _rho s /\ _phi s' = _phi s /\ _p_obj s' = _p_obj s.
Proof.
  intros Hs Hd Hp Hg.
  destruct (rejecting_step Hs) as (s1 & E1 & Hs1).
  destruct (mh_step_effect _ _ _ E1)
    as (Er & Ephi & Ep & Eg & _ & Egd & Ega & Ed & _).
  destruct Hs1 as (Ht1 & Hc1 & Hl1 & Hn1 & Ha1).
  destruct (@update_g_max_no_acceptance R unit s1) as
    (s2 & E2 & Eacc & Eden & Egm & _ & Er2 & Ephi2 & Ep2 & En2 & Ed2 & Et2
        & Ec2 & El2 & Ea2 & _).
  - exact Hn1.
  - rewrite Ed. exact Hd.
  - rewrite Ep. exact Hp.
  - rewrite Egd, Ephi. exact Hg.
  - exists s2. split; [unfold burn_in_step; rewrite E1; exact E2|].
    split.
    { unfold rejecting. rewrite Et2, Ec2, El2, En2, Ea2. auto. }
    rewrite Ed2, Ed, Er2, Ephi2, Ep2, Egm, Eacc, Eden.
    rewrite Ega, Egd, Ephi, Eg, Ep, Er. auto 10.
Qed.

Lemma rejecting_initial_state (kw : kwargs) :
  rejecting (@initial_state R unit learner_two_features kw tt 2 root0 0).
Proof.
  unfold rejecting. cbn. split; [eauto|]. split; [eauto|].
  split; [reflexivity|]. split; [ring|reflexivity].
Qed.

(** *** The tuner with a negative [phi] *)

Local Abbreviation s_negative_phi :=
  (@initial_state R unit learner_two_features negative_phi tt 2 root0 0).

(** Why the decay [phi] must not be negative: with [g_max = 0],
    [p_obj = 0.9], [rho = 0.99] and [phi = -0.5], which is no decay, two
    passes of the burn-in loop that both reject leave [g_max = 27/25]: the
    first pass gives [0.9 / 1], the second
    [(0.9 * (-0.5) + 0.99) / (1 * (-0.5) + 1)]. *)
Lemma negative_phi_takes_g_max_above_one :
  (0 <= g_max negative_phi <= 1)%R /\ (0 < p_obj negative_phi < 1)%R /\
  exists s,
    repeatM 2 (@burn_in_step R unit half_generator refusing
                 learner_two_features two_rows) s_negative_phi = Ok s /\
    _g_max s = (27 / 25)%R /\ ~ (_g_max s <= 1)%R.
Proof.
  split; [cbn; lra|]. split; [cbn; lra|].
  destruct (@rejecting_burn_in_step s_negative_phi)
    as (s1 & E1 & Hs1 & Ed1 & Ea1 & Eg1 & Em1 & Er1 & Ephi1 & Ep1).
  { apply rejecting_initial_state. }
  { cbn. lra. }
  { cbn. lra. }
  { cbn. lra. }
  cbn in Ed1, Ea1, Eg1, Er1, Ephi1, Ep1.
  assert (Hd1 : _denominator s1 = 1%R) by (rewrite Ed1; lra).
  assert (Ha1 : _g_max_accumulated s1 = (9 / 10)%R) by (rewrite Ea1; lra).
  assert (Hg1 : _g_max_denominator s1 = 1%R) by (rewrite Eg1; lra).
  assert (Hm1 : _g_max s1 = (9 / 10)%R) by (rewrite Em1, Ha1, Hg1; lra).
  destruct (@rejecting_burn_in_step s1)
    as (s2 & E2 & Hs2 & Ed2 & Ea2 & Eg2 & Em2 & _).
  { exact Hs1. }
  { rewrite Hd1, Er1. lra. }
  { rewrite Ep1. lra. }
  { rewrite Hg1, Ephi1. lra. }
  rewrite Ha1, Hm1, Ephi1, Ep1 in Ea2. rewrite Hg1, Ephi1 in Eg2.
  assert (Ha2 : _g_max_accumulated s2 = (54 / 100)%R) by (rewrite Ea2; lra).
  assert (Hg2 : _g_max_denominator s2 = (1 / 2)%R) by (rewrite Eg2; lra).
  assert (Hm2 : _g_max s2 = (27 / 25)%R) by (rewrite Em2, Ha2, Hg2; lra).
  exists s2. split; [|split; [exact Hm2|rewrite Hm2; lra]].
  cbn [repeatM]. rewrite E1, E2. reflexivity.
Qed.

(** The tuner on the defaults, after one pass of the burn-in loop. *)
Lemma tuner_keeps_g_max_in_unit_interval_witness :
  exists s,
    repeatM 1 (@burn_in_step R unit half_generator refusing
                 learner_two_features two_rows)
      (@initial_state R unit learner_two_features mtmcmc_defaults tt 2 root0 0)
    = Ok s /\
    (0 <= _g_max s <= 1)%R.
Proof.
  destruct (@rejecting_burn_in_step
              (@initial_state R unit learner_two_features mtmcmc_defaults tt 2
                 root0 0))
    as (s1 & E1 & _).
  { apply rejecting_initial_state. }
  { cbn. lra. }
  { cbn. lra. }
  { cbn. lra. }
  assert (E : repeatM 1 (@burn_in_step R unit half_generator refusing
                           learner_two_features two_rows)
                (@initial_state R unit learner_two_features mtmcmc_defaults
                   tt 2 root0 0) = Ok s1).
  { cbn [repeatM]. now rewrite E1. }
  exists s1. split; [exact E|].
  refine (proj1 (@tuner_keeps_g_max_in_unit_interval R unit half_generator
                   refusing learner_two_features mtmcmc_defaults tt 2 root0 0
                   two_rows 1 s1 _ _ _ E)); cbn; lra.
Defined.

(** *** The number of steps of a run *)

Lemma set_last_count_rejecting (s : @state R unit) :
  rejecting s -> exists s', set_last_count s 1 = Ok s' /\ rejecting s'.
Proof.
  intros (Ht & [c Hc] & Hl & Hn & Ha). unfold set_last_count.
  rewrite Hc. cbn. eexists. split; [reflexivity|].
  unfold rejecting. cbn. eauto 10.
Qed.

Lemma output_rejecting (s : @state R unit) :
  rejecting s -> exists r, output learner_two_features s 0 = Ok r.
Proof.
  intros ([t (Ht & _)] & [c Hc] & _). unfold output. rewrite Ht, Hc.
  cbn. eexists. reflexivity.
Qed.

Local Abbreviation s_short_run :=
  (@initial_state R unit learner_two_features short_run tt 2 root0 0).

Lemma short_run_of_steps :
  exists s r,
    @run_of_steps R unit half_generator refusing learner_two_features
      two_rows short_run s_short_run = Ok (Some s, r).
Proof.
  destruct (@rejecting_burn_in_step s_short_run) as (s1 & E1 & Hs1 & _).
  { apply rejecting_initial_state. }
  { cbn. lra. }
  { cbn. lra. }
  { cbn. lra. }
  destruct (set_last_count_rejecting Hs1) as (s2 & E2 & Hs2).
  destruct (rejecting_steps 1 Hs2) as (s3 & E3 & Hs3).
  destruct (output_rejecting Hs3) as [r Er].
  exists s3, r. unfold run_of_steps.
  change (Z.to_nat (burn_in short_run - 1)) with 1%nat.
  change (Z.to_nat (num_metatrees short_run)) with 1%nat.
  cbn [repeatM] in *. rewrite E1. cbn [bind]. rewrite E2. cbn [bind].
  rewrite E3. cbn [bind].
  destruct Hs1 as (_ & _ & _ & _ & Ha1). rewrite Ha1.
  change (1 - 1)%Z with 0%Z. rewrite Er. reflexivity.
Qed.

(** C9 on [burn_in=2, num_metatrees=1]: the run ends normally after two
    Metropolis-Hastings steps, one in each loop (every step appends one
    value to [_l_list]), and not after [burn_in + num_metatrees = 3]. *)
Lemma mtmcmc_runs_one_step_less_than_the_budget :
  (burn_in short_run + num_metatrees short_run = 3)%Z /\
  exists s r,
    @_MTMCMC R unit half_generator unit_seeding refusing learner_two_features
      3 two_rows short_run = Finished (Ok (Some s, r)) /\
    List.length (_l_list s) = 2%nat /\
    List.length (_g_list s) = 1%nat.
Proof.
  split; [reflexivity|].
  destruct short_run_of_steps as (s & r & E).
  exists s, r.
  assert (Hne : c_dim_features (consts learner_two_features) <> 1%nat)
    by (cbn; discriminate).
  split.
  - rewrite (@mtmcmc_run R unit half_generator unit_seeding refusing
               learner_two_features 3 two_rows short_run tt 2 root0 0
               (@start_two_features (1 / 2) (-1) short_run eq_refl) Hne);
      [now rewrite E|cbn; lia|cbn; lia|cbn; lia].
  - apply mtmcmc_run_effect in E; [|reflexivity|reflexivity|reflexivity
                                    |cbn; lia|cbn; lia].
    destruct E as (_ & Hl & Hg). cbn in Hl, Hg. split; lia.
Qed.

(** The run on [burn_in=2, num_metatrees=1], loop by loop. *)
Lemma mtmcmc_iteration_budget_witness :
  @_MTMCMC R unit half_generator unit_seeding refusing learner_two_features
    3 two_rows short_run
  = Finished (@run_of_steps R unit half_generator refusing
                learner_two_features two_rows short_run s_short_run).
Proof.
  refine (proj1 (@mtmcmc_iteration_budget R unit half_generator unit_seeding
                   refusing learner_two_features 3 two_rows short_run tt 2
                   root0 0 (@start_two_features (1 / 2) (-1) short_run eq_refl)
                   _ _ _ _)).
  - cbn. discriminate.
  - cbn. lia.
  - cbn. lia.
  - cbn. lia.
Defined.

(** ** The replica-exchange driver *)

Lemma remtmcmc_check_one_feature :
  @REMTMCMC._REMTMCMC R unit half_generator unit_seeding refusing
    learner_one_feature two_rows_one_feature beta_two
  = Ok (None, ([root0], [1%R])).
Proof.
  unfold REMTMCMC._REMTMCMC, REMTMCMC.start. rewrite check_one_feature.
  reflexivity.
Qed.

(** C10 at two inputs with a value of [beta_vec] above [1].  On one feature
    with [beta_vec = [2.0]] the driver returns the initial tree with weight
    [1] and raises nothing: it returns before the lines that check
    [beta_vec].  On two features and two chains with
    [beta_vec = [0.5, 0.7, 2.0]] the assignment
    [self._beta_vec[:] = beta_vec] raises [ValueError] before the check is
    reached, so that the error is not the parameter format error. *)
Lemma beta_vec_above_one_without_parameter_format_error :
  (REMTMCMC.beta_vec beta_two = Some [2%R] /\ (1 < 2)%R /\
   @REMTMCMC._REMTMCMC R unit half_generator unit_seeding refusing
     learner_one_feature two_rows_one_feature beta_two
   = Ok (None, ([root0], [1%R]))) /\
  (REMTMCMC.beta_vec beta_three = Some [1 / 2; 7 / 10; 2]%R /\
   @REMTMCMC._REMTMCMC R unit half_generator unit_seeding refusing
     learner_two_features two_rows beta_three
   = Raise ValueError).
Proof.
  split.
  - split; [reflexivity|]. split; [lra|exact remtmcmc_check_one_feature].
  - split; [reflexivity|].
    unfold REMTMCMC._REMTMCMC, REMTMCMC.start. rewrite check_two_features.
    reflexivity.
Qed.

Lemma remtmcmc_start_two_features :
  @REMTMCMC.start R unit half_generator unit_seeding refusing
    learner_two_features two_rows beta_half_two
  = Ok (tt, 2%nat, 2%nat, [root0; root0], [0%R; 0%R]).
Proof.
  unfold REMTMCMC.start. rewrite check_two_features. reflexivity.
Qed.

(** On two features, [beta_vec = [0.5, 2.0]] ends the driver with the
    parameter format error. *)
Lemma beta_vec_check_witness :
  @REMTMCMC._REMTMCMC R unit half_generator unit_seeding refusing
    learner_two_features two_rows beta_half_two
  = Raise (ParameterFormatError "beta_vec").
Proof.
  refine (proj1 (proj2 (@REMTMCMCFacts.beta_vec_check R unit half_generator
                          unit_seeding refusing learner_two_features two_rows
                          beta_half_two tt 2 2 [root0; root0] [0%R; 0%R]
                          [1 / 2; 2]%R remtmcmc_start_two_features _ eq_refl
                          (or_introl eq_refl))) _).
  - cbn. discriminate.
  - exists 2%R. split; [right; left; reflexivity|right; lra].
Defined.

Lemma two_chains_well_shaped : REMTMCMC.well_shaped two_chains.
Proof.
  unfold REMTMCMC.well_shaped. cbn.
  repeat (split; [solve [lia | reflexivity]|]).
  split; repeat constructor; discriminate.
Qed.

(** A round of four attempts on two chains raises nothing and leaves the
    inverse temperatures [[1/2, 1]]. *)
Lemma replica_exchange_round_witness :
  exists s',
    @REMTMCMC._replica_exchange_memory_efficient R unit half_generator
      two_chains = Ok s' /\
    REMTMCMC._beta_vec s' = [1 / 2; 1]%R.
Proof.
  destruct (proj2 (proj2 (@REMTMCMCFacts.replica_exchange_round R unit
                            half_generator two_chains
                            two_chains_well_shaped)))
    as (s' & E & Hb & _).
  exists s'. split; [exact E|exact Hb].
Defined.

End Runs.

(* ================================================================== *)
(** * More on the comparison and the compactor *)
(* ================================================================== *)

Module CompactorShape.

Import PyFacts Compactor CompactorFacts Shape.

Section WithConstants.
Context {M : Type}.
Variable c : constants.

Local Abbreviation compare := (@_compare_metatree_recursion M c).

Lemma isclose_same x : isclose x x = true.
Proof.
  unfold isclose, leb.
  destruct (Rle_dec (Rabs (x - x)) (atol + rtol * Rabs x)) as [|Hn];
    [reflexivity|].
  exfalso. apply Hn. replace (x - x)%R with 0%R by ring. rewrite Rabs_R0.
  pose proof (Rabs_pos x). unfold atol, rtol. nra.
Qed.

Lemma allclose_same : forall t : list R, allclose t t = Ok true.
Proof.
  induction t as [|x t IH]; simpl; [reflexivity|].
  now rewrite IH, isclose_same.
Qed.

Lemma compare_children_same (cs : list (node M)) :
  Forall (fun child => well_formed c child = true ->
                       compare child child = Ok true) cs ->
  forallb (well_formed c) cs = true ->
  forall n, (n <= List.length cs)%nat ->
    compare_children compare cs cs n = Ok true.
Proof.
  induction 1 as [|child cs Hchild _ IH]; intros W n Hn.
  - destruct n; [reflexivity|simpl in Hn; lia].
  - destruct n as [|n]; [reflexivity|].
    simpl in W. apply andb_true_iff in W. destruct W as [Wc W].
    cbn [compare_children]. rewrite (Hchild Wc).
    apply IH; [exact W|simpl in Hn; lia].
Qed.

(** The comparison finds every well-formed tree equal to itself: whatever
    [h_g], the sub-models and the likelihoods are, a tree that occurs twice
    in a list is a duplicate for the compactor. *)
Theorem compare_metatree_reflexive (n : node M) :
  well_formed c n = true -> compare n n = Ok true.
Proof.
  induction n as [d k0 h th lf df sm lml lcml cs IH] using node_induction.
  intros W. cbn [_compare_metatree_recursion leaf k thresholds children].
  cbn [well_formed] in W.
  destruct lf; [reflexivity|]. cbn [orb] in W.
  destruct k0 as [kk|]; [|discriminate].
  destruct (nth_error (c_num_children_vec c) kk) as [nc|] eqn:E;
    [|discriminate].
  apply andb_true_iff in W. destruct W as [W Wcs].
  apply andb_true_iff in W. destruct W as [Wth Wl].
  apply Nat.leb_le in Wl.
  assert (Hget : getitem (c_num_children_vec c) kk = Ok nc).
  { unfold getitem. now rewrite E. }
  unfold k_differs. rewrite Nat.eqb_refl. cbn [negb].
  destruct (kk <? c_dim_continuous c)%nat.
  - destruct th as [t|]; [|discriminate].
    rewrite allclose_same. cbn [bind negb]. rewrite Hget. cbn [bind].
    now apply compare_children_same.
  - rewrite Hget. cbn [bind]. now apply compare_children_same.
Qed.

(** *** Lists without duplicates *)

Lemma first_equal_none_of (t : node M) ts :
  Forall (fun t' => compare t t' = Ok false) ts ->
  first_equal c t ts = Ok None.
Proof.
  induction 1 as [|t' ts Ht _ IH]; [reflexivity|].
  cbn [first_equal]. rewrite Ht. cbn [bind]. now rewrite IH.
Qed.

Lemma merge_into_later_fixed : forall (ts : list (node M)) ps,
  no_two_structurally_equal c ts ->
  List.length ps = List.length ts ->
  merge_into_later c ts ps = Ok (ts, ps).
Proof.
  induction ts as [|t ts IH]; intros ps Hno Hlen.
  - destruct ps; [reflexivity|discriminate].
  - destruct ps as [|p ps]; [discriminate|].
    inversion Hno as [|t0 ts0 Ht Hrest]; subst.
    cbn [merge_into_later]. rewrite (@first_equal_none_of t ts Ht). cbn [bind].
    rewrite IH; [reflexivity|exact Hrest|simpl in Hlen; lia].
Qed.

Lemma merge_into_later_nonneg : forall (ts : list (node M)) ps ots ops,
  Forall (fun p => (0 <= p)%R) ps ->
  merge_into_later c ts ps = Ok (ots, ops) ->
  Forall (fun p => (0 <= p)%R) ops.
Proof.
  induction ts as [|t ts IH]; intros ps ots ops Hpos E.
  - simpl in E. inversion E; subst. constructor.
  - destruct ps as [|p ps]; [discriminate|].
    inversion Hpos as [|p0 ps0 Hp Hps]; subst.
    cbn [merge_into_later] in E.
    destruct (first_equal c t ts) as [[j|]|e]; cbn [bind] in E;
      [| |discriminate].
    + eapply IH; [|exact E]. now apply add_at_nonneg.
    + destruct (merge_into_later c ts ps) as [[ots' ops']|e] eqn:E';
        cbn [bind] in E; [|discriminate].
      inversion E; subst. constructor; [exact Hp|].
      eapply IH; [exact Hps|exact E'].
Qed.

(** Compacting twice is compacting once: on the trees and weights (none
    negative) the compactor returned, it returns the same trees with the
    same weights. *)
Theorem marge_metatrees_idempotent (ts : list (node M)) (ps : list R)
  (ots : list (node M)) (ops : list R) :
  List.length ps = List.length ts ->
  Forall (fun p => (0 <= p)%R) ps ->
  _marge_metatrees c ts ps = Ok (ots, ops) ->
  _marge_metatrees c ots ops = Ok (ots, ops).
Proof.
  intros Hlen Hpos E. rewrite marge_refines in E by assumption.
  destruct (merge_into_later_sum c ts ps Hlen E) as [_ Hl].
  rewrite marge_refines;
    [|exact Hl|eapply merge_into_later_nonneg; [exact Hpos|exact E]].
  apply merge_into_later_fixed; [|exact Hl].
  eapply merge_into_later_no_equal. exact E.
Qed.

(** *** The order of the trees that are kept *)

Lemma merge_into_later_subsequence : forall (ts : list (node M)) ps ots ops,
  merge_into_later c ts ps = Ok (ots, ops) -> subsequence ots ts.
Proof.
  induction ts as [|t ts IH]; intros ps ots ops E.
  - simpl in E. inversion E; subst. constructor.
  - destruct ps as [|p ps]; [discriminate|].
    cbn [merge_into_later] in E.
    destruct (first_equal c t ts) as [[j|]|e]; cbn [bind] in E;
      [| |discriminate].
    + apply subsequence_drop. eapply IH. exact E.
    + destruct (merge_into_later c ts ps) as [[ots' ops']|e] eqn:E';
        cbn [bind] in E; [|discriminate].
      inversion E; subst. apply subsequence_keep. eapply IH. exact E'.
Qed.

Lemma merge_into_later_keeps_last : forall (ts : list (node M)) ps ots ops t,
  List.length ps = List.length (ts ++ [t]) ->
  merge_into_later c (ts ++ [t]) ps = Ok (ots, ops) ->
  exists ots', ots = ots' ++ [t].
Proof.
  induction ts as [|t0 ts IH]; intros ps ots ops t Hlen E.
  - destruct ps as [|p ps]; [discriminate|].
    cbn in E. destruct ps; inversion E; subst; now exists [].
  - destruct ps as [|p ps]; [discriminate|].
    cbn [app merge_into_later] in E.
    destruct (first_equal c t0 (ts ++ [t])) as [[j|]|e]; cbn [bind] in E;
      [| |discriminate].
    + eapply IH; [|exact E]. rewrite add_at_length. simpl in Hlen. lia.
    + destruct (merge_into_later c (ts ++ [t]) ps) as [[ots' ops']|e] eqn:E';
        cbn [bind] in E; [|discriminate].
      inversion E; subst.
      destruct (IH ps ots' ops' t) as [o Ho];
        [simpl in Hlen; lia|exact E'|].
      exists (t0 :: o). now rewrite Ho.
Qed.

(** The compactor keeps the order of the list: the trees it returns are
    trees of the input in the order they had there, so that there are at
    most as many; and the last tree of the input, which has no tree after
    it, is always the last tree returned. *)
Theorem marge_metatrees_keeps_order (ts : list (node M)) (ps : list R)
  (ots : list (node M)) (ops : list R) :
  List.length ps = List.length ts ->
  Forall (fun p => (0 <= p)%R) ps ->
  _marge_metatrees c ts ps = Ok (ots, ops) ->
  subsequence ots ts /\
  (List.length ots <= List.length ts)%nat /\
  forall init t, ts = init ++ [t] -> exists init', ots = init' ++ [t].
Proof.
  intros Hlen Hpos E. rewrite marge_refines in E by assumption.
  pose proof (merge_into_later_subsequence _ _ E) as Hsub.
  split; [exact Hsub|]. split.
  - clear -Hsub. induction Hsub; simpl; lia.
  - intros init t ->. eapply merge_into_later_keeps_last; eauto.
Qed.

End WithConstants.
End CompactorShape.

(* ================================================================== *)
(** * More on the marginal-likelihood recursion *)
(* ================================================================== *)

Module RecursionShape.

Import PyFacts Recursion RecursionFacts Shape.

Section WithSubModel.
Context {M : Type} `{SubModel M}.
Variable c : constants.
Variable leaf_batch : M -> dataset -> M * R.

Local Abbreviation update := (update_posterior_recursion c leaf_batch).

Lemma update_children_shape
  (upd : node M -> dataset -> result (R * node M))
  (routed : nat -> result dataset) (cs : list (node M)) :
  Forall (fun child => forall rows v child',
            upd child rows = Ok (v, child') ->
            shape_of child' = shape_of child) cs ->
  forall i todo lcml cs' lcml',
    update_children upd routed cs i todo lcml = Ok (cs', lcml') ->
    map shape_of cs' = map shape_of cs.
Proof.
  induction 1 as [|child cs Hchild _ IH]; intros i todo lcml cs' lcml' E.
  - cbn [update_children] in E.
    destruct (update_children_without routed i todo lcml);
      cbn [bind] in E; [|discriminate].
    now inversion E.
  - cbn [update_children] in E. destruct todo as [|todo].
    + now inversion E.
    + destruct (routed i) as [[|r rows]|e]; cbn [bind] in E; [| |discriminate].
      * destruct (setitem lcml i 0%R) as [l1|e]; cbn [bind] in E;
          [|discriminate].
        destruct (update_children upd routed cs (S i) todo l1)
          as [[cs2 l2]|e] eqn:E2; cbn [bind] in E; [|discriminate].
        inversion E; subst. cbn [map]. f_equal. eapply IH. exact E2.
      * destruct (upd child (r :: rows)) as [[v child']|e] eqn:Eu;
          cbn [bind] in E; [|discriminate].
        destruct (setitem lcml i v) as [l1|e]; cbn [bind] in E;
          [|discriminate].
        destruct (update_children upd routed cs (S i) todo l1)
          as [[cs2 l2]|e] eqn:E2; cbn [bind] in E; [|discriminate].
        inversion E; subst. cbn [map]. f_equal.
        -- eapply Hchild. exact Eu.
        -- eapply IH. exact E2.
Qed.

Lemma update_shape : forall (n : node M) data v n',
  update n data = Ok (v, n') -> shape_of n' = shape_of n.
Proof.
  induction n as [d k0 h th lf df sm lml lcml cs IH] using node_induction.
  intros data v n' E. cbn [update_posterior_recursion] in E.
  destruct lf.
  - destruct (leaf_batch sm data) as [sm' v']. now inversion E.
  - destruct k0 as [kk|]; [|discriminate].
    destruct (getitem (c_num_children_vec c) kk) as [nc|e]; cbn [bind] in E;
      [|discriminate].
    match type of E with
    | bind ?m _ = _ => destruct m as [[cs' lcml']|e] eqn:Ec
    end; cbn [bind] in E; [|discriminate].
    destruct (leaf_batch sm data) as [sm' v']. inversion E; subst.
    cbn [shape_of]. f_equal.
    eapply update_children_shape; [exact IH|exact Ec].
Qed.

(** *** The split probabilities *)

Lemma update_children_within
  (upd : node M -> dataset -> result (R * node M))
  (routed : nat -> result dataset) (cs : list (node M)) :
  Forall (fun child => forall rows v child',
            split_probabilities_within child ->
            upd child rows = Ok (v, child') ->
            split_probabilities_within child') cs ->
  forall i todo lcml cs' lcml',
    fold_right (fun child rest => split_probabilities_within child /\ rest)
      True cs ->
    update_children upd routed cs i todo lcml = Ok (cs', lcml') ->
    fold_right (fun child rest => split_probabilities_within child /\ rest)
      True cs'.
Proof.
  induction 1 as [|child cs Hchild _ IH]; intros i todo lcml cs' lcml' Hin E.
  - cbn [update_children] in E.
    destruct (update_children_without routed i todo lcml);
      cbn [bind] in E; [|discriminate].
    inversion E; subst. exact I.
  - cbn [update_children] in E. destruct Hin as [Hc Hin].
    destruct todo as [|todo].
    + inversion E; subst. split; assumption.
    + destruct (routed i) as [[|r rows]|e]; cbn [bind] in E; [| |discriminate].
      * destruct (setitem lcml i 0%R) as [l1|e]; cbn [bind] in E;
          [|discriminate].
        destruct (update_children upd routed cs (S i) todo l1)
          as [[cs2 l2]|e] eqn:E2; cbn [bind] in E; [|discriminate].
        inversion E; subst. split; [exact Hc|]. eapply IH; eauto.
      * destruct (upd child (r :: rows)) as [[v child']|e] eqn:Eu;
          cbn [bind] in E; [|discriminate].
        destruct (setitem lcml i v) as [l1|e]; cbn [bind] in E;
          [|discriminate].
        destruct (update_children upd routed cs (S i) todo l1)
          as [[cs2 l2]|e] eqn:E2; cbn [bind] in E; [|discriminate].
        inversion E; subst. split.
        -- eapply Hchild; eauto.
        -- eapply IH; eauto.
Qed.

Lemma update_within : forall (n : node M) data v n',
  split_probabilities_within n ->
  update n data = Ok (v, n') -> split_probabilities_within n'.
Proof.
  induction n as [d k0 h th lf df sm lml lcml cs IH] using node_induction.
  intros data v n' Hin E. cbn [update_posterior_recursion] in E.
  cbn [split_probabilities_within] in Hin. destruct Hin as [Hh Hcs].
  destruct lf.
  - destruct (leaf_batch sm data) as [sm' v']. inversion E; subst.
    cbn [split_probabilities_within]. split; [now left|exact Hcs].
  - destruct k0 as [kk|]; [|discriminate].
    destruct (getitem (c_num_children_vec c) kk) as [nc|e]; cbn [bind] in E;
      [|discriminate].
    match type of E with
    | bind ?m _ = _ => destruct m as [[cs' lcml']|e] eqn:Ec
    end; cbn [bind] in E; [|discriminate].
    destruct (leaf_batch sm data) as [sm' v']. inversion E; subst.
    cbn [split_probabilities_within]. split.
    + right. destruct Hh as [Hlf|Hh]; [discriminate|].
      destruct (@RecursionFacts.mixture_is_finite h v' (Np.sum lcml') Hh)
        as (t & p & Et & Ep & Hp & _).
      rewrite Et, Ep. exact Hp.
    + eapply update_children_within; [exact IH|exact Hcs|exact Ec].
Qed.

End WithSubModel.

Section BothRecursions.
Context {M : Type} `{SubModel M}.
Variable c : constants.

(** A posterior update never changes where the rows go: the tree it leaves
    has, node by node, the depth, the feature, the thresholds, the leaf flag
    and the children of the tree it was given.  This holds for
    [_update_posterior_recursion_batch] and for its linear-regression
    twin. *)
Theorem update_posterior_recursion_keeps_shape (n : node M) (data : dataset)
  (v : R) (n' : node M) :
  _update_posterior_recursion_batch c n data = Ok (v, n') \/
  _update_posterior_recursion_lr_batch c n data = Ok (v, n') ->
  shape_of n' = shape_of n.
Proof.
  intros [E|E]; eapply update_shape; exact E.
Qed.

(** When every inner node of a tree has a split probability [h_g] in
    [0,1], so has every inner node of the tree a posterior update leaves:
    the posterior [h_g] of a node the rows reach is [exp(tmp1 - tmp2)] with
    [tmp2 = logaddexp(., tmp1)], which is not below [tmp1], and the other
    nodes keep theirs.  This includes the ends: [h_g = 0] and [h_g = 1]
    stay what they are. *)
Theorem update_posterior_recursion_keeps_split_probabilities_in_unit_interval
  (n : node M) (data : dataset) (v : R) (n' : node M) :
  split_probabilities_within n ->
  _update_posterior_recursion_batch c n data = Ok (v, n') ->
  split_probabilities_within n'.
Proof.
  intros Hin E. eapply update_within; [exact Hin|exact E].
Qed.

End BothRecursions.
End RecursionShape.

(* ================================================================== *)
(** * The rows of an inner node are shared out among its children *)
(* ================================================================== *)

Module RoutingFacts.

Import PyFacts Recursion RecursionFacts Routing.

(** ** Masks that hold for one child *)

Section Masks.

Variable tests : nat -> row -> result bool.

Local Abbreviation holds := (Routing.holds tests).

Lemma select_filter (j : nat) : forall data,
  Forall (fun r => exists b, tests j r = Ok b) data ->
  select (tests j) data = Ok (filter (holds j) data).
Proof.
  induction 1 as [|r data [b Hb] _ IH]; [reflexivity|].
  cbn [select filter]. unfold Routing.holds at 1. rewrite Hb, IH.
  cbn [bind]. now destruct b.
Qed.

Lemma route_all_filter (data : dataset) (nc : nat) :
  (forall j, (j < nc)%nat ->
     Forall (fun r => exists b, tests j r = Ok b) data) ->
  forall todo i, (i + todo <= nc)%nat ->
    route_all (fun j => select (tests j) data) i todo
    = Ok (map (fun j => filter (holds j) data) (seq i todo)).
Proof.
  intros Htot. induction todo as [|todo IH]; intros i Hi; [reflexivity|].
  cbn [route_all seq map]. rewrite select_filter by (apply Htot; lia).
  cbn [bind]. rewrite IH by lia. reflexivity.
Qed.

Lemma parts_without (r : row) (data : dataset) : forall js,
  Forall (fun j => holds j r = false) js ->
  concat (map (fun j => filter (holds j) (r :: data)) js)
  = concat (map (fun j => filter (holds j) data) js).
Proof.
  induction 1 as [|j js Hj _ IH]; [reflexivity|].
  cbn [map concat]. rewrite IH. f_equal. cbn [filter]. now rewrite Hj.
Qed.

Lemma parts_with (r : row) (data : dataset) (nc j0 : nat) :
  (j0 < nc)%nat -> holds j0 r = true ->
  (forall j, (j < nc)%nat -> j <> j0 -> holds j r = false) ->
  Permutation
    (concat (map (fun j => filter (holds j) (r :: data)) (seq 0 nc)))
    (r :: concat (map (fun j => filter (holds j) data) (seq 0 nc))).
Proof.
  intros Hj0 Hyes Hno.
  replace nc with (j0 + S (nc - S j0))%nat by lia.
  rewrite seq_app. cbn [seq]. rewrite !map_app, !concat_app.
  cbn [map concat]. rewrite !parts_without.
  - cbn [filter Nat.add]. rewrite Hyes. symmetry.
    apply Permutation_middle.
  - apply Forall_forall. intros j Hj. apply in_seq in Hj. apply Hno; lia.
  - apply Forall_forall. intros j Hj. apply in_seq in Hj. apply Hno; lia.
Qed.

Lemma parts_partition (nc : nat) : forall data : dataset,
  Forall (fun r => exists j0, (j0 < nc)%nat /\ holds j0 r = true /\
                   forall j, (j < nc)%nat -> j <> j0 -> holds j r = false)
    data ->
  Permutation (concat (map (fun j => filter (holds j) data) (seq 0 nc))) data.
Proof.
  induction 1 as [|r data (j0 & Hj0 & Hyes & Hno) _ IH].
  - clear. induction (seq 0 nc) as [|j js IH]; [constructor|exact IH].
  - etransitivity; [apply (@parts_with r data nc j0); assumption|].
    now constructor.
Qed.

End Masks.

Lemma select_ext (f g : row -> result bool) : forall data,
  (forall r, f r = g r) -> select f data = select g data.
Proof.
  intros data Hfg. induction data as [|r data IH]; [reflexivity|].
  cbn [select]. now rewrite Hfg, IH.
Qed.

Lemma route_all_ext (f g : nat -> result dataset) : forall todo i,
  (forall j, (i <= j < i + todo)%nat -> f j = g j) ->
  route_all f i todo = route_all g i todo.
Proof.
  induction todo as [|todo IH]; intros i Hfg; [reflexivity|].
  cbn [route_all]. rewrite Hfg by lia. rewrite (IH (S i)); [reflexivity|].
  intros j Hj. apply Hfg. lia.
Qed.

Section WithConstants.
Variable c : constants.

(** ** A categorical feature *)

Lemma categorical_partition (col nc : nat) (data : dataset) :
  categorical_in_range col nc data ->
  exists parts,
    route_all (fun i => select_categorical col i data) 0 nc = Ok parts /\
    Permutation (concat parts) data.
Proof.
  intros Hin. unfold select_categorical.
  fold (categorical_test col).
  exists (map (fun j => filter (holds (categorical_test col) j) data)
            (seq 0 nc)).
  split.
  - apply route_all_filter with (nc := nc); [|lia].
    intros j _. eapply Forall_impl; [|exact Hin].
    intros r (x & Hx & _). unfold categorical_test, getitem. rewrite Hx.
    cbn [bind]. eauto.
  - apply parts_partition. eapply Forall_impl; [|exact Hin].
    intros r (x & Hx & Hlt). exists x. split; [exact Hlt|].
    unfold Routing.holds, categorical_test, getitem. rewrite Hx. cbn [bind].
    rewrite Nat.eqb_refl. split; [reflexivity|].
    intros j _ Hne. destruct (Nat.eqb_spec x j); [congruence|reflexivity].
Qed.

(** ** A continuous feature *)

Lemma getitem_nth (t : list R) i :
  (i < List.length t)%nat -> getitem t i = Ok (nth i t 0%R).
Proof.
  intros Hi. unfold getitem.
  destruct (nth_error t i) as [a|] eqn:E.
  - now rewrite (nth_error_nth _ _ _ E).
  - apply nth_error_None in E. lia.
Qed.

Lemma select_continuous_test (t : list R) (nc k i : nat) (data : dataset) :
  List.length t = (nc + 1)%nat -> (i < nc)%nat ->
  select_continuous (Some t) nc k i data
  = select (continuous_test t nc k i) data.
Proof.
  intros Hlen Hi. unfold select_continuous, continuous_test.
  destruct (i =? 0)%nat.
  - rewrite getitem_nth by lia. reflexivity.
  - destruct (i =? nc - 1)%nat.
    + rewrite getitem_nth by lia. reflexivity.
    + rewrite !getitem_nth by lia. reflexivity.
Qed.

Lemma leb_true_iff x y : leb x y = true <-> (x <= y)%R.
Proof. unfold leb. destruct (Rle_dec x y); split; auto; discriminate. Qed.

Lemma leb_false_iff x y : leb x y = false <-> ~ (x <= y)%R.
Proof.
  unfold leb. destruct (Rle_dec x y); split; auto; try discriminate.
  intros Hn. contradiction.
Qed.

(** The last interior threshold that is not above [x], or [0] when there is
    none. *)
Lemma last_threshold_below (t : list R) (x : R) : forall m,
  exists i0, (i0 <= m)%nat /\
    (i0 = 0%nat \/ (nth i0 t 0 <= x)%R) /\
    forall j, (i0 < j <= m)%nat -> ~ (nth j t 0 <= x)%R.
Proof.
  induction m as [|m (i0 & Hle & Hi0 & Habove)].
  - exists 0%nat. split; [lia|]. split; [now left|]. intros j Hj. lia.
  - destruct (Rle_dec (nth (S m) t 0) x) as [Hyes|Hno].
    + exists (S m). split; [lia|]. split; [now right|]. intros j Hj. lia.
    + exists i0. split; [lia|]. split; [exact Hi0|].
      intros j Hj. destruct (Nat.eq_dec j (S m)) as [->|Hne]; [exact Hno|].
      apply Habove. lia.
Qed.

Lemma continuous_one_child (t : list R) (nc : nat) (x : R) :
  (2 <= nc)%nat -> interior_thresholds_sorted t nc ->
  exists i0, (i0 < nc)%nat /\
    forall i, (i < nc)%nat ->
      (if (i =? 0)%nat then ltb x (nth (i + 1) t 0%R)
       else if (i =? nc - 1)%nat then leb (nth i t 0%R) x
       else leb (nth i t 0%R) x && ltb x (nth (i + 1) t 0%R))
      = (i =? i0)%nat.
Proof.
  intros Hnc Hsorted.
  destruct (last_threshold_below t x (nc - 1)) as (i0 & Hle & Hi0 & Habove).
  assert (Hbelow : forall j, (1 <= j <= i0)%nat -> (nth j t 0 <= x)%R).
  { intros j Hj. destruct Hi0 as [->|Hi0]; [lia|].
    etransitivity; [apply (Hsorted j i0); lia|exact Hi0]. }
  exists i0. split; [lia|]. intros i Hi.
  destruct (Nat.eqb_spec i 0) as [->|Hi_pos].
  - cbn [Nat.add]. destruct (Nat.eqb_spec 0 i0) as [<-|Hne].
    + apply ltb_true_iff. apply Rnot_le_lt. apply Habove. lia.
    + apply ltb_false_iff. apply Rle_not_lt. apply Hbelow. lia.
  - destruct (Nat.eqb_spec i (nc - 1)) as [->|Hi_last].
    + destruct (Nat.eqb_spec (nc - 1) i0) as [<-|Hne].
      * apply leb_true_iff. apply Hbelow. lia.
      * apply leb_false_iff. apply Habove. lia.
    + destruct (Nat.eqb_spec i i0) as [->|Hne].
      * apply andb_true_iff. split.
        -- apply leb_true_iff. apply Hbelow. lia.
        -- apply ltb_true_iff. apply Rnot_le_lt. apply Habove. lia.
      * apply andb_false_iff.
        destruct (Nat.lt_ge_cases i i0) as [Hlt|Hge].
        -- right. apply ltb_false_iff. apply Rle_not_lt. apply Hbelow. lia.
        -- left. apply leb_false_iff. apply Habove. lia.
Qed.

Lemma continuous_partition (t : list R) (nc k : nat) (data : dataset) :
  (2 <= nc)%nat -> List.length t = (nc + 1)%nat ->
  interior_thresholds_sorted t nc ->
  Forall (fun r => (k < List.length (x_continuous r))%nat) data ->
  exists parts,
    route_all (fun i => select_continuous (Some t) nc k i data) 0 nc
    = Ok parts /\
    Permutation (concat parts) data.
Proof.
  intros Hnc Hlen Hsorted Hcols.
  exists (map (fun j => filter (holds (continuous_test t nc k) j) data)
            (seq 0 nc)).
  split.
  - rewrite route_all_ext
      with (g := fun i => select (continuous_test t nc k i) data).
    + apply route_all_filter with (nc := nc); [|lia].
      intros j _. eapply Forall_impl; [|exact Hcols].
      intros r Hr. unfold continuous_test.
      destruct (getitem_lt (x_continuous r) Hr) as [x Hx]. rewrite Hx.
      cbn [bind]. eauto.
    + intros j Hj. apply select_continuous_test; [exact Hlen|lia].
  - apply parts_partition. eapply Forall_impl; [|exact Hcols].
    intros r Hr. destruct (getitem_lt (x_continuous r) Hr) as [x Hx].
    destruct (continuous_one_child x Hnc Hsorted) as (i0 & Hi0 & Hone).
    exists i0. split; [exact Hi0|].
    unfold Routing.holds, continuous_test. rewrite Hx. cbn [bind]. split.
    + rewrite (Hone i0 Hi0), Nat.eqb_refl. reflexivity.
    + intros j Hj Hne. rewrite (Hone j Hj).
      destruct (Nat.eqb_spec j i0); [congruence|reflexivity].
Qed.

(** On a categorical feature whose values are child indices, the loop over
    the children of an inner node shares the rows out: the row sets of the
    children, put end to end, are the rows of the node in another order, so
    that no row is lost and none is given to two children. *)
Theorem categorical_rows_are_shared_out (th : option (list R))
  (nc k : nat) (data : dataset) :
  (c_dim_continuous c <= k)%nat ->
  categorical_in_range (k - c_dim_continuous c) nc data ->
  exists parts,
    route_all (fun i => route c th nc k i data) 0 nc = Ok parts /\
    List.length parts = nc /\
    Permutation (concat parts) data.
Proof.
  intros Hk Hin.
  destruct (categorical_partition Hin) as (parts & E & Hperm).
  exists parts.
  assert (E' : route_all (fun i => route c th nc k i data) 0 nc = Ok parts).
  { rewrite <- E. apply route_all_ext. intros j _. unfold route.
    destruct (Nat.ltb_spec k (c_dim_continuous c)); [lia|reflexivity]. }
  split; [exact E'|]. split; [|exact Hperm].
  clear -E. revert parts E. generalize 0%nat.
  induction nc as [|n IH]; intros i parts E; cbn [route_all] in E.
  - now inversion E.
  - destruct (select_categorical (k - c_dim_continuous c) i data);
      cbn [bind] in E; [|discriminate].
    destruct (route_all _ (S i) n) as [rest|e] eqn:Er; cbn [bind] in E;
      [|discriminate].
    inversion E; subst. simpl. f_equal. eapply IH. exact Er.
Qed.

(** On a continuous feature with at least two children and thresholds
    between the children that do not decrease, the loop over the children
    shares the rows out in the same way: every row goes to exactly one
    child. *)
Theorem continuous_rows_are_shared_out (t : list R) (nc k : nat)
  (data : dataset) :
  (k < c_dim_continuous c)%nat ->
  (2 <= nc)%nat -> List.length t = (nc + 1)%nat ->
  interior_thresholds_sorted t nc ->
  Forall (fun r => (k < List.length (x_continuous r))%nat) data ->
  exists parts,
    route_all (fun i => route c (Some t) nc k i data) 0 nc = Ok parts /\
    Permutation (concat parts) data.
Proof.
  intros Hk Hnc Hlen Hsorted Hcols.
  destruct (@continuous_partition t nc k data Hnc Hlen Hsorted Hcols)
    as (parts & E & Hperm).
  exists parts. split; [|exact Hperm].
  rewrite <- E. apply route_all_ext. intros j _. unfold route.
  destruct (Nat.ltb_spec k (c_dim_continuous c)); [reflexivity|lia].
Qed.

End WithConstants.
End RoutingFacts.

(* ================================================================== *)
(** * More on the Metropolis-Hastings driver *)
(* ================================================================== *)

Module ChainFacts.

Import PyFacts Chain MTMCMC MTMCMCFacts ChainInvariants.

Section WithInterfaces.
Context {M G : Type} `{Generator G} `{Seeding G} `{Proposal M G}.
Variable self : learner M.

Local Abbreviation mh_step := (_mh_step_truncated self).

(** ** The checks at the entry *)

Lemma all_same_ok (v : list nat) :
  all_same v = Ok true <->
  exists n rest, v = n :: rest /\ Forall (fun x => x = n) rest.
Proof.
  unfold all_same, getitem. destruct v as [|n rest]; cbn [nth_error bind].
  - split; [discriminate|]. intros (n & rest & E & _). discriminate.
  - split.
    + intros E. exists n, rest. split; [reflexivity|].
      assert (Hex : existsb (fun x => negb (x =? n)%nat) (n :: rest) = false).
      { destruct (existsb _ _); [discriminate|reflexivity]. }
      cbn [existsb] in Hex. apply orb_false_iff in Hex.
      destruct Hex as [_ Hex]. apply Forall_forall. intros x Hx.
      destruct (Nat.eqb_spec x n) as [->|Hne]; [reflexivity|].
      assert (existsb (fun x => negb (x =? n)%nat) rest = true).
      { apply existsb_exists. exists x. split; [exact Hx|].
        destruct (Nat.eqb_spec x n); [contradiction|reflexivity]. }
      congruence.
    + intros (n' & rest' & E & Hall). inversion E; subst n' rest'.
      assert (Hex : existsb (fun x => negb (x =? n)%nat) (n :: rest) = false).
      { cbn [existsb]. rewrite Nat.eqb_refl. cbn [negb orb].
        destruct (existsb _ rest) eqn:Ee; [|reflexivity].
        apply existsb_exists in Ee. destruct Ee as (x & Hx & Hneq).
        rewrite Forall_forall in Hall. rewrite (Hall x Hx), Nat.eqb_refl in Hneq.
        discriminate. }
      now rewrite Hex.
Qed.

Lemma any_positive_false (v : list Z) :
  any_positive v = false <-> Forall (fun x => (x <= 0)%Z) v.
Proof.
  unfold any_positive. induction v as [|x v IH]; cbn [existsb].
  - split; [constructor|reflexivity].
  - rewrite orb_false_iff, IH. split.
    + intros [Hx Hv]. constructor; [|exact Hv].
      apply Z.ltb_ge in Hx. exact Hx.
    + intros Hall. inversion Hall; subst. split; [|assumption].
      apply Z.ltb_ge. assumption.
Qed.

Lemma allclose_first_ok (v : list R) :
  allclose_first v = Ok true <->
  exists w rest, v = w :: rest /\ Forall (fun a => isclose a w = true) v.
Proof.
  unfold allclose_first, getitem. destruct v as [|w rest]; cbn [nth_error bind].
  - split; [discriminate|]. intros (w & rest & E & _). discriminate.
  - split.
    + intros E. exists w, rest. split; [reflexivity|].
      apply Forall_forall. apply forallb_forall.
      destruct (forallb _ _); [reflexivity|discriminate].
    + intros (w' & rest' & E & Hall). inversion E; subst w' rest'.
      f_equal. apply forallb_forall. now apply Forall_forall.
Qed.

(** The checks at the entry of the two samplers pass exactly on a uniform
    configuration: all the features have the branching factor the checks
    return, no feature has a positive assignment cap, and the feature
    weights are all close to the first.  When they fail, [_MTMCMC] and
    [_REMTMCMC] end with the error of the check, whatever the data and the
    keyword arguments are. *)
Theorem samplers_need_uniform_configuration (nc : nat) :
  (check_uniform_configuration self = Ok nc <->
   (exists rest, c_num_children_vec (consts self) = nc :: rest /\
                 Forall (fun x => x = nc) rest) /\
   Forall (fun x => (x <= 0)%Z) (c_num_assignment_vec (consts self)) /\
   (exists w rest, h0_k_weight_vec self = w :: rest /\
                   Forall (fun a => isclose a w = true)
                     (h0_k_weight_vec self))) /\
  (forall e fuel data kw kw',
     check_uniform_configuration self = Raise e ->
     _MTMCMC self fuel data kw = Finished (Raise e) /\
     REMTMCMC._REMTMCMC self data kw' = Raise e).
Proof.
  split.
  - unfold check_uniform_configuration. split.
    + intros E.
      destruct (all_same (c_num_children_vec (consts self))) as [[|]|e] eqn:Es;
        cbn [bind negb] in E; try discriminate.
      apply all_same_ok in Es. destruct Es as (n & rest & Ev & Hall).
      rewrite Ev in E. unfold getitem in E. cbn [nth_error bind] in E.
      destruct (any_positive (c_num_assignment_vec (consts self))) eqn:Ea;
        [discriminate|].
      destruct (allclose_first (h0_k_weight_vec self)) as [[|]|e] eqn:Ec;
        cbn [bind negb] in E; try discriminate.
      inversion E; subst n. split; [eauto|]. split.
      * now apply any_positive_false.
      * now apply allclose_first_ok.
    + intros ((rest & Ev & Hall) & Ha & Hc).
      assert (Es : all_same (c_num_children_vec (consts self)) = Ok true).
      { apply all_same_ok. eauto. }
      rewrite Es. cbn [bind negb]. rewrite Ev. unfold getitem.
      cbn [nth_error bind].
      rewrite (proj2 (any_positive_false _) Ha).
      rewrite (proj2 (allclose_first_ok _) Hc). reflexivity.
  - intros e fuel data kw kw' E. split.
    + unfold _MTMCMC, start. rewrite E. reflexivity.
    + unfold REMTMCMC._REMTMCMC, REMTMCMC.start. rewrite E. reflexivity.
Qed.

(** ** The counters of the trees *)

Lemma sum_counts_app (cs : list Z) (x : Z) :
  sum_counts (cs ++ [x]) = (sum_counts cs + x)%Z.
Proof.
  unfold sum_counts. induction cs as [|y cs IH]; simpl; [lia|].
  rewrite IH. lia.
Qed.

Lemma mh_step_counters (s s' : state) (data : dataset) :
  counters_consistent s ->
  mh_step s data = Ok s' ->
  counters_consistent s' /\
  (sum_counts (_tmp_metatree_count_list s')
   = sum_counts (_tmp_metatree_count_list s) + 1)%Z.
Proof.
  intros (Hlen & Hacc & Hpos) E. unfold _mh_step_truncated in E.
  destruct (propose self s data) as [p|e] eqn:Ep; cbn [bind] in E;
    [|discriminate].
  pose proof Ep as Ps. apply propose_spec in Ps.
  destruct Ps as (_ & trees & last & last' & Hl & Hc & _).
  destruct (rng_random (cand_rng p)) as [u g3].
  destruct (ltb u _).
  - inversion E; subst s'. unfold counters_consistent, accept, append.
    cbn [_tmp_metatree_list _tmp_metatree_count_list _num_accepted].
    rewrite Hc, sum_counts_app, !length_app. rewrite Hl, length_app in Hlen, Hacc.
    cbn [List.length] in *. repeat split; try lia.
    apply Forall_app. split; [exact Hpos|]. constructor; [lia|constructor].
  - pose proof E as Ee. apply reject_effect in Ee.
    destruct Ee as (El & _ & _ & _ & Ea & _).
    apply reject_spec in E. destruct E as (_ & counts & count & Hc1 & Hc2).
    unfold counters_consistent. rewrite El, Hc, Hc2, Ea, sum_counts_app.
    rewrite Hc1, sum_counts_app. rewrite Hl, Hc1 in Hlen. rewrite Hl in Hacc.
    rewrite !length_app in *. cbn [List.length] in *.
    rewrite Hc1 in Hpos. apply Forall_app in Hpos. destruct Hpos as [Hp1 Hp2].
    inversion Hp2; subst. repeat split; try lia.
    apply Forall_app. split; [exact Hp1|]. constructor; [lia|constructor].
Qed.

Lemma update_g_max_keeps_chain (s s' : @state M G) :
  _update_g_max s = Ok s' ->
  _tmp_metatree_list s' = _tmp_metatree_list s /\
  _tmp_metatree_count_list s' = _tmp_metatree_count_list s /\
  _num_accepted s' = _num_accepted s /\
  _num_proposed s' = _num_proposed s.
Proof.
  unfold _update_g_max. intros E.
  destruct (py_div (_numerator s) (_denominator s)) as [p_hat|e];
    cbn [bind] in E; [|discriminate].
  match type of E with
  | bind ?m _ = _ => destruct m as [g_new|e]; cbn [bind] in E; [|discriminate]
  end.
  match type of E with
  | bind ?m _ = _ => destruct m as [g|e]; cbn [bind] in E; [|discriminate]
  end.
  inversion E; subst. cbn. auto.
Qed.

Lemma burn_in_step_counters (s s' : state) (data : dataset) :
  counters_consistent s ->
  sum_counts (_tmp_metatree_count_list s) = _num_proposed s ->
  burn_in_step self data s = Ok s' ->
  counters_consistent s' /\
  sum_counts (_tmp_metatree_count_list s') = _num_proposed s'.
Proof.
  intros Hc Hs E. unfold burn_in_step in E.
  destruct (mh_step s data) as [s1|e] eqn:E1; cbn [bind] in E; [|discriminate].
  destruct (@mh_step_counters s s1 data Hc E1) as [Hc1 Hs1].
  pose proof E1 as Ee. apply mh_step_effect in Ee.
  destruct Ee as (_ & _ & _ & _ & _ & _ & _ & _ & _ & Enp & _).
  destruct (@update_g_max_keeps_chain s1 s' E) as (El & Ecl & Ea & Ep).
  unfold counters_consistent in *. rewrite El, Ecl, Ea, Ep. split; [exact Hc1|].
  lia.
Qed.

Lemma burn_in_steps_counters (data : dataset) : forall n (s s' : state),
  counters_consistent s ->
  sum_counts (_tmp_metatree_count_list s) = _num_proposed s ->
  repeatM n (burn_in_step self data) s = Ok s' ->
  counters_consistent s' /\
  sum_counts (_tmp_metatree_count_list s') = _num_proposed s'.
Proof.
  induction n as [|n IH]; intros s s' Hc Hs E; simpl in E.
  - inversion E; subst. split; assumption.
  - destruct (burn_in_step self data s) as [s1|e] eqn:E1; [|discriminate].
    destruct (@burn_in_step_counters s s1 data Hc Hs E1) as [Hc1 Hs1].
    eapply IH; eauto.
Qed.

Lemma mh_steps_counters (data : dataset) : forall n (s s' : state),
  counters_consistent s ->
  repeatM n (fun s => mh_step s data) s = Ok s' ->
  counters_consistent s'.
Proof.
  induction n as [|n IH]; intros s s' Hc E; simpl in E.
  - inversion E; subst. assumption.
  - destruct (mh_step s data) as [s1|e] eqn:E1; [|discriminate].
    destruct (@mh_step_counters s s1 data Hc E1) as [Hc1 _].
    eapply IH; eauto.
Qed.

Lemma set_last_count_counters (s s' : @state M G) :
  counters_consistent s -> set_last_count s 1 = Ok s' ->
  counters_consistent s'.
Proof.
  intros (Hlen & Hacc & Hpos) E. unfold set_last_count in E.
  destruct (setlast (_tmp_metatree_count_list s) 1%Z) as [counts|e] eqn:Es;
    cbn [bind] in E; [|discriminate].
  inversion E; subst s'. unfold counters_consistent.
  cbn [_tmp_metatree_list _tmp_metatree_count_list _num_accepted].
  apply setlast_ok in Es. destruct Es as (cs & a & Hc & ->).
  rewrite Hc in Hlen, Hpos. rewrite length_app in *. cbn [List.length] in *.
  apply Forall_app in Hpos. destruct Hpos as [Hp1 _].
  repeat split; try lia.
  apply Forall_app. split; [exact Hp1|]. constructor; [lia|constructor].
Qed.

(** Throughout a run of [_MTMCMC] the list of trees and the list of
    counters go together: there is one counter for each tree, none below 1,
    and [_num_accepted] is their number.  During the burn-in the counters
    add up to [_num_proposed]: every proposal is counted once, on the tree
    that was current when it was made. *)
Theorem mtmcmc_counters_go_with_the_trees (data : dataset) (kw : kwargs)
  (g : G) (nc : nat) (root : node M) (l_last : R) :
  let s0 := initial_state self kw g nc root l_last in
  (forall n s,
     repeatM n (burn_in_step self data) s0 = Ok s ->
     counters_consistent s /\
     sum_counts (_tmp_metatree_count_list s) = _num_proposed s) /\
  (forall s r,
     run_of_steps self data kw s0 = Ok (Some s, r) ->
     counters_consistent s).
Proof.
  intros s0.
  assert (Hc0 : counters_consistent s0).
  { unfold counters_consistent, s0, initial_state. cbn.
    repeat split. constructor; [lia|constructor]. }
  assert (Hs0 : sum_counts (_tmp_metatree_count_list s0) = _num_proposed s0)
    by reflexivity.
  split.
  - intros n s E. eapply burn_in_steps_counters; eauto.
  - intros s r E. unfold run_of_steps in E.
    destruct (repeatM (Z.to_nat (burn_in kw - 1)) (burn_in_step self data) s0)
      as [s1|e] eqn:E1; cbn [bind] in E; [|discriminate].
    destruct (set_last_count s1 1) as [s2|e] eqn:E2; cbn [bind] in E;
      [|discriminate].
    destruct (repeatM (Z.to_nat (num_metatrees kw))
                (fun s => mh_step s data) s2) as [s3|e] eqn:E3;
      cbn [bind] in E; [|discriminate].
    destruct (output self s3 (_num_accepted s1 - 1)) as [r'|e];
      cbn [bind] in E; [|discriminate].
    inversion E; subst s r'.
    destruct (@burn_in_steps_counters data _ s0 s1 Hc0 Hs0 E1) as [Hc1 _].
    pose proof (@set_last_count_counters s1 s2 Hc1 E2) as Hc2.
    eapply mh_steps_counters; eauto.
Qed.

End WithInterfaces.
End ChainFacts.

(* ================================================================== *)
(** * More on the tuner and on the truncated log-probability *)
(* ================================================================== *)

Module TunerFacts.

Import PyFacts Chain MTMCMC MTMCMCFacts ChainInvariants.

Section WithInterfaces.
Context {M G : Type} `{Generator G} `{Seeding G} `{Proposal M G}.
Variable self : learner M.

Local Abbreviation mh_step := (_mh_step_truncated self).

(** ** The direction of an update *)

Lemma update_g_max_direction (s s2 : @state M G) :
  (0 <= _phi s)%R -> (0 < _p_obj s < 1)%R -> (0 <= _g_max s <= 1)%R ->
  (0 <= _numerator s <= _denominator s)%R -> (1 <= _denominator s)%R ->
  (0 <= _g_max_denominator s)%R -> smoothed s ->
  _update_g_max s = Ok s2 ->
  smoothed s2 /\
  ((_p_obj s < _numerator s / _denominator s)%R ->
   (_g_max s2 <= _g_max s)%R) /\
  ((_numerator s / _denominator s <= _p_obj s)%R ->
   (_g_max s <= _g_max s2)%R).
Proof.
  intros Hphi Hp Hg Hn Hd Hgd Hsm E. unfold smoothed in *.
  unfold _update_g_max in E.
  rewrite py_div_ok in E by lra. cbn [bind] in E.
  set (p_hat := (_numerator s / _denominator s)%R) in *.
  assert (Hph : (0 <= p_hat <= 1)%R) by (apply ratio_in_unit; lra).
  assert (Hden : (0 < _g_max_denominator s * _phi s + 1)%R) by nra.
  destruct (ltb (_p_obj s) p_hat) eqn:El.
  - apply ltb_true_iff in El.
    rewrite py_div_ok in E by lra. cbn [bind] in E.
    rewrite py_div_ok in E by lra. cbn [bind] in E.
    inversion E; subst s2. clear E.
    cbn [_g_max _g_max_accumulated _g_max_denominator].
    assert (Hnew : (_g_max s * _p_obj s / p_hat <= _g_max s)%R).
    { apply Rmult_le_reg_r with p_hat; [lra|].
      unfold Rdiv. rewrite Rmult_assoc, Rinv_l by lra. nra. }
    split; [field; lra|]. split; [|intros; lra].
    intros _. apply Rmult_le_reg_r with (_g_max_denominator s * _phi s + 1)%R;
      [exact Hden|].
    unfold Rdiv at 1. rewrite Rmult_assoc, Rinv_l by lra. rewrite Hsm. nra.
  - apply ltb_false_iff in El.
    rewrite py_div_ok in E by lra. cbn [bind] in E.
    rewrite py_div_ok in E by lra. cbn [bind] in E.
    inversion E; subst s2. clear E.
    cbn [_g_max _g_max_accumulated _g_max_denominator].
    assert (Hnew : (_g_max s
                    <= 1 - (1 - _g_max s) * (1 - _p_obj s) / (1 - p_hat))%R).
    { assert (Hq : ((1 - _g_max s) * (1 - _p_obj s) / (1 - p_hat)
                    <= 1 - _g_max s)%R); [|lra].
      apply Rmult_le_reg_r with (1 - p_hat)%R; [lra|].
      unfold Rdiv. rewrite Rmult_assoc, Rinv_l by lra. nra. }
    split; [field; lra|]. split; [intros; lra|].
    intros _. apply Rmult_le_reg_r with (_g_max_denominator s * _phi s + 1)%R;
      [exact Hden|].
    unfold Rdiv at 1. rewrite Rmult_assoc, Rinv_l by lra. rewrite Hsm. nra.
Qed.

Lemma burn_in_step_smoothed (s s' : state) (data : dataset) :
  tuner_invariant s -> smoothed s ->
  burn_in_step self data s = Ok s' -> smoothed s'.
Proof.
  intros (Hr & Hphi & Hp & Hg & Hn & Ha & Hl) Hsm E.
  unfold burn_in_step in E.
  destruct (mh_step s data) as [s1|e] eqn:E1; cbn [bind] in E; [|discriminate].
  pose proof E1 as Ee. apply mh_step_effect in Ee.
  destruct Ee as (Er & Ephi & Ep & Eg & Egl & Egd & Ega & Ed & En & _).
  apply (@update_g_max_direction s1 s'); try assumption.
  - rewrite Ephi. exact Hphi.
  - rewrite Ep. exact Hp.
  - rewrite Eg. exact Hg.
  - rewrite Ed. destruct En as [-> | ->]; nra.
  - rewrite Ed. nra.
  - rewrite Egd. lra.
  - unfold smoothed in *. rewrite Ega, Eg, Egd. exact Hsm.
Qed.

Lemma burn_in_steps_smoothed (data : dataset) : forall n (s s' : state),
  tuner_invariant s -> smoothed s ->
  repeatM n (burn_in_step self data) s = Ok s' ->
  tuner_invariant s' /\ smoothed s'.
Proof.
  induction n as [|n IH]; intros s s' Hinv Hsm E; simpl in E.
  - inversion E; subst. split; assumption.
  - destruct (burn_in_step self data s) as [s1|e] eqn:E1; [|discriminate].
    pose proof E1 as Ei. apply burn_in_step_invariant in Ei; [|exact Hinv].
    destruct Ei as (Hinv1 & _).
    pose proof (@burn_in_step_smoothed s s1 data Hinv Hsm E1) as Hsm1.
    eapply IH; eauto.
Qed.

(** The tuner moves the ceiling towards the target acceptance rate.  With
    [rho >= 0], [phi >= 0], an initial [g_max] in [0,1] and [p_obj] strictly
    between 0 and 1, after any number of passes of the burn-in loop and one
    more step: when the decayed acceptance rate
    [_numerator / _denominator] is above [p_obj], [_update_g_max] does not
    raise [g_max], and when it is not above [p_obj], [_update_g_max] does
    not lower it. *)
Theorem tuner_moves_towards_target
  (kw : kwargs) (g : G) (num_children : nat) (root : node M) (l_last : R)
  (data : dataset) (n : nat) (s s1 s2 : state) :
  (0 <= g_max kw <= 1)%R -> (0 < p_obj kw < 1)%R ->
  (0 <= rho kw)%R -> (0 <= phi kw)%R ->
  repeatM n (burn_in_step self data)
    (initial_state self kw g num_children root l_last) = Ok s ->
  mh_step s data = Ok s1 ->
  _update_g_max s1 = Ok s2 ->
  ((_p_obj s1 < _numerator s1 / _denominator s1)%R ->
   (_g_max s2 <= _g_max s1)%R) /\
  ((_numerator s1 / _denominator s1 <= _p_obj s1)%R ->
   (_g_max s1 <= _g_max s2)%R).
Proof.
  intros Hg Hp Hr Hphi E E1 E2.
  pose proof (initial_state_invariant self kw g num_children root l_last
                Hg Hp Hr Hphi) as Hinv0.
  assert (Hsm0 : smoothed (initial_state self kw g num_children root l_last)).
  { unfold smoothed, initial_state. cbn. ring. }
  destruct (@burn_in_steps_smoothed data n _ s Hinv0 Hsm0 E) as [Hinv Hsm].
  destruct Hinv as (Hr' & Hphi' & Hp' & Hg' & Hn' & Ha' & Hl').
  pose proof E1 as Ee. apply mh_step_effect in Ee.
  destruct Ee as (Er & Ephi & Ep & Eg & Egl & Egd & Ega & Ed & En & _).
  apply (@update_g_max_direction s1 s2).
  - rewrite Ephi. exact Hphi'.
  - rewrite Ep. exact Hp'.
  - rewrite Eg. exact Hg'.
  - rewrite Ed. destruct En as [-> | ->]; nra.
  - rewrite Ed. nra.
  - rewrite Egd. lra.
  - unfold smoothed in *. rewrite Ega, Eg, Egd. exact Hsm.
  - exact E2.
Qed.

End WithInterfaces.

(** ** The truncated log-probability *)

Section Truncated.
Context {M : Type}.

Lemma sum_children_nonpositive (f : node M -> result R) (cs : list (node M)) :
  Forall (fun child => positive_split_probabilities child ->
                       forall v, f child = Ok v -> (v <= 0)%R) cs ->
  fold_right (fun child rest => positive_split_probabilities child /\ rest)
    True cs ->
  forall n tmp v, (tmp <= 0)%R ->
    sum_children f cs n tmp = Ok v -> (v <= 0)%R.
Proof.
  induction 1 as [|child cs Hchild _ IH]; intros Hpos n tmp v Htmp E.
  - destruct n; cbn [sum_children] in E; [|discriminate].
    inversion E; subst. exact Htmp.
  - destruct n as [|n]; cbn [sum_children] in E.
    + inversion E; subst. exact Htmp.
    + destruct Hpos as [Hc Hpos].
      destruct (f child) as [w|e] eqn:Ef; cbn [bind] in E; [|discriminate].
      apply (IH Hpos n (tmp + w)%R v); [|exact E].
      pose proof (Hchild Hc w eq_refl). lra.
Qed.

(** The value of [_calc_truncated_posterior_lean] is the logarithm of a
    probability: for a ceiling [0 < g_max < 1] and a tree whose nodes with a
    feature have a positive [h_g], it is never positive. *)
Theorem truncated_posterior_is_nonpositive (g_max : R) (num_children : nat)
  (n : node M) (v : R) :
  (0 < g_max < 1)%R ->
  positive_split_probabilities n ->
  _calc_truncated_posterior_lean g_max num_children n = Ok v ->
  (v <= 0)%R.
Proof.
  intros Hg. revert v.
  induction n as [d k0 h th lf df sm lml lcml cs IH] using node_induction.
  intros v Hpos E. cbn [_calc_truncated_posterior_lean] in E.
  cbn [positive_split_probabilities] in Hpos. destruct Hpos as [Hh Hcs].
  destruct k0 as [kk|]; [|inversion E; subst; lra].
  destruct Hh as [Hh|Hh]; [discriminate|].
  assert (Hmin : (0 < Rmin h g_max < 1)%R).
  { unfold Rmin. destruct (Rle_dec h g_max); lra. }
  destruct df as [[|]|]; [| |discriminate].
  - destruct (sum_children (_calc_truncated_posterior_lean g_max num_children)
                cs num_children 0%R) as [tmp|e] eqn:Es; cbn [bind] in E;
      [|discriminate].
    inversion E; subst.
    assert (Htmp : (tmp <= 0)%R).
    { eapply sum_children_nonpositive; [|exact Hcs| |exact Es]; [|lra].
      eapply Forall_impl; [|exact IH]. intros child Hc Hp w Ew.
      now apply Hc. }
    assert (Hl : (log (Rmin h g_max) <= 0)%R).
    { unfold log. rewrite <- ln_1. left. apply ln_increasing; lra. }
    lra.
  - inversion E; subst. unfold log. rewrite <- ln_1. left.
    apply ln_increasing; lra.
Qed.

End Truncated.
End TunerFacts.

(* ================================================================== *)
(** * More on the replica-exchange driver *)
(* ================================================================== *)

Module ReplicaFacts.

Import PyFacts Chain REMTMCMC REMTMCMCFacts ReplicaInvariants.

(** One step through a hypothesis [E : (x <- m ;; k) = Ok _]. *)
Ltac bind_step E :=
  match type of E with
  | bind ?m _ = Ok _ =>
      let x := fresh "x" in
      let Ex := fresh "E" x in
      destruct m as [x|?] eqn:Ex; cbn [bind] in E; [|discriminate E]
  | (let '(_, _) := ?p in _) = Ok _ => destruct p
  | match ?p with (_, _) => _ end = Ok _ => destruct p
  end.

Ltac bind_steps E := repeat bind_step E.

(** ** Lists of lists *)

Lemma setitem_same_length {A} : forall (l : list (list A)) i v l' a,
  setitem l i v = Ok l' -> getitem l i = Ok a ->
  List.length v = List.length a ->
  map (@List.length A) l' = map (@List.length A) l.
Proof.
  induction l as [|x l IH]; intros [|i] v l' a E Eg Hlen; simpl in E;
    try discriminate.
  - inversion E; subst. unfold getitem in Eg. simpl in Eg.
    inversion Eg; subst. simpl. now rewrite Hlen.
  - destruct (setitem l i v) as [tl|e] eqn:Es; [|discriminate].
    inversion E; subst. simpl. f_equal.
    eapply IH; [exact Es| |exact Hlen].
    unfold getitem in *. simpl in Eg. exact Eg.
Qed.

Lemma setlast_length {A} (l : list A) v l' :
  setlast l v = Ok l' -> List.length l' = List.length l.
Proof.
  intros E. apply setlast_ok in E. destruct E as (init & a & -> & ->).
  now rewrite !length_app.
Qed.

Lemma getitem_last {A} (init : list A) a :
  getitem (init ++ [a]) (List.length init) = Ok a.
Proof. apply getitem_app_here. Qed.

Lemma firstn_map_length_app {A} (init : list (list A)) (a : list A) :
  firstn (List.length init) (map (@List.length A) (init ++ [a]))
  = map (@List.length A) init.
Proof.
  rewrite map_app. rewrite <- (length_map (@List.length A) init) at 1.
  rewrite firstn_app, Nat.sub_diag, firstn_all. cbn [firstn].
  now rewrite app_nil_r.
Qed.

Lemma setitem_last_lengths {A} (l : list (list A)) n v l' :
  List.length l = n -> setitem l (n - 1) v = Ok l' ->
  List.length l' = n /\
  firstn (n - 1) (map (@List.length A) l')
  = firstn (n - 1) (map (@List.length A) l).
Proof.
  intros Hn E. pose proof (setitem_length _ _ _ E) as Hl.
  split; [lia|].
  destruct (nonempty_last_elt (l := l)) as (init & a & ->).
  { intros ->. simpl in Hn. subst n. discriminate E. }
  rewrite length_app in Hn. cbn [List.length] in Hn.
  replace (n - 1)%nat with (List.length init) in * by lia.
  rewrite setitem_app_here in E. inversion E; subst l'.
  now rewrite !firstn_map_length_app.
Qed.

Section WithInterfaces.
Context {M G : Type} `{Generator G} `{Seeding G} `{Proposal M G}.
Variable self : learner M.

(** ** The local steps *)

Lemma tempered_step_lengths (data : dataset) (s s' : @state M G) (i : nat) :
  tempered_step self data s i = Ok s' ->
  _num_chains s' = _num_chains s /\
  map (@List.length (node M)) (_tmp_metatree_lists s')
  = map (@List.length (node M)) (_tmp_metatree_lists s).
Proof.
  unfold tempered_step. intros E. bind_steps E.
  destruct (ltb _ _); bind_steps E; inversion E; subst s';
    cbn [with_chains _num_chains _tmp_metatree_lists];
    (split; [reflexivity|]);
    (eapply setitem_same_length; [eassumption|eassumption|]).
  - match goal with
    | E1 : setlast _ _ = Ok ?a, E2 : setlast ?a _ = Ok ?b |- _ =>
        rewrite (@setlast_length _ _ _ _ E2), (@setlast_length _ _ _ _ E1)
    end. reflexivity.
  - match goal with
    | E1 : setlast _ _ = Ok ?a |- List.length ?a = _ =>
        rewrite (@setlast_length _ _ _ _ E1)
    end. reflexivity.
Qed.

Lemma tempered_steps_lengths (data : dataset) : forall ixs (s s' : @state M G),
  for_each (tempered_step self data) ixs s = Ok s' ->
  _num_chains s' = _num_chains s /\
  map (@List.length (node M)) (_tmp_metatree_lists s')
  = map (@List.length (node M)) (_tmp_metatree_lists s).
Proof.
  induction ixs as [|i ixs IH]; intros s s' E; cbn [for_each] in E.
  - inversion E; subst. split; reflexivity.
  - destruct (tempered_step self data s i) as [s1|e] eqn:E1; [|discriminate].
    destruct (tempered_step_lengths _ _ _ E1) as [Hn Hl].
    destruct (IH _ _ E) as [Hn' Hl']. split; congruence.
Qed.

Lemma setlast_lists_lengths (lists lists' : list (list (node M))) X n :
  List.length lists = n -> setlast lists X = Ok lists' ->
  List.length lists' = n /\
  firstn (n - 1) (map (@List.length (node M)) lists')
  = firstn (n - 1) (map (@List.length (node M)) lists).
Proof.
  intros Hn E. apply setlast_ok in E. destruct E as (init & a & -> & ->).
  rewrite length_app in *. cbn [List.length] in *.
  split; [exact Hn|].
  replace (n - 1)%nat with (List.length init) by lia.
  now rewrite !firstn_map_length_app.
Qed.

Lemma last_chain_step_lengths (data : dataset) (s s' : @state M G) :
  one_list_per_chain s ->
  last_chain_step self data s = Ok s' ->
  _num_chains s' = _num_chains s /\ one_list_per_chain s' /\
  tempered_lengths s' = tempered_lengths s.
Proof.
  unfold one_list_per_chain, tempered_lengths, last_chain_step.
  intros Hn E. bind_steps E. inversion E; subst s'. clear E.
  cbn [with_l_list _num_chains _tmp_metatree_lists].
  match goal with
  | Es1 : (if ?b then _ else _) = Ok ?s1 |- _ =>
      destruct b; bind_steps Es1; inversion Es1; subst s1
  end;
    cbn [with_chains _num_chains _tmp_metatree_lists];
    (split; [reflexivity|]);
    match goal with
    | E1 : setlast (_tmp_metatree_lists s) _ = Ok _ |- _ =>
        destruct (@setlast_lists_lengths _ _ _ _ Hn E1) as [Hl Hf]
    end; split; assumption.
Qed.

Lemma remh_step_lengths (data : dataset) (s s' : @state M G) :
  one_list_per_chain s ->
  _remh_step_truncated_memory_efficient self data s = Ok s' ->
  _num_chains s' = _num_chains s /\ one_list_per_chain s' /\
  tempered_lengths s' = tempered_lengths s.
Proof.
  unfold _remh_step_truncated_memory_efficient. intros Hn E.
  destruct (for_each (tempered_step self data) (range (_num_chains s - 1)) s)
    as [s1|e] eqn:E1; cbn [bind] in E; [|discriminate].
  destruct (tempered_steps_lengths _ _ _ E1) as [Hn1 Hl1].
  assert (Hone : one_list_per_chain s1).
  { unfold one_list_per_chain in *.
    rewrite <- (length_map (@List.length (node M))), Hl1, length_map. lia. }
  destruct (last_chain_step_lengths _ Hone E) as (Hn2 & Hone2 & Ht2).
  split; [lia|]. split; [exact Hone2|].
  rewrite Ht2. unfold tempered_lengths. now rewrite Hn1, Hl1.
Qed.

(** ** The exchanges *)

Lemma swap_tempered_chains_lengths (s s' : @state M G) (g : G) (j : nat) :
  swap_tempered_chains s g j = Ok s' ->
  _num_chains s' = _num_chains s /\
  _num_exchange s' = _num_exchange s /\
  map (@List.length (node M)) (_tmp_metatree_lists s')
  = map (@List.length (node M)) (_tmp_metatree_lists s).
Proof.
  unfold swap_tempered_chains. intros E. bind_steps E.
  inversion E; subst s'. clear E.
  cbn [with_exchange_list with_chains _num_chains _num_exchange
       _tmp_metatree_lists].
  split; [reflexivity|]. split; [reflexivity|].
  match goal with
  | E1 : setitem (_tmp_metatree_lists s) (j + 1) ?va = Ok ?l1,
    E2 : setitem ?l1 j ?vb = Ok ?l2,
    Gj : getitem (_tmp_metatree_lists s) j = Ok ?lj,
    Gj1 : getitem (_tmp_metatree_lists s) (j + 1) = Ok ?lj1,
    Sa : setlast ?lj1 _ = Ok ?va,
    Sb : setlast ?lj _ = Ok ?vb |- _ =>
      transitivity (map (@List.length (node M)) l1);
      [ eapply setitem_same_length with (a := lj);
        [exact E2
        |erewrite getitem_setitem_other; [exact Gj|exact E1|lia]
        |eapply setlast_length; exact Sb]
      | eapply setitem_same_length with (a := lj1);
        [exact E1|exact Gj1|eapply setlast_length; exact Sa] ]
  end.
Qed.

Lemma swap_with_last_chain_lengths (s s' : @state M G) (g : G) (j : nat) :
  one_list_per_chain s -> (j + 1 = _num_chains s - 1)%nat ->
  swap_with_last_chain s g j = Ok s' ->
  _num_chains s' = _num_chains s /\
  _num_exchange s' = _num_exchange s /\
  one_list_per_chain s' /\
  tempered_lengths s' = tempered_lengths s.
Proof.
  unfold one_list_per_chain, tempered_lengths, swap_with_last_chain.
  intros Hn Hj E. bind_steps E. inversion E; subst s'. clear E.
  cbn [with_l_list with_exchange_list with_chains _num_chains _num_exchange
       _tmp_metatree_lists].
  split; [reflexivity|]. split; [reflexivity|].
  match goal with
  | E1 : setitem (_tmp_metatree_lists s) (j + 1) ?va = Ok ?l1,
    E2 : setitem ?l1 j ?vb = Ok ?l2,
    Gj : getitem (_tmp_metatree_lists s) j = Ok ?lj,
    Sb : setlast ?lj _ = Ok ?vb |- _ =>
      rewrite Hj in E1;
      destruct (@setitem_last_lengths _ _ _ _ _ Hn E1) as [Hl1 Hf1];
      assert (Hm : map (@List.length (node M)) l2
                   = map (@List.length (node M)) l1)
        by (eapply setitem_same_length with (a := lj);
            [exact E2
            |erewrite getitem_setitem_other; [exact Gj|exact E1|lia]
            |eapply setlast_length; exact Sb])
  end.
  split.
  - rewrite <- (length_map (@List.length (node M))), Hm, length_map.
    exact Hl1.
  - rewrite Hm. exact Hf1.
Qed.

Lemma choice_in_range (g g1 : G) (n j : nat) :
  rng_choice g (range n) = Ok (j, g1) -> (j < n)%nat.
Proof.
  unfold range. destruct n as [|n].
  - cbn [seq]. rewrite rng_choice_empty. discriminate.
  - intros E. cbn [seq] in E.
    destruct (rng_choice_in g 0%nat (seq 1 n)) as (y & g' & Ey & Hin).
    rewrite Ey in E. inversion E; subst.
    change (0%nat :: seq 1 n) with (seq 0 (S n)) in Hin.
    apply in_seq in Hin. lia.
Qed.

Lemma exchange_attempt_lengths (s s' : @state M G) :
  one_list_per_chain s ->
  exchange_attempt s = Ok s' ->
  _num_chains s' = _num_chains s /\
  _num_exchange s' = _num_exchange s /\
  one_list_per_chain s' /\
  tempered_lengths s' = tempered_lengths s.
Proof.
  unfold exchange_attempt. intros Hn E.
  destruct (rng_choice (rng s) (range (_num_chains s - 1)))
    as [[j g1]|e] eqn:Ec; cbn [bind] in E; [|discriminate].
  pose proof (choice_in_range _ _ Ec) as Hj.
  destruct (rng_random g1) as [u g2]. bind_steps E.
  destruct (ltb _ _).
  - destruct (Nat.eqb_spec j (_num_chains s - 2)) as [Hlast|Hnot].
    + apply swap_with_last_chain_lengths in E; [exact E|exact Hn|lia].
    + apply swap_tempered_chains_lengths in E.
      destruct E as (E1 & E2 & E3). split; [exact E1|]. split; [exact E2|].
      unfold one_list_per_chain, tempered_lengths in *. rewrite E1, E3.
      split; [|reflexivity].
      rewrite <- (length_map (@List.length (node M))), E3, length_map.
      exact Hn.
  - inversion E; subst s'.
    cbn [with_chains _num_chains _num_exchange _tmp_metatree_lists].
    unfold one_list_per_chain, tempered_lengths.
    cbn [with_chains _num_chains _tmp_metatree_lists]. auto.
Qed.

Lemma exchange_attempts_lengths : forall n (s s' : @state M G),
  one_list_per_chain s ->
  repeatM n exchange_attempt s = Ok s' ->
  _num_chains s' = _num_chains s /\
  one_list_per_chain s' /\
  tempered_lengths s' = tempered_lengths s.
Proof.
  induction n as [|n IH]; intros s s' Hn E; simpl in E.
  - inversion E; subst. auto.
  - destruct (exchange_attempt s) as [s1|e] eqn:E1; [|discriminate].
    destruct (exchange_attempt_lengths Hn E1) as (Q1 & _ & Q2 & Q3).
    destruct (IH _ _ Q2 E) as (Q4 & Q5 & Q6).
    split; [lia|]. split; [exact Q5|]. now rewrite Q6.
Qed.

Lemma sweep_lengths (data : dataset) (s s' : @state M G) (i : nat) :
  one_list_per_chain s ->
  sweep self data s i = Ok s' ->
  _num_chains s' = _num_chains s /\ one_list_per_chain s' /\
  tempered_lengths s' = tempered_lengths s.
Proof.
  unfold sweep. intros Hn E.
  destruct (_remh_step_truncated_memory_efficient self data s) as [s1|e]
    eqn:E1; cbn [bind] in E; [|discriminate].
  destruct (remh_step_lengths _ Hn E1) as (Q1 & Q2 & Q3).
  destruct ((1 <? _num_chains s1)%nat && (i mod _num_interval s1 =? 0)%nat).
  - unfold _replica_exchange_memory_efficient in E.
    apply exchange_attempts_lengths in E; [|exact Q2].
    destruct E as (Q4 & Q5 & Q6).
    unfold one_list_per_chain, tempered_lengths in *.
    cbn [with_exchange_list _num_chains _tmp_metatree_lists] in *.
    split; [lia|]. split; [exact Q5|]. now rewrite Q6.
  - inversion E; subst s'. auto.
Qed.

Lemma sweeps_lengths (data : dataset) : forall ixs (s s' : @state M G),
  one_list_per_chain s ->
  for_each (sweep self data) ixs s = Ok s' ->
  _num_chains s' = _num_chains s /\ one_list_per_chain s' /\
  tempered_lengths s' = tempered_lengths s.
Proof.
  induction ixs as [|i ixs IH]; intros s s' Hn E; cbn [for_each] in E.
  - inversion E; subst. auto.
  - destruct (sweep self data s i) as [s1|e] eqn:E1; [|discriminate].
    destruct (sweep_lengths _ _ Hn E1) as (Q1 & Q2 & Q3).
    destruct (IH _ _ Q2 E) as (Q4 & Q5 & Q6).
    split; [lia|]. split; [exact Q5|]. now rewrite Q6.
Qed.

(** ** The whole run *)

Lemma make_roots_length (sm : M) (nc : nat) : forall n (g g' : G) roots,
  make_roots self g sm nc n = Ok (roots, g') -> List.length roots = n.
Proof.
  induction n as [|n IH]; intros g g' roots E; cbn [make_roots] in E.
  - now inversion E.
  - bind_steps E. inversion E; subst. simpl. f_equal. eapply IH. eassumption.
Qed.

Lemma generate_initial_length (kw : kwargs) (nc : nat) (data : dataset) :
  forall roots (g g' : G) roots' l_lasts,
    generate_initial self kw nc data g roots = Ok (roots', l_lasts, g') ->
    List.length roots' = List.length roots /\
    List.length l_lasts = List.length roots.
Proof.
  induction roots as [|root roots IH]; intros g g' roots' l_lasts E;
    cbn [generate_initial] in E.
  - inversion E; subst. split; reflexivity.
  - bind_steps E. inversion E; subst. simpl.
    match goal with
    | Eg : generate_initial _ _ _ _ _ roots = Ok _ |- _ =>
        destruct (IH _ _ _ _ Eg) as [Q1 Q2]
    end. split; lia.
Qed.

Lemma start_lengths (data : dataset) (kw : kwargs) g nc n
  (roots : list (node M)) l_lasts :
  start self data kw = Ok (g, nc, n, roots, l_lasts) ->
  List.length roots = n /\ List.length l_lasts = n.
Proof.
  unfold start. intros E. bind_steps E.
  destruct (negb _); [discriminate|]. bind_steps E. inversion E; subst.
  match goal with
  | Em : make_roots _ _ _ _ _ = Ok _,
    Eg : generate_initial _ _ _ _ _ _ = Ok _ |- _ =>
      pose proof (make_roots_length _ _ _ _ Em) as Q1;
      destruct (generate_initial_length _ _ _ _ _ Eg) as [Q2 Q3]
  end.
  match goal with
  | Ep : pos_int _ _ = Ok _ |- _ => clear Ep
  end.
  split; congruence.
Qed.

Lemma singletons_lengths (roots : list (node M)) :
  map (@List.length (node M)) (map (fun r => [r]) roots)
  = repeat 1%nat (List.length roots).
Proof. induction roots as [|r roots IH]; simpl; [reflexivity|now rewrite IH]. Qed.

Lemma firstn_repeat {A} (a : A) : forall m n,
  (m <= n)%nat -> firstn m (repeat a n) = repeat a m.
Proof.
  induction m as [|m IH]; intros [|n] Hmn; simpl; try reflexivity; [lia|].
  f_equal. apply IH. lia.
Qed.

(** The tempered chains are kept in constant memory.  In the state a run of
    [_REMTMCMC] leaves, every chain but the last holds exactly one tree,
    whatever the numbers of sweeps and of exchanges were and whatever was
    accepted: a local step and a swap replace the tree of a tempered chain,
    and only the last chain appends. *)
Theorem tempered_chains_hold_one_tree (data : dataset) (kw : kwargs)
  (s : @state M G) (r : list (node M) * list R) :
  _REMTMCMC self data kw = Ok (Some s, r) ->
  one_list_per_chain s /\
  tempered_lengths s = repeat 1%nat (_num_chains s - 1).
Proof.
  unfold _REMTMCMC. intros E.
  destruct (start self data kw) as [[[[[g nc] n] roots] l_lasts]|e] eqn:Es;
    cbn [bind] in E; [|discriminate].
  destruct (start_lengths _ _ Es) as [Hr _].
  destruct (c_dim_features (consts self) =? 1)%nat.
  { bind_steps E. discriminate E. }
  destruct (configure self kw g nc n roots l_lasts) as [s0|e] eqn:Ec;
    cbn [bind] in E; [|discriminate].
  assert (Hs0 : one_list_per_chain s0 /\ _num_chains s0 = n /\
               tempered_lengths s0 = repeat 1%nat (n - 1)).
  { unfold configure in Ec. bind_steps Ec. inversion Ec; subst s0.
    unfold one_list_per_chain, tempered_lengths.
    cbn [_num_chains _tmp_metatree_lists].
    rewrite length_map, singletons_lengths, Hr.
    split; [reflexivity|]. split; [reflexivity|].
    apply firstn_repeat. lia. }
  destruct Hs0 as (Hone0 & Hn0 & Ht0).
  unfold sample in E.
  destruct (for_each (sweep self data) (range (Z.to_nat (burn_in kw))) s0)
    as [s1|e] eqn:E1; cbn [bind] in E; [|discriminate].
  apply sweeps_lengths in E1; [|exact Hone0].
  destruct E1 as (Hn1 & Hone1 & Ht1).
  bind_steps E. inversion E; subst s r. clear E.
  match goal with
  | E3 : for_each (sweep self data) _ (with_chains _ _ _ _ _ _) = Ok _ |- _ =>
      apply sweeps_lengths in E3; [destruct E3 as (Hn3 & Hone3 & Ht3)|]
  end.
  - cbn [with_chains _num_chains] in Hn3.
    unfold tempered_lengths in Ht3 at 2.
    cbn [with_chains _num_chains _tmp_metatree_lists] in Ht3.
    fold (tempered_lengths s1) in Ht3.
    split; [exact Hone3|]. rewrite Ht3, Ht1, Ht0. f_equal. lia.
  - exact Hone1.
Qed.

(** With exactly one feature [_REMTMCMC] samples nothing either: once the
    entry checks and the forced generation of the initial trees passed, it
    returns the initial tree of the last chain with the weight [1], before
    [beta_vec], [num_interval] and [num_exchange] are looked at. *)
Theorem remtmcmc_single_feature_short_circuit (data : dataset) (kw : kwargs)
  (g : G) (num_children n : nat) (roots : list (node M)) (l_lasts : list R) :
  c_dim_features (consts self) = 1%nat ->
  start self data kw = Ok (g, num_children, n, roots, l_lasts) ->
  exists root,
    getlast roots = Ok root /\
    _REMTMCMC self data kw = Ok (None, ([root], [1%R])).
Proof.
  intros Hf Es. unfold _REMTMCMC. rewrite Es. cbn [bind]. rewrite Hf.
  cbn [Nat.eqb].
  destruct (start_lengths _ _ Es) as [Hr _].
  pose proof (start_num_chains _ _ _ Es) as Hn.
  destruct (nonempty_last_elt (l := roots)) as (init & root & ->).
  { intros ->. simpl in Hr. lia. }
  exists root. split; [apply getlast_app|].
  rewrite length_app in Hr. cbn [List.length] in Hr.
  replace (n - 1)%nat with (List.length (map (fun r : node M => [r]) init))
    by (rewrite length_map; lia).
  rewrite map_app. cbn [map]. rewrite getitem_app_here. reflexivity.
Qed.

End WithInterfaces.

(** ** The default inverse temperatures *)

Lemma default_beta_entry (n i : nat) (b : R) :
  getitem (default_beta_vec n) i = Ok b ->
  (i < n)%nat /\ b = ((INR i + 1) / INR n)%R.
Proof.
  unfold default_beta_vec, range, getitem. intros E.
  destruct (nth_error (map (fun i => ((INR i + 1) / INR n)%R) (seq 0 n)) i)
    as [x|] eqn:Ex; [|discriminate].
  inversion E; subst x. rewrite nth_error_map in Ex.
  destruct (nth_error (seq 0 n) i) as [j|] eqn:Ej; [|discriminate].
  assert (Hi : (i < n)%nat).
  { assert (Hs : nth_error (seq 0 n) i <> None) by congruence.
    apply nth_error_Some in Hs. now rewrite length_seq in Hs. }
  rewrite nth_error_seq in Ej.
  destruct (Nat.ltb_spec i n); [|lia]. inversion Ej; subst j.
  cbn [option_map Nat.add] in Ex. inversion Ex. split; [exact Hi|reflexivity].
Qed.

(** The inverse temperatures [_REMTMCMC] uses when [beta_vec] is not given,
    [(np.arange(num_chains)+1) / num_chains], are a ladder: as many values
    as chains, each in (0,1], strictly increasing, the last one equal to 1;
    they pass the range check of [beta_vec]. *)
Theorem default_beta_vec_is_a_ladder (n : nat) :
  (1 <= n)%nat ->
  set_beta_vec n None = Ok (default_beta_vec n) /\
  List.length (default_beta_vec n) = n /\
  Forall (fun b => (0 < b <= 1)%R) (default_beta_vec n) /\
  (forall i j bi bj, (i < j)%nat ->
     getitem (default_beta_vec n) i = Ok bi ->
     getitem (default_beta_vec n) j = Ok bj -> (bi < bj)%R) /\
  getlast (default_beta_vec n) = Ok 1%R /\
  beta_out_of_range (default_beta_vec n) = false.
Proof.
  intros Hn.
  assert (Hpos : (0 < INR n)%R) by (apply lt_0_INR; lia).
  assert (Hall : Forall (fun b => (0 < b <= 1)%R) (default_beta_vec n)).
  { apply Forall_forall. intros b Hb. unfold default_beta_vec, range in Hb.
    apply in_map_iff in Hb. destruct Hb as (i & <- & Hi).
    apply in_seq in Hi.
    assert (Hi' : (INR i + 1 <= INR n)%R).
    { rewrite <- S_INR. apply le_INR. lia. }
    pose proof (pos_INR i). split.
    - apply Rdiv_lt_0_compat; lra.
    - apply Rmult_le_reg_r with (INR n); [exact Hpos|].
      unfold Rdiv. rewrite Rmult_assoc, Rinv_l by lra. lra. }
  split; [reflexivity|]. split.
  { unfold default_beta_vec, range. now rewrite length_map, length_seq. }
  split; [exact Hall|]. split; [|split].
  - intros i j bi bj Hij Ei Ej.
    apply default_beta_entry in Ei, Ej.
    destruct Ei as [_ ->], Ej as [_ ->].
    apply Rmult_lt_compat_r; [now apply Rinv_0_lt_compat|].
    apply Rplus_lt_compat_r. apply lt_INR. exact Hij.
  - unfold default_beta_vec, range.
    replace n with (n - 1 + 1)%nat at 1 by lia.
    rewrite seq_app, map_app. cbn [seq map Nat.add]. rewrite getlast_app.
    f_equal. rewrite <- S_INR. replace (S (n - 1)) with n by lia.
    field. lra.
  - destruct (beta_out_of_range (default_beta_vec n)) eqn:Eb; [|reflexivity].
    apply beta_out_of_range_iff in Eb. destruct Eb as (x & Hx & Hout).
    rewrite Forall_forall in Hall. pose proof (Hall x Hx). lra.
Qed.

End ReplicaFacts.

(* ================================================================== *)
(** * More on the entry point and its algorithms *)
(* ================================================================== *)

Module EnsembleFacts.

Import PyFacts Learner Ensemble Shape.

(** ** Sums and positive vectors *)

Lemma sum_scaled (k : R) (l : list R) :
  Np.sum (map (fun x => (x * k)%R) l) = (Np.sum l * k)%R.
Proof.
  unfold Np.sum. induction l as [|x l IH]; simpl; [ring|].
  rewrite IH. ring.
Qed.

Lemma sum_positive (l : list R) :
  l <> [] -> Forall (fun x => (0 < x)%R) l -> (0 < Np.sum l)%R.
Proof.
  unfold Np.sum. intros Hne Hall. induction Hall as [|x l Hx Hl IH];
    [contradiction|].
  simpl. destruct l as [|y l]; [simpl; lra|].
  assert (0 < fold_right Rplus 0 (y :: l))%R by (apply IH; discriminate).
  lra.
Qed.

Lemma sum_normalised (ws : list R) :
  Np.sum ws <> 0%R -> Np.sum (normalised ws) = 1%R.
Proof.
  intros Hs. unfold normalised, Rdiv. rewrite sum_scaled. now apply Rinv_r.
Qed.

Section WithInterfaces.
Context {M G : Type} `{SubModel M} `{Generator G} `{Seeding G}
  `{Proposal M G} `{Forest M}.

(** ** The loop of [_given_MT] *)

Lemma given_MT_loop_spec (c : constants) (data : dataset) :
  forall (trees : list (node M)) (pre cur : list R),
    List.length cur = List.length trees ->
    Forall (fun t => exists r, tree_update c t data = Ok r) trees ->
    exists vs trees',
      List.length vs = List.length trees /\
      List.length trees' = List.length trees /\
      Forall2 (fun t vt => tree_update c t data = Ok vt)
        trees (combine vs trees') /\
      given_MT_loop c trees data (List.length pre) (pre ++ cur)
      = Ok (trees',
            pre ++ map (fun lv => (fst lv + snd lv)%R) (combine cur vs)).
Proof.
  induction trees as [|t trees IH]; intros pre cur Hlen Hall.
  - destruct cur; [|discriminate]. exists [], []. cbn.
    repeat split; constructor.
  - destruct cur as [|l cur]; [discriminate|].
    inversion Hall as [|t0 ts0 [[v t'] Hu] Hrest]; subst.
    destruct (IH (pre ++ [(l + v)%R]) cur) as (vs & trees' & Hv & Ht & Hf & E);
      [simpl in Hlen; lia|exact Hrest|].
    exists (v :: vs), (t' :: trees'). cbn [List.length combine map].
    split; [lia|]. split; [lia|]. split; [constructor; assumption|].
    cbn [given_MT_loop]. unfold tree_update in Hu. rewrite Hu. cbn [bind].
    rewrite getitem_app_here. cbn [bind]. rewrite setitem_app_here.
    cbn [bind].
    replace (S (List.length pre)) with (List.length (pre ++ [(l + v)%R]))
      by (rewrite length_app; simpl; lia).
    replace (pre ++ (l + v)%R :: cur) with ((pre ++ [(l + v)%R]) ++ cur)
      by (now rewrite <- app_assoc).
    rewrite E. cbn [bind fst snd]. now rewrite <- app_assoc.
Qed.

Lemma exp_of_log_weight (p v : R) :
  (0 < p)%R -> exp (log p + v) = (p * exp v)%R.
Proof. intros Hp. unfold log. now rewrite exp_plus, exp_ln. Qed.

Lemma log_weights (ps vs : list R) :
  Forall (fun p => (0 < p)%R) ps ->
  map exp (map (fun lv => (fst lv + snd lv)%R) (combine (map log ps) vs))
  = bayes_weights ps vs.
Proof.
  unfold bayes_weights. intros Hpos. revert vs.
  induction Hpos as [|p ps Hp _ IH]; intros [|v vs]; cbn; try reflexivity.
  now rewrite IH, exp_of_log_weight.
Qed.

Lemma softmax_shift (m : R) (lp : list R) :
  Np.sum (map exp lp) <> 0%R ->
  let unnormalised := map (fun l => exp (l - m)) lp in
  map (fun p => (p / Np.sum unnormalised)%R) unnormalised
  = normalised (map exp lp).
Proof.
  intros Hs unnormalised.
  assert (Hu : unnormalised = map (fun x => (x * exp (- m))%R) (map exp lp)).
  { unfold unnormalised. rewrite map_map. apply map_ext. intros l.
    unfold Rminus. now rewrite exp_plus. }
  rewrite Hu, sum_scaled. unfold normalised. rewrite map_map.
  apply map_ext. intros x. pose proof (exp_pos (- m)). field. split; lra.
Qed.

Lemma bayes_weights_positive : forall ps vs : list R,
  Forall (fun p => (0 < p)%R) ps ->
  Forall (fun w => (0 < w)%R) (bayes_weights ps vs).
Proof.
  unfold bayes_weights. intros ps vs Hpos. revert vs.
  induction Hpos as [|p ps Hp _ IH]; intros [|v vs]; cbn; constructor.
  - pose proof (exp_pos v). nra.
  - apply IH.
Qed.

(** [_given_MT] applies Bayes' rule to the weights of the ensemble.  On an
    ensemble of well-formed trees with positive weights [ps] and well-formed
    rows, every tree is updated on the whole sample, which gives its log
    marginal likelihood [v]; the new weight of a tree is
    [p * exp(v)] divided by the sum of these products over the ensemble.
    The new weights sum to 1, and the trees keep their places and their
    shapes. *)
Theorem given_MT_applies_bayes_rule (self : learner M) (data : dataset)
  (t : node M) (trees : list (node M)) (ps : list R) :
  hn_metatree_list self = t :: trees ->
  hn_metatree_prob_vec self = Some ps ->
  List.length ps = List.length (t :: trees) ->
  Forall (fun p => (0 < p)%R) ps ->
  forallb (Recursion.well_formed (consts self)) (t :: trees) = true ->
  forallb (Recursion.well_formed_row (consts self)) data = true ->
  exists vs trees',
    List.length vs = List.length (t :: trees) /\
    Forall2 (fun t vt => tree_update (consts self) t data = Ok vt)
      (t :: trees) (combine vs trees') /\
    map shape_of trees' = map shape_of (t :: trees) /\
    _given_MT self data
    = Ok (with_posterior self trees'
            (Some (normalised (bayes_weights ps vs)))) /\
    Np.sum (normalised (bayes_weights ps vs)) = 1%R.
Proof.
  intros Hl Hp Hlen Hpos W Wd.
  assert (Hall : Forall (fun t => exists r,
                   tree_update (consts self) t data = Ok r) (t :: trees)).
  { apply Forall_forall. intros t0 Hin.
    rewrite forallb_forall in W. unfold tree_update.
    destruct sm_is_linearregression;
      apply RecursionFacts.update_total; auto. }
  destruct (@given_MT_loop_spec (consts self) data (t :: trees) []
              (map log ps)) as (vs & trees' & Hv & Ht & Hf & E);
    [now rewrite length_map|exact Hall|].
  cbn [List.length app] in E.
  exists vs, trees'. split; [exact Hv|]. split; [exact Hf|].
  assert (Hne : bayes_weights ps vs <> []).
  { unfold bayes_weights. destruct ps as [|p ps]; [discriminate|].
    destruct vs as [|v vs]; [discriminate|]. discriminate. }
  assert (Hsum : (0 < Np.sum (bayes_weights ps vs))%R).
  { apply sum_positive; [exact Hne|now apply bayes_weights_positive]. }
  split; [|split].
  - clear -Hf Ht Hv.
    assert (Hlen : List.length trees' = List.length vs) by lia.
    clear Ht Hv. revert vs trees' Hlen Hf.
    generalize (t :: trees) as ts.
    induction ts as [|t0 ts IH]; intros vs trees' Hlen Hf.
    + inversion Hf as [E0|]. destruct vs, trees'; try discriminate.
      reflexivity.
    + destruct vs as [|v vs]; [inversion Hf|].
      destruct trees' as [|t' trees']; [discriminate|].
      cbn [combine] in Hf. inversion Hf as [|? ? ? ? Hu Hrest]; subst.
      cbn [map]. f_equal.
      * unfold tree_update in Hu.
        destruct sm_is_linearregression;
          eapply RecursionShape.update_shape; exact Hu.
      * apply (IH vs); [simpl in Hlen; lia|exact Hrest].
  - unfold _given_MT. rewrite Hl, Hp. rewrite E. cbn [bind].
    set (lp := map (fun lv => (fst lv + snd lv)%R)
                 (combine (map log ps) vs)) in *.
    assert (Hw : map exp lp = bayes_weights ps vs)
      by now apply log_weights.
    clearbody lp. destruct lp as [|l lp'] eqn:Elp.
    { simpl in Hw. congruence. }
    cbn [np_max bind]. rewrite <- Elp in *.
    rewrite softmax_shift by (rewrite Hw; lra). now rewrite Hw.
  - apply sum_normalised. lra.
Qed.

(** ** [_check_sample] *)

Lemma categorical_out_of_range_false (c : constants) (data : dataset) :
  forall todo i,
    categorical_out_of_range c data i todo = Ok false ->
    forall col, (i <= col < i + todo)%nat ->
      exists bound,
        nth_error (c_num_children_vec c) (c_dim_continuous c + col)
        = Some bound /\
        Forall (fun r => (nth col (x_categorical r) 0 < bound)%nat) data.
Proof.
  induction todo as [|todo IH]; intros i E col Hcol; [lia|].
  cbn [categorical_out_of_range] in E.
  destruct data as [|r0 data0] eqn:Ed; [discriminate|]. rewrite <- Ed in *.
  unfold getitem in E.
  destruct (nth_error (c_num_children_vec c) (c_dim_continuous c + i))
    as [bound|] eqn:Eb; cbn [bind] in E; [|discriminate].
  destruct (existsb _ data) eqn:Ee; [discriminate|].
  destruct (Nat.eq_dec col i) as [->|Hne].
  - exists bound. split; [exact Eb|].
    apply Forall_forall. intros r Hr.
    destruct (Nat.leb_spec bound (nth i (x_categorical r) 0%nat)) as [Hle|Hlt];
      [|exact Hlt].
    assert (existsb (fun r => (bound <=? nth i (x_categorical r) 0)%nat) data
            = true).
    { apply existsb_exists. exists r. split; [exact Hr|].
      now apply Nat.leb_le. }
    congruence.
  - apply (IH (S i) E). lia.
Qed.

Lemma in_range_of_nth (col bound : nat) (data : dataset) :
  Forall (fun r => (col < List.length (x_categorical r))%nat) data ->
  Forall (fun r => (nth col (x_categorical r) 0 < bound)%nat) data ->
  Routing.categorical_in_range col bound data.
Proof.
  unfold Routing.categorical_in_range. intros Hlen Hin.
  rewrite Forall_forall in *. intros r Hr.
  exists (nth col (x_categorical r) 0%nat). split; [|now apply Hin].
  apply nth_error_nth'. now apply Hlen.
Qed.

(** What a sample that passed [_check_sample] is like, for a learner with
    at least one feature: it has the rows and the targets of the sample
    given, every row has [c_dim_continuous] continuous and
    [c_dim_categorical] categorical values, and every categorical value is
    below the number of children of its feature, so that it is the index of
    a child. *)
Theorem check_sample_guarantees_routable_rows (self : learner M)
  (data data' : dataset) :
  (0 < c_dim_features (consts self))%nat ->
  _check_sample self data = Ok data' ->
  List.length data' = List.length data /\
  Recursion.targets data' = Recursion.targets data /\
  forallb (Recursion.well_formed_row (consts self)) data' = true /\
  forall col, (col < c_dim_categorical (consts self))%nat ->
    exists bound,
      nth_error (c_num_children_vec (consts self))
        (c_dim_continuous (consts self) + col) = Some bound /\
      Routing.categorical_in_range col bound data'.
Proof.
  intros Hf E. unfold _check_sample in E.
  set (c := consts self) in *.
  match type of E with
  | bind ?m _ = _ => destruct m as [d1|e] eqn:E1
  end; cbn [bind] in E; [|discriminate].
  destruct (sm_check_sample _ _); cbn [bind] in E; [|discriminate].
  inversion E; subst d1. clear E.
  unfold c_dim_features in Hf. fold c in Hf.
  assert (Hlens : forall rows : dataset,
    forallb (fun r => (List.length (x_categorical r)
                       =? c_dim_categorical c)%nat) rows = true ->
    forall col, (col < c_dim_categorical c)%nat ->
    Forall (fun r => (col < List.length (x_categorical r))%nat) rows).
  { intros rows Hr col Hcol. apply Forall_forall. intros r Hin.
    rewrite forallb_forall in Hr. specialize (Hr r Hin).
    apply Nat.eqb_eq in Hr. lia. }
  destruct (Nat.ltb_spec 0 (c_dim_continuous c)) as [Hc|Hc];
    destruct (Nat.ltb_spec 0 (c_dim_categorical c)) as [Hk|Hk];
    cbn [andb] in E1.
  - destruct (forallb (fun r => (List.length (x_continuous r)
                                 =? c_dim_continuous c)%nat) data) eqn:Ec;
      cbn [negb] in E1; [|discriminate].
    destruct (forallb (fun r => (List.length (x_categorical r)
                                 =? c_dim_categorical c)%nat) data) eqn:Ek;
      cbn [negb] in E1; [|discriminate].
    destruct (categorical_out_of_range c data 0 (c_dim_categorical c))
      as [[|]|e] eqn:Eo; cbn [bind] in E1; try discriminate.
    inversion E1; subst data'.
    split; [reflexivity|]. split; [reflexivity|]. split.
    + apply forallb_forall. intros r Hr. unfold Recursion.well_formed_row.
      rewrite forallb_forall in Ec, Ek. fold c.
      now rewrite (Ec r Hr), (Ek r Hr).
    + intros col Hcol.
      destruct (@categorical_out_of_range_false c data _ _ Eo col)
        as (bound & Eb & Hin); [lia|].
      exists bound. split; [exact Eb|].
      apply in_range_of_nth; [now apply Hlens|exact Hin].
  - destruct (forallb (fun r => (List.length (x_continuous r)
                                 =? c_dim_continuous c)%nat) data) eqn:Ec;
      cbn [negb] in E1; [|discriminate].
    inversion E1; subst data'.
    split; [now rewrite length_map|]. split.
    { unfold Recursion.targets. rewrite map_map. reflexivity. }
    split; [|intros col Hcol; lia].
    apply forallb_forall. intros r Hr. apply in_map_iff in Hr.
    destruct Hr as (r0 & <- & Hr0). unfold Recursion.well_formed_row.
    cbn [x_continuous x_categorical List.length]. fold c.
    rewrite forallb_forall in Ec. rewrite (Ec r0 Hr0).
    replace (c_dim_categorical c) with 0%nat by lia. reflexivity.
  - destruct (forallb (fun r => (List.length (x_categorical r)
                                 =? c_dim_categorical c)%nat) data) eqn:Ek;
      cbn [negb] in E1; [|discriminate].
    destruct (categorical_out_of_range c data 0 (c_dim_categorical c))
      as [[|]|e] eqn:Eo; cbn [bind] in E1; try discriminate.
    inversion E1; subst data'.
    split; [now rewrite length_map|]. split.
    { unfold Recursion.targets. rewrite map_map. reflexivity. }
    split.
    + apply forallb_forall. intros r Hr. apply in_map_iff in Hr.
      destruct Hr as (r0 & <- & Hr0). unfold Recursion.well_formed_row.
      cbn [x_continuous x_categorical List.length]. fold c.
      rewrite forallb_forall in Ek. rewrite (Ek r0 Hr0).
      replace (c_dim_continuous c) with 0%nat by lia. reflexivity.
    + intros col Hcol.
      destruct (@categorical_out_of_range_false c data _ _ Eo col)
        as (bound & Eb & Hin); [lia|].
      exists bound. split; [exact Eb|].
      unfold Routing.categorical_in_range.
      apply Forall_forall. intros r Hr. apply in_map_iff in Hr.
      destruct Hr as (r0 & <- & Hr0). cbn [x_categorical].
      pose proof (in_range_of_nth (Hlens data Ek col Hcol) Hin) as Hall.
      unfold Routing.categorical_in_range in Hall.
      rewrite Forall_forall in Hall. now apply Hall.
  - lia.
Qed.

(** ** [_MTRF] *)

Lemma sum_repeat (x : R) : forall n, Np.sum (repeat x n) = (INR n * x)%R.
Proof.
  unfold Np.sum. induction n as [|n IH]; [simpl; ring|].
  cbn [repeat fold_right]. rewrite IH, S_INR. ring.
Qed.

(** [_MTRF] needs binary features: when a feature has a number of children
    other than 2 it raises the parameter format error before the forest is
    grown.  Otherwise, for a forest of [n >= 1] trees, the weights it
    returns sum to 1, it returns one weight for each tree, and the trees it
    returns are trees of the forest in the order of the forest. *)
Theorem mtrf_weights_sum_to_one (self : learner M) (data : dataset)
  (n : nat) :
  (existsb (fun x => negb (x =? 2)%nat) (c_num_children_vec (consts self))
   = true ->
   _MTRF self data n = Raise (ParameterFormatError "c_num_children_vec")) /\
  (forall forest l p,
     (1 <= n)%nat ->
     forest_metatrees self data n = Ok forest ->
     List.length forest = n ->
     _MTRF self data n = Ok (l, p) ->
     Np.sum p = 1%R /\ List.length p = List.length l /\
     subsequence l forest).
Proof.
  split.
  - intros Hb. unfold _MTRF. now rewrite Hb.
  - intros forest l p Hn Ef Hlen E. unfold _MTRF in E.
    destruct (existsb _ _); [discriminate|].
    rewrite Ef in E. cbn [bind] in E.
    assert (Hl : List.length (repeat (1 / INR n)%R n) = List.length forest)
      by (rewrite repeat_length; lia).
    assert (Hpos : Forall (fun p => (0 <= p)%R) (repeat (1 / INR n)%R n)).
    { apply Forall_forall. intros x Hx. apply repeat_spec in Hx. subst x.
      assert (0 < INR n)%R by (apply lt_0_INR; lia).
      apply Rlt_le. apply Rdiv_lt_0_compat; lra. }
    rewrite CompactorFacts.marge_refines in E by assumption.
    destruct (CompactorFacts.merge_into_later_sum (consts self) _ _ Hl E)
      as [Hs Hlp].
    split; [|split; [exact Hlp|]].
    + rewrite Hs, sum_repeat.
      assert (0 < INR n)%R by (apply lt_0_INR; lia). field. lra.
    + eapply CompactorShape.merge_into_later_subsequence. exact E.
Qed.

End WithInterfaces.
End EnsembleFacts.

(* ================================================================== *)
(** * The threshold of a binary split *)
(* ================================================================== *)

Module ThresholdFacts.

Import PyFacts Thresholds.

(** ** [np.unique] *)

Lemma insert_unique_in (v w : R) : forall l,
  In w (insert_unique v l) <-> w = v \/ In w l.
Proof.
  induction l as [|u l IH]; cbn [insert_unique].
  - simpl. intuition.
  - destruct (Rlt_dec v u); [simpl; intuition|].
    destruct (Rlt_dec u v).
    + simpl. rewrite IH. intuition.
    + assert (v = u) by lra. subst. simpl. intuition.
Qed.

Lemma insert_unique_sorted (v : R) : forall l,
  StronglySorted Rlt l -> StronglySorted Rlt (insert_unique v l).
Proof.
  induction l as [|u l IH]; intros Hs; cbn [insert_unique].
  - repeat constructor.
  - inversion Hs as [|u0 l0 Hl Hu]; subst.
    destruct (Rlt_dec v u) as [Hvu|Hvu].
    + constructor; [exact Hs|]. constructor; [exact Hvu|].
      rewrite Forall_forall in *. intros w Hw. specialize (Hu w Hw). lra.
    + destruct (Rlt_dec u v) as [Huv|Huv]; [|exact Hs].
      constructor; [now apply IH|].
      apply Forall_forall. intros w Hw. apply insert_unique_in in Hw.
      destruct Hw as [->|Hw]; [exact Huv|].
      rewrite Forall_forall in Hu. now apply Hu.
Qed.

Lemma np_unique_in (x : list R) (w : R) : In w (np_unique x) <-> In w x.
Proof.
  induction x as [|v x IH]; [reflexivity|].
  cbn [np_unique fold_right]. fold (np_unique x).
  rewrite insert_unique_in, IH. simpl. intuition.
Qed.

Lemma np_unique_sorted (x : list R) : StronglySorted Rlt (np_unique x).
Proof.
  induction x as [|v x IH]; [constructor|].
  cbn [np_unique fold_right]. now apply insert_unique_sorted.
Qed.

Lemma two_values_two_entries (x : list R) (a b : R) :
  In a x -> In b x -> a <> b -> (2 <= List.length (np_unique x))%nat.
Proof.
  intros Ha Hb Hab. apply np_unique_in in Ha, Hb.
  destruct (np_unique x) as [|u [|w l]]; simpl in *; try lia;
    intuition congruence.
Qed.

Lemma one_value_one_entry (x : list R) :
  (forall a b, In a x -> In b x -> a = b) ->
  (List.length (np_unique x) <= 1)%nat.
Proof.
  intros Hone. pose proof (np_unique_sorted x) as Hs.
  destruct (np_unique x) as [|u [|w l]] eqn:E; simpl; try lia.
  assert (Hu : In u x) by (apply np_unique_in; rewrite E; now left).
  assert (Hw : In w x) by (apply np_unique_in; rewrite E; right; now left).
  inversion Hs as [|? ? _ Hall]; subst. inversion Hall; subst.
  pose proof (Hone u w Hu Hw). lra.
Qed.

(** ** Sorted lists *)

Lemma sorted_nth (xs : list R) :
  StronglySorted Rlt xs ->
  forall i j, (i < j)%nat -> (j < List.length xs)%nat ->
    (nth i xs 0 < nth j xs 0)%R.
Proof.
  induction 1 as [|u l Hl IH Hu]; intros i j Hij Hj; [simpl in Hj; lia|].
  destruct j as [|j]; [lia|]. simpl in Hj.
  destruct i as [|i]; cbn [nth].
  - rewrite Forall_forall in Hu. apply Hu. apply nth_In. lia.
  - apply IH; lia.
Qed.

Lemma fold_min_head (u : R) : forall l,
  Forall (Rlt u) l -> fold_left Rmin l u = u.
Proof.
  induction l as [|w l IH]; intros Hall; [reflexivity|].
  inversion Hall; subst. cbn [fold_left].
  rewrite Rmin_left by lra. now apply IH.
Qed.

Lemma fold_max_last : forall l (u : R),
  StronglySorted Rlt (u :: l) -> fold_left Rmax l u = last (u :: l) 0%R.
Proof.
  induction l as [|w l IH]; intros u Hs; [reflexivity|].
  inversion Hs as [|? ? Hl Hu]; subst. inversion Hu; subst.
  cbn [fold_left]. rewrite Rmax_right by lra.
  rewrite IH by exact Hl. reflexivity.
Qed.

Lemma last_is_nth (xs : list R) :
  xs <> [] -> last xs 0%R = nth (List.length xs - 1) xs 0%R.
Proof.
  intros Hne. destruct (nonempty_last_elt Hne) as (init & a & ->).
  rewrite last_last, length_app. cbn [List.length].
  replace (List.length init + 1 - 1)%nat with (List.length init) by lia.
  now rewrite nth_middle.
Qed.

(** ** Sums of a prefix and of a suffix *)

Lemma sum_app (l1 l2 : list R) :
  Np.sum (l1 ++ l2) = (Np.sum l1 + Np.sum l2)%R.
Proof.
  unfold Np.sum. induction l1 as [|v l1 IH]; simpl; [ring|].
  rewrite IH. ring.
Qed.

Lemma firstn_next (xs : list R) (m : nat) :
  (m < List.length xs)%nat ->
  firstn (m + 1) xs = firstn m xs ++ [nth m xs 0%R].
Proof.
  revert m. induction xs as [|v xs IH]; intros m Hm; [simpl in Hm; lia|].
  destruct m as [|m]; [reflexivity|].
  simpl in Hm. cbn [Nat.add firstn nth app]. f_equal.
  replace (S m) with (m + 1)%nat at 1 by lia. rewrite Nat.add_comm.
  rewrite Nat.add_comm. apply IH. lia.
Qed.

Lemma skipn_next (xs : list R) (m : nat) :
  (m < List.length xs)%nat ->
  skipn m xs = nth m xs 0%R :: skipn (m + 1) xs.
Proof.
  revert m. induction xs as [|v xs IH]; intros m Hm; [simpl in Hm; lia|].
  destruct m as [|m]; [reflexivity|].
  simpl in Hm. cbn [Nat.add skipn nth]. apply IH. lia.
Qed.

(** ** The loop *)

Lemma metric_is_cut_cost (xs : list R) (m : nat) :
  (m + 1 <= List.length xs)%nat ->
  metric_of (Z.of_nat (m + 1))
    (Np.sum (firstn (m + 1) xs))
    (Np.sum (map (fun v => (v * v)%R) (firstn (m + 1) xs)))
    (Z.of_nat (List.length xs) - Z.of_nat (m + 1))
    (Np.sum (skipn (m + 1) xs))
    (Np.sum (map (fun v => (v * v)%R) (skipn (m + 1) xs)))
  = cut_cost xs m.
Proof.
  intros Hm. unfold metric_of, cut_cost, squared_deviations.
  rewrite length_firstn, length_skipn, Nat.min_l by lia.
  rewrite <- !INR_IZR_INZ. rewrite <- Nat2Z.inj_sub by lia.
  rewrite <- INR_IZR_INZ. reflexivity.
Qed.

Lemma split_start_after (xs : list R) :
  (1 <= List.length xs)%nat ->
  exists st0, split_start xs = Ok st0 /\ after_pass xs 0 st0.
Proof.
  intros Hlen. unfold split_start.
  destruct xs as [|x0 rest]; [simpl in Hlen; lia|].
  unfold getitem. cbn [nth_error bind skipn].
  eexists. split; [reflexivity|].
  unfold after_pass.
  cbn [n_l sum_l sum_sq_l n_r sum_r sum_sq_r tmp_min tmp_th Nat.add firstn
       skipn map].
  assert (Hc : metric_of 1 x0 (x0 * x0)
                 (Z.of_nat (List.length (x0 :: rest)) - 1) (Np.sum rest)
                 (Np.sum (map (fun v => (v * v)%R) rest))
               = cut_cost (x0 :: rest) 0).
  { rewrite <- (metric_is_cut_cost (x0 :: rest) 0) by (simpl; lia).
    cbn [Nat.add firstn skipn map]. unfold Np.sum. cbn [fold_right].
    f_equal; ring. }
  repeat split; try (unfold Np.sum; cbn [fold_right]; ring).
  - lia.
  - exact Hc.
  - intros j Hj. replace j with 0%nat by lia. rewrite Hc. lra.
Qed.

Lemma split_step_after (xs : list R) (m : nat) (st : split_state) :
  (m + 2 <= List.length xs)%nat ->
  after_pass xs m st ->
  exists st', split_step xs st (m + 1) = Ok st' /\ after_pass xs (m + 1) st'.
Proof.
  intros Hm (Hnl & Hsl & Hsql & Hnr & Hsr & Hsqr & Hth & Hmin & Hbest).
  unfold split_step. rewrite RoutingFacts.getitem_nth by lia. cbn [bind].
  set (x_i := nth (m + 1) xs 0%R).
  assert (Hf : firstn (m + 1 + 1) xs = firstn (m + 1) xs ++ [x_i])
    by (apply firstn_next; lia).
  assert (Hk : skipn (m + 1) xs = x_i :: skipn (m + 1 + 1) xs)
    by (apply skipn_next; lia).
  assert (Hsl' : (sum_l st + x_i = Np.sum (firstn (m + 1 + 1) xs))%R).
  { rewrite Hf, sum_app, Hsl. unfold Np.sum. cbn [fold_right]. ring. }
  assert (Hsql' : (sum_sq_l st + x_i * x_i
                   = Np.sum (map (fun v => (v * v)%R)
                               (firstn (m + 1 + 1) xs)))%R).
  { rewrite Hf, map_app, sum_app, Hsql. unfold Np.sum.
    cbn [map fold_right]. ring. }
  assert (Hsr' : (sum_r st - x_i = Np.sum (skipn (m + 1 + 1) xs))%R).
  { rewrite Hsr, Hk. unfold Np.sum. cbn [fold_right]. ring. }
  assert (Hsqr' : (sum_sq_r st - x_i * x_i
                   = Np.sum (map (fun v => (v * v)%R)
                               (skipn (m + 1 + 1) xs)))%R).
  { rewrite Hsqr, Hk. unfold Np.sum. cbn [map fold_right]. ring. }
  assert (Hnl' : (n_l st + 1 = Z.of_nat (m + 1 + 1))%Z) by lia.
  assert (Hnr' : (n_r st - 1
                  = Z.of_nat (List.length xs) - Z.of_nat (m + 1 + 1))%Z)
    by lia.
  assert (Hmetric : metric_of (n_l st + 1) (sum_l st + x_i)
                      (sum_sq_l st + x_i * x_i) (n_r st - 1)
                      (sum_r st - x_i) (sum_sq_r st - x_i * x_i)
                    = cut_cost xs (m + 1)).
  { rewrite Hnl', Hsl', Hsql', Hnr', Hsr', Hsqr'.
    apply metric_is_cut_cost. lia. }
  rewrite Hmetric.
  destruct (ltb (cut_cost xs (m + 1)) (tmp_min st)) eqn:El.
  - apply ltb_true_iff in El. eexists. split; [reflexivity|].
    unfold after_pass.
    cbn [n_l sum_l sum_sq_l n_r sum_r sum_sq_r tmp_min tmp_th].
    repeat (split; [assumption || lia || reflexivity|]).
    intros j Hj. destruct (Nat.eq_dec j (m + 1)) as [->|Hne]; [lra|].
    assert (tmp_min st <= cut_cost xs j)%R by (apply Hbest; lia). lra.
  - apply ltb_false_iff in El. eexists. split; [reflexivity|].
    unfold after_pass.
    cbn [n_l sum_l sum_sq_l n_r sum_r sum_sq_r tmp_min tmp_th].
    repeat (split; [assumption || lia|]).
    intros j Hj. destruct (Nat.eq_dec j (m + 1)) as [->|Hne]; [lra|].
    apply Hbest. lia.
Qed.

Lemma split_loop_after (xs : list R) : forall cnt m (st : split_state),
  (m + cnt + 2 <= List.length xs)%nat ->
  after_pass xs m st ->
  exists st', for_each (split_step xs) (seq (m + 1) cnt) st = Ok st' /\
              after_pass xs (m + cnt) st'.
Proof.
  induction cnt as [|cnt IH]; intros m st Hlen Hinv.
  - exists st. split; [reflexivity|]. now rewrite Nat.add_0_r.
  - cbn [seq for_each].
    destruct (@split_step_after xs m st) as (st1 & E1 & Hinv1);
      [lia|exact Hinv|].
    rewrite E1.
    destruct (IH (m + 1)%nat st1) as (st' & E' & Hinv'); [lia|exact Hinv1|].
    replace (S (m + 1)) with (m + 1 + 1)%nat by lia. rewrite E'.
    exists st'. split; [reflexivity|].
    now replace (m + S cnt)%nat with (m + 1 + cnt)%nat by lia.
Qed.

(** ** The function *)

Lemma make_thresholds_on_sorted (x : list R) :
  (2 <= List.length (np_unique x))%nat ->
  let xs := np_unique x in
  exists th,
    (th + 1 < List.length xs)%nat /\
    _make_thresholds x
    = Ok [nth 0 xs 0%R;
          ((nth th xs 0 + nth (th + 1) xs 0) / 2)%R;
          nth (List.length xs - 1) xs 0%R] /\
    forall j, (j + 1 < List.length xs)%nat ->
      (cut_cost xs th <= cut_cost xs j)%R.
Proof.
  intros Hlen xs. unfold _make_thresholds. fold xs.
  pose proof (np_unique_sorted x) as Hs. fold xs in Hs, Hlen.
  destruct (@split_start_after xs) as (st0 & E0 & Hinv0); [lia|].
  rewrite E0. cbn [bind].
  destruct (@split_loop_after xs (List.length xs - 2) 0 st0)
    as (st & E & Hinv); [lia|exact Hinv0|].
  unfold range2.
  replace (List.length xs - 1 - 1)%nat with (List.length xs - 2)%nat by lia.
  cbn [Nat.add] in E. rewrite E. cbn [bind].
  destruct Hinv as (_ & _ & _ & _ & _ & _ & Hth & Hmin & Hbest).
  cbn [Nat.add] in Hth.
  exists (tmp_th st). split; [lia|]. split.
  - destruct xs as [|u l] eqn:Exs; [simpl in Hlen; lia|].
    cbn [np_min Learner.np_max bind].
    inversion Hs as [|? ? Hl Hu]; subst.
    rewrite fold_min_head by exact Hu.
    rewrite !RoutingFacts.getitem_nth by lia. cbn [bind].
    rewrite fold_max_last by exact Hs.
    rewrite last_is_nth by discriminate. reflexivity.
  - intros j Hj. rewrite <- Hmin. apply Hbest. cbn [Nat.add]. lia.
Qed.


(** [_make_thresholds] needs two values that differ: on an empty array and
    on an array whose values are all the same it raises [IndexError]
    ([tmp_x[0]] on the first, [tmp_x[tmp_th+1]] on the second). *)
Theorem make_thresholds_needs_two_values (x : list R) :
  (forall a b, In a x -> In b x -> a = b) ->
  _make_thresholds x = Raise IndexError.
Proof.
  intros Hone. pose proof (one_value_one_entry x Hone) as Hlen.
  unfold _make_thresholds.
  destruct (np_unique x) as [|u [|w l]] eqn:E; [reflexivity| |simpl in Hlen; lia].
  reflexivity.
Qed.

End ThresholdFacts.

(* ================================================================== *)
(** * The prediction pass, row by row *)
(* ================================================================== *)

Module PredictionFacts.

Import Prediction Routing.

(** ** Masks *)

Lemma mask_of_total (test : row -> result bool) (f : row -> bool)
  (data : dataset) :
  Forall (fun r => test r = Ok (f r)) data ->
  mask_of test data = Ok (map f data).
Proof.
  induction 1 as [|r data Hr _ IH]; [reflexivity|].
  cbn [mask_of map]. rewrite Hr, IH. reflexivity.
Qed.

Lemma compress_map (f : row -> bool) (data : dataset) :
  compress (map f data) data = filter f data.
Proof.
  induction data as [|r data IH]; [reflexivity|].
  cbn [map compress filter]. rewrite IH. reflexivity.
Qed.

Lemma np_any_map (f : row -> bool) (data : dataset) :
  np_any (map f data) = existsb f data.
Proof.
  unfold np_any. induction data as [|r data IH]; [reflexivity|].
  cbn [map existsb]. rewrite IH. reflexivity.
Qed.

Lemma count_true_map (f : row -> bool) (data : dataset) :
  count_true (map f data) = List.length (filter f data).
Proof.
  unfold count_true. induction data as [|r data IH]; [reflexivity|].
  cbn [map filter]. destruct (f r); cbn [List.length]; rewrite IH; reflexivity.
Qed.

Lemma blend_vector_rows (h : R) (t g : row -> R) (f : row -> bool)
  (data : dataset) :
  blend_vector h (map t data) (map f data) (map g (filter f data))
  = map (fun r => if f r then ((1 - h) * t r + h * g r)%R else t r) data.
Proof.
  induction data as [|r data IH]; [reflexivity|].
  cbn [map filter blend_vector]. destruct (f r).
  - cbn [map]. rewrite IH. reflexivity.
  - rewrite IH. reflexivity.
Qed.

Lemma repeat_map (A : Type) (v : R) (l : list A) :
  repeat v (List.length l) = map (fun _ => v) l.
Proof.
  induction l as [|a l IH]; [reflexivity|]. cbn. now rewrite IH.
Qed.

Lemma map_const_repeat (A : Type) (v : R) (l : list A) :
  map (fun _ => v) l = repeat v (List.length l).
Proof. symmetry. apply repeat_map. Qed.

Section WithSubModel.

Context {M : Type} `{Predictive M}.
Variable c : constants.

Lemma predict_row_leaf (r : row) (n : node M) :
  leaf n = true ->
  predict_row c r n = sm_make_prediction_squared (sub_model n).
Proof.
  destruct n as [d k0 h th lf df sm lml lcml cs]. cbn [leaf sub_model].
  intros ->. reflexivity.
Qed.

Lemma blend_rows (h : R) (t : row -> R) (f : row -> bool) (child : node M)
  (data : dataset) :
  blend h (map t data) (map f data) (value_rows c child (filter f data))
  = Ok (map (fun r => if f r
                      then ((1 - h) * t r + h * predict_row c r child)%R
                      else t r) data).
Proof.
  unfold value_rows, blend. destruct (leaf child) eqn:El.
  - rewrite count_true_map, repeat_map, blend_vector_rows.
    f_equal. apply map_ext. intros r.
    now rewrite (predict_row_leaf r child El).
  - rewrite count_true_map, length_map, Nat.eqb_refl.
    now rewrite blend_vector_rows.
Qed.

(** ** The columns of [_p_indices] *)

Lemma column_mask_total (th : option (list R)) (nc kk i : nat)
  (data : dataset) :
  (kk < c_dim_features c)%nat ->
  (if (kk <? c_dim_continuous c)%nat
   then match th with
        | Some t => (List.length t =? nc + 1)%nat
        | None => false
        end
   else true) = true ->
  forallb (Recursion.well_formed_row c) data = true ->
  (i < nc)%nat ->
  column_mask c th nc kk i data = Ok (map (row_test c th nc kk i) data).
Proof.
  intros Hk Hth Hrows Hi. unfold column_mask, row_test.
  rewrite forallb_forall in Hrows.
  assert (Hrow : forall r, In r data ->
            List.length (x_continuous r) = c_dim_continuous c /\
            List.length (x_categorical r) = c_dim_categorical c).
  { intros r Hr. specialize (Hrows r Hr).
    unfold Recursion.well_formed_row in Hrows.
    apply andb_prop in Hrows. destruct Hrows as [E1 E2].
    apply Nat.eqb_eq in E1, E2. now split. }
  destruct (kk <? c_dim_continuous c)%nat eqn:Ek.
  - apply Nat.ltb_lt in Ek.
    destruct th as [t|]; [|discriminate]. apply Nat.eqb_eq in Hth.
    assert (Hx : forall r, In r data ->
              getitem (x_continuous r) kk = Ok (nth kk (x_continuous r) 0%R)).
    { intros r Hr. apply RoutingFacts.getitem_nth.
      destruct (Hrow r Hr) as [E _]. lia. }
    destruct (i =? 0)%nat eqn:E0.
    + rewrite RoutingFacts.getitem_nth by lia. cbn [bind].
      apply mask_of_total. apply Forall_forall. intros r Hr.
      unfold holds, continuous_test. rewrite (Hx r Hr), E0. cbn [bind].
      now destruct (ltb _ _).
    + destruct (i =? nc - 1)%nat eqn:E1.
      * rewrite RoutingFacts.getitem_nth by lia. cbn [bind].
        apply mask_of_total. apply Forall_forall. intros r Hr.
        unfold holds, continuous_test. rewrite (Hx r Hr), E0, E1. cbn [bind].
        now destruct (leb _ _).
      * rewrite !RoutingFacts.getitem_nth by lia. cbn [bind].
        apply mask_of_total. apply Forall_forall. intros r Hr.
        unfold holds, continuous_test. rewrite (Hx r Hr), E0, E1. cbn [bind].
        now destruct (leb _ _ && ltb _ _).
  - apply Nat.ltb_ge in Ek.
    apply mask_of_total. apply Forall_forall. intros r Hr.
    unfold holds, categorical_test.
    destruct (Hrow r Hr) as [_ E]. unfold c_dim_features in Hk.
    unfold getitem.
    destruct (nth_error (x_categorical r) (kk - c_dim_continuous c))
      as [x|] eqn:Ex.
    + cbn [bind]. now destruct (x =? i)%nat.
    + apply nth_error_None in Ex. lia.
Qed.

(** ** The two loops over the children *)

Lemma nth_tl (ixs : list indices) (j : nat) :
  nth j (tl ixs) no_indices = nth (S j) ixs no_indices.
Proof. destruct ixs; [now destruct j|reflexivity]. Qed.

Lemma hd_nth (ixs : list indices) : hd no_indices ixs = nth 0 ixs no_indices.
Proof. now destruct ixs. Qed.

Section Loops.

Variable calc : node M -> dataset -> indices -> result indices.
Variable predict : node M -> indices -> result value.
Variable left_on : node M -> dataset -> indices -> Prop.
Variable f : nat -> row -> bool.
Variable data : dataset.
Variable column : nat -> result (list bool).
Variable nc : nat.
Hypothesis column_total :
  forall i, (i < nc)%nat -> column i = Ok (map (f i) data).

(** What the first pass leaves for a later pass: the columns of the masks,
    and on every child that rows reach indices with the property
    [left_on] the pass has on the child and these rows. *)
Lemma calc_children_spec (cs : list (node M)) :
  Forall (fun child => forall rows old,
            forallb (Recursion.well_formed_row c) rows = true ->
            exists ix, calc child rows old = Ok ix /\
                       left_on child rows ix) cs ->
  forallb (Recursion.well_formed_row c) data = true ->
  forall olds i todo,
    (todo <= List.length cs)%nat -> (i + todo <= nc)%nat ->
    exists ixs,
      calc_children calc column data cs olds i todo
      = Ok (map (fun i' => map (f i') data) (seq i todo), ixs) /\
      forall j child,
        (j < todo)%nat -> nth_error cs j = Some child ->
        existsb (f (i + j)) data = true ->
        left_on child (filter (f (i + j)) data) (nth j ixs no_indices).
Proof.
  intros IH Hrows. induction IH as [|child cs Hchild _ IHcs];
    intros olds i todo Hlen Hnc.
  - cbn [List.length] in Hlen. assert (todo = 0)%nat by lia. subst todo.
    exists olds. split; [reflexivity|]. intros j child Hj. lia.
  - destruct todo as [|todo].
    + exists olds. split; [reflexivity|]. intros j ch Hj. lia.
    + cbn [calc_children seq map]. rewrite column_total by lia. cbn [bind].
      rewrite np_any_map, compress_map.
      assert (Hsub : forallb (Recursion.well_formed_row c)
                       (filter (f i) data) = true).
      { apply forallb_forall. intros r Hr. apply filter_In in Hr.
        rewrite forallb_forall in Hrows. now apply Hrows. }
      cbn [List.length] in Hlen.
      destruct (IHcs (tl olds) (S i) todo) as (ixs & E & Hix); [lia|lia|].
      destruct (existsb (f i) data) eqn:Eany.
      * destruct (Hchild (filter (f i) data) (hd no_indices olds) Hsub)
          as (ix & Ec & Ep).
        rewrite Ec. cbn [bind]. rewrite E. cbn [bind].
        exists (ix :: ixs). split; [reflexivity|].
        intros j ch Hj Hn Hex. destruct j as [|j].
        -- cbn [nth_error] in Hn. inversion Hn; subst ch.
           cbn [nth]. now rewrite Nat.add_0_r.
        -- cbn [nth_error] in Hn. cbn [nth].
           replace (i + S j)%nat with (S i + j)%nat in * by lia.
           apply Hix; [lia|exact Hn|exact Hex].
      * cbn [bind]. rewrite E. cbn [bind].
        exists (hd no_indices olds :: ixs). split; [reflexivity|].
        intros j ch Hj Hn Hex. destruct j as [|j].
        -- rewrite Nat.add_0_r in Hex. congruence.
        -- cbn [nth_error] in Hn. cbn [nth].
           replace (i + S j)%nat with (S i + j)%nat in * by lia.
           apply Hix; [lia|exact Hn|exact Hex].
Qed.

(** The second pass blends, for every row on its own, the values of the
    children whose mask holds for the row. *)
Lemma predict_children_spec (h : R) (cols : list (list bool))
  (cs : list (node M)) :
  (forall i, (i < nc)%nat -> getitem cols i = Ok (map (f i) data)) ->
  forall (ixs : list indices) i todo (t : row -> R),
    (todo <= List.length cs)%nat -> (i + todo <= nc)%nat ->
    (forall j child,
        (j < todo)%nat -> nth_error cs j = Some child ->
        existsb (f (i + j)) data = true ->
        predict child (nth j ixs no_indices)
        = Ok (value_rows c child (filter (f (i + j)) data))) ->
    predict_children predict h cols cs ixs i todo (map t data)
    = Ok (map (fun r => row_children (fun child => predict_row c r child) h
                          (fun i' => f i' r) cs i todo (t r)) data).
Proof.
  intros Hcols. induction cs as [|child cs IHcs];
    intros ixs i todo t Hlen Hnc Hix.
  - cbn [List.length] in Hlen. assert (todo = 0)%nat by lia. subst todo.
    reflexivity.
  - destruct todo as [|todo]; [reflexivity|].
    cbn [predict_children row_children]. rewrite Hcols by lia. cbn [bind].
    rewrite np_any_map. cbn [List.length] in Hlen.
    assert (Hrest : forall j ch,
              (j < todo)%nat -> nth_error cs j = Some ch ->
              existsb (f (S i + j)) data = true ->
              predict ch (nth j (tl ixs) no_indices)
              = Ok (value_rows c ch (filter (f (S i + j)) data))).
    { intros j ch Hj Hn Hex. rewrite nth_tl.
      replace (S i + j)%nat with (i + S j)%nat in * by lia.
      apply Hix; [lia|exact Hn|exact Hex]. }
    destruct (existsb (f i) data) eqn:Eany.
    + rewrite !length_map, Nat.eqb_refl. cbn [negb].
      rewrite hd_nth.
      rewrite (Hix 0%nat child) by
        (try lia; try reflexivity; now rewrite Nat.add_0_r).
      cbn [bind]. rewrite Nat.add_0_r. rewrite blend_rows. cbn [bind].
      rewrite (IHcs (tl ixs) (S i) todo _) by (try lia; exact Hrest).
      reflexivity.
    + rewrite (IHcs (tl ixs) (S i) todo t) by (try lia; exact Hrest).
      f_equal. apply map_ext_in. intros r Hr.
      assert (Ef : f i r = false).
      { destruct (f i r) eqn:Ef; [|reflexivity].
        assert (existsb (f i) data = true)
          by (apply existsb_exists; eauto).
        congruence. }
      now rewrite Ef.
Qed.

End Loops.

(** ** The two passes together *)

Lemma prediction_rows (n : node M) :
  Recursion.well_formed c n = true ->
  forall data old,
    forallb (Recursion.well_formed_row c) data = true ->
    exists ix,
      _calc_pred_dist_recursion_batch c n data old = Ok ix /\
      _make_prediction_recursion_squared_batch c n ix
      = Ok (value_rows c n data).
Proof.
  induction n as [d k0 h th lf df sm lml lcml cs IH] using node_induction.
  intros Hwf data old Hrows.
  cbn [_calc_pred_dist_recursion_batch].
  cbn [Recursion.well_formed] in Hwf.
  destruct lf.
  - exists old. split; reflexivity.
  - cbn [orb] in Hwf. destruct k0 as [kk|]; [|discriminate].
    unfold getitem at 1.
    destruct (nth_error (c_num_children_vec c) kk) as [nc|] eqn:Enc;
      [|discriminate].
    cbn [bind].
    repeat (apply andb_prop in Hwf; destruct Hwf as [Hwf ?]).
    match goal with Hc : forallb _ cs = true |- _ => rename Hc into Hcs end.
    match goal with Hc : (nc <=? _)%nat = true |- _ =>
      apply Nat.leb_le in Hc; rename Hc into Hlen end.
    apply Nat.ltb_lt in Hwf.
    match goal with Hc : (if _ then _ else _) = true |- _ =>
      rename Hc into Hth end.
    assert (Hcol : forall i, (i < nc)%nat ->
              column_mask c th nc kk i data
              = Ok (map (row_test c th nc kk i) data)).
    { intros i Hi. now apply column_mask_total. }
    assert (IH' : Forall (fun child => forall rows old0,
              forallb (Recursion.well_formed_row c) rows = true ->
              exists ix,
                _calc_pred_dist_recursion_batch c child rows old0 = Ok ix /\
                _make_prediction_recursion_squared_batch c child ix
                = Ok (value_rows c child rows)) cs).
    { rewrite forallb_forall in Hcs. rewrite Forall_forall in IH.
      apply Forall_forall. intros child Hin rows old0 Hr.
      apply IH; [exact Hin|now apply Hcs|exact Hr]. }
    destruct (@calc_children_spec
                (_calc_pred_dist_recursion_batch c)
                (fun child rows ix =>
                   _make_prediction_recursion_squared_batch c child ix
                   = Ok (value_rows c child rows))
                (row_test c th nc kk) data
                (fun i => column_mask c th nc kk i data) nc Hcol cs IH' Hrows
                (ichildren_of old) 0%nat nc Hlen)
      as (ixs & Ecalc & Hix); [lia|].
    rewrite Ecalc. cbn [bind].
    eexists. split; [reflexivity|].
    cbn [_make_prediction_recursion_squared_batch].
    unfold getitem at 1. rewrite Enc. cbn [bind].
    rewrite <- (map_const_repeat (sm_make_prediction_squared sm) data).
    rewrite (@predict_children_spec
               (_make_prediction_recursion_squared_batch c)
               (row_test c th nc kk) data nc h _ cs); try lia.
    + cbn [bind]. unfold value_rows. cbn [leaf]. f_equal. f_equal.
      apply map_ext. intros r. cbn [predict_row]. rewrite Enc. reflexivity.
    + intros i Hi. unfold getitem.
      rewrite nth_error_map, nth_error_seq.
      assert (E : (i <? nc)%nat = true) by now apply Nat.ltb_lt.
      rewrite E. reflexivity.
    + exact Hix.
Qed.

(** ** Bounds *)

Lemma row_children_within (a b h : R) (pr : node M -> R) (test : nat -> bool)
  (cs : list (node M)) :
  (0 <= h <= 1)%R ->
  Forall (fun child => predictions_within a b child ->
                       (a <= pr child <= b)%R) cs ->
  fold_right (fun child rest => predictions_within a b child /\ rest)
    True cs ->
  forall i todo v,
    (a <= v <= b)%R ->
    (a <= row_children pr h test cs i todo v <= b)%R.
Proof.
  intros Hh IH. induction IH as [|child cs Hchild _ IHcs];
    intros Hin i todo v Hv; [exact Hv|].
  destruct todo as [|todo]; [exact Hv|].
  cbn [row_children]. cbn [fold_right] in Hin. destruct Hin as [Hc Hin].
  apply IHcs; [exact Hin|].
  destruct (test i); [|exact Hv].
  specialize (Hchild Hc). split; nra.
Qed.

Lemma predict_row_within (a b : R) (r : row) (n : node M) :
  predictions_within a b n -> (a <= predict_row c r n <= b)%R.
Proof.
  induction n as [d k0 h th lf df sm lml lcml cs IH] using node_induction.
  intros Hin. cbn [predictions_within] in Hin.
  destruct Hin as (Hm & Hh & Hcs). cbn [predict_row].
  destruct lf; [exact Hm|].
  destruct k0 as [kk|]; [|exact Hm].
  destruct (nth_error (c_num_children_vec c) kk) as [nc|]; [|exact Hm].
  now apply row_children_within.
Qed.

(** ** A row that one child takes *)

Lemma row_children_one (h : R) (pr : node M -> R) (test : nat -> bool)
  (i0 : nat) (cs : list (node M)) :
  forall i todo v,
    (todo <= List.length cs)%nat ->
    (forall i', (i <= i' < i + todo)%nat -> test i' = (i' =? i0)%nat) ->
    row_children pr h test cs i todo v
    = match nth_error cs (i0 - i) with
      | Some child =>
          if ((i <=? i0) && (i0 <? i + todo))%nat
          then ((1 - h) * v + h * pr child)%R else v
      | None => v
      end.
Proof.
  induction cs as [|child cs IHcs]; intros i todo v Hlen Htest.
  - cbn [row_children]. now destruct (i0 - i)%nat.
  - destruct todo as [|todo].
    + cbn [row_children].
      destruct (nth_error (child :: cs) (i0 - i)); [|reflexivity].
      destruct (Nat.leb_spec i i0); destruct (Nat.ltb_spec i0 (i + 0));
        cbn [andb]; try reflexivity; lia.
    + cbn [row_children]. cbn [List.length] in Hlen.
      rewrite IHcs by (try lia; intros i' Hi'; apply Htest; lia).
      rewrite (Htest i) by lia.
      destruct (Nat.eqb_spec i i0) as [->|Hne].
      * rewrite Nat.sub_diag. cbn [nth_error].
        assert (E1 : (i0 <=? i0)%nat = true) by now apply Nat.leb_le.
        assert (E2 : (i0 <? i0 + S todo)%nat = true)
          by (apply Nat.ltb_lt; lia).
        assert (E3 : (S i0 <=? i0)%nat = false)
          by (apply Nat.leb_gt; lia).
        rewrite E1, E2, E3. cbn [andb].
        now destruct (nth_error cs (i0 - S i0)).
      * destruct (Nat.leb_spec (S i) i0) as [Hle|Hgt].
        -- assert (E1 : (i <=? i0)%nat = true) by (apply Nat.leb_le; lia).
           rewrite E1.
           replace (i0 - i)%nat with (S (i0 - S i)) by lia.
           cbn [nth_error].
           replace (i + S todo)%nat with (S i + todo)%nat by lia.
           reflexivity.
        -- assert (E1 : (i <=? i0)%nat = false) by (apply Nat.leb_gt; lia).
           rewrite E1. cbn [andb].
           destruct (nth_error cs (i0 - S i));
             destruct (nth_error (child :: cs) (i0 - i)); reflexivity.
Qed.

Lemma row_test_one_child (th : option (list R)) (nc kk : nat) (r : row) :
  (kk < c_dim_features c)%nat ->
  Recursion.well_formed_row c r = true ->
  (if (kk <? c_dim_continuous c)%nat
   then (2 <= nc)%nat /\
        exists t, th = Some t /\ interior_thresholds_sorted t nc
   else exists x, nth_error (x_categorical r) (kk - c_dim_continuous c)
                  = Some x /\ (x < nc)%nat) ->
  exists i0, (i0 < nc)%nat /\
    forall i, (i < nc)%nat -> row_test c th nc kk i r = (i =? i0)%nat.
Proof.
  intros Hk Hrow Hsplit. unfold row_test.
  unfold Recursion.well_formed_row in Hrow.
  apply andb_prop in Hrow. destruct Hrow as [E1 E2].
  apply Nat.eqb_eq in E1, E2.
  destruct (kk <? c_dim_continuous c)%nat eqn:Ek.
  - apply Nat.ltb_lt in Ek. destruct Hsplit as (Hnc & t & -> & Hs).
    destruct (@RoutingFacts.continuous_one_child t nc
                (nth kk (x_continuous r) 0%R) Hnc Hs) as (i0 & Hi0 & Hone).
    exists i0. split; [exact Hi0|]. intros i Hi.
    unfold holds, continuous_test.
    rewrite RoutingFacts.getitem_nth by lia. cbn [bind].
    rewrite (Hone i Hi). now destruct (i =? i0)%nat.
  - destruct Hsplit as (x & Ex & Hx). exists x. split; [exact Hx|].
    intros i Hi. unfold holds, categorical_test, getitem. rewrite Ex.
    cbn [bind]. rewrite (Nat.eqb_sym i x). now destruct (x =? i)%nat.
Qed.

(** [_calc_pred_dist_recursion_batch], then
    [_make_prediction_recursion_squared_batch].  On a well-formed tree and
    well-formed query rows the two passes raise nothing, whatever
    [_p_indices] earlier calls left on the tree.  A leaf gives the
    prediction of its sub-model; an inner node gives one value for each
    row, and the value of a row is what this row alone gives: it starts
    from the prediction of the node's sub-model, and every child whose mask
    holds for the row replaces the value [v] by [(1-h_g)*v + h_g*w], with
    [w] the value of the row at the child.  The other rows of the batch
    play no part. *)
Theorem prediction_treats_each_row_on_its_own (n : node M) (data : dataset)
  (old : indices) :
  Recursion.well_formed c n = true ->
  forallb (Recursion.well_formed_row c) data = true ->
  exists ix,
    _calc_pred_dist_recursion_batch c n data old = Ok ix /\
    _make_prediction_recursion_squared_batch c n ix
    = Ok (if leaf n then Scalar (sm_make_prediction_squared (sub_model n))
          else Vector (map (fun r => predict_row c r n) data)).
Proof.
  intros Hwf Hrows.
  destruct (prediction_rows n Hwf data old Hrows) as (ix & Ec & Ep).
  exists ix. split; [exact Ec|exact Ep].
Qed.

(** The same two passes.  When the prediction of every sub-model of
    the tree is between [a] and [b] and every [h_g] is between [0] and
    [1], every predicted value is between [a] and [b], and an inner root
    predicts one value for each query row. *)
Theorem prediction_stays_between_the_sub_models (n : node M) (a b : R)
  (data : dataset) (old : indices) :
  Recursion.well_formed c n = true ->
  forallb (Recursion.well_formed_row c) data = true ->
  predictions_within a b n ->
  exists ix v,
    _calc_pred_dist_recursion_batch c n data old = Ok ix /\
    _make_prediction_recursion_squared_batch c n ix = Ok v /\
    match v with
    | Scalar x => (a <= x <= b)%R
    | Vector vs =>
        List.length vs = List.length data /\
        Forall (fun x => (a <= x <= b)%R) vs
    end.
Proof.
  intros Hwf Hrows Hin.
  destruct (prediction_rows n Hwf data old Hrows) as (ix & Ec & Ep).
  exists ix, (value_rows c n data). split; [exact Ec|]. split; [exact Ep|].
  unfold value_rows. destruct (leaf n) eqn:El.
  - rewrite <- (predict_row_leaf {| x_continuous := []; x_categorical := [];
                                    y := 0 |} n El).
    now apply predict_row_within.
  - split; [apply length_map|]. apply Forall_forall. intros x Hx.
    apply in_map_iff in Hx. destruct Hx as (r & <- & _).
    now apply predict_row_within.
Qed.

(** The same two passes.  At an inner root that shares the rows out
    (a continuous feature with at least two children and sorted interior
    thresholds, or a categorical feature whose values are child indices)
    every row is taken by one child [i], and the value predicted for the
    row is [(1-h_g)*m + h_g*w]: [m] is the prediction of the root's
    sub-model and [w] the value of the row at the child [i]. *)
Theorem prediction_blends_the_node_with_the_routed_child (n : node M)
  (kk nc : nat) (data : dataset) (old : indices) :
  Recursion.well_formed c n = true ->
  forallb (Recursion.well_formed_row c) data = true ->
  leaf n = false -> k n = Some kk ->
  nth_error (c_num_children_vec c) kk = Some nc ->
  (if (kk <? c_dim_continuous c)%nat
   then (2 <= nc)%nat /\
        exists t, thresholds n = Some t /\ interior_thresholds_sorted t nc
   else categorical_in_range (kk - c_dim_continuous c) nc data) ->
  exists ix vs,
    _calc_pred_dist_recursion_batch c n data old = Ok ix /\
    _make_prediction_recursion_squared_batch c n ix = Ok (Vector vs) /\
    List.length vs = List.length data /\
    forall j r, nth_error data j = Some r ->
      exists i child,
        (i < nc)%nat /\ nth_error (children n) i = Some child /\
        (forall i', (i' < nc)%nat ->
           row_test c (thresholds n) nc kk i' r = (i' =? i)%nat) /\
        nth_error vs j
        = Some ((1 - h_g n) * sm_make_prediction_squared (sub_model n)
                + h_g n * predict_row c r child)%R.
Proof.
  intros Hwf Hrows Hleaf Hk Hnc Hsplit.
  destruct (prediction_rows n Hwf data old Hrows) as (ix & Ec & Ep).
  unfold value_rows in Ep. rewrite Hleaf in Ep.
  exists ix, (map (fun r => predict_row c r n) data).
  split; [exact Ec|]. split; [exact Ep|]. split; [apply length_map|].
  intros j r Hj.
  destruct n as [d k0 h th lf df sm lml lcml cs].
  cbn [leaf k thresholds children h_g sub_model] in *. subst lf k0.
  cbn [Recursion.well_formed orb] in Hwf. rewrite Hnc in Hwf.
  repeat (apply andb_prop in Hwf; destruct Hwf as [Hwf ?]).
  match goal with Hc : (nc <=? _)%nat = true |- _ =>
    apply Nat.leb_le in Hc; rename Hc into Hlen end.
  apply Nat.ltb_lt in Hwf.
  assert (Hr : In r data) by (eapply nth_error_In; exact Hj).
  assert (Hrow : Recursion.well_formed_row c r = true).
  { rewrite forallb_forall in Hrows. now apply Hrows. }
  destruct (@row_test_one_child th nc kk r Hwf Hrow) as (i0 & Hi0 & Hone).
  { destruct (kk <? c_dim_continuous c)%nat; [exact Hsplit|].
    unfold categorical_in_range in Hsplit. rewrite Forall_forall in Hsplit.
    now apply Hsplit. }
  destruct (nth_error cs i0) as [child|] eqn:Echild;
    [|apply nth_error_None in Echild; lia].
  exists i0, child. split; [exact Hi0|]. split; [exact Echild|].
  split; [exact Hone|].
  rewrite nth_error_map, Hj. cbn [option_map]. f_equal.
  cbn [predict_row]. rewrite Hnc.
  rewrite (@row_children_one h (fun ch => predict_row c r ch)
             (fun i => row_test c th nc kk i r) i0 cs 0 nc) by
    (try lia; intros i' Hi'; apply Hone; lia).
  rewrite Nat.sub_0_r, Echild.
  assert (E1 : (0 <=? i0)%nat = true) by (apply Nat.leb_le; lia).
  assert (E2 : (i0 <? 0 + nc)%nat = true) by (apply Nat.ltb_lt; lia).
  rewrite E1, E2. reflexivity.
Qed.

End WithSubModel.

End PredictionFacts.

(* ================================================================== *)
(** * The variance pass, row by row *)
(* ================================================================== *)

Module VarianceFacts.

Import Prediction Routing PredictionFacts.

Lemma put_vector_rows (t g : row -> cell) (f : row -> bool) (data : dataset) :
  put_vector (map t data) (map f data) (map g (filter f data))
  = map (fun r => if f r then g r else t r) data.
Proof.
  induction data as [|r data IH]; [reflexivity|].
  cbn [map filter put_vector]. destruct (f r).
  - cbn [map]. rewrite IH. reflexivity.
  - rewrite IH. reflexivity.
Qed.

Lemma repeat_cell_map (A : Type) (v : option R) (l : list A) :
  repeat v (List.length l) = map (fun _ => v) l.
Proof.
  induction l as [|a l IH]; [reflexivity|]. cbn. now rewrite IH.
Qed.

Lemma combine_map_same (A B C : Type) (f : A -> B) (g : A -> C)
  (l : list A) :
  combine (map f l) (map g l) = map (fun a => (f a, g a)) l.
Proof.
  induction l as [|a l IH]; [reflexivity|]. cbn. now rewrite IH.
Qed.

Section WithSubModel.

Context {M : Type} `{Predictive M}.
Variable c : constants.

Lemma row_stats_leaf (r : row) (n : node M) :
  leaf n = true ->
  row_stats c r n = (Some (sm_make_prediction_squared (sub_model n)),
                     Some (sm_calc_pred_var (sub_model n))).
Proof.
  destruct n as [d k0 h th lf df sm lml lcml cs]. cbn [leaf sub_model].
  intros ->. reflexivity.
Qed.

Lemma put_means (t : row -> cell) (f : row -> bool) (child : node M)
  (data : dataset) :
  put (map t data) (map f data) (mean_rows c child (filter f data))
  = Ok (map (fun r => if f r then fst (row_stats c r child) else t r) data).
Proof.
  unfold mean_rows, put. rewrite !length_map, Nat.eqb_refl. cbn [negb].
  destruct (leaf child) eqn:El.
  - rewrite count_true_map, repeat_cell_map, put_vector_rows.
    f_equal. apply map_ext. intros r.
    now rewrite (row_stats_leaf r child El).
  - rewrite count_true_map, length_map, Nat.eqb_refl.
    now rewrite put_vector_rows.
Qed.

Lemma put_vars (t : row -> cell) (f : row -> bool) (child : node M)
  (data : dataset) :
  put (map t data) (map f data) (var_rows c child (filter f data))
  = Ok (map (fun r => if f r then snd (row_stats c r child) else t r) data).
Proof.
  unfold var_rows, put. rewrite !length_map, Nat.eqb_refl. cbn [negb].
  destruct (leaf child) eqn:El.
  - rewrite count_true_map, repeat_cell_map, put_vector_rows.
    f_equal. apply map_ext. intros r.
    now rewrite (row_stats_leaf r child El).
  - rewrite count_true_map, length_map, Nat.eqb_refl.
    now rewrite put_vector_rows.
Qed.

(** ** The loop over the children *)

Lemma var_children_spec
  (rec : node M -> indices -> result (cells * cells))
  (f : nat -> row -> bool) (data : dataset) (nc : nat)
  (cols : list (list bool)) (cs : list (node M)) :
  (forall i, (i < nc)%nat -> getitem cols i = Ok (map (f i) data)) ->
  forall (ixs : list indices) i todo (t : row -> cell * cell),
    (todo <= List.length cs)%nat -> (i + todo <= nc)%nat ->
    (forall j child,
        (j < todo)%nat -> nth_error cs j = Some child ->
        existsb (f (i + j)%nat) data = true ->
        rec child (nth j ixs no_indices)
        = Ok (mean_rows c child (filter (f (i + j)%nat) data),
              var_rows c child (filter (f (i + j)%nat) data))) ->
    var_children rec cols cs ixs i todo
      (map (fun r => fst (t r)) data) (map (fun r => snd (t r)) data)
    = Ok (map (fun r => fst (row_stats_children
                               (fun child => row_stats c r child)
                               (fun i' => f i' r) cs i todo (t r))) data,
          map (fun r => snd (row_stats_children
                               (fun child => row_stats c r child)
                               (fun i' => f i' r) cs i todo (t r))) data).
Proof.
  intros Hcols. induction cs as [|child cs IHcs];
    intros ixs i todo t Hlen Hnc Hix.
  - cbn [List.length] in Hlen. assert (todo = 0)%nat by lia. subst todo.
    reflexivity.
  - destruct todo as [|todo]; [reflexivity|].
    cbn [var_children row_stats_children]. rewrite Hcols by lia. cbn [bind].
    rewrite np_any_map. cbn [List.length] in Hlen.
    assert (Hrest : forall j ch,
              (j < todo)%nat -> nth_error cs j = Some ch ->
              existsb (f (S i + j)%nat) data = true ->
              rec ch (nth j (tl ixs) no_indices)
              = Ok (mean_rows c ch (filter (f (S i + j)%nat) data),
                    var_rows c ch (filter (f (S i + j)%nat) data))).
    { intros j ch Hj Hn Hex. rewrite nth_tl.
      replace (S i + j)%nat with (i + S j)%nat in * by lia.
      apply Hix; [lia|exact Hn|exact Hex]. }
    destruct (existsb (f i) data) eqn:Eany.
    + rewrite hd_nth.
      rewrite (Hix 0%nat child) by
        (try lia; try reflexivity; now rewrite Nat.add_0_r).
      cbn [bind]. rewrite Nat.add_0_r.
      rewrite (put_means (fun r => fst (t r)) (f i) child data). cbn [bind].
      rewrite (put_vars (fun r => snd (t r)) (f i) child data). cbn [bind].
      set (t' := fun r => if f i r then row_stats c r child else t r).
      rewrite (map_ext
                 (fun r => if f i r then fst (row_stats c r child)
                           else fst (t r))
                 (fun r => fst (t' r)))
        by (intros r; unfold t'; now destruct (f i r)).
      rewrite (map_ext
                 (fun r => if f i r then snd (row_stats c r child)
                           else snd (t r))
                 (fun r => snd (t' r)))
        by (intros r; unfold t'; now destruct (f i r)).
      rewrite (IHcs (tl ixs) (S i) todo t') by (try lia; exact Hrest).
      reflexivity.
    + rewrite (IHcs (tl ixs) (S i) todo t) by (try lia; exact Hrest).
      f_equal. f_equal; apply map_ext_in; intros r Hr.
      all: assert (Ef : f i r = false)
        by (destruct (f i r) eqn:Ef; [|reflexivity];
            assert (existsb (f i) data = true)
              by (apply existsb_exists; eauto);
            congruence).
      all: now rewrite Ef.
Qed.

(** ** The two passes together *)

Lemma variance_rows (n : node M) :
  Recursion.well_formed c n = true ->
  forall data old,
    forallb (Recursion.well_formed_row c) data = true ->
    exists ix,
      _calc_pred_dist_recursion_batch c n data old = Ok ix /\
      _calc_pred_var_recursion_batch c n ix
      = Ok (mean_rows c n data, var_rows c n data).
Proof.
  induction n as [d k0 h th lf df sm lml lcml cs IH] using node_induction.
  intros Hwf data old Hrows.
  cbn [_calc_pred_dist_recursion_batch].
  cbn [Recursion.well_formed] in Hwf.
  destruct lf.
  - exists old. split; reflexivity.
  - cbn [orb] in Hwf. destruct k0 as [kk|]; [|discriminate].
    unfold getitem at 1.
    destruct (nth_error (c_num_children_vec c) kk) as [nc|] eqn:Enc;
      [|discriminate].
    cbn [bind].
    repeat (apply andb_prop in Hwf; destruct Hwf as [Hwf ?]).
    match goal with Hc : forallb _ cs = true |- _ => rename Hc into Hcs end.
    match goal with Hc : (nc <=? _)%nat = true |- _ =>
      apply Nat.leb_le in Hc; rename Hc into Hlen end.
    apply Nat.ltb_lt in Hwf.
    match goal with Hc : (if _ then _ else _) = true |- _ =>
      rename Hc into Hth end.
    assert (Hcol : forall i, (i < nc)%nat ->
              column_mask c th nc kk i data
              = Ok (map (row_test c th nc kk i) data)).
    { intros i Hi. now apply column_mask_total. }
    assert (IH' : Forall (fun child => forall rows old0,
              forallb (Recursion.well_formed_row c) rows = true ->
              exists ix,
                _calc_pred_dist_recursion_batch c child rows old0 = Ok ix /\
                _calc_pred_var_recursion_batch c child ix
                = Ok (mean_rows c child rows, var_rows c child rows)) cs).
    { rewrite forallb_forall in Hcs. rewrite Forall_forall in IH.
      apply Forall_forall. intros child Hin rows old0 Hr.
      apply IH; [exact Hin|now apply Hcs|exact Hr]. }
    destruct (@calc_children_spec M c
                (_calc_pred_dist_recursion_batch c)
                (fun child rows ix =>
                   _calc_pred_var_recursion_batch c child ix
                   = Ok (mean_rows c child rows, var_rows c child rows))
                (row_test c th nc kk) data
                (fun i => column_mask c th nc kk i data) nc Hcol cs IH' Hrows
                (ichildren_of old) 0%nat nc Hlen)
      as (ixs & Ecalc & Hix); [lia|].
    rewrite Ecalc. cbn [bind].
    eexists. split; [reflexivity|].
    cbn [_calc_pred_var_recursion_batch].
    unfold getitem at 1. rewrite Enc. cbn [bind].
    rewrite !(repeat_cell_map None data).
    assert (Hcols : forall i, (i < nc)%nat ->
              getitem (map (fun i' => map (row_test c th nc kk i') data)
                         (seq 0 nc)) i
              = Ok (map (row_test c th nc kk i) data)).
    { intros i Hi. unfold getitem.
      rewrite nth_error_map, nth_error_seq.
      assert (E : (i <? nc)%nat = true) by now apply Nat.ltb_lt.
      rewrite E. reflexivity. }
    pose proof (@var_children_spec (_calc_pred_var_recursion_batch c)
                  (row_test c th nc kk) data nc _ cs Hcols ixs 0%nat nc
                  (fun _ : row => (@None R, @None R)) Hlen (Nat.le_refl _)
                  Hix) as E.
    cbn [fst snd] in E.
    match goal with
    | |- bind ?m _ = _ =>
        match type of E with
        | _ = ?rhs => assert (Em : m = rhs) by exact E; rewrite Em
        end
    end.
    cbn [bind].
    unfold mean_rows, var_rows. cbn [leaf].
    rewrite combine_map_same. rewrite !map_map. cbn [fst snd].
    f_equal. f_equal; f_equal; apply map_ext; intros r;
      cbn [row_stats]; rewrite Enc; reflexivity.
Qed.

(** ** A row that one child takes at every node *)

Lemma all_children (P : node M -> Prop) (cs : list (node M)) :
  fold_right (fun child rest => P child /\ rest) True cs ->
  forall child, In child cs -> P child.
Proof.
  induction cs as [|a cs IH]; intros Hall child Hin; [contradiction|].
  cbn [fold_right] in Hall. destruct Hall as [Ha Hall].
  destruct Hin as [->|Hin]; [exact Ha|now apply IH].
Qed.

Lemma row_stats_children_one (rs : node M -> cell * cell)
  (test : nat -> bool) (i0 : nat) (cs : list (node M)) :
  forall i todo entry,
    (todo <= List.length cs)%nat ->
    (forall i', (i <= i' < i + todo)%nat -> test i' = (i' =? i0)%nat) ->
    row_stats_children rs test cs i todo entry
    = match nth_error cs (i0 - i) with
      | Some child =>
          if ((i <=? i0) && (i0 <? i + todo))%nat then rs child else entry
      | None => entry
      end.
Proof.
  induction cs as [|child cs IHcs]; intros i todo entry Hlen Htest.
  - cbn [row_stats_children]. now destruct (i0 - i)%nat.
  - destruct todo as [|todo].
    + cbn [row_stats_children].
      destruct (nth_error (child :: cs) (i0 - i)); [|reflexivity].
      destruct (Nat.leb_spec i i0); destruct (Nat.ltb_spec i0 (i + 0));
        cbn [andb]; try reflexivity; lia.
    + cbn [row_stats_children]. cbn [List.length] in Hlen.
      rewrite IHcs by (try lia; intros i' Hi'; apply Htest; lia).
      rewrite (Htest i) by lia.
      destruct (Nat.eqb_spec i i0) as [->|Hne].
      * rewrite Nat.sub_diag. cbn [nth_error].
        assert (E1 : (i0 <=? i0)%nat = true) by now apply Nat.leb_le.
        assert (E2 : (i0 <? i0 + S todo)%nat = true)
          by (apply Nat.ltb_lt; lia).
        assert (E3 : (S i0 <=? i0)%nat = false)
          by (apply Nat.leb_gt; lia).
        rewrite E1, E2, E3. cbn [andb].
        now destruct (nth_error cs (i0 - S i0)).
      * destruct (Nat.leb_spec (S i) i0) as [Hle|Hgt].
        -- assert (E1 : (i <=? i0)%nat = true) by (apply Nat.leb_le; lia).
           rewrite E1.
           replace (i0 - i)%nat with (S (i0 - S i)) by lia.
           cbn [nth_error].
           replace (i + S todo)%nat with (S i + todo)%nat by lia.
           reflexivity.
        -- assert (E1 : (i <=? i0)%nat = false) by (apply Nat.leb_gt; lia).
           rewrite E1. cbn [andb].
           destruct (nth_error cs (i0 - S i));
             destruct (nth_error (child :: cs) (i0 - i)); reflexivity.
Qed.

Lemma mix_var_nonnegative (h m s mc vc : R) :
  (0 <= h <= 1)%R -> (0 <= s)%R -> (0 <= vc)%R ->
  exists w, mix_var h m s (Some mc) (Some vc) = Some w /\ (0 <= w)%R.
Proof.
  intros Hh Hs Hvc. unfold mix_var. eexists. split; [reflexivity|].
  cbv zeta. set (mm := ((1 - h) * m + h * mc)%R).
  clearbody mm.
  pose proof (Rle_0_sqr (mm - m)) as Q1. unfold Rsqr in Q1.
  pose proof (Rle_0_sqr (mm - mc)) as Q2. unfold Rsqr in Q2.
  apply Rplus_le_le_0_compat; apply Rmult_le_pos; lra.
Qed.

Lemma row_stats_routed (data : dataset) (r : row) (n : node M) :
  In r data ->
  forallb (Recursion.well_formed_row c) data = true ->
  categorical_values_in_range c data ->
  Recursion.well_formed c n = true ->
  sorted_splits c n ->
  variances_nonnegative n ->
  exists w,
    row_stats c r n = (Some (predict_row c r n), Some w) /\ (0 <= w)%R.
Proof.
  intros Hr Hrows Hcat.
  assert (Hrow : Recursion.well_formed_row c r = true).
  { rewrite forallb_forall in Hrows. now apply Hrows. }
  induction n as [d k0 h th lf df sm lml lcml cs IH] using node_induction.
  intros Hwf Hsorted Hvar.
  cbn [variances_nonnegative] in Hvar. destruct Hvar as (Hs & Hh & Hvcs).
  cbn [sorted_splits] in Hsorted. destruct Hsorted as (Hsplit & Hscs).
  cbn [row_stats predict_row]. cbn [Recursion.well_formed] in Hwf.
  destruct lf.
  - exists (sm_calc_pred_var sm). split; [reflexivity|exact Hs].
  - cbn [orb] in Hwf. destruct k0 as [kk|]; [|discriminate].
    destruct (nth_error (c_num_children_vec c) kk) as [nc|] eqn:Enc;
      [|discriminate].
    repeat (apply andb_prop in Hwf; destruct Hwf as [Hwf ?]).
    match goal with Hc : forallb _ cs = true |- _ => rename Hc into Hcs end.
    match goal with Hc : (nc <=? _)%nat = true |- _ =>
      apply Nat.leb_le in Hc; rename Hc into Hlen end.
    apply Nat.ltb_lt in Hwf.
    destruct (@row_test_one_child c th nc kk r Hwf Hrow)
      as (i0 & Hi0 & Hone).
    { destruct (kk <? c_dim_continuous c)%nat eqn:Ek.
      - apply Nat.ltb_lt in Ek.
        exact (Hsplit eq_refl kk nc eq_refl Ek Enc).
      - apply Nat.ltb_ge in Ek. unfold c_dim_features in Hwf.
        destruct (Hcat (kk - c_dim_continuous c)%nat) as (bound & Eb & Hin);
          [lia|].
        replace (c_dim_continuous c + (kk - c_dim_continuous c))%nat
          with kk in Eb by lia.
        assert (bound = nc) by congruence. subst bound.
        unfold categorical_in_range in Hin. rewrite Forall_forall in Hin.
        now apply Hin. }
    destruct (nth_error cs i0) as [child|] eqn:Echild;
      [|apply nth_error_None in Echild; lia].
    assert (Hin : In child cs) by (eapply nth_error_In; exact Echild).
    rewrite Forall_forall in IH. rewrite forallb_forall in Hcs.
    destruct (IH child Hin (Hcs child Hin)
                (all_children (sorted_splits c) cs Hscs child Hin)
                (all_children variances_nonnegative cs Hvcs child Hin))
      as (w' & Ew & Hw').
    rewrite (@row_stats_children_one (fun ch => row_stats c r ch)
               (fun i => row_test c th nc kk i r) i0 cs 0 nc) by
      (try lia; intros i' Hi'; apply Hone; lia).
    rewrite (@row_children_one M h (fun ch => predict_row c r ch)
               (fun i => row_test c th nc kk i r) i0 cs 0 nc) by
      (try lia; intros i' Hi'; apply Hone; lia).
    rewrite Nat.sub_0_r, Echild.
    assert (E1 : (0 <=? i0)%nat = true) by (apply Nat.leb_le; lia).
    assert (E2 : (i0 <? 0 + nc)%nat = true) by (apply Nat.ltb_lt; lia).
    rewrite E1, E2. cbn [andb]. rewrite Ew. cbn [fst snd mix_mean].
    destruct (@mix_var_nonnegative h (sm_make_prediction_squared sm)
                (sm_calc_pred_var sm) (predict_row c r child) w' Hh Hs Hw')
      as (w & Ewv & Hw).
    exists w. rewrite Ewv. split; [reflexivity|exact Hw].
Qed.

(** [_calc_pred_dist_recursion_batch], then
    [_calc_pred_var_recursion_batch].  On a well-formed tree whose
    continuous splits have at least two children and sorted interior
    thresholds, and on well-formed query rows whose categorical values are
    child indices, the two passes raise nothing and no entry of what they
    return is left unassigned.  A leaf gives the prediction and the variance
    of its sub-model; an inner node gives a mean and a variance for each
    row, the mean is the value the squared-loss prediction gives for the
    row, and no variance is negative when no sub-model has a negative
    variance and every [h_g] is in [[0,1]]. *)
Theorem predictive_variance_goes_with_the_prediction (n : node M)
  (data : dataset) (old : indices) :
  Recursion.well_formed c n = true ->
  forallb (Recursion.well_formed_row c) data = true ->
  sorted_splits c n ->
  categorical_values_in_range c data ->
  variances_nonnegative n ->
  exists ix means vars,
    _calc_pred_dist_recursion_batch c n data old = Ok ix /\
    _calc_pred_var_recursion_batch c n ix = Ok (means, vars) /\
    if leaf n
    then means = CScalar (sm_make_prediction_squared (sub_model n)) /\
         vars = CScalar (sm_calc_pred_var (sub_model n))
    else means = CVector (map (fun r => Some (predict_row c r n)) data) /\
         exists ws,
           vars = CVector (map Some ws) /\
           List.length ws = List.length data /\
           Forall (fun w => (0 <= w)%R) ws.
Proof.
  intros Hwf Hrows Hsorted Hcat Hvar.
  destruct (variance_rows n Hwf data old Hrows) as (ix & Ec & Ev).
  exists ix, (mean_rows c n data), (var_rows c n data).
  split; [exact Ec|]. split; [exact Ev|].
  unfold mean_rows, var_rows. destruct (leaf n) eqn:El; [now split|].
  assert (Hall : forall r, In r data ->
            exists w, row_stats c r n = (Some (predict_row c r n), Some w) /\
                      (0 <= w)%R).
  { intros r Hr. now apply (@row_stats_routed data r n). }
  split.
  - f_equal. apply map_ext_in. intros r Hr.
    destruct (Hall r Hr) as (w & E & _). now rewrite E.
  - clear Ev Ec. induction data as [|r data IHd].
    + exists []. repeat split. apply Forall_nil.
    + destruct (Hall r (or_introl eq_refl)) as (w & E & Hw).
      destruct IHd as (ws & Ews & Hl & Hpos).
      * cbn [forallb] in Hrows. apply andb_prop in Hrows. tauto.
      * intros col Hcol. destruct (Hcat col Hcol) as (bound & Eb & Hin).
        exists bound. split; [exact Eb|].
        unfold categorical_in_range in *. now inversion Hin.
      * intros r' Hr'. apply Hall. now right.
      * exists (w :: ws). cbn [map List.length]. rewrite E. cbn [snd].
        inversion Ews as [Ews']. rewrite Ews'.
        repeat split; [now rewrite Hl|now apply Forall_cons].
Qed.

End WithSubModel.

End VarianceFacts.

(* ================================================================== *)
(** * The generator of candidate trees on a forced pass *)
(* ================================================================== *)

Module KernelFacts.

Import PyFacts Recursion Chain MTMCMC Kernel.

Section WithInterfaces.

Context {M G : Type} `{SubModel M} `{Generator G}.

Variable c : constants.
Variable h0_g : R.
Variable threshold_type : string.
Variable hn_node_sub_model : M.
Variable num_children : nat.
Variable leaf_batch : M -> dataset -> M * R.

(** ** The draws of a forced pass do not reach the tree

    With candidates that are all the same feature, [choice] has one
    answer. *)
Lemma choice_of_one_value (k0 : nat) (cands : list nat) (g g' : G) :
  Forall (eq k0) cands ->
  (rng_choice g cands = Raise ValueError /\
   rng_choice g' cands = Raise ValueError) \/
  (exists g1 g1', rng_choice g cands = Ok (k0, g1) /\
                  rng_choice g' cands = Ok (k0, g1')).
Proof.
  intros Hall. destruct cands as [|x xs].
  - left. now rewrite !rng_choice_empty.
  - right.
    destruct (rng_choice_in g x xs) as (y & g1 & E & Hin).
    destruct (rng_choice_in g' x xs) as (y' & g1' & E' & Hin').
    rewrite Forall_forall in Hall.
    rewrite <- (Hall y Hin) in E. rewrite <- (Hall y' Hin') in E'. eauto.
Qed.

Lemma list_remove_keeps (P : nat -> Prop) (x : nat) : forall l l',
  list_remove x l = Ok l' -> Forall P l -> Forall P l'.
Proof.
  induction l as [|v l IH]; intros l' E Hall; simpl in E; [discriminate|].
  inversion Hall; subst.
  destruct (v =? x)%nat.
  - now inversion E; subst.
  - destruct (list_remove x l) as [l''|e]; cbn [bind] in E; [|discriminate].
    inversion E; subst. constructor; auto.
Qed.

Lemma make_children_candidates (P : nat -> Prop) cands kk data cc th :
  _make_children_for_mcmc c threshold_type num_children cands kk data
  = Ok (cc, th) ->
  Forall P cands -> Forall P cc.
Proof.
  unfold _make_children_for_mcmc. intros E Hall.
  destruct (getitem (c_num_assignment_vec c) kk) as [a|e];
    cbn [bind] in E; [|discriminate].
  assert (Hcc : forall cc0,
             (if (0 <? a)%Z then list_remove kk cands else Ok cands) = Ok cc0 ->
             Forall P cc0).
  { intros cc0 E0. destruct (0 <? a)%Z.
    - eapply list_remove_keeps; eauto.
    - now inversion E0; subst. }
  destruct (if (0 <? a)%Z then list_remove kk cands else Ok cands)
    as [cc0|e]; cbn [bind] in E; [|discriminate].
  specialize (Hcc cc0 eq_refl).
  destruct (kk <? c_dim_continuous c)%nat.
  - destruct (column kk data) as [col|e]; cbn [bind] in E; [|discriminate].
    destruct (Thresholds.np_min col) as [lo|e]; cbn [bind] in E; [|discriminate].
    destruct (Learner.np_max col) as [hi|e]; cbn [bind] in E; [|discriminate].
    destruct (Req_dec_T lo hi); [now inversion E; subst|].
    destruct ((threshold_type =? "1d_kmeans")%string && (num_children =? 2)%nat).
    + destruct (Thresholds._make_thresholds col) as [t|e]; cbn [bind] in E;
        [|discriminate].
      now inversion E; subst.
    + now inversion E; subst.
  - now inversion E; subst.
Qed.

Lemma generate_children_same
  (gen gen' : G -> option (node M) -> node M -> dataset
              -> result (R * option (node M) * node M * G))
  (routed : nat -> result dataset) (d : nat) :
  (forall g g' n rows,
      same_but_generator (gen g None n rows) (gen' g' None n rows)) ->
  forall todo i g g' last_cs lcml,
    same_children
      (generate_children h0_g hn_node_sub_model num_children gen routed true
         d i todo g last_cs lcml)
      (generate_children h0_g hn_node_sub_model num_children gen' routed true
         d i todo g' last_cs lcml).
Proof.
  intros Hgen. induction todo as [|todo IH]; intros i g g' last_cs lcml.
  - cbn. auto.
  - cbn [generate_children].
    destruct (routed i) as [[|r rows]|e]; cbn [bind]; [| |reflexivity].
    + destruct (setitem lcml i 0%R) as [lcml'|e]; cbn [bind]; [|reflexivity].
      specialize (IH (S i) g g' last_cs lcml'). unfold same_children in *.
      destruct (generate_children _ _ _ gen _ _ _ _ _ _ _ _)
        as [[[[g1 l1] cs1] lc1]|e1];
        destruct (generate_children _ _ _ gen' _ _ _ _ _ _ _ _)
        as [[[[g2 l2] cs2] lc2]|e2]; cbn [bind]; try contradiction; auto.
      destruct IH as (-> & -> & ->). auto.
    + specialize (Hgen g g' (fresh_child h0_g hn_node_sub_model num_children d)
                    (r :: rows)).
      unfold same_but_generator in Hgen.
      destruct (gen g None _ _) as [[[[v1 la1] n1] g1]|e1];
        destruct (gen' g' None _ _) as [[[[v2 la2] n2] g2]|e2];
        cbn [bind]; try contradiction; auto.
      destruct Hgen as (-> & -> & ->).
      destruct (match la2 with
                | Some l => setitem last_cs i l
                | None => Ok last_cs
                end) as [last_cs1|e]; cbn [bind]; [|reflexivity].
      destruct (setitem lcml i v2) as [lcml'|e]; cbn [bind]; [|reflexivity].
      specialize (IH (S i) g1 g2 last_cs1 lcml'). unfold same_children in *.
      destruct (generate_children _ _ _ gen _ _ _ _ _ _ _ _)
        as [[[[g3 l3] cs3] lc3]|e3];
        destruct (generate_children _ _ _ gen' _ _ _ _ _ _ _ _)
        as [[[[g4 l4] cs4] lc4]|e4]; cbn [bind]; try contradiction; auto.
      destruct IH as (-> & -> & ->). auto.
Qed.

(** A forced pass from candidates that are all the same feature gives the
    same value and the same tree, or raises the same exception, whatever
    the state of the generator and whatever the proposal ceiling. *)
Lemma generate_forced_same (k0 : nat) (g_max g_max' : R) :
  forall levels cands g g' new data,
    Forall (eq k0) cands ->
    same_but_generator
      (generate c h0_g g_max threshold_type hn_node_sub_model num_children
         leaf_batch levels cands g None new true data)
      (generate c h0_g g_max' threshold_type hn_node_sub_model num_children
         leaf_batch levels cands g' None new true data).
Proof.
  induction levels as [|levels IH]; intros cands g g' new data Hall;
    [reflexivity|].
  cbn [generate]. destruct (leaf_batch hn_node_sub_model data) as [sm v].
  cbn [bind].
  destruct (is_leaf c (depth new) data) as [[|]|e]; cbn [bind];
    [cbn; auto| |reflexivity].
  unfold choose_feature.
  destruct (choice_of_one_value g g' Hall) as [[E E']|(g1 & g1' & E & E')];
    rewrite E, E'; cbn [bind]; [reflexivity|].
  destruct (_make_children_for_mcmc c threshold_type num_children cands k0 data)
    as [[cc th]|e] eqn:Em; cbn [bind]; [|reflexivity].
  pose proof (make_children_candidates _ _ Em Hall) as Hcc.
  pose proof (@generate_children_same
                (fun g0 l n rows =>
                   generate c h0_g g_max threshold_type hn_node_sub_model
                     num_children leaf_batch levels cc g0 l n true rows)
                (fun g0 l n rows =>
                   generate c h0_g g_max' threshold_type hn_node_sub_model
                     num_children leaf_batch levels cc g0 l n true rows)
                (fun i => route c th num_children k0 i data) (depth new)
                (fun g0 g0' n rows => IH cc g0 g0' n rows Hcc)
                num_children 0%nat g1 g1' []
                (log_children_marginal_likelihood new)) as Hloop.
  unfold same_children in Hloop.
  destruct (generate_children _ _ _ _ _ _ _ _ _ g1 _ _)
    as [[[[g3 l3] cs3] lc3]|e3];
    destruct (generate_children _ _ _ _ _ _ _ _ _ g1' _ _)
    as [[[[g4 l4] cs4] lc4]|e4]; cbn [bind]; try contradiction; auto.
  destruct Hloop as (-> & -> & ->). cbn. auto.
Qed.

End WithInterfaces.

(** ** A forced pass returns

    On rows that all have the columns of the learner, and candidates that
    are features of the learner none of which is assigned a number of
    times, the forced pass raises nothing. *)

Lemma fold_min_in : forall (l : list R) (x : R), In (fold_left Rmin l x) (x :: l).
Proof.
  induction l as [|a l IH]; intros x; cbn [fold_left]; [now left|].
  destruct (IH (Rmin x a)) as [E|Hin].
  - unfold Rmin in E at 1. destruct (Rle_dec x a); rewrite <- E; simpl; auto.
  - right. now right.
Qed.

Lemma fold_max_in : forall (l : list R) (x : R), In (fold_left Rmax l x) (x :: l).
Proof.
  induction l as [|a l IH]; intros x; cbn [fold_left]; [now left|].
  destruct (IH (Rmax x a)) as [E|Hin].
  - unfold Rmax in E at 1. destruct (Rle_dec x a); rewrite <- E; simpl; auto.
  - right. now right.
Qed.

Lemma make_thresholds_returns (x : list R) (a b : R) :
  In a x -> In b x -> a <> b ->
  exists lo mid hi, Thresholds._make_thresholds x = Ok [lo; mid; hi].
Proof.
  intros Ha Hb Hab.
  pose proof (ThresholdFacts.two_values_two_entries x Ha Hb Hab) as Hlen.
  destruct (ThresholdFacts.make_thresholds_on_sorted x Hlen) as (th & _ & E & _).
  eauto.
Qed.

Section ForcedPassReturns.

Context {M G : Type} `{SubModel M} `{Generator G}.

Variable c : constants.
Variable h0_g g_max : R.
Variable threshold_type : string.
Variable hn_node_sub_model : M.
Variable num_children : nat.
Variable leaf_batch : M -> dataset -> M * R.

Hypothesis nothing_assigned : any_positive (c_num_assignment_vec c) = false.
Hypothesis one_entry_per_feature :
  List.length (c_num_assignment_vec c) = c_dim_features c.

Lemma wf_row r :
  well_formed_row c r = true ->
  List.length (x_continuous r) = c_dim_continuous c /\
  List.length (x_categorical r) = c_dim_categorical c.
Proof.
  unfold well_formed_row. intros W. apply andb_true_iff in W.
  destruct W as [W1 W2]. apply Nat.eqb_eq in W1, W2. auto.
Qed.

Lemma column_returns kk : forall data,
  forallb (well_formed_row c) data = true -> (kk < c_dim_continuous c)%nat ->
  exists col, column kk data = Ok col /\ List.length col = List.length data.
Proof.
  induction data as [|r data IH]; intros W Hk; cbn [column]; [eauto|].
  cbn [forallb] in W. apply andb_true_iff in W. destruct W as [Wr W].
  destruct (wf_row _ Wr) as [Lc _].
  destruct (@getitem_lt _ (x_continuous r) kk) as [x Ex]; [lia|].
  destruct (IH W Hk) as (col & Ec & Lcol).
  rewrite Ex, Ec. cbn [bind]. eexists; split; [reflexivity|].
  simpl. now rewrite Lcol.
Qed.

Lemma not_assigned kk :
  (kk < c_dim_features c)%nat ->
  exists a, getitem (c_num_assignment_vec c) kk = Ok a /\ (0 <? a)%Z = false.
Proof.
  intros Hk. destruct (@getitem_lt _ (c_num_assignment_vec c) kk) as [a Ea];
    [lia|].
  exists a. split; [exact Ea|].
  unfold getitem in Ea.
  destruct (nth_error (c_num_assignment_vec c) kk) as [a'|] eqn:En;
    [|discriminate].
  inversion Ea; subst a'. apply nth_error_In in En.
  unfold any_positive in nothing_assigned.
  destruct (0 <? a)%Z eqn:Ep; [|reflexivity].
  assert (existsb (fun x => (0 <? x)%Z) (c_num_assignment_vec c) = true)
    by (apply existsb_exists; eauto).
  congruence.
Qed.

Lemma make_children_returns cands kk data :
  (kk < c_dim_features c)%nat -> data <> [] ->
  forallb (well_formed_row c) data = true ->
  exists th,
    _make_children_for_mcmc c threshold_type num_children cands kk data
    = Ok (cands, th) /\
    (if (kk <? c_dim_continuous c)%nat
     then match th with
          | Some t => (List.length t =? num_children + 1)%nat
          | None => false
          end
     else true) = true.
Proof.
  intros Hk Hne W. unfold _make_children_for_mcmc.
  destruct (not_assigned Hk) as (a & Ea & Ep). rewrite Ea. cbn [bind].
  rewrite Ep. cbn [bind].
  destruct (Nat.ltb_spec kk (c_dim_continuous c)) as [Hc|Hc]; [|eauto].
  destruct (column_returns data W Hc) as (col & Ec & Lcol).
  rewrite Ec. cbn [bind].
  destruct col as [|x col]; [destruct data; [congruence|discriminate]|].
  cbn [Thresholds.np_min Learner.np_max bind].
  pose proof (fold_min_in col x) as Hlo. pose proof (fold_max_in col x) as Hhi.
  destruct (Req_dec_T (fold_left Rmin col x) (fold_left Rmax col x)) as [E|Hd].
  - eexists; split; [reflexivity|]. cbn beta iota.
    rewrite repeat_length. apply Nat.eqb_refl.
  - destruct ((threshold_type =? "1d_kmeans")%string) ; cbn [andb].
    + destruct (Nat.eqb_spec num_children 2) as [->|Hn].
      * destruct (make_thresholds_returns _ Hlo Hhi Hd) as (lo & mid & hi & Et).
        rewrite Et. cbn [bind]. eexists; split; reflexivity.
      * eexists; split; [reflexivity|]. cbn beta iota. unfold np_arange.
        rewrite length_map, length_seq. apply Nat.eqb_refl.
    + eexists; split; [reflexivity|]. cbn beta iota. unfold np_arange.
      rewrite length_map, length_seq. apply Nat.eqb_refl.
Qed.

Lemma all_rows_close_returns (r0 : list R) : forall rows,
  Forall (fun r => List.length r = List.length r0) rows ->
  exists b, all_rows_close r0 rows = Ok b.
Proof.
  induction rows as [|r rows IH]; intros Hall; cbn [all_rows_close]; [eauto|].
  inversion Hall; subst.
  destruct (@CompactorFacts.allclose_same_length r r0) as [b Eb]; [assumption|].
  destruct IH as [b' Eb']; [assumption|].
  rewrite Eb, Eb'. cbn [bind]. eauto.
Qed.

Lemma is_leaf_returns d data :
  data <> [] -> forallb (well_formed_row c) data = true ->
  exists b, is_leaf c d data = Ok b /\ (b = false -> d <> c_max_depth c).
Proof.
  intros Hne W. unfold is_leaf.
  destruct (Nat.eqb_spec d (c_max_depth c)) as [E|E];
    [exists true; split; [reflexivity|discriminate]|].
  destruct data as [|r0 data]; [congruence|].
  cbn [getitem nth_error bind].
  assert (Hrows : forall r, In r (r0 :: data) ->
            List.length (x_continuous r) = List.length (x_continuous r0) /\
            List.length (x_categorical r) = List.length (x_categorical r0)).
  { intros r Hr. rewrite forallb_forall in W.
    destruct (wf_row _ (W r Hr)) as [A B].
    destruct (wf_row _ (W r0 (or_introl eq_refl))) as [A0 B0]. lia. }
  destruct (@all_rows_close_returns (x_continuous r0)
              (map x_continuous (r0 :: data))) as [b Eb].
  { apply Forall_forall. intros l Hl. apply in_map_iff in Hl.
    destruct Hl as (r & <- & Hr). apply Hrows, Hr. }
  rewrite Eb. cbn [bind].
  destruct b; cbn [negb]; [|eauto].
  destruct (@all_rows_close_returns (map INR (x_categorical r0))
              (map (fun r => map INR (x_categorical r)) (r0 :: data)))
    as [b Eb'].
  { apply Forall_forall. intros l Hl. apply in_map_iff in Hl.
    destruct Hl as (r & <- & Hr). rewrite !length_map. apply Hrows, Hr. }
  rewrite Eb'. eauto.
Qed.

Lemma generate_children_returns
  (gen : G -> option (node M) -> node M -> dataset
         -> result (R * option (node M) * node M * G))
  (routed : nat -> result dataset) (d : nat) :
  (forall g rows, rows <> [] -> forallb (well_formed_row c) rows = true ->
      exists v t g',
        gen g None (fresh_child h0_g hn_node_sub_model num_children d) rows
        = Ok (v, None, t, g')) ->
  (forall i, (i < num_children)%nat ->
      exists rows, routed i = Ok rows /\
                   forallb (well_formed_row c) rows = true) ->
  forall todo i g lcml,
    (i + todo <= num_children)%nat -> List.length lcml = num_children ->
    exists g' cs lcml',
      generate_children h0_g hn_node_sub_model num_children gen routed true
        d i todo g [] lcml
      = Ok (g', [], cs, lcml').
Proof.
  intros Hgen Hroute. induction todo as [|todo IH]; intros i g lcml Hi Hl;
    cbn [generate_children]; [eauto|].
  destruct (Hroute i) as (rows & Er & Wr); [lia|]. rewrite Er. cbn [bind].
  destruct rows as [|r rows].
  - destruct (@setitem_ok _ lcml i 0%R) as (lcml' & Es & Ll); [lia|].
    rewrite Es. cbn [bind].
    destruct (IH (S i) g lcml') as (g' & cs & lcml'' & E); [lia|congruence|].
    rewrite E. cbn [bind]. eauto.
  - destruct (Hgen g (r :: rows)) as (v & t & g1 & Eg); [discriminate|exact Wr|].
    rewrite Eg. cbn [bind].
    destruct (@setitem_ok _ lcml i v) as (lcml' & Es & Ll); [lia|].
    rewrite Es. cbn [bind].
    destruct (IH (S i) g1 lcml') as (g' & cs & lcml'' & E); [lia|congruence|].
    rewrite E. cbn [bind]. eauto.
Qed.

(** The forced pass on a node of depth at most [c_max_depth], with the
    levels the depth leaves, returns a value and a tree. *)
Lemma generate_forced_returns :
  forall levels cands g new data,
    (depth new <= c_max_depth c)%nat ->
    (c_max_depth c - depth new < levels)%nat ->
    cands <> [] ->
    Forall (fun kk => (kk < c_dim_features c)%nat) cands ->
    data <> [] -> forallb (well_formed_row c) data = true ->
    List.length (log_children_marginal_likelihood new) = num_children ->
    exists v t g',
      generate c h0_g g_max threshold_type hn_node_sub_model num_children
        leaf_batch levels cands g None new true data
      = Ok (v, None, t, g').
Proof.
  induction levels as [|levels IH];
    intros cands g new data Hd Hlev Hne Hall Hdata W Hl; [lia|].
  cbn [generate]. destruct (leaf_batch hn_node_sub_model data) as [sm v].
  cbn [bind].
  destruct (is_leaf_returns (depth new) Hdata W) as (b & Eb & Hb).
  rewrite Eb. cbn [bind]. destruct b; [eauto|].
  specialize (Hb eq_refl).
  unfold choose_feature.
  destruct cands as [|x xs]; [congruence|].
  destruct (rng_choice_in g x xs) as (kk & g1 & Ec & Hin).
  rewrite Ec. cbn [bind].
  assert (Hk : (kk < c_dim_features c)%nat)
    by (rewrite Forall_forall in Hall; apply Hall, Hin).
  destruct (make_children_returns (x :: xs) Hk Hdata W) as (th & Em & Hth).
  rewrite Em. cbn [bind].
  destruct (@generate_children_returns
              (fun g0 l n rows =>
                 generate c h0_g g_max threshold_type hn_node_sub_model
                   num_children leaf_batch levels (x :: xs) g0 l n true rows)
              (fun i => route c th num_children kk i data) (depth new))
    with (todo := num_children) (i := 0%nat) (g := g1)
         (lcml := log_children_marginal_likelihood new)
    as (g2 & cs & lcml & El).
  - intros g0 rows Hr Wr. apply IH; auto; cbn; try lia. apply repeat_length.
  - intros i Hi. apply RecursionFacts.route_total; auto.
  - lia.
  - exact Hl.
  - rewrite El. cbn [bind]. eauto.
Qed.

End ForcedPassReturns.

(** ** The driver on one feature *)

Section SingleFeature.

Context {M G : Type} `{SubModel M} `{Generator G} `{Seeding G}.

Variable self : learner M.
Variable h0_g : R.

Lemma candidates_of_one_feature :
  c_dim_features (consts self) = 1%nat ->
  Forall (fun kk => (kk < c_dim_features (consts self))%nat)
    (_root_k_candidates self) ->
  Forall (eq 0%nat) (_root_k_candidates self).
Proof.
  intros Hf Hall. rewrite Hf in Hall.
  eapply Forall_impl; [|exact Hall]. cbn. intros; lia.
Qed.

Lemma start_same (data : dataset) (kw kw' : kwargs) :
  c_dim_features (consts self) = 1%nat ->
  Forall (fun kk => (kk < c_dim_features (consts self))%nat)
    (_root_k_candidates self) ->
  threshold_type kw = threshold_type kw' ->
  same_start
    (@start M G _ _ (kernel self h0_g) self data kw)
    (@start M G _ _ (kernel self h0_g) self data kw').
Proof.
  intros Hf Hall Ht. pose proof (candidates_of_one_feature Hf Hall) as Hone.
  unfold start. destruct (check_uniform_configuration self) as [nc|e];
    cbn [bind]; [|reflexivity].
  rewrite <- Ht.
  destruct (supported_threshold_type (threshold_type kw)); cbn [negb];
    [|reflexivity].
  unfold fresh_root.
  destruct (choice_of_one_value (default_rng (seed kw))
              (default_rng (seed kw')) Hone)
    as [[E E']|(g1 & g1' & E & E')]; rewrite E, E'; cbn [bind];
    [reflexivity|].
  cbn [_generate_truncated_and_update kernel].
  match goal with
  | |- context [generate ?c0 ?h ?gm ?tt ?hn ?n ?lb ?lv ?cands g1 None ?new true ?d] =>
      pose proof (@generate_forced_same M G _ c0 h tt hn n lb 0%nat gm (g_max kw')
                    lv cands g1 g1' new d Hone) as Hsame
  end.
  unfold same_but_generator in Hsame.
  match type of Hsame with
  | match ?a with _ => _ end =>
      destruct a as [[[[v1 la1] n1] g2]|e1]
  end;
  match type of Hsame with
  | match ?b with _ => _ end =>
      destruct b as [[[[v2 la2] n2] g2']|e2]
  end; cbn [bind]; try contradiction; cbn; auto.
  destruct Hsame as (-> & -> & ->). auto.
Qed.

Lemma start_returns (data : dataset) (kw : kwargs) (nc : nat) (a : Z) (w : R) :
  c_dim_features (consts self) = 1%nat ->
  Forall (fun kk => (kk < c_dim_features (consts self))%nat)
    (_root_k_candidates self) ->
  c_num_children_vec (consts self) = [nc] ->
  c_num_assignment_vec (consts self) = [a] -> (a <= 0)%Z ->
  h0_k_weight_vec self = [w] ->
  supported_threshold_type (threshold_type kw) = true ->
  _root_k_candidates self <> [] ->
  data <> [] -> forallb (well_formed_row (consts self)) data = true ->
  exists g t l,
    @start M G _ _ (kernel self h0_g) self data kw = Ok (g, nc, t, l).
Proof.
  intros Hf Hall Hnc Ha Hle Hw Ht Hne Hdata W.
  assert (Hpos : any_positive (c_num_assignment_vec (consts self)) = false).
  { rewrite Ha. cbn. destruct (Z.ltb_spec 0 a); [lia|reflexivity]. }
  unfold start, check_uniform_configuration, all_same, allclose_first.
  rewrite Hnc, Hpos, Hw. cbn [getitem nth_error bind existsb negb orb].
  rewrite Nat.eqb_refl. cbn [negb orb bind forallb].
  rewrite Runs.isclose_refl. cbn [andb negb bind].
  rewrite Ht. cbn [negb].
  unfold fresh_root.
  destruct (_root_k_candidates self) as [|x xs] eqn:Ek; [congruence|].
  destruct (rng_choice_in (default_rng (seed kw)) x xs) as (kk & g1 & Ec & Hin).
  rewrite Ec. cbn [bind].
  cbn [_generate_truncated_and_update kernel]. rewrite Ek.
  match goal with
  | |- context [generate ?c0 ?h ?gm ?tt ?hn ?n ?lb ?lv ?cs g1 None ?root true ?d] =>
      destruct (@generate_forced_returns M G _ c0 h gm tt hn n lb)
        with (levels := lv) (cands := cs) (g := g1) (new := root) (data := d)
        as (v & t & g' & Eg)
  end.
  - exact Hpos.
  - rewrite Ha, Hf. reflexivity.
  - cbn. lia.
  - cbn. lia.
  - discriminate.
  - exact Hall.
  - exact Hdata.
  - exact W.
  - cbn. apply repeat_length.
  - rewrite Eg. cbn [bind]. eauto.
Qed.

(** C5.  On a learner with exactly one feature, whose candidates at the
    root are features, [_MTMCMC] with the generator
    [_generate_truncated_and_update] of the code runs no Metropolis-Hastings
    step: whatever the bound on its loops, the burn-in length, the number of
    samples, the proposal ceiling, the tuner's parameters and the seed, two
    calls on the same data with the same threshold type end in the same
    way.  They raise the same exception, or return the list of one tree,
    the same tree in both, with the weight vector [[1]], and leave the
    sampler attributes of the loops unset.  The call returns, raising
    nothing, when the three vectors of the learner have their one entry,
    the feature is not assigned a number of times, the threshold type is one
    of the two the driver knows, and the data set has a row and its rows
    have the columns of the learner. *)
Theorem single_feature_short_circuit (data : dataset) (kw kw' : kwargs)
  (fuel fuel' : nat) :
  c_dim_features (consts self) = 1%nat ->
  Forall (fun kk => (kk < c_dim_features (consts self))%nat)
    (_root_k_candidates self) ->
  threshold_type kw = threshold_type kw' ->
  (exists r,
      @_MTMCMC M G _ _ (kernel self h0_g) self fuel data kw = Finished r /\
      @_MTMCMC M G _ _ (kernel self h0_g) self fuel' data kw' = Finished r /\
      forall v, r = Ok v -> exists t, v = (None, ([t], [1%R]))) /\
  (forall nc a w,
      c_num_children_vec (consts self) = [nc] ->
      c_num_assignment_vec (consts self) = [a] -> (a <= 0)%Z ->
      h0_k_weight_vec self = [w] ->
      supported_threshold_type (threshold_type kw) = true ->
      _root_k_candidates self <> [] ->
      data <> [] -> forallb (well_formed_row (consts self)) data = true ->
      exists t,
        @_MTMCMC M G _ _ (kernel self h0_g) self fuel data kw
        = Finished (Ok (None, ([t], [1%R])))).
Proof.
  intros Hf Hall Ht. split.
  - pose proof (start_same data kw kw' Hf Hall Ht) as Hs.
    unfold _MTMCMC, same_start in *. rewrite Hf. cbn [Nat.eqb].
    destruct (start self data kw) as [[[[g nc] t] l]|e];
      destruct (start self data kw') as [[[[g' nc'] t'] l']|e'];
      try contradiction.
    + destruct Hs as (-> & -> & ->). eexists. split; [reflexivity|].
      split; [reflexivity|]. intros v Ev. inversion Ev; subst. eauto.
    + subst e'. eexists. split; [reflexivity|]. split; [reflexivity|].
      intros v Ev. discriminate.
  - intros nc a w Hnc Ha Hle Hw Hsup Hne Hdata W.
    destruct (start_returns kw Hf Hall Hnc Ha Hle Hw Hsup Hne Hdata W)
      as (g & t & l & Es).
    unfold _MTMCMC. rewrite Es, Hf. cbn [Nat.eqb]. eauto.
Qed.

End SingleFeature.

End KernelFacts.

Module KernelRuns.

Import PyFacts Recursion Chain MTMCMC Kernel Example KernelExamples.

Lemma isclose_far : isclose 1 0 = false.
Proof.
  unfold isclose, leb.
  destruct (Rle_dec (Rabs (1 - 0)) (atol + rtol * Rabs 0)) as [Hle|];
    [|reflexivity].
  exfalso. rewrite Rabs_R0 in Hle. replace (1 - 0)%R with 1%R in Hle by ring.
  rewrite Rabs_R1 in Hle. unfold atol, rtol in Hle. lra.
Qed.

Ltac decide_real :=
  match goal with
  | |- context [Rlt_dec ?a ?b] =>
      destruct (Rlt_dec a b); try (exfalso; lra)
  | |- context [Rle_dec ?a ?b] =>
      destruct (Rle_dec a b); try (exfalso; lra)
  | |- context [Req_dec_T ?a ?b] =>
      destruct (Req_dec_T a b); try (exfalso; lra)
  end.

Lemma thresholds_two_rows :
  Thresholds._make_thresholds [0; 1]%R = Ok [0; 1 / 2; 1]%R.
Proof.
  unfold Thresholds._make_thresholds, Thresholds.np_unique. cbn.
  repeat decide_real. cbn.
  rewrite (Rmin_left 0 1) by lra. rewrite (Rmax_right 0 1) by lra.
  do 2 f_equal. f_equal. lra.
Qed.

Lemma logaddexp_halves (v : R) :
  logaddexp (ln (1 / 2) + v) (ln (1 / 2) + v) = v.
Proof.
  unfold logaddexp. rewrite exp_plus, exp_ln by lra.
  replace (1 / 2 * exp v + 1 / 2 * exp v)%R with (exp v) by lra.
  apply ln_exp.
Qed.

Lemma start_on_two_rows :
  @start R nat counting_generator seed_is_count
    (kernel learner_one_feature (1 / 3)) learner_one_feature
    two_rows_one_feature mtmcmc_defaults
  = Ok (2%nat, 2%nat, two_rows_tree, (-3)%R).
Proof.
  unfold start. rewrite Runs.check_one_feature. cbn [bind].
  cbn.
  rewrite Runs.isclose_refl, isclose_far. cbn.
  rewrite (Rmin_left 0 1) by lra. rewrite (Rmax_right 0 1) by lra.
  destruct (Req_dec_T 0 1) as [E|_]; [exfalso; lra|].
  rewrite thresholds_two_rows. cbn.
  unfold ltb, leb. repeat decide_real. cbn.
  rewrite !Runs.isclose_refl. cbn.
  assert (Hlog : xlog (1 / 2) = Finite (ln (1 / 2))).
  { unfold xlog. destruct (Rlt_dec 0 (1 / 2)); [reflexivity|exfalso; lra]. }
  replace (1 - 1 / 2)%R with (1 / 2)%R by lra.
  rewrite Hlog. cbn [xadd xlogaddexp xsub xneg xexp real_of].
  replace (- (0 + (1 + 0)) + (- (0 + (2 + 0)) + 0))%R with (-3)%R by ring.
  replace (- (0 + (1 + (2 + 0))))%R with (-3)%R by ring.
  rewrite logaddexp_halves.
  replace (ln (1 / 2) + -3 + - -3)%R with (ln (1 / 2)) by ring.
  rewrite exp_ln by lra.
  unfold two_rows_tree. repeat f_equal; ring.
Qed.

(** The driver on one continuous feature and the two rows [x = 0, y = 1]
    and [x = 1, y = 2]: with the defaults and no loop allowed, and with
    other keyword arguments and the seed [7], it returns the stump that
    splits at [1/2], with weight [1]. *)
Lemma single_feature_short_circuit_witness :
  c_dim_features (consts learner_one_feature) = 1%nat /\
  @_MTMCMC R nat counting_generator seed_is_count
    (kernel learner_one_feature (1 / 3)) learner_one_feature
    0 two_rows_one_feature mtmcmc_defaults
  = Finished (Ok (None, ([two_rows_tree], [1%R]))) /\
  @_MTMCMC R nat counting_generator seed_is_count
    (kernel learner_one_feature (1 / 3)) learner_one_feature
    5 two_rows_one_feature seeded
  = Finished (Ok (None, ([two_rows_tree], [1%R]))).
Proof.
  split; [reflexivity|].
  destruct (@KernelFacts.single_feature_short_circuit R nat sum_model
              counting_generator seed_is_count learner_one_feature (1 / 3)
              two_rows_one_feature mtmcmc_defaults seeded 0 5 eq_refl)
    as [(r & E1 & E2 & _) Hret].
  - repeat constructor.
  - reflexivity.
  - destruct (Hret 2%nat (-1)%Z 1%R eq_refl eq_refl) as [t Et];
      try reflexivity; try discriminate.
    assert (Hrun :
      @_MTMCMC R nat counting_generator seed_is_count
        (kernel learner_one_feature (1 / 3)) learner_one_feature
        0 two_rows_one_feature mtmcmc_defaults
      = Finished (Ok (None, ([two_rows_tree], [1%R])))).
    { unfold _MTMCMC. rewrite start_on_two_rows. reflexivity. }
    split; [exact Hrun|]. rewrite E2, <- E1. exact Hrun.
Defined.
End KernelRuns.

(* ================================================================== *)
(** * More runs on the small learners *)
(* ================================================================== *)

Module MoreRuns.

Import PyFacts Example MoreExamples Shape PredictionExamples.

(** ** The comparison and the compactor *)

Lemma compare_metatree_reflexive_witness :
  Compactor._compare_metatree_recursion two_features stump stump = Ok true.
Proof.
  exact (@CompactorShape.compare_metatree_reflexive R two_features stump
           eq_refl).
Defined.

Lemma two_leaves_merged :
  Compactor._marge_metatrees two_features [leaf_a; leaf_b] [1; 1]%R
  = Ok ([leaf_b], [1 + 1]%R).
Proof.
  rewrite CompactorFacts.marge_refines;
    [|reflexivity|repeat constructor; lra].
  reflexivity.
Qed.

Lemma marge_metatrees_idempotent_witness :
  Compactor._marge_metatrees two_features [leaf_b] [1 + 1]%R
  = Ok ([leaf_b], [1 + 1]%R).
Proof.
  apply (@CompactorShape.marge_metatrees_idempotent R two_features
           [leaf_a; leaf_b] [1; 1]%R [leaf_b] [1 + 1]%R eq_refl).
  - repeat constructor; lra.
  - exact two_leaves_merged.
Defined.

Lemma marge_metatrees_keeps_order_witness :
  subsequence [leaf_b] [leaf_a; leaf_b].
Proof.
  refine (proj1 (@CompactorShape.marge_metatrees_keeps_order R two_features
                   [leaf_a; leaf_b] [1; 1]%R [leaf_b] [1 + 1]%R eq_refl _
                   two_leaves_merged)).
  repeat constructor; lra.
Defined.

(** ** The recursion *)

Lemma stump_updated :
  exists v n',
    Recursion._update_posterior_recursion_batch two_features stump two_rows
    = Ok (v, n').
Proof.
  destruct (@RecursionFacts.update_total R two_features
              Recursion._update_posterior_leaf_batch stump eq_refl two_rows
              eq_refl) as [[v n'] E].
  now exists v, n'.
Qed.

Lemma update_posterior_recursion_keeps_shape_witness :
  exists v n',
    Recursion._update_posterior_recursion_batch two_features stump two_rows
    = Ok (v, n') /\
    shape_of n' = shape_of stump.
Proof.
  destruct stump_updated as (v & n' & E).
  exists v, n'. split; [exact E|].
  exact (@RecursionShape.update_posterior_recursion_keeps_shape R sum_model
           two_features stump two_rows v n' (or_introl E)).
Defined.

Lemma stump_within : split_probabilities_within stump.
Proof. cbn. repeat split; auto; right; lra. Qed.

Lemma update_posterior_recursion_keeps_split_probabilities_in_unit_interval_witness :
  exists v n',
    Recursion._update_posterior_recursion_batch two_features stump two_rows
    = Ok (v, n') /\
    split_probabilities_within n'.
Proof.
  destruct stump_updated as (v & n' & E).
  exists v, n'. split; [exact E|].
  exact (@RecursionShape.update_posterior_recursion_keeps_split_probabilities_in_unit_interval
           R sum_model two_features stump two_rows v n' stump_within E).
Defined.

(** ** The rows of the children *)

Lemma categorical_rows_are_shared_out_witness :
  exists parts,
    Routing.route_all
      (fun i => Recursion.route two_features None 2 1 i two_rows) 0 2
    = Ok parts /\
    Permutation (concat parts) two_rows.
Proof.
  destruct (@RoutingFacts.categorical_rows_are_shared_out two_features None
              2 1 two_rows) as (parts & E & _ & Hp).
  - cbn. lia.
  - unfold Routing.categorical_in_range, two_rows. cbn.
    repeat constructor; eexists; (split; [reflexivity|lia]).
  - now exists parts.
Defined.

Lemma continuous_rows_are_shared_out_witness :
  exists parts,
    Routing.route_all
      (fun i => Recursion.route two_features (Some [0; 1 / 2; 1]%R) 2 0 i
                  two_rows) 0 2
    = Ok parts /\
    Permutation (concat parts) two_rows.
Proof.
  apply (@RoutingFacts.continuous_rows_are_shared_out two_features
           [0; 1 / 2; 1]%R 2 0 two_rows).
  - cbn. lia.
  - lia.
  - reflexivity.
  - intros i j Hi Hij Hj. assert (i = 1%nat) by (simpl in Hj; lia).
    assert (j = 1%nat) by (simpl in Hj; lia). subst. lra.
  - unfold two_rows. repeat constructor; cbn; lia.
Defined.

(** ** The tuner and the truncated log-probability *)

Local Abbreviation refusing := (diverge_at_root (1 / 2) (-1)).

Lemma tuner_moves_towards_target_witness :
  let s0 := @MTMCMC.initial_state R unit learner_two_features mtmcmc_defaults
              tt 2 root0 0 in
  exists s1 s2,
    @MTMCMC._mh_step_truncated R unit half_generator refusing
      learner_two_features s0 two_rows = Ok s1 /\
    MTMCMC._update_g_max s1 = Ok s2 /\
    (MTMCMC._g_max s1 <= MTMCMC._g_max s2)%R.
Proof.
  intros s0.
  destruct (@Runs.rejecting_step s0 (Runs.rejecting_initial_state _))
    as (s1 & E1 & Hrej).
  pose proof E1 as Ee. apply MTMCMCFacts.mh_step_effect in Ee.
  destruct Ee as (Er & Ephi & Ep & Eg & _ & Egd & _ & Ed & _).
  destruct Hrej as (_ & _ & _ & Hnum & _).
  assert (Hd1 : MTMCMC._denominator s1 = 1%R) by (rewrite Ed; cbn; lra).
  destruct (@MTMCMCFacts.update_g_max_no_acceptance R unit s1)
    as (s2 & E2 & _).
  - exact Hnum.
  - rewrite Hd1. lra.
  - rewrite Ep. cbn. lra.
  - rewrite Egd, Ephi. cbn. lra.
  - exists s1, s2. split; [exact E1|]. split; [exact E2|].
    refine (proj2 (@TunerFacts.tuner_moves_towards_target R unit
                     half_generator refusing learner_two_features
                     mtmcmc_defaults tt 2 root0 0 two_rows 0 s0 s1 s2
                     _ _ _ _ eq_refl E1 E2) _); try (cbn; lra).
    rewrite Hnum, Ep. cbn. unfold Rdiv. lra.
Defined.

Lemma truncated_posterior_is_nonpositive_witness :
  exists v,
    Chain._calc_truncated_posterior_lean (1 / 2) 2
      (mark root0 (1 / 2) (Some false)) = Ok v /\
    (v <= 0)%R.
Proof.
  eexists. split; [reflexivity|].
  apply (@TunerFacts.truncated_posterior_is_nonpositive R (1 / 2) 2
           (mark root0 (1 / 2) (Some false))).
  - lra.
  - cbn. split; [right; lra|exact I].
  - reflexivity.
Defined.

(** ** The replica-exchange driver *)

Ltac decide_tests :=
  repeat match goal with
  | |- context [ltb ?a ?b] => destruct (ltb a b)
  | |- context [Req_dec_T ?a ?b] => destruct (Req_dec_T a b)
  end.

(** A run of one sweep: a local step of the tempered chain and of the last
    chain (the last chain recorded a log-likelihood in [_l_list]) and a
    round of exchanges (which starts by the mark [-1] in
    [_exchange_list]), whatever the tests of the steps and of the swaps
    find. *)
Lemma one_sweep_run :
  exists s r,
    @REMTMCMC._REMTMCMC R unit half_generator unit_seeding refusing
      learner_two_features two_rows one_sweep = Ok (Some s, r) /\
    (1 <= List.length (REMTMCMC._l_list s))%nat /\
    hd 0%Z (REMTMCMC._exchange_list s) = (-1)%Z.
Proof.
  unfold REMTMCMC._REMTMCMC, REMTMCMC.start.
  rewrite Runs.check_two_features.
  cbn.
  change (Pos.to_nat 2) with 2%nat. change (Pos.to_nat 1) with 1%nat.
  cbn.
  unfold REMTMCMC.sample, one_sweep.
  cbn [REMTMCMC.burn_in REMTMCMC.num_metatrees].
  change (Z.to_nat 1) with 1%nat. change (Z.to_nat 0) with 0%nat.
  unfold range. cbn [seq for_each REMTMCMC._num_chains Nat.sub].
  unfold REMTMCMC.sweep, REMTMCMC._remh_step_truncated_memory_efficient,
    REMTMCMC.tempered_step, REMTMCMC.last_chain_step,
    REMTMCMC._replica_exchange_memory_efficient, REMTMCMC.exchange_attempt,
    REMTMCMC.swap_with_last_chain, REMTMCMC.swap_tempered_chains,
    Chain.fresh_root, range, mark.
  repeat (cbn; decide_tests).
  all: eexists; eexists; split; [reflexivity|cbn; split; [lia|reflexivity]].
Qed.

Lemma tempered_chains_hold_one_tree_witness :
  exists s r,
    @REMTMCMC._REMTMCMC R unit half_generator unit_seeding refusing
      learner_two_features two_rows one_sweep = Ok (Some s, r) /\
    (1 <= List.length (REMTMCMC._l_list s))%nat /\
    hd 0%Z (REMTMCMC._exchange_list s) = (-1)%Z /\
    ReplicaInvariants.tempered_lengths s
    = repeat 1%nat (REMTMCMC._num_chains s - 1).
Proof.
  destruct one_sweep_run as (s & r & E & Hl & Hx).
  exists s, r. split; [exact E|]. split; [exact Hl|]. split; [exact Hx|].
  exact (proj2 (@ReplicaFacts.tempered_chains_hold_one_tree R unit
                  half_generator unit_seeding refusing learner_two_features
                  two_rows one_sweep s r E)).
Defined.

Lemma remtmcmc_start_one_feature :
  @REMTMCMC.start R unit half_generator unit_seeding refusing
    learner_one_feature two_rows_one_feature beta_two
  = Ok (tt, 2%nat, 1%nat, [root0], [0%R]).
Proof.
  unfold REMTMCMC.start. rewrite Runs.check_one_feature. reflexivity.
Qed.

Lemma remtmcmc_single_feature_short_circuit_witness :
  exists root,
    getlast [root0] = Ok root /\
    @REMTMCMC._REMTMCMC R unit half_generator unit_seeding refusing
      learner_one_feature two_rows_one_feature beta_two
    = Ok (None, ([root], [1%R])).
Proof.
  exact (@ReplicaFacts.remtmcmc_single_feature_short_circuit R unit
           half_generator unit_seeding refusing learner_one_feature
           two_rows_one_feature beta_two tt 2 1 [root0] [0%R] eq_refl
           remtmcmc_start_one_feature).
Defined.

Lemma default_beta_vec_is_a_ladder_witness :
  getlast (REMTMCMC.default_beta_vec 2) = Ok 1%R /\
  REMTMCMC.beta_out_of_range (REMTMCMC.default_beta_vec 2) = false.
Proof.
  destruct (@ReplicaFacts.default_beta_vec_is_a_ladder 2)
    as (_ & _ & _ & _ & Hl & Hr); [lia|].
  split; [exact Hl|exact Hr].
Defined.

(** ** The entry point *)

Lemma given_MT_applies_bayes_rule_witness :
  exists vs trees',
    @Learner._given_MT R sum_model learner_with_stump two_rows
    = Ok (Learner.with_posterior learner_with_stump trees'
            (Some (Ensemble.normalised (Ensemble.bayes_weights [1%R] vs)))) /\
    Np.sum (Ensemble.normalised (Ensemble.bayes_weights [1%R] vs)) = 1%R.
Proof.
  destruct (@EnsembleFacts.given_MT_applies_bayes_rule R sum_model
              learner_with_stump two_rows stump [] [1%R] eq_refl eq_refl
              eq_refl) as (vs & trees' & _ & _ & _ & E & Hs).
  - repeat constructor; lra.
  - reflexivity.
  - reflexivity.
  - now exists vs, trees'.
Defined.

Lemma check_sample_guarantees_routable_rows_witness :
  @Learner._check_sample R sum_model learner_two_features two_rows
  = Ok two_rows /\
  forallb (Recursion.well_formed_row two_features) two_rows = true.
Proof.
  split; [reflexivity|].
  refine (proj1 (proj2 (proj2
            (@EnsembleFacts.check_sample_guarantees_routable_rows R sum_model
               learner_two_features two_rows two_rows _ eq_refl)))).
  cbn. lia.
Defined.

Lemma mtrf_weights_sum_to_one_witness :
  exists l p,
    @Learner._MTRF R stump_forest learner_two_features two_rows 2 = Ok (l, p) /\
    Np.sum p = 1%R.
Proof.
  assert (E : exists l p,
    @Learner._MTRF R stump_forest learner_two_features two_rows 2
    = Ok (l, p)).
  { unfold Learner._MTRF. cbn [existsb c_num_children_vec consts
      learner_two_features two_features Nat.eqb negb orb forest_metatrees
      stump_forest bind repeat].
    rewrite CompactorFacts.marge_refines.
    - eexists. eexists. reflexivity.
    - reflexivity.
    - assert (Hp : (0 <= 1 / INR 2)%R).
      { apply Rlt_le. apply Rdiv_lt_0_compat; [lra|]. apply lt_0_INR. lia. }
      repeat (apply Forall_cons; [exact Hp|]). apply Forall_nil. }
  destruct E as (l & p & E). exists l, p. split; [exact E|].
  refine (proj1 (proj2 (@EnsembleFacts.mtrf_weights_sum_to_one R stump_forest
                          learner_two_features two_rows 2) _ l p _ eq_refl
                   eq_refl E)).
  lia.
Defined.


Lemma make_thresholds_needs_two_values_witness :
  Thresholds._make_thresholds [1; 1]%R = Raise IndexError.
Proof.
  apply (@ThresholdFacts.make_thresholds_needs_two_values [1; 1]%R).
  intros a b [Ha | [Ha | []]] [Hb | [Hb | []]]; subst; reflexivity.
Defined.

Lemma prediction_treats_each_row_on_its_own_witness :
  exists ix,
    Prediction._calc_pred_dist_recursion_batch two_features stump two_rows
      Prediction.no_indices = Ok ix /\
    Prediction._make_prediction_recursion_squared_batch two_features stump ix
    = Ok (Prediction.Vector
            (map (fun r => Prediction.predict_row two_features r stump)
               two_rows)).
Proof.
  apply (@PredictionFacts.prediction_treats_each_row_on_its_own R
           PredictionExamples.sum_prediction two_features stump two_rows
           Prediction.no_indices); reflexivity.
Defined.

Lemma stump_predictions_within : Prediction.predictions_within 0 0 stump.
Proof.
  unfold stump. cbn [Prediction.predictions_within fold_right
    Prediction.sm_make_prediction_squared PredictionExamples.sum_prediction].
  repeat split; lra.
Qed.

Lemma prediction_stays_between_the_sub_models_witness :
  exists ix v,
    Prediction._calc_pred_dist_recursion_batch two_features stump two_rows
      Prediction.no_indices = Ok ix /\
    Prediction._make_prediction_recursion_squared_batch two_features stump ix
    = Ok v /\
    match v with
    | Prediction.Scalar x => (0 <= x <= 0)%R
    | Prediction.Vector vs =>
        List.length vs = List.length two_rows /\
        Forall (fun x => (0 <= x <= 0)%R) vs
    end.
Proof.
  apply (@PredictionFacts.prediction_stays_between_the_sub_models R
           PredictionExamples.sum_prediction two_features stump 0%R 0%R
           two_rows Prediction.no_indices);
    [reflexivity|reflexivity|exact stump_predictions_within].
Defined.

Lemma stump_thresholds_sorted :
  Routing.interior_thresholds_sorted [0; 1 / 2; 1]%R 2.
Proof.
  intros i j Hi Hij Hj. assert (i = 1)%nat by lia. assert (j = 1)%nat by lia.
  subst. cbn. lra.
Qed.

Lemma prediction_blends_the_node_with_the_routed_child_witness :
  exists ix vs,
    Prediction._calc_pred_dist_recursion_batch two_features stump two_rows
      Prediction.no_indices = Ok ix /\
    Prediction._make_prediction_recursion_squared_batch two_features stump ix
    = Ok (Prediction.Vector vs) /\
    List.length vs = List.length two_rows.
Proof.
  destruct (@PredictionFacts.prediction_blends_the_node_with_the_routed_child
              R PredictionExamples.sum_prediction two_features stump 0%nat
              2%nat two_rows Prediction.no_indices)
    as (ix & vs & Ec & Ep & Hl & _);
    try reflexivity.
  - cbn. split; [lia|]. exists [0; 1 / 2; 1]%R.
    split; [reflexivity|exact stump_thresholds_sorted].
  - exists ix, vs. split; [exact Ec|]. split; [exact Ep|exact Hl].
Defined.

Lemma stump_sorted_splits : Prediction.sorted_splits two_features stump.
Proof.
  unfold stump. cbn [Prediction.sorted_splits fold_right].
  split.
  - intros _ kk nc Hk Hkk Hnc. inversion Hk; subst kk.
    cbn in Hnc. inversion Hnc; subst nc. split; [lia|].
    exists [0; 1 / 2; 1]%R.
    split; [reflexivity|exact stump_thresholds_sorted].
  - repeat split; intros; discriminate.
Qed.

Lemma two_rows_in_range :
  Prediction.categorical_values_in_range two_features two_rows.
Proof.
  intros col Hcol. cbn in Hcol. assert (col = 0)%nat by lia. subst col.
  exists 2%nat. split; [reflexivity|].
  unfold Routing.categorical_in_range, two_rows.
  repeat (apply Forall_cons; [eexists; split; [reflexivity|lia]|]).
  apply Forall_nil.
Qed.

Lemma stump_variances_nonnegative : Prediction.variances_nonnegative stump.
Proof.
  unfold stump. cbn [Prediction.variances_nonnegative fold_right
    Prediction.sm_calc_pred_var PredictionExamples.sum_prediction].
  repeat split; lra.
Qed.

Lemma predictive_variance_goes_with_the_prediction_witness :
  exists ix means vars,
    Prediction._calc_pred_dist_recursion_batch two_features stump two_rows
      Prediction.no_indices = Ok ix /\
    Prediction._calc_pred_var_recursion_batch two_features stump ix
    = Ok (means, vars).
Proof.
  destruct (@VarianceFacts.predictive_variance_goes_with_the_prediction
              R PredictionExamples.sum_prediction two_features stump
              two_rows Prediction.no_indices eq_refl eq_refl
              stump_sorted_splits two_rows_in_range
              stump_variances_nonnegative)
    as (ix & means & vars & Ec & Ev & _).
  exists ix, means, vars. split; [exact Ec|exact Ev].
Defined.

End MoreRuns.
